(** * The dependency scanner and the build plan of ninja, embedded in Rocq

    The development follows the two C++ sources of the core:
    - [graph.cc]: [Node], [Edge], [DependencyScan], [EdgeEval] and
      [ImplicitDepLoader];
    - [build.cc]: [Plan] and [Builder].

    Pointers to nodes and edges are indices into the vectors of the [State]
    object that owns them, timestamps are integers ([TimeStamp] is a signed
    64-bit integer in the sources and is only ever compared), strings are
    [string]s, and every [bool]-returning function with an [err]
    out-parameter returns its verdict together with the error string. *)

From Stdlib Require Import ZArith Lia String Ascii.
From stdpp Require Import base option list gmap strings sorting.

Open Scope Z_scope.

(** ** Early returns

    A C++ function body is a sequence of statements some of which [return].
    [Flow R A] is the state after a statement: the function has returned [r],
    or control goes on with the value [a]. *)

Inductive Flow (R A : Type) : Type :=
| Return (r : R)
| Next (a : A).
Arguments Return {R A} r.
Arguments Next {R A} a.

Definition flow_bind {R A B} (x : Flow R A) (k : A -> Flow R B) : Flow R B :=
  match x with
  | Return r => Return r
  | Next a => k a
  end.

Definition flow_run {R} (x : Flow R R) : R :=
  match x with
  | Return r => r
  | Next r => r
  end.

Global Instance Flow_bind {R} : MBind (Flow R) := fun _ _ k x => flow_bind x k.

(** [if (c) return r;] *)
Definition return_if {R} (c : bool) (r : R) : Flow R unit :=
  if c then Return r else Next tt.

(** ** Data model *)

Definition TimeStamp := Z.
Definition NodeId := nat.
Definition EdgeId := nat.

(** [Edge::VisitMark]. *)
Inductive VisitMark := VisitNone | VisitInStack | VisitDone.

Global Instance VisitMark_eq_dec : EqDecision VisitMark.
Proof. solve_decision. Defined.

(** [Edge::DepScanInfo]. *)
Record DepScanInfo := mkDepScanInfo {
  valid : bool;
  restat : bool;
  generator : bool;
  deps : bool;
  depfile : bool;
  command_hash : Z
}.

(** A binding value is a string with [$var] references.  *)
Inductive Token :=
| Literal (s : string)
| Special (var : string).

(** [Rule]: [State::kPhonyRule] is a distinguished object, compared by
    address in [Edge::is_phony]. *)
Inductive Rule :=
| kPhonyRule
| UserRule (name : string) (bindings : gmap string (list Token)).

Global Instance Token_eq_dec : EqDecision Token.
Proof. solve_decision. Defined.
Global Instance Rule_eq_dec : EqDecision Rule.
Proof. solve_decision. Defined.

Record Node := mkNode {
  path_ : string;
  mtime_ : TimeStamp;
  dirty_ : bool;
  precomputed_mtime_ : TimeStamp;
  node_precomputed_dirtiness_ : bool;
  in_edge_ : option EdgeId;
  out_edges_ : list EdgeId;
  dep_scan_out_edges_ : list EdgeId
}.

Record Edge := mkEdge {
  rule_ : Rule;
  inputs_ : list NodeId;
  outputs_ : list NodeId;
  implicit_deps_ : nat;
  order_only_deps_ : nat;
  implicit_outs_ : nat;
  explicit_outs_ : nat;
  mark_ : VisitMark;
  outputs_ready_ : bool;
  deps_missing_ : bool;
  precomputed_dirtiness_ : bool;
  dep_scan_info_ : DepScanInfo;
  unevaled_bindings_ : list (string * list Token)
}.

(** [BuildLog::LogEntry]. *)
Record LogEntry := mkLogEntry {
  entry_command_hash : Z;
  entry_mtime : TimeStamp
}.

(** The build log is looked up by output path. *)
Abbreviation BuildLog := (gmap string LogEntry).

Definition LookupByOutput (log : BuildLog) (path : string) : option LogEntry :=
  log !! path.

(** [Edge::is_phony]. *)
Definition is_phony (e : Edge) : bool := bool_decide (rule_ e = kPhonyRule).

(** Modelled from the spec: the header declaring [Node] and [Edge] is not
    among the sources.  A timestamp of [0] means the file is missing and
    [-1] that it has not been stat()ed (or that the stat failed). *)
Definition exists_ (n : Node) : bool := negb (mtime_ n =? 0).
Definition status_known (n : Node) : bool := negb (mtime_ n =? -1).

(** Modelled from the spec: [IsRestat], [IsGenerator], [UsesDepsLog],
    [UsesDepfile] and [GetCommandHash] read the [DepScanInfo] of the edge.
    In the source they go through [Edge::ComputeDepScanInfo], which first
    computes the info of an edge that has none; these are the accessors on
    an edge whose info has been computed, as [PrecomputeNodesDirty] does for
    the edges it collects.  [ComputeDepScanInfo] and [LoadDeps_computing]
    below are the computation on demand. *)
Definition IsRestat (e : Edge) : bool := restat (dep_scan_info_ e).
Definition IsGenerator (e : Edge) : bool := generator (dep_scan_info_ e).
Definition UsesDepsLog (e : Edge) : bool := deps (dep_scan_info_ e).
Definition UsesDepfile (e : Edge) : bool := depfile (dep_scan_info_ e).
Definition GetCommandHash (e : Edge) : Z := command_hash (dep_scan_info_ e).

(** ** [DependencyScan::RecomputeOutputDirty]

    The [EXPLAIN] macro prints a diagnostic when explanations are switched
    on; the function returns the diagnostics it emitted next to its
    verdict. *)

Inductive Explain :=
| ExplainPhonyOutputMissing (output : string)
| ExplainOutputMissing (output : string)
| ExplainOlderThanInput (used_restat : bool) (output input : string)
    (output_mtime input_mtime : TimeStamp)
| ExplainCommandLineChanged (output : string)
| ExplainRecordedMtimeOlder (output input : string)
    (entry_mtime input_mtime : TimeStamp)
| ExplainCommandLineNotFound (output : string).

Global Instance Explain_eq_dec : EqDecision Explain.
Proof. solve_decision. Defined.

Definition Verdict := (bool * list Explain)%type.

(** [EXPLAIN(...); return true;] and [return false;] *)
Definition dirty_because (x : Explain) : Verdict := (true, [x]).
Definition not_dirty : Verdict := (false, []).

Section OutputDirty.

(** [DependencyScan::build_log()], which may be null. *)
Variable build_log : option BuildLog.

Definition RecomputeOutputDirty_explained (edge : Edge)
    (most_recent_input : option Node) (command_hash : Z) (output : Node)
    : Verdict :=
  if is_phony edge then
    (* Phony edges don't write any output.  Outputs are only dirty if
       there are no inputs and we're missing the output. *)
    if bool_decide (inputs_ edge = []) && negb (exists_ output)
    then dirty_because (ExplainPhonyOutputMissing (path_ output))
    else not_dirty
  else flow_run (
    (* Dirty if we're missing the output. *)
    return_if (negb (exists_ output))
      (dirty_because (ExplainOutputMissing (path_ output))) ;;
    (* Dirty if the output is older than the input. *)
    entry ← match most_recent_input with
            | Some input =>
                if mtime_ output <? mtime_ input then
                  let output_mtime := mtime_ output in
                  (* restat: use the mtime stored in the build log *)
                  let '(output_mtime, used_restat, entry) :=
                    match (if IsRestat edge then build_log else None) with
                    | Some log =>
                        match LookupByOutput log (path_ output) with
                        | Some entry => (entry_mtime entry, true, Some entry)
                        | None => (output_mtime, false, None)
                        end
                    | None => (output_mtime, false, None)
                    end in
                  return_if (output_mtime <? mtime_ input)
                    (dirty_because
                       (ExplainOlderThanInput used_restat (path_ output)
                          (path_ input) output_mtime (mtime_ input))) ;;
                  Next entry
                else Next None
            | None => Next None
            end;
    match build_log with
    | Some log =>
        let generator := IsGenerator edge in
        let entry := match entry with
                     | Some entry => Some entry
                     | None => LookupByOutput log (path_ output)
                     end in
        match entry with
        | Some entry =>
            return_if (negb generator &&
                       negb (command_hash =? entry_command_hash entry))
              (dirty_because (ExplainCommandLineChanged (path_ output))) ;;
            match most_recent_input with
            | Some input =>
                return_if (entry_mtime entry <? mtime_ input)
                  (dirty_because
                     (ExplainRecordedMtimeOlder (path_ output) (path_ input)
                        (entry_mtime entry) (mtime_ input)))
            | None => Next tt
            end ;;
            Return not_dirty
        | None =>
            return_if (negb generator)
              (dirty_because (ExplainCommandLineNotFound (path_ output))) ;;
            Return not_dirty
        end
    | None => Return not_dirty
    end).

Definition RecomputeOutputDirty (edge : Edge)
    (most_recent_input : option Node) (command_hash : Z) (output : Node)
    : bool :=
  fst (RecomputeOutputDirty_explained edge most_recent_input command_hash
         output).

End OutputDirty.

(** The diagnostics of the two tests the claims single out. *)
Definition is_older_than_input (x : Explain) : bool :=
  match x with ExplainOlderThanInput _ _ _ _ _ => true | _ => false end.

Definition is_command_hash_check (x : Explain) : bool :=
  match x with
  | ExplainCommandLineChanged _ | ExplainCommandLineNotFound _ => true
  | _ => false
  end.

(** The entry the restat branch of the mtime test reads: the build log is
    consulted there only for a restat rule. *)
Definition restat_entry (build_log : option BuildLog) (edge : Edge)
    (output : Node) : option LogEntry :=
  log ← (if IsRestat edge then build_log else None);
  LookupByOutput log (path_ output).

(** The output passes the mtime test: it is not older than the most recent
    input, or the edge is a restat rule whose log entry is not older. *)
Definition mtime_clean (build_log : option BuildLog) (edge : Edge)
    (most_recent_input : option Node) (output : Node) : Prop :=
  match most_recent_input with
  | None => True
  | Some input =>
      mtime_ input <= mtime_ output \/
      exists entry, restat_entry build_log edge output = Some entry /\
                    mtime_ input <= entry_mtime entry
  end.

(** ** Sample objects

    A [cc] rule building [out] from [in], used to run the definitions on
    concrete inputs. *)

Definition sample_info (restat generator : bool) (hash : Z) : DepScanInfo :=
  mkDepScanInfo true restat generator false false hash.

Definition sample_edge (rule : Rule) (inputs : list NodeId)
    (info : DepScanInfo) : Edge :=
  mkEdge rule inputs [0%nat] 0 0 0 1 VisitNone false false false info [].

Definition sample_node (path : string) (mtime : TimeStamp)
    (in_edge : option EdgeId) : Node :=
  mkNode path mtime false (-1) false in_edge [] [].

Definition cc_rule : Rule := UserRule "cc" {[ "command" := [Literal "cc"] ]}.

(** ** The disk interface

    [DiskInterface] is an abstract class; [D] is the state of the file
    system behind it.  An out-parameter is returned as the value written to
    it, or [None] when the call leaves it alone. *)

Record StatResult := mkStatResult {
  stat_mtime : TimeStamp;
  stat_is_dir : option bool;
  stat_err : option string
}.

Inductive ReadStatus :=
| Okay (content : string)
| NotFound (err : string)
| OtherError (err : string).

Class DiskInterface (D : Type) := {
  Stat : D -> string -> StatResult;
  LStat : D -> string -> StatResult;
  ReadFile : D -> string -> ReadStatus;
  RemoveFile : D -> string -> D;
  IsStatThreadSafe : D -> bool
}.

(** [*out = v] for an out-parameter holding [old]. *)
Definition written {A} (old : A) (v : option A) : A := default old v.

(** A file system for running the definitions: a path names a regular file,
    a directory, a symbolic link or an entry that cannot be stat()ed. *)
Inductive SimFile :=
| SimRegular (mtime : TimeStamp) (content : string)
| SimDirectory (mtime : TimeStamp)
| SimLink (mtime : TimeStamp) (target : string)
| SimUnreadable (err : string).

Abbreviation SimDisk := (gmap string SimFile).

Definition sim_lstat (d : SimDisk) (path : string) : StatResult :=
  match d !! path with
  | None => mkStatResult 0 None None
  | Some (SimRegular mtime _) => mkStatResult mtime (Some false) None
  | Some (SimDirectory mtime) => mkStatResult mtime (Some true) None
  | Some (SimLink mtime _) => mkStatResult mtime (Some false) None
  | Some (SimUnreadable err) => mkStatResult (-1) None (Some err)
  end.

Definition sim_stat (d : SimDisk) (path : string) : StatResult :=
  match d !! path with
  | Some (SimLink _ target) => sim_lstat d target
  | _ => sim_lstat d path
  end.

Definition sim_read (d : SimDisk) (path : string) : ReadStatus :=
  match d !! path with
  | None => NotFound "No such file or directory"
  | Some (SimRegular _ content) => Okay content
  | Some (SimDirectory _) => OtherError "Is a directory"
  | Some (SimLink _ target) =>
      match d !! target with
      | Some (SimRegular _ content) => Okay content
      | None => NotFound "No such file or directory"
      | _ => OtherError "Is a directory"
      end
  | Some (SimUnreadable err) => OtherError err
  end.

Global Instance SimDisk_interface : DiskInterface SimDisk := {|
  Stat := sim_stat;
  LStat := sim_lstat;
  ReadFile := sim_read;
  RemoveFile := fun d path => delete path d;
  IsStatThreadSafe := fun _ => false
|}.

(** ** [Builder::Cleanup]

    The calls the builder makes on its [Status] and on the disk are recorded
    in the order they are made. *)

Inductive CleanupEvent :=
| StatusError (msg : string)
| RemoveFileCall (path : string).

Global Instance CleanupEvent_eq_dec : EqDecision CleanupEvent.
Proof. solve_decision. Defined.

Section BuilderCleanup.

Context {D : Type} `{DiskInterface D}.

(** [Edge::IsPhonyOutput] and [Edge::GetUnescapedDepfile], the value of the
    [depfile] binding of the edge. *)
Variable IsPhonyOutput : Edge -> bool.
Variable GetUnescapedDepfile : Edge -> string.

(** The body of the loop over the outputs of an active edge. *)
Definition cleanup_output (depfile : string) (o : Node) (disk : D)
    : D * list CleanupEvent :=
  let err := "" in
  let is_dir := false in
  let r := LStat disk (path_ o) in
  let is_dir := written is_dir (stat_is_dir r) in
  let err := written err (stat_err r) in
  let new_mtime := stat_mtime r in
  (* Log and ignore LStat() errors. *)
  let logged := if new_mtime =? -1 then [StatusError err] else [] in
  if negb is_dir &&
     (negb (String.eqb depfile "") || negb (mtime_ o =? new_mtime))
  then (RemoveFile disk (path_ o), logged ++ [RemoveFileCall (path_ o)])
  else (disk, logged).

Fixpoint cleanup_outputs (depfile : string) (outputs : list Node) (disk : D)
    : D * list CleanupEvent :=
  match outputs with
  | [] => (disk, [])
  | o :: outputs =>
      let '(disk, events) := cleanup_output depfile o disk in
      let '(disk, events') := cleanup_outputs depfile outputs disk in
      (disk, events ++ events')
  end.

(** The body of the loop over the active edges; [outputs] are the nodes the
    edge's [outputs_] point to. *)
Definition cleanup_edge (e : Edge) (outputs : list Node) (disk : D)
    : D * list CleanupEvent :=
  if IsPhonyOutput e then (disk, [])
  else
    let depfile := GetUnescapedDepfile e in
    let '(disk, events) := cleanup_outputs depfile outputs disk in
    if negb (String.eqb depfile "")
    then (RemoveFile disk depfile, events ++ [RemoveFileCall depfile])
    else (disk, events).

(** [active_edges] is [None] when there is no command runner, and otherwise
    the result of [GetActiveEdges()], each edge with its output nodes. *)
Fixpoint cleanup_edges (active_edges : list (Edge * list Node)) (disk : D)
    : D * list CleanupEvent :=
  match active_edges with
  | [] => (disk, [])
  | (e, outputs) :: active_edges =>
      let '(disk, events) := cleanup_edge e outputs disk in
      let '(disk, events') := cleanup_edges active_edges disk in
      (disk, events ++ events')
  end.

Definition Cleanup (active_edges : option (list (Edge * list Node)))
    (disk : D) : D * list CleanupEvent :=
  match active_edges with
  | None => (disk, [])
  | Some active_edges => cleanup_edges active_edges disk
  end.

End BuilderCleanup.

(** An interrupted [cc] edge whose output cannot be stat()ed any more. *)
Definition unreadable_disk : SimDisk :=
  {[ "out" := SimUnreadable "lstat(out): Permission denied" ]}.

Definition interrupted_edge : Edge :=
  sample_edge cc_rule [1%nat] (sample_info false false 7).

Definition interrupted_output : Node := sample_node "out" 100 (Some 0%nat).

(** ** [EdgeEval]: variable expansion for an edge *)

Inductive EvalPhase := kParseTime | kFinalScope.
Inductive EscapeKind := kShellEscape | kDoNotEscape.

Global Instance Node_inhabited : Inhabited Node :=
  populate (mkNode "" (-1) false (-1) false None [] []).

(** The [EdgeEval] object ([this]) together with the two strings the
    evaluation appends to. *)
Record EdgeEval := mkEdgeEval {
  edge_ : Edge;
  eval_phase_ : EvalPhase;
  escape_in_out_ : EscapeKind;
  recursion_count_ : nat;
  recursion_vars_ : list string;
  out_append : string;
  eval_err : string
}.

Definition append_out (s : string) (ev : EdgeEval) : EdgeEval :=
  mkEdgeEval (edge_ ev) (eval_phase_ ev) (escape_in_out_ ev)
    (recursion_count_ ev) (recursion_vars_ ev) (out_append ev +:+ s)
    (eval_err ev).

Definition set_eval_err (s : string) (ev : EdgeEval) : EdgeEval :=
  mkEdgeEval (edge_ ev) (eval_phase_ ev) (escape_in_out_ ev)
    (recursion_count_ ev) (recursion_vars_ ev) (out_append ev) s.

(** [recursion_vars_[recursion_count_++] = var] *)
Definition push_recursion_var (var : string) (ev : EdgeEval) : EdgeEval :=
  mkEdgeEval (edge_ ev) (eval_phase_ ev) (escape_in_out_ ev)
    (S (recursion_count_ ev))
    (<[recursion_count_ ev := var]> (recursion_vars_ ev)) (out_append ev)
    (eval_err ev).

(** [Rule::GetBinding]; the phony rule has no bindings. *)
Definition GetBinding (r : Rule) (var : string) : option (list Token) :=
  match r with
  | kPhonyRule => None
  | UserRule _ bindings => bindings !! var
  end.

(** The last binding of [var] declared on the edge, if any. *)
Definition last_binding (e : Edge) (var : string) : option (list Token) :=
  snd <$> head (filter (fun b => fst b = var) (reverse (unevaled_bindings_ e))).

Section EdgeEval.

(** The node table of the [State], for the paths of inputs and outputs. *)
Variable nodes : list Node.

(** The size of the [recursion_vars_] array. *)
Variable kEvalRecursionLimit : nat.

(** [GetShellEscapedString], [EvaluateBindingInScope] at the edge's position
    and the two look-ups in the enclosing [Scope]. *)
Variable shell_escape : string -> string.
Variable EvaluateBindingInScope : Edge -> list Token -> string.
Variable ScopeEvaluateVariable : EvalPhase -> Edge -> string -> string.

(** [Node::PathDecanonicalized], outside Windows. *)
Definition PathDecanonicalized (n : Node) : string := path_ n.

Fixpoint append_paths (at_begin : bool) (paths : list NodeId) (sep : string)
    (ev : EdgeEval) : EdgeEval :=
  match paths with
  | [] => ev
  | it :: paths =>
      let ev := if at_begin then ev else append_out sep ev in
      let path := PathDecanonicalized (nodes !!! it) in
      let ev := match escape_in_out_ ev with
                | kShellEscape => append_out (shell_escape path) ev
                | kDoNotEscape => append_out path ev
                end in
      append_paths false paths sep ev
  end.

(** [EdgeEval::AppendPathList] over the range [begin, end). *)
Definition AppendPathList (range : list NodeId) (sep : string) (ev : EdgeEval)
    : EdgeEval :=
  append_paths true range sep ev.

(** [Edge::EvaluateVariableSelfOnly]. *)
Definition EvaluateVariableSelfOnly (var : string) (ev : EdgeEval)
    : option EdgeEval :=
  value ← last_binding (edge_ ev) var;
  Some (append_out (EvaluateBindingInScope (edge_ ev) value) ev).

(** The loop building the text of the cycle: [first] is
    [recursion_vars_[0]] and [rest] the entries from index 1 on. *)
Fixpoint cycle_tail (first : string) (rest : list string) : string :=
  match rest with
  | [] => ""
  | v :: rest =>
      " -> " +:+ v +:+ (if String.eqb v first then "" else
                          cycle_tail first rest)
  end.

Definition cycle_text (recursion_vars : list string) : string :=
  let first := recursion_vars !!! 0%nat in
  first +:+ cycle_tail first
              (take (kEvalRecursionLimit - 1) (drop 1 recursion_vars)).

(** Modelled from the spec: [EvaluateBindingOnRule] is not among the
    sources.  It walks the value of the rule binding, appends the literal
    text and evaluates every reference through [eval_var], the
    [EvaluateVariable] of the [EdgeEval] it is given, and gives up at the
    first reference that fails. *)
Fixpoint EvaluateBindingOnRule
    (eval_var : string -> EdgeEval -> option (bool * EdgeEval))
    (value : list Token) (ev : EdgeEval) : option (bool * EdgeEval) :=
  match value with
  | [] => Some (true, ev)
  | Literal text :: value =>
      EvaluateBindingOnRule eval_var value (append_out text ev)
  | Special var :: value =>
      match eval_var var ev with
      | Some (true, ev) => EvaluateBindingOnRule eval_var value ev
      | failed => failed
      end
  end.

Definition is_in_or_in_newline (var : string) : bool :=
  bool_decide (var = "in") || bool_decide (var = "in_newline").

(** [EdgeEval::EvaluateVariable].  The function calls itself through
    [EvaluateBindingOnRule]; [fuel] bounds the depth of these calls, and
    [None] is the answer of a run that needs more. *)
Fixpoint EvaluateVariable (fuel : nat) (var : string) (ev : EdgeEval)
    : option (bool * EdgeEval) :=
  match fuel with
  | O => None
  | S fuel =>
      let edge := edge_ ev in
      if is_in_or_in_newline var then
        let explicit_deps_count :=
          (length (inputs_ edge) - implicit_deps_ edge
           - order_only_deps_ edge)%nat in
        Some (true,
              AppendPathList (take explicit_deps_count (inputs_ edge))
                (if bool_decide (var = "in") then " " else String "010" "")
                ev)
      else if bool_decide (var = "out") then
        let explicit_outs_count :=
          (length (outputs_ edge) - implicit_outs_ edge)%nat in
        Some (true,
              AppendPathList (take explicit_outs_count (outputs_ edge)) " "
                ev)
      else
        match EvaluateVariableSelfOnly var ev with
        | Some ev => Some (true, ev)
        | None =>
            (* Search for a matching rule binding. *)
            match GetBinding (rule_ edge) var with
            | Some binding_pattern =>
                (* Detect recursive rule variable usage. *)
                if bool_decide (recursion_count_ ev = kEvalRecursionLimit)
                then
                  Some (false,
                        set_eval_err
                          ("cycle in rule variables: "
                           +:+ cycle_text (recursion_vars_ ev)) ev)
                else
                  EvaluateBindingOnRule (EvaluateVariable fuel)
                    binding_pattern (push_recursion_var var ev)
            | None =>
                (* Fall back to the edge's enclosing scope. *)
                Some (true,
                      append_out
                        (ScopeEvaluateVariable (eval_phase_ ev) edge var) ev)
            end
        end
  end.

(** A fresh [EdgeEval] for [edge], as [Edge::EvaluateVariable] builds it. *)
Definition new_EdgeEval (edge : Edge) (phase : EvalPhase)
    (escape : EscapeKind) (out err : string) : EdgeEval :=
  mkEdgeEval edge phase escape 0 (replicate kEvalRecursionLimit "") out err.

(** [Edge::EvaluateVariable], with the fuel for [EdgeEval]. *)
Definition Edge_EvaluateVariable_fuel (fuel : nat) (edge : Edge) (out : string)
    (key : string) (err : string) (phase : EvalPhase) (escape : EscapeKind)
    : option (bool * string * string) :=
  '(ok, ev) ← EvaluateVariable fuel key (new_EdgeEval edge phase escape out err);
  Some (ok, out_append ev, eval_err ev).

End EdgeEval.

(** The rule binding [EdgeEval::EvaluateVariable] expands for [var]: the
    variable is not [in], [in_newline] or [out], the edge does not bind it,
    and its rule does. *)
Definition rule_binding_of (edge : Edge) (var : string)
    : option (list Token) :=
  if is_in_or_in_newline var || bool_decide (var = "out") then None
  else match last_binding edge var with
       | Some _ => None
       | None => GetBinding (rule_ edge) var
       end.

(** [v] is expanded from its rule binding, which refers to [w]. *)
Definition refers (edge : Edge) (v w : string) : Prop :=
  exists value, rule_binding_of edge v = Some value /\ Special w ∈ value.

(** The names the error message lists: [recursion_vars_[0]], then the
    entries up to the first one equal to it. *)
Fixpoint upto_first (first : string) (rest : list string) : list string :=
  match rest with
  | [] => []
  | v :: rest => v :: (if String.eqb v first then [] else upto_first first rest)
  end.

Definition cycle_names (limit : nat) (recursion_vars : list string)
    : list string :=
  let first := recursion_vars !!! 0%nat in
  first :: upto_first first (take (limit - 1) (drop 1 recursion_vars)).

(** A rule whose [command] refers to [description], which refers back. *)
Definition cyclic_rule : Rule :=
  UserRule "loop" {[ "command" := [Literal "run "; Special "description"];
                     "description" := [Special "command"] ]}.

Definition cyclic_edge : Edge :=
  sample_edge cyclic_rule [1%nat] (sample_info false false 0).

(** The [EdgeEval] object is in a state a run from [new_EdgeEval] can reach:
    the array has [limit] entries, and the entries written so far name
    variables expanded from their rule binding. *)
Definition eval_wf (limit : nat) (ev : EdgeEval) : Prop :=
  length (recursion_vars_ ev) = limit
  /\ (recursion_count_ ev <= limit)%nat
  /\ forall (i : nat) (v : string),
       (i < recursion_count_ ev)%nat -> recursion_vars_ ev !! i = Some v ->
       is_Some (rule_binding_of (edge_ ev) v).

(** [ev'] is a later state of [ev]: only the strings and the record of the
    look-ups grow. *)
Definition eval_extends (ev ev' : EdgeEval) : Prop :=
  edge_ ev' = edge_ ev
  /\ eval_phase_ ev' = eval_phase_ ev
  /\ escape_in_out_ ev' = escape_in_out_ ev
  /\ (recursion_count_ ev <= recursion_count_ ev')%nat
  /\ take (recursion_count_ ev) (recursion_vars_ ev')
     = take (recursion_count_ ev) (recursion_vars_ ev).

(** The expansion of [v] leads into a cycle of rule bindings. *)
Definition reaches_cycle (edge : Edge) (v : string) : Prop :=
  exists w, rtc (refers edge) v w /\ tc (refers edge) w w.

(** What a call of [EvaluateVariable] that returns guarantees. *)
Definition eval_post (limit : nat) (ev : EdgeEval) (r : bool) (ev' : EdgeEval) : Prop :=
  eval_wf limit ev' /\ eval_extends ev ev'
  /\ (r = false ->
      recursion_count_ ev' = limit /\
      eval_err ev'
      = "cycle in rule variables: " +:+ cycle_text limit (recursion_vars_ ev')).

(** ** The graph and the state of a scan

    [State] owns the nodes and the edges; a [Node*] or [Edge*] is the index
    of the object in its table.  [Scan] adds what a run of
    [DependencyScan::RecomputeNodesDirty] threads through its calls: the
    traversal stack and the error string. *)

Global Instance Edge_inhabited : Inhabited Edge :=
  populate (mkEdge kPhonyRule [] [] 0 0 0 0 VisitNone false false false
              (mkDepScanInfo false false false false false 0) []).

Record Scan := mkScan {
  nodes_ : list Node;
  edges_ : list Edge;
  stack_ : list NodeId;
  err_ : string
}.

Definition node_at (w : Scan) (n : NodeId) : Node := nodes_ w !!! n.
Definition edge_at (w : Scan) (e : EdgeId) : Edge := edges_ w !!! e.

Definition update_node (n : NodeId) (f : Node -> Node) (w : Scan) : Scan :=
  mkScan (alter f n (nodes_ w)) (edges_ w) (stack_ w) (err_ w).

Definition update_edge (e : EdgeId) (f : Edge -> Edge) (w : Scan) : Scan :=
  mkScan (nodes_ w) (alter f e (edges_ w)) (stack_ w) (err_ w).

Definition set_err (err : string) (w : Scan) : Scan :=
  mkScan (nodes_ w) (edges_ w) (stack_ w) err.

Definition set_stack (stack : list NodeId) (w : Scan) : Scan :=
  mkScan (nodes_ w) (edges_ w) stack (err_ w).

(** Assignments to the fields of a node. *)
Definition with_mtime (t : TimeStamp) (n : Node) : Node :=
  mkNode (path_ n) t (dirty_ n) (precomputed_mtime_ n)
    (node_precomputed_dirtiness_ n) (in_edge_ n) (out_edges_ n)
    (dep_scan_out_edges_ n).
Definition with_dirty (b : bool) (n : Node) : Node :=
  mkNode (path_ n) (mtime_ n) b (precomputed_mtime_ n)
    (node_precomputed_dirtiness_ n) (in_edge_ n) (out_edges_ n)
    (dep_scan_out_edges_ n).
Definition with_precomputed_mtime (t : TimeStamp) (n : Node) : Node :=
  mkNode (path_ n) (mtime_ n) (dirty_ n) t (node_precomputed_dirtiness_ n)
    (in_edge_ n) (out_edges_ n) (dep_scan_out_edges_ n).
Definition with_node_precomputed_dirtiness (b : bool) (n : Node) : Node :=
  mkNode (path_ n) (mtime_ n) (dirty_ n) (precomputed_mtime_ n) b
    (in_edge_ n) (out_edges_ n) (dep_scan_out_edges_ n).
Definition with_in_edge (e : option EdgeId) (n : Node) : Node :=
  mkNode (path_ n) (mtime_ n) (dirty_ n) (precomputed_mtime_ n)
    (node_precomputed_dirtiness_ n) e (out_edges_ n) (dep_scan_out_edges_ n).
Definition with_dep_scan_out_edges (l : list EdgeId) (n : Node) : Node :=
  mkNode (path_ n) (mtime_ n) (dirty_ n) (precomputed_mtime_ n)
    (node_precomputed_dirtiness_ n) (in_edge_ n) (out_edges_ n) l.

(** Assignments to the fields of an edge. *)
Definition with_inputs (l : list NodeId) (e : Edge) : Edge :=
  mkEdge (rule_ e) l (outputs_ e) (implicit_deps_ e) (order_only_deps_ e)
    (implicit_outs_ e) (explicit_outs_ e) (mark_ e) (outputs_ready_ e)
    (deps_missing_ e) (precomputed_dirtiness_ e) (dep_scan_info_ e)
    (unevaled_bindings_ e).
Definition with_outputs (l : list NodeId) (explicit_outs : nat) (e : Edge)
    : Edge :=
  mkEdge (rule_ e) (inputs_ e) l (implicit_deps_ e) (order_only_deps_ e)
    (implicit_outs_ e) explicit_outs (mark_ e) (outputs_ready_ e)
    (deps_missing_ e) (precomputed_dirtiness_ e) (dep_scan_info_ e)
    (unevaled_bindings_ e).
Definition with_implicit_deps (k : nat) (e : Edge) : Edge :=
  mkEdge (rule_ e) (inputs_ e) (outputs_ e) k (order_only_deps_ e)
    (implicit_outs_ e) (explicit_outs_ e) (mark_ e) (outputs_ready_ e)
    (deps_missing_ e) (precomputed_dirtiness_ e) (dep_scan_info_ e)
    (unevaled_bindings_ e).
Definition with_mark (m : VisitMark) (e : Edge) : Edge :=
  mkEdge (rule_ e) (inputs_ e) (outputs_ e) (implicit_deps_ e)
    (order_only_deps_ e) (implicit_outs_ e) (explicit_outs_ e) m
    (outputs_ready_ e) (deps_missing_ e) (precomputed_dirtiness_ e)
    (dep_scan_info_ e) (unevaled_bindings_ e).
Definition with_outputs_ready (b : bool) (e : Edge) : Edge :=
  mkEdge (rule_ e) (inputs_ e) (outputs_ e) (implicit_deps_ e)
    (order_only_deps_ e) (implicit_outs_ e) (explicit_outs_ e) (mark_ e) b
    (deps_missing_ e) (precomputed_dirtiness_ e) (dep_scan_info_ e)
    (unevaled_bindings_ e).
Definition with_deps_missing (b : bool) (e : Edge) : Edge :=
  mkEdge (rule_ e) (inputs_ e) (outputs_ e) (implicit_deps_ e)
    (order_only_deps_ e) (implicit_outs_ e) (explicit_outs_ e) (mark_ e)
    (outputs_ready_ e) b (precomputed_dirtiness_ e) (dep_scan_info_ e)
    (unevaled_bindings_ e).
Definition with_precomputed_dirtiness (b : bool) (e : Edge) : Edge :=
  mkEdge (rule_ e) (inputs_ e) (outputs_ e) (implicit_deps_ e)
    (order_only_deps_ e) (implicit_outs_ e) (explicit_outs_ e) (mark_ e)
    (outputs_ready_ e) (deps_missing_ e) b (dep_scan_info_ e)
    (unevaled_bindings_ e).
Definition with_dep_scan_info (i : DepScanInfo) (e : Edge) : Edge :=
  mkEdge (rule_ e) (inputs_ e) (outputs_ e) (implicit_deps_ e)
    (order_only_deps_ e) (implicit_outs_ e) (explicit_outs_ e) (mark_ e)
    (outputs_ready_ e) (deps_missing_ e) (precomputed_dirtiness_ e) i
    (unevaled_bindings_ e).

(** Modelled from the spec: the header declaring [Node] and [Edge] is not
    among the sources.  [MarkDirty] sets the dirty flag,
    [ClearPrecomputedStat] empties the scan-scoped cache ([-1] is the empty
    cache), [AddOutEdgeDepScan] appends to the consumers found by the
    dependency scan, and an input is order-only when its index lies in the
    last [order_only_deps_] positions. *)
Definition MarkDirty (n : NodeId) : Scan -> Scan := update_node n (with_dirty true).
Definition set_dirty (n : NodeId) (b : bool) : Scan -> Scan :=
  update_node n (with_dirty b).
Definition ClearPrecomputedStat (n : NodeId) : Scan -> Scan :=
  update_node n (with_precomputed_mtime (-1)).
Definition AddOutEdgeDepScan (n : NodeId) (e : EdgeId) : Scan -> Scan :=
  update_node n (fun node =>
    with_dep_scan_out_edges (dep_scan_out_edges_ node ++ [e]) node).
Definition is_order_only (e : Edge) (index : nat) : bool :=
  bool_decide (length (inputs_ e) - order_only_deps_ e <= index)%nat.

(** ** Calls that may not return

    [Fatal] prints its message and ends the process.  A call that can reach
    it either returns, with its verdict and the state it leaves, or exits. *)

Inductive Outcome (A : Type) : Type :=
| Returned (ok : bool) (a : A)
| FatalExit (msg : string).
Arguments Returned {A} ok a.
Arguments FatalExit {A} msg.

(** ** The deps log *)

Record Deps := mkDeps {
  deps_mtime : TimeStamp;
  deps_nodes : list NodeId
}.

(** [DepsLog::GetDeps] looks the output node up. *)
Abbreviation DepsLog := (gmap nat Deps).

Definition GetDeps (log : DepsLog) (n : NodeId) : option Deps := log !! n.

(** The results of the depfile parser and of [CanonicalizePath]; neither
    function is among the sources. *)
Inductive DepfileParse :=
| Parsed (out : string) (ins : list string)
| ParseError (depfile_err : string).

Inductive Canonicalize :=
| Canonical (path : string)
| CanonicalizeError (err : string).

(** Modelled from the spec: [State::AddEdge] and [State::GetNode] are not
    among the sources.  [AddEdge] appends a fresh edge of the given rule to
    the edge table, and [GetNode] returns the node of a path, creating it
    when the path is new. *)
Definition new_Edge (rule : Rule) : Edge :=
  mkEdge rule [] [] 0 0 0 0 VisitNone false false false
    (mkDepScanInfo false false false false false 0) [].

Definition new_Node (path : string) : Node :=
  mkNode path (-1) false (-1) false None [] [].

Definition AddEdge (rule : Rule) (w : Scan) : EdgeId * Scan :=
  (length (edges_ w),
   mkScan (nodes_ w) (edges_ w ++ [new_Edge rule]) (stack_ w) (err_ w)).

Definition LookupNode (path : string) (w : Scan) : option NodeId :=
  fst <$> list_find (fun n => path_ n = path) (nodes_ w).

Definition GetNode (path : string) (w : Scan) : NodeId * Scan :=
  match LookupNode path w with
  | Some n => (n, w)
  | None =>
      (length (nodes_ w),
       mkScan (nodes_ w ++ [new_Node path]) (edges_ w) (stack_ w) (err_ w))
  end.

(** ** [ImplicitDepLoader] and the stat() calls of a node *)

Section DependencyScan.

Context {D : Type} `{DiskInterface D}.

(** The members of the [DependencyScan] object. *)
Variable disk_interface_ : D.
Variable build_log : option BuildLog.
Variable deps_log : DepsLog.

(** [DepfileParser::Parse], [CanonicalizePath] and
    [BuildLog::LogEntry::HashCommand]. *)
Variable DepfileParser_Parse : string -> DepfileParse.
Variable CanonicalizePath : string -> Canonicalize.
Variable HashCommand : string -> Z.

(** What [EdgeEval] needs. *)
Variable kEvalRecursionLimit : nat.
Variable shell_escape : string -> string.
Variable EvaluateBindingInScope : Edge -> list Token -> string.
Variable ScopeEvaluateVariable : EvalPhase -> Edge -> string -> string.

(** [Edge::EvaluateVariable] on an edge of the graph.  The recursion of
    [EdgeEval::EvaluateVariable] is at most [kEvalRecursionLimit] deep, so
    that one level more is enough fuel. *)
Definition Edge_EvaluateVariable (w : Scan) (edge : Edge) (out key err : string)
    (phase : EvalPhase) (escape : EscapeKind) : bool * string * string :=
  default (false, out, err)
    (Edge_EvaluateVariable_fuel (nodes_ w) kEvalRecursionLimit shell_escape
       EvaluateBindingInScope ScopeEvaluateVariable (S kEvalRecursionLimit)
       edge out key err phase escape).

(** [Edge::GetBindingImpl]: the value of the binding, or the message of the
    [Fatal] exit. *)
Definition GetBindingImpl (w : Scan) (edge : Edge) (key : string)
    (phase : EvalPhase) (escape : EscapeKind) : string + string :=
  let '(ok, result, err) := Edge_EvaluateVariable w edge "" key "" phase escape in
  if ok then inl result else inr err.

(** [Edge::GetBinding], [Edge::GetUnescapedDepfile] and
    [Edge::GetUnescapedRspfile]. *)
Definition Edge_GetBinding (w : Scan) (edge : Edge) (key : string)
    : string + string :=
  GetBindingImpl w edge key kFinalScope kShellEscape.
Definition GetUnescapedDepfile (w : Scan) (edge : Edge) : string + string :=
  GetBindingImpl w edge "depfile" kFinalScope kDoNotEscape.
Definition GetUnescapedRspfile (w : Scan) (edge : Edge) : string + string :=
  GetBindingImpl w edge "rspfile" kFinalScope kDoNotEscape.

(** [Edge::EvaluateCommand] with its [err] out-parameter.  The header with
    the default arguments of [Edge::EvaluateVariable] is not among the
    sources; they are taken to be those of [Edge::GetBinding]. *)
Definition EvaluateCommand (w : Scan) (edge : Edge) (out : string)
    (incl_rsp_file : bool) (err : string) : bool * string * string :=
  let '(ok, out, err) :=
    Edge_EvaluateVariable w edge out "command" err kFinalScope kShellEscape in
  if negb ok then (false, out, err)
  else if incl_rsp_file then
    let '(ok, rspfile_content, err) :=
      Edge_EvaluateVariable w edge "" "rspfile_content" err kFinalScope
        kShellEscape in
    if negb ok then (false, out, err)
    else if negb (String.eqb rspfile_content "")
    then (true, out +:+ ";rspfile=" +:+ rspfile_content, err)
    else (true, out, err)
  else (true, out, err).

(** [Edge::PrecomputeDepScanInfo]: the verdict, the error string and the
    edge with its [dep_scan_info_] filled in as far as the function got. *)
Definition PrecomputeDepScanInfo (w : Scan) (edge : Edge) (err : string)
    : bool * string * Edge :=
  let info := dep_scan_info_ edge in
  if valid info then (true, err, edge)
  else
    (* Precompute boolean flags. *)
    let get_bool_var (var : string) (escape : EscapeKind) (err : string) :=
      let '(ok, value, err) :=
        Edge_EvaluateVariable w edge "" var err kFinalScope escape in
      (ok, negb (String.eqb value ""), err) in
    let '(ok, v, err) := get_bool_var "restat" kShellEscape err in
    if negb ok then (false, err, edge)
    else
      let info := mkDepScanInfo (valid info) v (generator info) (deps info)
                    (depfile info) (command_hash info) in
      let '(ok, v, err) := get_bool_var "generator" kShellEscape err in
      if negb ok then (false, err, with_dep_scan_info info edge)
      else
        let info := mkDepScanInfo (valid info) (restat info) v (deps info)
                      (depfile info) (command_hash info) in
        let '(ok, v, err) := get_bool_var "deps" kShellEscape err in
        if negb ok then (false, err, with_dep_scan_info info edge)
        else
          let info := mkDepScanInfo (valid info) (restat info)
                        (generator info) v (depfile info)
                        (command_hash info) in
          let '(ok, v, err) := get_bool_var "depfile" kDoNotEscape err in
          if negb ok then (false, err, with_dep_scan_info info edge)
          else
            let info := mkDepScanInfo (valid info) (restat info)
                          (generator info) (deps info) v
                          (command_hash info) in
            (* Precompute the command hash. *)
            let '(ok, command, err) := EvaluateCommand w edge "" true err in
            if negb ok then (false, err, with_dep_scan_info info edge)
            else
              (true, err,
               with_dep_scan_info
                 (mkDepScanInfo true (restat info) (generator info)
                    (deps info) (depfile info) (HashCommand command)) edge).

(** [Node::Stat]. *)
Definition Node_Stat (n : NodeId) (w : Scan) : bool * Scan :=
  let node := node_at w n in
  let r := match in_edge_ node with
           | Some _ => LStat disk_interface_ (path_ node)
           | None => Stat disk_interface_ (path_ node)
           end in
  let w := set_err (written (err_ w) (stat_err r)) w in
  let w := update_node n (with_mtime (stat_mtime r)) w in
  (negb (stat_mtime r =? -1), w).

(** [Node::PrecomputeStat], with the error string of its own that the
    pre-stat pass gives to every call. *)
Definition Node_PrecomputeStat (n : NodeId) (w : Scan) : string * Scan :=
  let node := node_at w n in
  let r := match in_edge_ node with
           | Some _ => LStat disk_interface_ (path_ node)
           | None => Stat disk_interface_ (path_ node)
           end in
  (written "" (stat_err r),
   update_node n (with_precomputed_mtime (stat_mtime r)) w).

(** Modelled from the spec: [Node::StatIfNecessary] is declared in the
    missing header.  It ensures the mtime is known, consulting the
    precomputed cache before the disk. *)
Definition StatIfNecessary (n : NodeId) (w : Scan) : bool * Scan :=
  let node := node_at w n in
  if status_known node then (true, w)
  else if negb (precomputed_mtime_ node =? -1) then
    (true, update_node n (with_mtime (precomputed_mtime_ node)) w)
  else Node_Stat n w.

(** [ImplicitDepLoader::CreatePhonyInEdge]. *)
Definition CreatePhonyInEdge (n : NodeId) (w : Scan) : Scan :=
  match in_edge_ (node_at w n) with
  | Some _ => w
  | None =>
      let '(phony_edge, w) := AddEdge kPhonyRule w in
      let w := update_node n (with_in_edge (Some phony_edge)) w in
      let w := update_edge phony_edge (fun e =>
                 with_outputs (outputs_ e ++ [n]) (S (explicit_outs_ e)) e) w in
      (* RecomputeDirty might not be called for phony_edge: its outputs are
         ready unless a scan of the node says otherwise. *)
      update_edge phony_edge (with_outputs_ready true) w
  end.

(** [ImplicitDepLoader::PreallocateSpace] reserves [count] slots in front of
    the order-only inputs and returns the position of the first.  The
    source fills the reserved slots with null pointers that the caller then
    assigns one by one; here a slot joins [inputs_] when it is assigned
    ([assign_implicit_dep]).  The two differ only when [LoadDepFile] gives up
    in the middle of its loop, with the scan failed and slots left null. *)
Definition PreallocateSpace (edge : EdgeId) (count : nat) (w : Scan)
    : nat * Scan :=
  let e := edge_at w edge in
  ((length (inputs_ e) - order_only_deps_ e)%nat,
   update_edge edge (with_implicit_deps (implicit_deps_ e + count)%nat) w).

(** [*implicit_dep = node] *)
Definition assign_implicit_dep (edge : EdgeId) (implicit_dep : nat)
    (node : NodeId) : Scan -> Scan :=
  update_edge edge (fun e =>
    with_inputs (take implicit_dep (inputs_ e) ++ node
                 :: drop implicit_dep (inputs_ e)) e).

(** The loop of [LoadDepsFromLog] over the nodes of the log entry. *)
Fixpoint load_deps_nodes (edge : EdgeId) (deps_nodes : list NodeId)
    (implicit_dep : nat) (w : Scan) : Scan :=
  match deps_nodes with
  | [] => w
  | node :: deps_nodes =>
      let w := assign_implicit_dep edge implicit_dep node w in
      let w := AddOutEdgeDepScan node edge w in
      let w := CreatePhonyInEdge node w in
      load_deps_nodes edge deps_nodes (S implicit_dep) w
  end.

(** [ImplicitDepLoader::LoadDepsFromLog]. *)
Definition LoadDepsFromLog (edge : EdgeId) (w : Scan) : bool * Scan :=
  (* NOTE: deps are only supported for single-target edges. *)
  let output := outputs_ (edge_at w edge) !!! 0%nat in
  match GetDeps deps_log output with
  | None => (false, w)
  | Some deps =>
      (* Deps are invalid if the output is newer than the deps. *)
      if deps_mtime deps <? mtime_ (node_at w output) then (false, w)
      else
        let '(implicit_dep, w) :=
          PreallocateSpace edge (length (deps_nodes deps)) w in
        (true, load_deps_nodes edge (deps_nodes deps) implicit_dep w)
  end.

(** The loop of [LoadDepFile] over the inputs the depfile lists. *)
Fixpoint load_depfile_ins (edge : EdgeId) (ins : list string)
    (implicit_dep : nat) (w : Scan) : bool * Scan :=
  match ins with
  | [] => (true, w)
  | i :: ins =>
      match CanonicalizePath i with
      | CanonicalizeError err => (false, set_err err w)
      | Canonical i =>
          let '(node, w) := GetNode i w in
          let w := assign_implicit_dep edge implicit_dep node w in
          let w := AddOutEdgeDepScan node edge w in
          let w := CreatePhonyInEdge node w in
          load_depfile_ins edge ins (S implicit_dep) w
      end
  end.

(** [ImplicitDepLoader::LoadDepFile]. *)
Definition LoadDepFile (edge : EdgeId) (path : string) (w : Scan)
    : bool * Scan :=
  flow_run (
    (* Read depfile content.  Treat a missing depfile as empty. *)
    '(content, w) ← match ReadFile disk_interface_ path with
                    | Okay content => Next (content, w)
                    | NotFound _ => Next ("", set_err "" w)
                    | OtherError err =>
                        Return (false,
                                set_err ("loading '" +:+ path +:+ "': " +:+ err)
                                  w)
                    end;
    (* On a missing depfile: return false and empty *err. *)
    return_if (String.eqb content "") (false, w) ;;
    '(out, ins) ← match DepfileParser_Parse content with
                  | Parsed out ins => Next (out, ins)
                  | ParseError depfile_err =>
                      Return (false, set_err (path +:+ ": " +:+ depfile_err) w)
                  end;
    out ← match CanonicalizePath out with
          | Canonical out => Next out
          | CanonicalizeError err =>
              Return (false, set_err (path +:+ ": " +:+ err) w)
          end;
    (* Check that this depfile matches the edge's output, if not return
       false to mark the edge as dirty. *)
    let first_output := outputs_ (edge_at w edge) !!! 0%nat in
    return_if (negb (String.eqb (path_ (node_at w first_output)) out))
      (false, w) ;;
    let '(implicit_dep, w) := PreallocateSpace edge (length ins) w in
    Return (load_depfile_ins edge ins implicit_dep w)).

(** A verdict with the state, as the outcome of a call that returned. *)
Definition returned (r : bool * Scan) : Outcome Scan := Returned (fst r) (snd r).

(** [ImplicitDepLoader::LoadDeps], on an edge whose dependency-scan info
    has been computed. *)
Definition LoadDeps (edge : EdgeId) (w : Scan) : Outcome Scan :=
  if UsesDepsLog (edge_at w edge) then returned (LoadDepsFromLog edge w)
  else if UsesDepfile (edge_at w edge) then
    match GetUnescapedDepfile w (edge_at w edge) with
    | inl depfile => returned (LoadDepFile edge depfile w)
    | inr msg => FatalExit msg
    end
  else (* No deps to load. *) Returned true w.

(** ** [DependencyScan]: the recursive pass *)

(** [Edge::maybe_phonycycle_diagnostic]. *)
Definition maybe_phonycycle_diagnostic (e : Edge) : bool :=
  is_phony e && bool_decide (length (outputs_ e) = 1%nat)
  && bool_decide (implicit_outs_ e = 0%nat)
  && bool_decide (implicit_deps_ e = 0%nat)
  && bool_decide (order_only_deps_ e = 0%nat).

(** The text of the nodes from [start] to the end of the stack, each
    followed by an arrow. *)
Fixpoint cycle_path_text (w : Scan) (cycle : list NodeId) : string :=
  match cycle with
  | [] => ""
  | i :: cycle => path_ (node_at w i) +:+ " -> " +:+ cycle_path_text w cycle
  end.

(** [DependencyScan::VerifyDAG].  [None] is a failed assertion. *)
Definition VerifyDAG (node : NodeId) (w : Scan) : option (bool * Scan) :=
  match in_edge_ (node_at w node) with
  | None => None
  | Some edge =>
      (* If we have no temporary mark on the edge then we do not yet have a
         cycle. *)
      if negb (bool_decide (mark_ (edge_at w edge) = VisitInStack))
      then Some (true, w)
      else
        (* We have this edge earlier in the call stack.  Find it. *)
        match list_find (fun i => in_edge_ (node_at w i) = Some edge)
                (stack_ w) with
        | None => None
        | Some (start, _) =>
            (* Make the cycle clear by reporting its start as the node at
               its end instead of some other output of the starting edge. *)
            let w := set_stack (<[start := node]> (stack_ w)) w in
            (* Construct the error message rejecting the cycle. *)
            let err := "dependency cycle: "
                       +:+ cycle_path_text w (drop start (stack_ w))
                       +:+ path_ (node_at w (stack_ w !!! start)) in
            let err :=
              if bool_decide (S start = length (stack_ w))
                 && maybe_phonycycle_diagnostic (edge_at w edge)
              then err +:+ " [-w phonycycle=err]" else err in
            Some (false, set_err err w)
        end
  end.

(** The loop of [RecomputeNodeDirty] that loads the mtimes of the outputs. *)
Fixpoint stat_outputs (outputs : list NodeId) (w : Scan) : bool * Scan :=
  match outputs with
  | [] => (true, w)
  | o :: outputs =>
      let '(ok, w) := StatIfNecessary o w in
      if ok then stat_outputs outputs w else (false, w)
  end.

(** [DependencyScan::RecomputeOutputsDirty]: the verdict and the value of
    [*outputs_dirty] on return. *)
Fixpoint outputs_dirty_loop (edge : Edge) (most_recent_input : option Node)
    (command_hash : Z) (outputs : list Node) (outputs_dirty : bool)
    : bool * bool :=
  match outputs with
  | [] => (true, outputs_dirty)
  | o :: outputs =>
      if RecomputeOutputDirty build_log edge most_recent_input command_hash o
      then (true, true)
      else outputs_dirty_loop edge most_recent_input command_hash outputs
             outputs_dirty
  end.

Definition RecomputeOutputsDirty (edge : EdgeId)
    (most_recent_input : option NodeId) (outputs_dirty : bool) (w : Scan)
    : bool * bool :=
  let e := edge_at w edge in
  let command_hash := GetCommandHash e in
  outputs_dirty_loop e (node_at w <$> most_recent_input) command_hash
    (node_at w <$> outputs_ e) outputs_dirty.

(** The state of the loop over the inputs of an edge. *)
Record InputsLoop := mkInputsLoop {
  loop_dirty : bool;
  loop_most_recent_input : option NodeId;
  loop_scan : Scan
}.

(** The loop of [RecomputeNodeDirty] over the inputs of [edge], by the
    function [visit] for the recursive call; [index] is
    [i - edge->inputs_.begin()]. *)
Fixpoint visit_inputs (visit : NodeId -> Scan -> option (Outcome Scan))
    (edge : EdgeId) (inputs : list NodeId) (index : nat) (dirty : bool)
    (most_recent_input : option NodeId) (w : Scan)
    : option (Outcome InputsLoop) :=
  match inputs with
  | [] => Some (Returned true (mkInputsLoop dirty most_recent_input w))
  | i :: inputs =>
      (* Visit this input. *)
      match visit i w with
      | None => None
      | Some (FatalExit msg) => Some (FatalExit msg)
      | Some (Returned false w) =>
          Some (Returned false (mkInputsLoop dirty most_recent_input w))
      | Some (Returned true w) =>
          (* If an input is not ready, neither are our outputs. *)
          let w := match in_edge_ (node_at w i) with
                   | Some in_edge =>
                       if negb (outputs_ready_ (edge_at w in_edge))
                       then update_edge edge (with_outputs_ready false) w
                       else w
                   | None => w
                   end in
          let '(dirty, most_recent_input) :=
            if negb (is_order_only (edge_at w edge) index) then
              (* If a regular input is dirty (or missing), we're dirty.
                 Otherwise consider mtime. *)
              if dirty_ (node_at w i) then (true, most_recent_input)
              else
                match most_recent_input with
                | None => (dirty, Some i)
                | Some input =>
                    if mtime_ (node_at w input) <? mtime_ (node_at w i)
                    then (dirty, Some i)
                    else (dirty, most_recent_input)
                end
            else (dirty, most_recent_input) in
          visit_inputs visit edge inputs (S index) dirty most_recent_input w
      end
  end.

(** The end of [RecomputeNodeDirty], once the inputs are visited. *)
Definition finish_edge (node : NodeId) (edge : EdgeId) (dirty : bool)
    (most_recent_input : option NodeId) (w : Scan) : bool * Scan :=
  (* We may also be dirty due to output state: missing outputs, out of
     date outputs, etc.  Visit all outputs and determine whether they're
     dirty. *)
  let '(ok, dirty) :=
    if negb dirty then RecomputeOutputsDirty edge most_recent_input dirty w
    else (true, dirty) in
  if negb ok then (false, w)
  else
    (* Finally, visit each output and update their dirty state if
       necessary. *)
    let w := if dirty
             then foldl (fun w o => MarkDirty o w) w (outputs_ (edge_at w edge))
             else w in
    (* If an edge is dirty, its outputs are normally not ready.  But phony
       edges with no inputs have nothing to do, so are always ready. *)
    let w := if dirty && negb (is_phony (edge_at w edge)
                               && bool_decide (inputs_ (edge_at w edge) = []))
             then update_edge edge (with_outputs_ready false) w
             else w in
    (* Mark the edge as finished during this walk now that it will no
       longer be in the call stack. *)
    let w := update_edge edge (with_mark VisitDone) w in
    let w := set_stack (removelast (stack_ w)) w in
    (true, w).

(** The visit of [edge], the in-edge of [node], once the edge is marked
    and its outputs are stat()ed: the second half of [RecomputeNodeDirty],
    by the function [visit] for the recursive call. *)
Definition visit_edge (visit : NodeId -> Scan -> option (Outcome Scan))
    (node : NodeId) (edge : EdgeId) (dirty : bool) (w : Scan)
    : option (Outcome Scan) :=
  match LoadDeps edge w with
  | FatalExit msg => Some (FatalExit msg)
  | Returned ok w =>
      if negb ok && negb (String.eqb (err_ w) "")
      then Some (Returned false w)
      else
        (* Failed to load dependency info: rebuild to regenerate it. *)
        let '(dirty, w) :=
          if negb ok
          then (true, update_edge edge (with_deps_missing true) w)
          else (dirty, w) in
        (* Visit all inputs; we're dirty if any of the inputs are dirty. *)
        match visit_inputs visit edge (inputs_ (edge_at w edge)) 0 dirty
                None w with
        | None => None
        | Some (FatalExit msg) => Some (FatalExit msg)
        | Some (Returned false l) => Some (Returned false (loop_scan l))
        | Some (Returned true l) =>
            Some (returned (finish_edge node edge (loop_dirty l)
                              (loop_most_recent_input l) (loop_scan l)))
        end
  end.

(** [DependencyScan::RecomputeNodeDirty].  [fuel] bounds the depth of the
    recursion; [None] is a run that needs more, or a failed assertion. *)
Fixpoint RecomputeNodeDirty (fuel : nat) (node : NodeId) (w : Scan)
    : option (Outcome Scan) :=
  match fuel with
  | O => None
  | S fuel =>
      match in_edge_ (node_at w node) with
      | None =>
          (* If we already visited this leaf node then we are done. *)
          if status_known (node_at w node) then Some (Returned true w)
          else
            (* This node has no in-edge; it is dirty if it is missing. *)
            let '(ok, w) := StatIfNecessary node w in
            if negb ok then Some (Returned false w)
            else Some (Returned true
                         (set_dirty node (negb (exists_ (node_at w node))) w))
      | Some edge =>
          (* If we already finished this edge then we are done. *)
          if bool_decide (mark_ (edge_at w edge) = VisitDone)
          then Some (Returned true w)
          else
            (* If we encountered this edge earlier in the call stack we have
               a cycle. *)
            match VerifyDAG node w with
            | None => None
            | Some (false, w) => Some (Returned false w)
            | Some (true, w) =>
                (* Mark the edge temporarily while in the call stack. *)
                let w := update_edge edge (with_mark VisitInStack) w in
                let w := set_stack (stack_ w ++ [node]) w in
                let dirty := false in
                let w := update_edge edge (with_outputs_ready true) w in
                let w := update_edge edge (with_deps_missing false) w in
                (* Load output mtimes so we can compare them to the most
                   recent input below. *)
                let '(ok, w) := stat_outputs (outputs_ (edge_at w edge)) w in
                if negb ok then Some (Returned false w)
                else visit_edge (RecomputeNodeDirty fuel) node edge dirty w
            end
      end
  end.

(** ** [DependencyScan::RecomputeNodesDirty] *)

(** The two lists [CollectPrecomputeLists] fills, and the graph. *)
Record Collected := mkCollected {
  all_nodes : list NodeId;
  all_edges : list EdgeId;
  collected_scan : Scan
}.

(** A loop of [CollectPrecomputeLists] over nodes, with the dirtiness check
    duplicated in front of the recursive call. *)
Fixpoint collect_each (collect : NodeId -> Collected -> option Collected)
    (nodes : list NodeId) (c : Collected) : option Collected :=
  match nodes with
  | [] => Some c
  | node :: nodes =>
      if negb (node_precomputed_dirtiness_ (node_at (collected_scan c) node))
      then c ← collect node c; collect_each collect nodes c
      else collect_each collect nodes c
  end.

(** [DependencyScan::CollectPrecomputeLists]; [None] is a run that needs
    more fuel. *)
Fixpoint CollectPrecomputeLists (fuel : nat) (node : NodeId) (c : Collected)
    : option Collected :=
  match fuel with
  | O => None
  | S fuel =>
      let w := collected_scan c in
      if node_precomputed_dirtiness_ (node_at w node) then Some c
      else
        let w := update_node node (with_node_precomputed_dirtiness true) w in
        let c := mkCollected (all_nodes c ++ [node]) (all_edges c) w in
        c ← match in_edge_ (node_at w node) with
            | Some edge =>
                if negb (precomputed_dirtiness_ (edge_at w edge)) then
                  let w := update_edge edge (with_precomputed_dirtiness true)
                             w in
                  collect_each (CollectPrecomputeLists fuel)
                    (inputs_ (edge_at w edge))
                    (mkCollected (all_nodes c) (all_edges c ++ [edge]) w)
                else Some c
            | None => Some c
            end;
        (* Collect dependencies from the deps log. *)
        match GetDeps deps_log node with
        | Some deps =>
            collect_each (CollectPrecomputeLists fuel) (deps_nodes deps) c
        | None => Some c
        end
  end.

(** The loop of [RecomputeNodesDirty] over the initial nodes. *)
Fixpoint collect_initial (fuel : nat) (initial_nodes : list NodeId)
    (c : Collected) : option Collected :=
  match initial_nodes with
  | [] => Some c
  | node :: initial_nodes =>
      c ← CollectPrecomputeLists fuel node c;
      collect_initial fuel initial_nodes c
  end.

(** Modelled from the spec: [ParallelMap] and [PropagateError] are not among
    the sources.  [ParallelMap] applies a function to every element of a
    list, each element once, and returns the results in order; the workers
    touch disjoint objects, so that the elements can be taken one after the
    other.  [PropagateError] surfaces the first non-empty error. *)
Definition PropagateError (errs : list string) (w : Scan) : bool * Scan :=
  match list_find (fun e => e <> "") errs with
  | Some (_, e) => (false, set_err e w)
  | None => (true, w)
  end.

Fixpoint parallel_map_nodes (nodes : list NodeId) (w : Scan)
    : list string * Scan :=
  match nodes with
  | [] => ([], w)
  | node :: nodes =>
      let '(err, w) := Node_PrecomputeStat node w in
      let '(errs, w) := parallel_map_nodes nodes w in
      (err :: errs, w)
  end.

Fixpoint parallel_map_edges (edges : list EdgeId) (w : Scan)
    : list string * Scan :=
  match edges with
  | [] => ([], w)
  | edge :: edges =>
      let '(_, err, e) := PrecomputeDepScanInfo w (edge_at w edge) "" in
      let w := update_edge edge (fun _ => e) w in
      let '(errs, w) := parallel_map_edges edges w in
      (err :: errs, w)
  end.

(** [GetOptimalThreadPoolJobCount()]. *)
Variable GetOptimalThreadPoolJobCount : nat.

(** [DependencyScan::PrecomputeNodesDirty]. *)
Definition PrecomputeNodesDirty (nodes : list NodeId) (edges : list EdgeId)
    (w : Scan) : bool * Scan :=
  flow_run (
    w ← (if IsStatThreadSafe disk_interface_
            && bool_decide (1 < GetOptimalThreadPoolJobCount)%nat
         then
           let '(errs, w) := parallel_map_nodes nodes w in
           let '(ok, w) := PropagateError errs w in
           return_if (negb ok) (false, w) ;; Next w
         else Next w);
    let '(errs, w) := parallel_map_edges edges w in
    let '(ok, w) := PropagateError errs w in
    return_if (negb ok) (false, w) ;;
    Return (true, w)).

(** The main pass of [RecomputeNodesDirty]. *)
Fixpoint main_pass (fuel : nat) (initial_nodes : list NodeId) (w : Scan)
    : option (Outcome Scan) :=
  match initial_nodes with
  | [] => Some (Returned true w)
  | node :: initial_nodes =>
      match RecomputeNodeDirty fuel node (set_stack [] w) with
      | Some (Returned true w) => main_pass fuel initial_nodes w
      | stopped => stopped
      end
  end.

(** [DependencyScan::RecomputeNodesDirty]: the verdict, the graph and the
    nodes it collected. *)
Definition RecomputeNodesDirty (fuel : nat) (initial_nodes : list NodeId)
    (w : Scan) : option (Outcome Collected) :=
  c ← collect_initial fuel initial_nodes (mkCollected [] [] w);
  let '(success, w) :=
    PrecomputeNodesDirty (all_nodes c) (all_edges c) (collected_scan c) in
  r ← (if success then main_pass fuel initial_nodes w
       else Some (Returned false w));
  match r with
  | FatalExit msg => Some (FatalExit msg)
  | Returned success w =>
      (* Ensure that the precomputed mtime information can't be used after
         this dependency scan finishes. *)
      let w := foldl (fun w node => ClearPrecomputedStat node w) w
                 (all_nodes c) in
      Some (Returned success (mkCollected (all_nodes c) (all_edges c) w))
  end.

End DependencyScan.

(** ** The scanner on a simulated disk

    The parameters of the scanner for the sample graphs: a depfile parser
    for files of the form [out: in], paths already canonical, the length of
    the command for its hash, no shell escaping and an empty enclosing
    scope. *)

Fixpoint split_depfile (out : string) (content : string) : DepfileParse :=
  match content with
  | "" => ParseError "expected ':' in depfile"
  | String ":" (String " " ins) => Parsed (String.rev out) [ins]
  | String ":" "" => Parsed (String.rev out) []
  | String c content => split_depfile (String c out) content
  end.

Definition literal_text (value : list Token) : string :=
  String.concat "" (omap (fun t => match t with
                                   | Literal s => Some s
                                   | Special _ => None
                                   end) value).

Section SimScan.

Variable disk : SimDisk.
Variable build_log : option BuildLog.
Variable deps_log : DepsLog.

Definition sim_RecomputeNodeDirty
    : nat -> NodeId -> Scan -> option (Outcome Scan) :=
  RecomputeNodeDirty disk build_log deps_log (split_depfile "") Canonical
    16 id (fun _ => literal_text) (fun _ _ _ => "").

Definition sim_RecomputeNodesDirty
    : nat -> list NodeId -> Scan -> option (Outcome Collected) :=
  RecomputeNodesDirty disk build_log deps_log (split_depfile "") Canonical
    (fun s => Z.of_nat (String.length s)) 16 id (fun _ => literal_text)
    (fun _ _ _ => "") 1.

End SimScan.

(** [build a: cat b] and [build b: cat a]. *)
Definition cat_rule : Rule :=
  UserRule "cat" {[ "command" := [Literal "cat "; Special "in";
                                  Literal " > "; Special "out"] ]}.

Definition graph_edge (rule : Rule) (inputs outputs : list NodeId) : Edge :=
  with_outputs outputs (length outputs) (with_inputs inputs (new_Edge rule)).

Definition graph_node (path : string) (in_edge : option EdgeId) : Node :=
  with_in_edge in_edge (new_Node path).

Definition cycle_graph : Scan :=
  mkScan [graph_node "a" (Some 0%nat); graph_node "b" (Some 1%nat)]
         [graph_edge cat_rule [1%nat] [0%nat];
          graph_edge cat_rule [0%nat] [1%nat]] [] "".

(** ** How a scan changes the graph

    The recursive pass only ever adds to the graph.  Nodes keep their paths
    and their in-edges, a node without in-edge may get a new phony one, and
    edges keep what the manifest gave them.  An edge that was already marked
    when a call started, or is still unmarked when it returns, is exactly as
    it was; [cur], the edge the running call is visiting, is exempt from
    that. *)

(** An edge without inputs that loads no implicit dependencies: the phony
    in-edge made for a discovered leaf is one. *)
Definition inert (e : Edge) : Prop :=
  inputs_ e = [] /\ UsesDepsLog e = false /\ UsesDepfile e = false.

Record same_static (e e' : Edge) : Prop := {
  static_rule : rule_ e' = rule_ e;
  static_outputs : outputs_ e' = outputs_ e;
  static_order_only : order_only_deps_ e' = order_only_deps_ e;
  static_info : dep_scan_info_ e' = dep_scan_info_ e;
  static_bindings : unevaled_bindings_ e' = unevaled_bindings_ e;
  static_inputs : inputs_ e ⊆ inputs_ e';
  static_inert : inert e -> inputs_ e' = [];
  static_mark : mark_ e <> VisitNone -> mark_ e' <> VisitNone
}.

Record grows_except (cur : option EdgeId) (w w' : Scan) : Prop := {
  grows_nodes : (length (nodes_ w) <= length (nodes_ w'))%nat;
  grows_edges : (length (edges_ w) <= length (edges_ w'))%nat;
  grows_path : forall n : NodeId,
    (n < length (nodes_ w))%nat -> path_ (node_at w' n) = path_ (node_at w n);
  grows_in_edge : forall (n : NodeId) (e : EdgeId),
    in_edge_ (node_at w n) = Some e -> in_edge_ (node_at w' n) = Some e;
  grows_in_edge_new : forall (n : NodeId) (e : EdgeId),
    in_edge_ (node_at w' n) = Some e ->
    in_edge_ (node_at w n) = Some e \/ (length (edges_ w) <= e)%nat;
  grows_static : forall e : EdgeId,
    (e < length (edges_ w))%nat -> same_static (edge_at w e) (edge_at w' e);
  grows_new_inert : forall e : EdgeId,
    (length (edges_ w) <= e)%nat -> inert (edge_at w' e);
  grows_frozen : forall e : EdgeId,
    Some e <> cur -> (e < length (edges_ w))%nat ->
    mark_ (edge_at w e) <> VisitNone \/ mark_ (edge_at w' e) = VisitNone ->
    edge_at w' e = edge_at w e
}.

Abbreviation grows := (grows_except None).

(** The edge loads implicit dependencies, from the deps log or a depfile. *)
Definition loads (e : Edge) : Prop :=
  UsesDepsLog e = true \/ UsesDepfile e = true.

(** What a call of [RecomputeNodeDirty] on [node] that returns guarantees:
    the graph has grown, and a successful call leaves the stack as it found
    it and the in-edge of [node] finished. *)
Definition visit_post (node : NodeId) (w : Scan) (r : Outcome Scan) : Prop :=
  match r with
  | FatalExit _ => True
  | Returned ok w' =>
      grows w w' /\
      (ok = true ->
       stack_ w' = stack_ w /\
       forall e : EdgeId,
         in_edge_ (node_at w node) = Some e ->
         (e < length (edges_ w))%nat ->
         mark_ (edge_at w' e) = VisitDone)
  end.

(** The scanner's verdict on an edge: [dirty] is what the visit of the
    inputs found, and the outputs are looked at only if that is clean. *)
Definition edge_dirty (build_log : option BuildLog) (edge : EdgeId)
    (dirty : bool) (mri : option NodeId) (w : Scan) : bool :=
  if dirty then true
  else (RecomputeOutputsDirty build_log edge mri false w).2.

(** [build all: phony foo], with [foo] a file that is not on the disk, and
    [build all: phony]. *)
Definition phony_alias_graph : Scan :=
  mkScan [graph_node "all" (Some 0%nat); graph_node "foo" None]
         [graph_edge kPhonyRule [1%nat] [0%nat]] [] "".

Definition phony_leaf_graph : Scan :=
  mkScan [graph_node "all" (Some 0%nat)]
         [graph_edge kPhonyRule [] [0%nat]] [] "".

(** [build obj: cc src] with [deps = gcc] and [depfile = obj.d], and the
    same with a depfile only; the edges as [PrecomputeDepScanInfo] leaves
    them. *)
Definition gcc_rule : Rule :=
  UserRule "cc" {[ "command" := [Literal "cc -c "; Special "in"];
                   "deps" := [Literal "gcc"];
                   "depfile" := [Literal "obj.d"] ]}.

Definition depfile_rule : Rule :=
  UserRule "cc" {[ "command" := [Literal "cc -c "; Special "in"];
                   "depfile" := [Literal "obj.d"] ]}.

Definition deps_graph (rule : Rule) (deps : bool) : Scan :=
  mkScan [graph_node "obj" (Some 0%nat); graph_node "src" None]
         [with_dep_scan_info (mkDepScanInfo true false false deps true 9)
            (graph_edge rule [1%nat] [0%nat])] [] "".

(** A disk with the source and an empty depfile. *)
Definition empty_depfile_disk : SimDisk :=
  {[ "src" := SimRegular 100 "int main;"; "obj.d" := SimRegular 101 "" ]}.

(** What every phase of [RecomputeNodesDirty] keeps: the edges that exist,
    the in-edges of the nodes, and the marks that say a visit has started or
    finished. *)
Record marks_kept (w w' : Scan) : Prop := {
  kept_nodes : (length (nodes_ w) <= length (nodes_ w'))%nat;
  kept_edges : (length (edges_ w) <= length (edges_ w'))%nat;
  kept_in_edge : forall (n : NodeId) (e : EdgeId),
    in_edge_ (node_at w n) = Some e -> in_edge_ (node_at w' n) = Some e;
  kept_done : forall e : EdgeId,
    mark_ (edge_at w e) = VisitDone -> mark_ (edge_at w' e) = VisitDone;
  kept_marked : forall e : EdgeId,
    mark_ (edge_at w e) <> VisitNone -> mark_ (edge_at w' e) <> VisitNone
}.

(** [build out: cat in], with both files on the disk and the log of the
    last build. *)
Definition null_build_graph : Scan :=
  mkScan [graph_node "out" (Some 0%nat); graph_node "in" None]
         [graph_edge cat_rule [1%nat] [0%nat]] [] "".

Definition null_build_disk : SimDisk :=
  {[ "in" := SimRegular 100 ""; "out" := SimRegular 101 "" ]}.

Definition null_build_log : BuildLog := {[ "out" := mkLogEntry 12 101 ]}.

(** ** The cycle check

    [step_except cur w w'] is what the parts of a visit other than the
    recursive calls do: besides [grows_except], no edge other than [cur]
    changes, no mark changes, and in-edges keep pointing at edges that
    exist. *)
Record step_except (cur : option EdgeId) (w w' : Scan) : Prop := {
  step_grows : grows_except cur w w';
  step_kept : forall e : EdgeId,
    Some e <> cur -> (e < length (edges_ w))%nat ->
    edge_at w' e = edge_at w e;
  step_mark : forall e : EdgeId, mark_ (edge_at w' e) = mark_ (edge_at w e);
  step_range :
    (forall (n : NodeId) (e : EdgeId),
       in_edge_ (node_at w n) = Some e -> (e < length (edges_ w))%nat) ->
    forall (n : NodeId) (e : EdgeId),
      in_edge_ (node_at w' n) = Some e -> (e < length (edges_ w'))%nat
}.

(** [e'] is the in-edge of an input of [e]. *)
Definition edge_succ (w : Scan) (e e' : EdgeId) : Prop :=
  exists i : NodeId,
    i ∈ inputs_ (edge_at w e) /\ in_edge_ (node_at w i) = Some e'.

(** A cycle of edges can be reached from the in-edge of [node]. *)
Definition reaches_edge_cycle (w : Scan) (node : NodeId) : Prop :=
  exists e c : EdgeId,
    in_edge_ (node_at w node) = Some e /\
    rtc (edge_succ w) e c /\ tc (edge_succ w) c c.

(** The visit of [e] is over, or there is nothing to visit behind it. *)
Definition settled (w : Scan) (e : EdgeId) : Prop :=
  mark_ (edge_at w e) = VisitDone \/ inert (edge_at w e).

(** The in-edge of [i], if it has one, is settled. *)
Definition visited (w : Scan) (i : NodeId) : Prop :=
  forall e : EdgeId, in_edge_ (node_at w i) = Some e -> settled w e.

(** The invariant of the depth-first traversal: behind a finished edge
    there are only settled edges and no cycle, every edge with the temporary
    mark is the in-edge of a node on the stack, and in-edges exist. *)
Record scan_inv (w : Scan) : Prop := {
  inv_closed : forall d e : EdgeId,
    mark_ (edge_at w d) = VisitDone -> edge_succ w d e -> settled w e;
  inv_acyclic : forall d : EdgeId,
    mark_ (edge_at w d) = VisitDone -> ~ tc (edge_succ w) d d;
  inv_stack : forall e : EdgeId,
    mark_ (edge_at w e) = VisitInStack ->
    exists n : NodeId, n ∈ stack_ w /\ in_edge_ (node_at w n) = Some e;
  inv_range : forall (n : NodeId) (e : EdgeId),
    in_edge_ (node_at w n) = Some e -> (e < length (edges_ w))%nat
}.

(** No edge has the temporary mark in [w'] without having it in [w]. *)
Definition no_entry (w w' : Scan) : Prop :=
  forall e : EdgeId,
    mark_ (edge_at w' e) = VisitInStack -> mark_ (edge_at w e) = VisitInStack.

(** A successful call of [RecomputeNodeDirty] keeps the invariant and
    leaves no temporary mark of its own. *)
Definition visit_keeps (w : Scan) (r : Outcome Scan) : Prop :=
  match r with
  | Returned true w' => scan_inv w -> scan_inv w' /\ no_entry w w'
  | _ => True
  end.

#[global] Instance inert_dec (e : Edge) : Decision (inert e).
Proof. unfold inert. apply _. Defined.

(** The edges a traversal has yet to enter: the bound on the depth of the
    recursion. *)
Definition pending (w : Scan) (e : EdgeId) : Prop :=
  mark_ (edge_at w e) = VisitNone /\ ~ inert (edge_at w e).

Definition unvisited (w : Scan) : nat :=
  length (filter (pending w) (seq 0 (length (edges_ w)))).

(** A graph without a mark, as the manifest parser leaves it. *)
Definition fresh (w : Scan) : Prop :=
  (forall e : EdgeId, mark_ (edge_at w e) = VisitNone) /\
  (forall (n : NodeId) (e : EdgeId),
     in_edge_ (node_at w n) = Some e -> (e < length (edges_ w))%nat).

(** [build a: phony a], and [build a: phony | a], where the input is an
    implicit one. *)
Definition phony_self_graph : Scan :=
  mkScan [graph_node "a" (Some 0%nat)]
         [graph_edge kPhonyRule [0%nat] [0%nat]] [] "".

Definition phony_self_implicit_graph : Scan :=
  mkScan [graph_node "a" (Some 0%nat)]
         [with_implicit_deps 1 (graph_edge kPhonyRule [0%nat] [0%nat])] [] "".

(** The graph of [cycle_graph] when the visit of [a] has gone through [b]
    and is back at [a]. *)
Definition cycle_found : Scan :=
  set_stack [0%nat; 1%nat]
    (update_edge 0%nat (with_mark VisitInStack)
       (update_edge 1%nat (with_mark VisitInStack) cycle_graph)).

(** ** [Plan]

    The plan of a build is threaded through the calls together with the
    graph, whose [dirty_] and [outputs_ready_] flags it reads and writes, and
    with the pools.  The error string of a call is the [err_] of the graph.
    The counters are the [int]s of the source, far from their bounds.  The
    lines the source prints on stderr as it goes are left out. *)

Inductive Want := kWantNothing | kWantToStart | kWantToFinish.
Inductive EdgeResult := kEdgeFailed | kEdgeSucceeded.

Global Instance Want_eq_dec : EqDecision Want.
Proof. solve_decision. Defined.
Global Instance EdgeResult_eq_dec : EqDecision EdgeResult.
Proof. solve_decision. Defined.

Record Plan := mkPlan {
  want_ : gmap EdgeId Want;
  ready_ : gset EdgeId;
  command_edges_ : Z;
  wanted_edges_ : Z
}.

(** [Plan::Plan] and [Plan::Reset]. *)
Definition new_Plan : Plan := mkPlan ∅ ∅ 0 0.
Definition Reset (p : Plan) : Plan := new_Plan.

(** Modelled from the spec: [EdgeCmp], by which [GetOutEdges] sorts, is not
    among the sources; edges are ordered by their id, which is their index
    here. *)
Definition GetOutEdges (n : Node) : list EdgeId :=
  merge_sort Nat.le (out_edges_ n) ++ dep_scan_out_edges_ n.

(** [Edge::AllInputsReady]. *)
Definition AllInputsReady (e : Edge) (w : Scan) : bool :=
  forallb (fun i => match in_edge_ (node_at w i) with
                    | Some in_edge => outputs_ready_ (edge_at w in_edge)
                    | None => true
                    end) (inputs_ e).

(** Not in the source: the record of the assignments to an entry of [want_]
    that promote an edge from [kWantNothing] to [kWantToStart] or demote it
    back, each with [is_phony()] of the edge, kept to state what the
    counters count. *)
Inductive WantChange :=
| Promoted (edge : EdgeId) (phony : bool)
| Demoted (edge : EdgeId) (phony : bool).

Definition is_promotion (c : WantChange) : bool :=
  match c with Promoted _ _ => true | Demoted _ _ => false end.
Definition change_phony (c : WantChange) : bool :=
  match c with Promoted _ phony | Demoted _ phony => phony end.

(** The number of promotions and of demotions of edges that are not phony,
    and of all demotions. *)
Definition promoted_commands (changes : list WantChange) : Z :=
  Z.of_nat (length (filter (fun c => is_promotion c && negb (change_phony c))
                      changes)).
Definition demoted_commands (changes : list WantChange) : Z :=
  Z.of_nat (length (filter (fun c => negb (is_promotion c)
                                     && negb (change_phony c)) changes)).
Definition demoted_edges (changes : list WantChange) : Z :=
  Z.of_nat (length (filter (fun c => negb (is_promotion c)) changes)).

Section Plan.

(** The pools are [State]'s, which is not among the sources: the state of
    all of them, and the methods of the pool of an edge. *)
Variable Pools : Type.
Variable ShouldDelayEdge : EdgeId -> Pools -> bool.
Variable DelayEdge : EdgeId -> Pools -> Pools.
Variable RetrieveReadyEdges :
  EdgeId -> Pools -> gset EdgeId -> Pools * gset EdgeId.
Variable EdgeScheduled : EdgeId -> Pools -> Pools.
Variable PoolEdgeFinished : EdgeId -> Pools -> Pools.
(** [Edge::IsPhonyOutput], the value of a binding. *)
Variable IsPhonyOutput : Edge -> bool.
Variable build_log : option BuildLog.

Record Build := mkBuild {
  plan_ : Plan;
  graph_ : Scan;
  pools_ : Pools;
  changes_ : list WantChange
}.

Definition with_plan (p : Plan) (b : Build) : Build :=
  mkBuild p (graph_ b) (pools_ b) (changes_ b).
Definition with_graph (w : Scan) (b : Build) : Build :=
  mkBuild (plan_ b) w (pools_ b) (changes_ b).
Definition with_want (want : gmap EdgeId Want) (b : Build) : Build :=
  let p := plan_ b in
  with_plan (mkPlan want (ready_ p) (command_edges_ p) (wanted_edges_ p)) b.
Definition add_wanted_edges (k : Z) (b : Build) : Build :=
  let p := plan_ b in
  with_plan (mkPlan (want_ p) (ready_ p) (command_edges_ p)
               (wanted_edges_ p + k)) b.
Definition add_command_edges (k : Z) (b : Build) : Build :=
  let p := plan_ b in
  with_plan (mkPlan (want_ p) (ready_ p) (command_edges_ p + k)
               (wanted_edges_ p)) b.
Definition record_change (c : WantChange) (b : Build) : Build :=
  mkBuild (plan_ b) (graph_ b) (pools_ b) (changes_ b ++ [c]).

(** [Plan::ScheduleWork]; [None] is the failed assertion. *)
Definition ScheduleWork (edge : EdgeId) (b : Build) : option Build :=
  match want_ (plan_ b) !! edge with
  | Some kWantToFinish =>
      (* This edge has already been scheduled. *)
      Some b
  | Some kWantToStart =>
      let b := with_want (<[edge := kWantToFinish]> (want_ (plan_ b))) b in
      let p := plan_ b in
      if ShouldDelayEdge edge (pools_ b) then
        let pools := DelayEdge edge (pools_ b) in
        let '(pools, ready) := RetrieveReadyEdges edge pools (ready_ p) in
        Some (mkBuild (mkPlan (want_ p) ready (command_edges_ p)
                         (wanted_edges_ p))
                (graph_ b) pools (changes_ b))
      else
        let pools := EdgeScheduled edge (pools_ b) in
        Some (mkBuild (mkPlan (want_ p) ({[edge]} ∪ ready_ p)
                         (command_edges_ p) (wanted_edges_ p))
                (graph_ b) pools (changes_ b))
  | _ => None
  end.

(** The loop of [AddSubTarget] over the inputs of the edge, by the function
    [add] for the recursive call. *)
Fixpoint add_inputs (add : NodeId -> Build -> option (bool * Build))
    (inputs : list NodeId) (b : Build) : option (bool * Build) :=
  match inputs with
  | [] => Some (true, b)
  | i :: inputs =>
      match add i b with
      | None => None
      | Some (ok, b) =>
          if negb ok && negb (String.eqb (err_ (graph_ b)) "")
          then Some (false, b)
          else add_inputs add inputs b
      end
  end.

(** [Plan::AddSubTarget]; [None] is a run that needs more fuel. *)
Fixpoint AddSubTarget (fuel : nat) (node : NodeId) (dependent : option NodeId)
    (b : Build) : option (bool * Build) :=
  match fuel with
  | O => None
  | S fuel =>
      let w := graph_ b in
      match in_edge_ (node_at w node) with
      | None =>
          (* Leaf node. *)
          if dirty_ (node_at w node) then
            let referenced :=
              match dependent with
              | Some d => ", needed by '" +:+ path_ (node_at w d) +:+ "',"
              | None => ""
              end in
            Some (false,
                  with_graph
                    (set_err ("'" +:+ path_ (node_at w node) +:+ "'"
                              +:+ referenced
                              +:+ " missing and no known rule to make it") w)
                    b)
          else Some (false, b)
      | Some edge =>
          if outputs_ready_ (edge_at w edge)
          then Some (false, b) (* Don't need to do anything. *)
          else
            (* If an entry in want_ does not already exist for edge, create
               an entry which maps to kWantNothing. *)
            let inserted := bool_decide (want_ (plan_ b) !! edge = None) in
            let b := if inserted
                     then with_want (<[edge := kWantNothing]> (want_ (plan_ b)))
                            b
                     else b in
            (* If we do need to build edge and we haven't already marked it
               as wanted, mark it now. *)
            b ← (if dirty_ (node_at w node)
                    && bool_decide (want_ (plan_ b) !! edge = Some kWantNothing)
                 then
                   let b := with_want (<[edge := kWantToStart]>
                                         (want_ (plan_ b))) b in
                   let b := record_change
                              (Promoted edge (is_phony (edge_at w edge))) b in
                   let b := add_wanted_edges 1 b in
                   b ← (if AllInputsReady (edge_at w edge) w
                        then ScheduleWork edge b else Some b);
                   Some (if negb (is_phony (edge_at w edge))
                         then add_command_edges 1 b else b)
                 else Some b);
            if negb inserted
            then Some (true, b) (* We've already processed the inputs. *)
            else add_inputs (fun i => AddSubTarget fuel i (Some node))
                   (inputs_ (edge_at w edge)) b
      end
  end.

(** [Plan::AddTarget]. *)
Definition AddTarget (fuel : nat) (node : NodeId) (b : Build)
    : option (bool * Build) :=
  AddSubTarget fuel node None b.

(** [Plan::FindWork]: the first edge of the ready set. *)
Definition FindWork (b : Build) : option EdgeId * Build :=
  let p := plan_ b in
  match merge_sort Nat.le (elements (ready_ p)) with
  | [] => (None, b)
  | edge :: _ =>
      (Some edge,
       with_plan (mkPlan (want_ p) (ready_ p ∖ {[edge]}) (command_edges_ p)
                    (wanted_edges_ p)) b)
  end.

(** The loop of [NodeFinished] over the out-edges of the node, by the
    function [finish] for the call of [EdgeFinished]. *)
Fixpoint out_edges_finished (finish : EdgeId -> Build -> option Build)
    (out_edges : list EdgeId) (b : Build) : option Build :=
  match out_edges with
  | [] => Some b
  | oe :: out_edges =>
      match want_ (plan_ b) !! oe with
      | None => out_edges_finished finish out_edges b
      | Some want =>
          (* See if the edge is now ready. *)
          b ← (if AllInputsReady (edge_at (graph_ b) oe) (graph_ b) then
                 if negb (bool_decide (want = kWantNothing))
                 then ScheduleWork oe b
                 else
                   (* We do not need to build this edge, but we might need
                      to build one of its dependents. *)
                   finish oe b
               else Some b);
          out_edges_finished finish out_edges b
      end
  end.

(** The loop of [EdgeFinished] over the outputs of the edge. *)
Fixpoint outputs_finished (finish : EdgeId -> Build -> option Build)
    (outputs : list NodeId) (b : Build) : option Build :=
  match outputs with
  | [] => Some b
  | o :: outputs =>
      b ← out_edges_finished finish (GetOutEdges (node_at (graph_ b) o)) b;
      outputs_finished finish outputs b
  end.

(** [Plan::EdgeFinished]; [None] is a run that needs more fuel, or a failed
    assertion. *)
Fixpoint EdgeFinished (fuel : nat) (edge : EdgeId) (result : EdgeResult)
    (b : Build) : option Build :=
  match fuel with
  | O => None
  | S fuel =>
      match want_ (plan_ b) !! edge with
      | None => None
      | Some want =>
          let directly_wanted := negb (bool_decide (want = kWantNothing)) in
          (* See if this job frees up any delayed jobs. *)
          let pools := if directly_wanted
                       then PoolEdgeFinished edge (pools_ b) else pools_ b in
          let '(pools, ready) :=
            RetrieveReadyEdges edge pools (ready_ (plan_ b)) in
          let p := plan_ b in
          let b := mkBuild (mkPlan (want_ p) ready (command_edges_ p)
                              (wanted_edges_ p))
                     (graph_ b) pools (changes_ b) in
          (* The rest of this function only applies to successful
             commands. *)
          if negb (bool_decide (result = kEdgeSucceeded)) then Some b
          else
            let b := if directly_wanted then add_wanted_edges (-1) b else b in
            let b := with_want (delete edge (want_ (plan_ b))) b in
            let b := with_graph
                       (update_edge edge (with_outputs_ready true) (graph_ b))
                       b in
            (* Check off any nodes we were waiting for with this edge. *)
            outputs_finished (fun oe => EdgeFinished fuel oe kEdgeSucceeded)
              (outputs_ (edge_at (graph_ b) edge)) b
      end
  end.

(** [Plan::NodeFinished]. *)
Definition NodeFinished (fuel : nat) (node : NodeId) (b : Build)
    : option Build :=
  out_edges_finished (fun oe => EdgeFinished fuel oe kEdgeSucceeded)
    (GetOutEdges (node_at (graph_ b) node)) b.

(** The loop of [CleanNode] over the outputs of a clean edge, by the function
    [clean] for the recursive call. *)
Fixpoint clean_outputs (clean : NodeId -> Build -> option (bool * Build))
    (outputs : list NodeId) (b : Build) : option (bool * Build) :=
  match outputs with
  | [] => Some (true, b)
  | o :: outputs =>
      match clean o b with
      | None => None
      | Some (ok, b) =>
          if negb ok then Some (false, b) else clean_outputs clean outputs b
      end
  end.

(** The most recent of the inputs [ins], as [CleanNode] recomputes it. *)
Definition most_recent (w : Scan) (ins : list NodeId) : option NodeId :=
  foldl (fun most_recent_input i =>
           match most_recent_input with
           | None => Some i
           | Some m => if mtime_ (node_at w m) <? mtime_ (node_at w i)
                       then Some i else most_recent_input
           end) None ins.

(** The loop of [CleanNode] over the out-edges of the node. *)
Fixpoint clean_out_edges (clean : NodeId -> Build -> option (bool * Build))
    (out_edges : list EdgeId) (b : Build) : option (bool * Build) :=
  match out_edges with
  | [] => Some (true, b)
  | oe :: out_edges =>
      let w := graph_ b in
      let e := edge_at w oe in
      match want_ (plan_ b) !! oe with
      | None | Some kWantNothing =>
          (* Don't process edges that we don't actually want. *)
          clean_out_edges clean out_edges b
      | Some _ =>
          if deps_missing_ e
          then (* Don't attempt to clean an edge if it failed to load
                  deps. *)
               clean_out_edges clean out_edges b
          else if IsPhonyOutput e
          then (* No need to clean a phony output edge, as it's always
                  dirty. *)
               clean_out_edges clean out_edges b
          else
            (* If all non-order-only inputs for this edge are now clean, we
               might have changed the dirty state of the outputs. *)
            let ins := take (length (inputs_ e) - order_only_deps_ e)
                         (inputs_ e) in
            if forallb (fun i => negb (dirty_ (node_at w i))) ins then
              (* Recompute most_recent_input. *)
              let most_recent_input := most_recent w ins in
              (* Now, this edge is dirty if any of the outputs are dirty.
                 If the edge isn't dirty, clean the outputs and mark the
                 edge as not wanted. *)
              let '(ok, outputs_dirty) :=
                RecomputeOutputsDirty build_log oe most_recent_input false w in
              if negb ok then Some (false, b)
              else if negb outputs_dirty then
                match clean_outputs clean (outputs_ e) b with
                | None => None
                | Some (false, b) => Some (false, b)
                | Some (true, b) =>
                    let b := with_want (<[oe := kWantNothing]>
                                          (want_ (plan_ b))) b in
                    let b := record_change (Demoted oe (is_phony e)) b in
                    let b := add_wanted_edges (-1) b in
                    let b := if negb (is_phony e)
                             then add_command_edges (-1) b else b in
                    clean_out_edges clean out_edges b
                end
              else clean_out_edges clean out_edges b
            else clean_out_edges clean out_edges b
      end
  end.

(** [Plan::CleanNode]; [None] is a run that needs more fuel. *)
Fixpoint CleanNode (fuel : nat) (node : NodeId) (b : Build)
    : option (bool * Build) :=
  match fuel with
  | O => None
  | S fuel =>
      let b := with_graph (set_dirty node false (graph_ b)) b in
      clean_out_edges (CleanNode fuel)
        (GetOutEdges (node_at (graph_ b) node)) b
  end.

(** What is done to a plan between [Plan::Plan] and the end of the build:
    the calls of the builder, and the changes to the graph made by others. *)
Inductive PlanCall :=
| CallAddTarget (node : NodeId)
| CallFindWork
| CallEdgeFinished (edge : EdgeId) (result : EdgeResult)
| CallCleanNode (node : NodeId)
| GraphChanged (w : Scan).

Definition plan_call (fuel : nat) (c : PlanCall) (b : Build) : option Build :=
  match c with
  | CallAddTarget node => snd <$> AddTarget fuel node b
  | CallFindWork => Some (FindWork b).2
  | CallEdgeFinished edge result => EdgeFinished fuel edge result b
  | CallCleanNode node => snd <$> CleanNode fuel node b
  | GraphChanged w => Some (with_graph w b)
  end.

Fixpoint plan_calls (fuel : nat) (calls : list PlanCall) (b : Build)
    : option Build :=
  match calls with
  | [] => Some b
  | c :: calls => b ← plan_call fuel c b; plan_calls fuel calls b
  end.

Definition new_Build (w : Scan) (pools : Pools) : Build :=
  mkBuild new_Plan w pools [].

End Plan.

Arguments mkBuild {Pools} _ _ _ _.
Arguments plan_ {Pools} _.
Arguments graph_ {Pools} _.
Arguments pools_ {Pools} _.
Arguments changes_ {Pools} _.
Arguments new_Build {Pools} _ _.

(** The pools of a build in which every edge is in the default pool, which
    never delays an edge. *)
Section NoPools.

Variable build_log : option BuildLog.

Definition free_AddTarget : nat -> NodeId -> Build unit
                            -> option (bool * Build unit) :=
  AddTarget unit (fun _ _ => false) (fun _ p => p) (fun _ p r => (p, r))
    (fun _ p => p).

Definition free_EdgeFinished : nat -> EdgeId -> EdgeResult -> Build unit
                               -> option (Build unit) :=
  EdgeFinished unit (fun _ _ => false) (fun _ p => p) (fun _ p r => (p, r))
    (fun _ p => p) (fun _ p => p).

Definition free_CleanNode : nat -> NodeId -> Build unit
                            -> option (bool * Build unit) :=
  CleanNode unit (fun _ => false) build_log.

Definition free_plan_calls : nat -> list PlanCall -> Build unit
                             -> option (Build unit) :=
  plan_calls unit (fun _ _ => false) (fun _ p => p) (fun _ p r => (p, r))
    (fun _ p => p) (fun _ p => p) (fun _ => false) build_log.

End NoPools.

Definition with_out_edges (l : list EdgeId) (n : Node) : Node :=
  mkNode (path_ n) (mtime_ n) (dirty_ n) (precomputed_mtime_ n)
    (node_precomputed_dirtiness_ n) (in_edge_ n) l (dep_scan_out_edges_ n).

(** [build a: cat src] and [build all: phony a] after a scan that found [a]
    out of date: [a] and [all] are dirty and no edge is ready. *)
Definition plan_graph : Scan :=
  mkScan [with_out_edges [0%nat] (graph_node "src" None);
          with_dirty true (with_out_edges [1%nat] (graph_node "a" (Some 0%nat)));
          with_dirty true (graph_node "all" (Some 1%nat))]
         [with_outputs_ready false (graph_edge cat_rule [0%nat] [1%nat]);
          with_outputs_ready false (graph_edge kPhonyRule [1%nat] [2%nat])]
         [] "".

(** What the counter of command edges is off by. *)
Definition command_balance {Pools : Type} (b : Build Pools) : Z :=
  command_edges_ (plan_ b) - promoted_commands (changes_ b)
  + demoted_commands (changes_ b).

(** The plan of [plan_graph] after [AddTarget(all)], and after the restat
    edge of [a] left [a] as it was and [CleanNode(a)] was called. *)
Definition plan_added : option (Build unit) :=
  free_plan_calls None 5 [CallAddTarget 2%nat] (new_Build plan_graph tt).

Definition plan_cleaned : option (Build unit) :=
  free_plan_calls None 5 [CallAddTarget 2%nat; CallCleanNode 1%nat]
    (new_Build plan_graph tt).

(** Two builds with the same counters and the same record of changes. *)
Definition same_counters {Pools : Type} (b b' : Build Pools) : Prop :=
  command_edges_ (plan_ b') = command_edges_ (plan_ b) /\
  wanted_edges_ (plan_ b') = wanted_edges_ (plan_ b) /\
  changes_ b' = changes_ b.

(** What collecting and precomputing keep of a graph: its size, the
    in-edges, the inputs, the marks, and the flags of the nodes that are
    collected already. *)
Record shape_kept (w w' : Scan) : Prop := {
  shape_nodes : length (nodes_ w') = length (nodes_ w);
  shape_edges : length (edges_ w') = length (edges_ w);
  shape_in_edge : forall n : NodeId,
    in_edge_ (node_at w' n) = in_edge_ (node_at w n);
  shape_inputs : forall e : EdgeId,
    inputs_ (edge_at w' e) = inputs_ (edge_at w e);
  shape_mark : forall e : EdgeId, mark_ (edge_at w' e) = mark_ (edge_at w e);
  shape_collected : forall n : NodeId,
    node_precomputed_dirtiness_ (node_at w n) = true ->
    node_precomputed_dirtiness_ (node_at w' n) = true
}.

(** The inputs of the edges and the nodes of the deps log are nodes of the
    graph. *)
Definition ids_in_range (deps_log : DepsLog) (w : Scan) : Prop :=
  (forall (e : EdgeId) (i : NodeId),
     i ∈ inputs_ (edge_at w e) -> (i < length (nodes_ w))%nat) /\
  (forall (n : NodeId) (deps : Deps) (i : NodeId),
     GetDeps deps_log n = Some deps -> i ∈ deps_nodes deps ->
     (i < length (nodes_ w))%nat).

(** The nodes [CollectPrecomputeLists] has yet to collect: the bound on the
    depth of its recursion. *)
Definition uncollected (w : Scan) : nat :=
  length (filter (fun n => node_precomputed_dirtiness_ (node_at w n) = false)
            (seq 0 (length (nodes_ w)))).

(** ** What the loader of implicit dependencies keeps of the nodes

    The nodes stay, with their paths; a node that has an in-edge keeps
    having one, and the consumers the dependency scan found for a node stay
    on its list. *)
Record deps_kept (w w' : Scan) : Prop := {
  deps_kept_nodes : (length (nodes_ w) <= length (nodes_ w'))%nat;
  deps_kept_path : forall n : NodeId,
    (n < length (nodes_ w))%nat -> path_ (node_at w' n) = path_ (node_at w n);
  deps_kept_in_edge : forall n : NodeId,
    is_Some (in_edge_ (node_at w n)) -> is_Some (in_edge_ (node_at w' n));
  deps_kept_consumers : forall (n : NodeId) (e : EdgeId),
    e ∈ dep_scan_out_edges_ (node_at w n) ->
    e ∈ dep_scan_out_edges_ (node_at w' n)
}.

(** ** The lists of [CollectPrecomputeLists]

    The lists hold no node and no edge twice, and what they hold has its
    flag set. *)
Record collected_inv (c : Collected) : Prop := {
  nodes_once : NoDup (all_nodes c);
  edges_once : NoDup (all_edges c);
  nodes_flagged : forall n : NodeId,
    n ∈ all_nodes c ->
    node_precomputed_dirtiness_ (node_at (collected_scan c) n) = true;
  edges_flagged : forall e : EdgeId,
    e ∈ all_edges c ->
    precomputed_dirtiness_ (edge_at (collected_scan c) e) = true
}.

(** What a run of [CollectPrecomputeLists] from [c] to [c'] does: the lists
    grow at their ends, a flag is set only for what joins a list, and
    everything that joins a list brings along what hangs on it: the in-edge
    of a node, the inputs of an edge, and the nodes the deps log has for a
    node. *)
Record collects (deps_log : DepsLog) (c c' : Collected) : Prop := {
  collects_shape : shape_kept (collected_scan c) (collected_scan c');
  collects_edge_flag : forall e : EdgeId,
    precomputed_dirtiness_ (edge_at (collected_scan c) e) = true ->
    precomputed_dirtiness_ (edge_at (collected_scan c') e) = true;
  collects_inv : collected_inv c -> collected_inv c';
  collects_nodes : all_nodes c `prefix_of` all_nodes c';
  collects_edges : all_edges c `prefix_of` all_edges c';
  collects_new_node : forall n : NodeId,
    node_precomputed_dirtiness_ (node_at (collected_scan c') n) = true ->
    node_precomputed_dirtiness_ (node_at (collected_scan c) n) = true
    \/ n ∈ all_nodes c';
  collects_new_edge : forall e : EdgeId,
    precomputed_dirtiness_ (edge_at (collected_scan c') e) = true ->
    precomputed_dirtiness_ (edge_at (collected_scan c) e) = true
    \/ e ∈ all_edges c';
  collects_in_edge : forall (n : NodeId) (e : EdgeId),
    n ∈ all_nodes c' -> n ∉ all_nodes c ->
    in_edge_ (node_at (collected_scan c') n) = Some e ->
    precomputed_dirtiness_ (edge_at (collected_scan c') e) = true;
  collects_inputs : forall (e : EdgeId) (i : NodeId),
    e ∈ all_edges c' -> e ∉ all_edges c ->
    i ∈ inputs_ (edge_at (collected_scan c') e) ->
    node_precomputed_dirtiness_ (node_at (collected_scan c') i) = true;
  collects_deps : forall (n : NodeId) (deps : Deps) (i : NodeId),
    n ∈ all_nodes c' -> n ∉ all_nodes c ->
    GetDeps deps_log n = Some deps -> i ∈ deps_nodes deps ->
    node_precomputed_dirtiness_ (node_at (collected_scan c') i) = true
}.

(** The ids the collecting pass follows are ids of the graph. *)
Definition collect_range (deps_log : DepsLog) (w : Scan) : Prop :=
  ids_in_range deps_log w /\
  forall (n : NodeId) (e : EdgeId),
    in_edge_ (node_at w n) = Some e -> (e < length (edges_ w))%nat.

(** ** What the calls on a plan keep

    The edges of the graph that have no entry in [want_]: the bound on the
    depth of the recursion of [AddSubTarget]. *)
Definition unplanned {Pools : Type} (b : Build Pools) : nat :=
  length (filter (fun e => want_ (plan_ b) !! e = None)
            (seq 0 (length (edges_ (graph_ b))))).

(** [AddSubTarget] leaves the nodes and the edges of the graph alone and
    takes no entry out of [want_]. *)
Record plan_grows {Pools : Type} (b b' : Build Pools) : Prop := {
  plan_grows_nodes : nodes_ (graph_ b') = nodes_ (graph_ b);
  plan_grows_edges : edges_ (graph_ b') = edges_ (graph_ b);
  plan_grows_want : forall e : EdgeId,
    is_Some (want_ (plan_ b) !! e) -> is_Some (want_ (plan_ b') !! e)
}.

(** The in-edge of [i], when its outputs are not ready, is in the plan. *)
Definition planned {Pools : Type} (b : Build Pools) (i : NodeId) : Prop :=
  forall e : EdgeId,
    in_edge_ (node_at (graph_ b) i) = Some e ->
    outputs_ready_ (edge_at (graph_ b) e) = false ->
    is_Some (want_ (plan_ b) !! e).

(** The plan holds, with every edge it holds, the in-edges of the inputs
    of that edge whose outputs are not ready. *)
Definition plan_closed {Pools : Type} (b : Build Pools) : Prop :=
  forall (e : EdgeId) (i : NodeId),
    is_Some (want_ (plan_ b) !! e) ->
    i ∈ inputs_ (edge_at (graph_ b) e) -> planned b i.

(** The error of [AddSubTarget]: a leaf that is dirty. *)
Definition missing_leaf (w : Scan) (err : string) : Prop :=
  exists (n : NodeId) (dependent : option NodeId),
    in_edge_ (node_at w n) = None /\ dirty_ (node_at w n) = true /\
    err = "'" +:+ path_ (node_at w n) +:+ "'"
          +:+ match dependent with
              | Some d => ", needed by '" +:+ path_ (node_at w d) +:+ "',"
              | None => ""
              end
          +:+ " missing and no known rule to make it".

(** What a call of [AddSubTarget] on [node] that returns guarantees. *)
Record add_post {Pools : Type} (nodes : list NodeId) (b : Build Pools)
    (ok : bool) (b' : Build Pools) : Prop := {
  add_grows : plan_grows b b';
  add_sticky : err_ (graph_ b) <> "" -> err_ (graph_ b') <> "";
  add_planned : err_ (graph_ b') = "" ->
    forall i : NodeId, i ∈ nodes -> planned b' i;
  add_closed : err_ (graph_ b') = "" ->
    forall (e : EdgeId) (i : NodeId),
      want_ (plan_ b) !! e = None -> is_Some (want_ (plan_ b') !! e) ->
      i ∈ inputs_ (edge_at (graph_ b') e) -> planned b' i;
  add_error : err_ (graph_ b) = "" -> err_ (graph_ b') <> "" ->
    ok = false /\ missing_leaf (graph_ b') (err_ (graph_ b'))
}.

(** The number of entries of [want_] that are wanted themselves. *)
Definition wanted_count {Pools : Type} (b : Build Pools) : Z :=
  Z.of_nat (size (filter (fun entry : EdgeId * Want =>
                            entry.2 <> kWantNothing) (want_ (plan_ b)))).

(** What [EdgeFinished] and [ScheduleWork] do to a build: the counter of
    command edges, the error and the nodes stay; of an edge only
    [outputs_ready_] changes, and only to true; no entry joins [want_], an
    entry changes only from [kWantToStart] to [kWantToFinish], and an entry
    leaves only when the outputs of its edge are ready. *)
Record plan_finishes {Pools : Type} (b b' : Build Pools) : Prop := {
  finishes_nodes : nodes_ (graph_ b') = nodes_ (graph_ b);
  finishes_err : err_ (graph_ b') = err_ (graph_ b);
  finishes_edges : length (edges_ (graph_ b')) = length (edges_ (graph_ b));
  finishes_edge : forall e : EdgeId,
    edge_at (graph_ b') e = edge_at (graph_ b) e \/
    edge_at (graph_ b') e = with_outputs_ready true (edge_at (graph_ b) e);
  finishes_want : forall (e : EdgeId) (want' : Want),
    want_ (plan_ b') !! e = Some want' ->
    want_ (plan_ b) !! e = Some want' \/
    (want_ (plan_ b) !! e = Some kWantToStart /\ want' = kWantToFinish);
  finishes_done : forall e : EdgeId,
    (e < length (edges_ (graph_ b)))%nat ->
    is_Some (want_ (plan_ b) !! e) -> want_ (plan_ b') !! e = None ->
    outputs_ready_ (edge_at (graph_ b') e) = true;
  finishes_commands : command_edges_ (plan_ b') = command_edges_ (plan_ b);
  finishes_count :
    wanted_edges_ (plan_ b') - wanted_count b'
    = wanted_edges_ (plan_ b) - wanted_count b
}.

(** What [CleanNode] does to a build: the edges stay; of a node only the
    dirty flag changes, and only to false; no entry joins or leaves [want_],
    and an entry changes only from wanted to [kWantNothing], for an edge
    that loaded its dependencies and is not a phony-output edge; the
    counters do not go up, and the error stays. *)
Record plan_cleans {Pools : Type} (IsPhonyOutput : Edge -> bool)
    (b b' : Build Pools) : Prop := {
  cleans_edges : edges_ (graph_ b') = edges_ (graph_ b);
  cleans_err : err_ (graph_ b') = err_ (graph_ b);
  cleans_nodes : length (nodes_ (graph_ b')) = length (nodes_ (graph_ b));
  cleans_node : forall n : NodeId,
    node_at (graph_ b') n = node_at (graph_ b) n \/
    node_at (graph_ b') n = with_dirty false (node_at (graph_ b) n);
  cleans_want : forall e : EdgeId,
    want_ (plan_ b') !! e = want_ (plan_ b) !! e \/
    (want_ (plan_ b') !! e = Some kWantNothing /\
     is_Some (want_ (plan_ b) !! e) /\
     deps_missing_ (edge_at (graph_ b) e) = false /\
     IsPhonyOutput (edge_at (graph_ b) e) = false);
  cleans_ready : ready_ (plan_ b') = ready_ (plan_ b);
  cleans_wanted : wanted_edges_ (plan_ b') <= wanted_edges_ (plan_ b);
  cleans_commands : command_edges_ (plan_ b') <= command_edges_ (plan_ b)
}.

(** ** The out-edges of a node

    [Node::AddOutEdge] pushes the edge on the front of the lock-free list of
    the node: the compare-and-exchange loop ends with the new cell as the
    head, in front of whatever the head was when the exchange took place.
    [Node::has_out_edge] tests the head. *)
Definition AddOutEdge (edge : EdgeId) (n : Node) : Node :=
  with_out_edges (edge :: out_edges_ n) n.

Definition has_out_edge (n : Node) : bool :=
  negb (bool_decide (out_edges_ n = [])).

(** ** [DryRunCommandRunner]

    The runner is its queue [finished_]; [WaitForCommand] writes the status
    and the edge of the result it is given and leaves the output alone. *)

(** Modelled from the spec: [CommandRunner::Result] and [ExitStatus] are
    declared in headers that are not among the sources; the result has the
    fields the sources use. *)
Inductive ExitStatus := ExitSuccess | ExitFailure | ExitInterrupted.

Record CommandResult := mkCommandResult {
  result_edge : option EdgeId;
  result_status : ExitStatus;
  result_output : string
}.

Definition DryRunCommandRunner : Type := list EdgeId.

Definition DryRun_CanRunMore (runner : DryRunCommandRunner) : bool := true.

Definition DryRun_StartCommand (edge : EdgeId) (runner : DryRunCommandRunner)
    : bool * DryRunCommandRunner :=
  (true, runner ++ [edge]).

Definition DryRun_WaitForCommand (result : CommandResult)
    (runner : DryRunCommandRunner)
    : bool * CommandResult * DryRunCommandRunner :=
  match runner with
  | [] => (false, result, runner)
  | edge :: rest =>
      (true, mkCommandResult (Some edge) ExitSuccess (result_output result),
       rest)
  end.

(** [count] calls of [WaitForCommand] in a row, as long as they succeed:
    the edges they report, and the runner they leave. *)
Fixpoint DryRun_wait (count : nat) (result : CommandResult)
    (runner : DryRunCommandRunner)
    : list (option EdgeId * ExitStatus) * DryRunCommandRunner :=
  match count with
  | O => ([], runner)
  | S count =>
      let '(ok, result, runner) := DryRun_WaitForCommand result runner in
      if ok then
        let '(reported, runner) := DryRun_wait count result runner in
        ((result_edge result, result_status result) :: reported, runner)
      else ([], runner)
  end.

(** ** [Builder::AddTarget] and [Builder::AddTargets]

    The builder holds the scanner and the plan; [b] is the plan with the
    graph, whose [err_] is the [*err] of the caller.  The plan is given an
    error string of its own, [plan_err], for every target. *)
Section BuilderTargets.

Context {D : Type} `{DiskInterface D}.
Variable disk_interface_ : D.
Variable build_log : option BuildLog.
Variable deps_log : DepsLog.
Variable DepfileParser_Parse : string -> DepfileParse.
Variable CanonicalizePath : string -> Canonicalize.
Variable HashCommand : string -> Z.
Variable kEvalRecursionLimit : nat.
Variable shell_escape : string -> string.
Variable EvaluateBindingInScope : Edge -> list Token -> string.
Variable ScopeEvaluateVariable : EvalPhase -> Edge -> string -> string.
Variable GetOptimalThreadPoolJobCount : nat.
Variable Pools : Type.
Variable ShouldDelayEdge : EdgeId -> Pools -> bool.
Variable DelayEdge : EdgeId -> Pools -> Pools.
Variable RetrieveReadyEdges :
  EdgeId -> Pools -> gset EdgeId -> Pools * gset EdgeId.
Variable EdgeScheduled : EdgeId -> Pools -> Pools.

(** The loop of [AddTargets] over the nodes, once the scan succeeded. *)
Fixpoint add_targets (fuel : nat) (nodes : list NodeId) (b : Build Pools)
    : option (Outcome (Build Pools)) :=
  match nodes with
  | [] => Some (Returned true b)
  | node :: nodes =>
      let err := err_ (graph_ b) in
      let plan_err := "" in
      match AddTarget Pools ShouldDelayEdge DelayEdge RetrieveReadyEdges
              EdgeScheduled fuel node
              (with_graph Pools (set_err plan_err (graph_ b)) b) with
      | None => None
      | Some (ok, b) =>
          let plan_err := err_ (graph_ b) in
          if negb ok && negb (String.eqb plan_err "")
          then Some (Returned false b) (* *err = plan_err *)
          else
            (* Added a target that is already up-to-date; not really an
               error. *)
            add_targets fuel nodes (with_graph Pools (set_err err (graph_ b)) b)
      end
  end.

Definition Builder_AddTargets (fuel : nat) (nodes : list NodeId)
    (b : Build Pools) : option (Outcome (Build Pools)) :=
  match RecomputeNodesDirty disk_interface_ build_log deps_log
          DepfileParser_Parse CanonicalizePath HashCommand kEvalRecursionLimit
          shell_escape EvaluateBindingInScope ScopeEvaluateVariable
          GetOptimalThreadPoolJobCount fuel nodes (graph_ b) with
  | None => None
  | Some (FatalExit msg) => Some (FatalExit msg)
  | Some (Returned false c) =>
      Some (Returned false (with_graph Pools (collected_scan c) b))
  | Some (Returned true c) =>
      add_targets fuel nodes (with_graph Pools (collected_scan c) b)
  end.

(** [Builder::AddTarget] by name: the node it returns, or [None] for the
    null pointer. *)
Definition Builder_AddTarget (fuel : nat) (name : string) (b : Build Pools)
    : option (Outcome (option NodeId * Build Pools)) :=
  match LookupNode name (graph_ b) with
  | None =>
      Some (Returned false
              (None,
               with_graph Pools
                 (set_err ("unknown target: '" +:+ name +:+ "'") (graph_ b))
                 b))
  | Some node =>
      match Builder_AddTargets fuel [node] b with
      | None => None
      | Some (FatalExit msg) => Some (FatalExit msg)
      | Some (Returned ok b) =>
          Some (Returned ok (if ok then Some node else None, b))
      end
  end.

End BuilderTargets.

(** ** [Node::PathDecanonicalized]

    [win32] says whether [_WIN32] is defined.  The loop finds the slashes
    with [strchr], which stops at the first NUL of the string, and [mask] is
    a [uint64_t]. *)
Fixpoint decanonicalize (slash_bits mask : Z) (path : string) : string :=
  match path with
  | "" => ""
  | String c rest =>
      if Ascii.eqb c "000" then path
      else if Ascii.eqb c "/"
      then String (if negb (Z.land slash_bits mask =? 0) then "092"%char
                   else c)
             (decanonicalize slash_bits (Z.shiftl mask 1 mod 2 ^ 64) rest)
      else String c (decanonicalize slash_bits mask rest)
  end.

Definition Node_PathDecanonicalized (win32 : bool) (path : string)
    (slash_bits : Z) : string :=
  let result := path in
  if win32 then decanonicalize slash_bits 1 result else result.

(** The number of slashes among the first [i] characters of [path]. *)
Fixpoint slashes_before (path : string) (i : nat) : nat :=
  match i, path with
  | S i, String c rest =>
      ((if Ascii.eqb c "/" then 1 else 0) + slashes_before rest i)%nat
  | _, _ => 0%nat
  end.

(** A disk for [deps_graph depfile_rule false]: the object is newer than its
    source, and its depfile names a header that is not in the manifest. *)
Definition header_disk : SimDisk :=
  {[ "src" := SimRegular 100 ""; "obj" := SimRegular 101 "";
     "obj.d" := SimRegular 101 "obj: hdr" ]}.

(** A disk on which [out] of [null_build_graph] is older than [in]. *)
Definition stale_disk : SimDisk :=
  {[ "in" := SimRegular 102 ""; "out" := SimRegular 101 "" ]}.

Definition sim_AddTargets : nat -> list NodeId -> Build unit
                            -> option (Outcome (Build unit)) :=
  Builder_AddTargets stale_disk None ∅ (split_depfile "") Canonical
    (fun s => Z.of_nat (String.length s)) 16 id (fun _ => literal_text)
    (fun _ _ _ => "") 1 unit (fun _ _ => false) (fun _ p => p)
    (fun _ p r => (p, r)) (fun _ p => p).

(** A rule whose [command] refers to fifteen variables without references
    and then to [y], which refers to itself. *)
Definition wide_rule : Rule :=
  UserRule "wide"
    (list_to_map
       [("command",
         [Special "v1"; Special "v2"; Special "v3"; Special "v4";
          Special "v5"; Special "v6"; Special "v7"; Special "v8";
          Special "v9"; Special "v10"; Special "v11"; Special "v12";
          Special "v13"; Special "v14"; Special "v15"; Special "y"]);
        ("v1", [Literal "1"]); ("v2", [Literal "2"]); ("v3", [Literal "3"]);
        ("v4", [Literal "4"]); ("v5", [Literal "5"]); ("v6", [Literal "6"]);
        ("v7", [Literal "7"]); ("v8", [Literal "8"]); ("v9", [Literal "9"]);
        ("v10", [Literal "10"]); ("v11", [Literal "11"]);
        ("v12", [Literal "12"]); ("v13", [Literal "13"]);
        ("v14", [Literal "14"]); ("v15", [Literal "15"]);
        ("y", [Special "y"])]).

Definition wide_edge : Edge :=
  sample_edge wide_rule [1%nat] (sample_info false false 0).

(** The disk after the [RemoveFile] calls among [events], in their order. *)
Definition replay_removals {D : Type} `{DiskInterface D}
    (events : list CleanupEvent) (disk : D) : D :=
  foldl (fun disk event => match event with
                           | RemoveFileCall path => RemoveFile disk path
                           | StatusError _ => disk
                           end) disk events.

(** ** Dependency-scan info computed on demand *)

Section OnDemand.

Context {D : Type} `{DiskInterface D}.
Variable disk_interface_ : D.
Variable deps_log : DepsLog.
Variable DepfileParser_Parse : string -> DepfileParse.
Variable CanonicalizePath : string -> Canonicalize.
Variable HashCommand : string -> Z.
Variable kEvalRecursionLimit : nat.
Variable shell_escape : string -> string.
Variable EvaluateBindingInScope : Edge -> list Token -> string.
Variable ScopeEvaluateVariable : EvalPhase -> Edge -> string -> string.

(** [Edge::ComputeDepScanInfo], through which the accessors [IsRestat],
    [IsGenerator], [UsesDepsLog], [UsesDepfile] and [GetCommandHash] of the
    source get the info they read: the edge with its info computed, or the
    message of the [Fatal] exit.  On an edge whose info is valid it returns
    the edge as it is, and the accessors above are what the source's
    return. *)
Definition ComputeDepScanInfo (w : Scan) (edge : Edge) : Edge + string :=
  let err := "" in
  let '(ok, err, edge) :=
    PrecomputeDepScanInfo HashCommand kEvalRecursionLimit shell_escape
      EvaluateBindingInScope ScopeEvaluateVariable w edge err in
  if negb ok then inr err else inl edge.

(** [ImplicitDepLoader::LoadDeps] on an edge whose info need not be valid
    yet: [edge->UsesDepsLog()], the first thing it does, computes the info,
    and [LoadDeps] is what follows. *)
Definition LoadDeps_computing (edge : EdgeId) (w : Scan) : Outcome Scan :=
  match ComputeDepScanInfo w (edge_at w edge) with
  | inr msg => FatalExit msg
  | inl e =>
      LoadDeps disk_interface_ deps_log DepfileParser_Parse CanonicalizePath
        kEvalRecursionLimit shell_escape EvaluateBindingInScope
        ScopeEvaluateVariable edge (update_edge edge (fun _ => e) w)
  end.

End OnDemand.

(** ** The transitions of the entries of [want_]

    An entry of [want_] of an edge the plan wants itself. *)
Definition wanted_entry (want : option Want) : bool :=
  match want with
  | Some kWantToStart | Some kWantToFinish => true
  | Some kWantNothing | None => false
  end.

(** What became of the entries from one state of [want_] to a later one.
    [promoted]: the number of edges of [w] that are not phony and are wanted
    in [after], while in [before] they had no entry or [kWantNothing].
    [demoted]: the number of edges that are not phony, were wanted in
    [before] and are [kWantNothing] in [after]. *)
Definition promoted (w : Scan) (before after : gmap EdgeId Want) : Z :=
  Z.of_nat (size (filter (fun entry : EdgeId * Want =>
                            entry.2 <> kWantNothing /\
                            wanted_entry (before !! entry.1) = false /\
                            is_phony (edge_at w entry.1) = false) after)).

Definition demoted (w : Scan) (before after : gmap EdgeId Want) : Z :=
  Z.of_nat (size (filter (fun entry : EdgeId * Want =>
                            entry.2 = kWantNothing /\
                            wanted_entry (before !! entry.1) = true /\
                            is_phony (edge_at w entry.1) = false) after)).

(** [e'] consumes an output of [e]; a graph in which no edge consumes, over
    any number of edges, what it produces itself. *)
Definition edge_next (w : Scan) (e e' : EdgeId) : Prop :=
  exists o : NodeId,
    o ∈ outputs_ (edge_at w e) /\ e' ∈ GetOutEdges (node_at w o).

Definition plan_acyclic (w : Scan) : Prop :=
  forall e : EdgeId, ~ tc (edge_next w) e e.

Section Transitions.

Variable Pools : Type.
Variable ShouldDelayEdge : EdgeId -> Pools -> bool.
Variable DelayEdge : EdgeId -> Pools -> Pools.
Variable RetrieveReadyEdges :
  EdgeId -> Pools -> gset EdgeId -> Pools * gset EdgeId.
Variable EdgeScheduled : EdgeId -> Pools -> Pools.
Variable PoolEdgeFinished : EdgeId -> Pools -> Pools.
Variable IsPhonyOutput : Edge -> bool.
Variable build_log : option BuildLog.

(** The calls [calls] made one after the other as [plan_calls] makes them,
    with the sum over the calls of the edges promoted less the edges demoted
    between the state of [want_] before a call and the state after it. *)
Fixpoint counted_calls (fuel : nat) (calls : list PlanCall) (b : Build Pools)
    : option (Z * Build Pools) :=
  match calls with
  | [] => Some (0, b)
  | c :: calls =>
      b' ← plan_call Pools ShouldDelayEdge DelayEdge RetrieveReadyEdges
             EdgeScheduled PoolEdgeFinished IsPhonyOutput build_log fuel c b;
      r ← counted_calls fuel calls b';
      Some (promoted (graph_ b') (want_ (plan_ b)) (want_ (plan_ b'))
            - demoted (graph_ b') (want_ (plan_ b)) (want_ (plan_ b'))
            + r.1, r.2)
  end.

End Transitions.

(** From [b0] to [b] edges were only promoted, and the counter of command
    edges went up by their number; the edges of the graph are the same. *)
Record adds_from {Pools : Type} (b0 b : Build Pools) : Prop := {
  adds_count :
    command_edges_ (plan_ b)
    = command_edges_ (plan_ b0)
      + promoted (graph_ b0) (want_ (plan_ b0)) (want_ (plan_ b));
  adds_kept : forall e : EdgeId,
    wanted_entry (want_ (plan_ b0) !! e) = true ->
    wanted_entry (want_ (plan_ b) !! e) = true;
  adds_edges : edges_ (graph_ b) = edges_ (graph_ b0)
}.

(** Two graphs in which the edges have the same outputs and the nodes the
    same out-edges. *)
Definition same_links (w w' : Scan) : Prop :=
  (forall e : EdgeId, outputs_ (edge_at w' e) = outputs_ (edge_at w e)) /\
  (forall n : NodeId, GetOutEdges (node_at w' n) = GetOutEdges (node_at w n)).

(** What a run of [CleanNode] from [b] to [b'] does on the graph [w], started
    on the out-edges [from]: it changes entries of [want_] only for edges
    that are in [from] or consume, over any number of edges, an output of an
    edge in [from]; and if the counter of command edges went down from a
    state [b0] to [b] by the number of edges demoted, it went down from [b0]
    to [b'] by the number of edges demoted. *)
Definition demoted_from {Pools : Type} (b0 b : Build Pools) : Prop :=
  command_edges_ (plan_ b)
  = command_edges_ (plan_ b0)
    - demoted (graph_ b0) (want_ (plan_ b0)) (want_ (plan_ b)).

Definition clean_post {Pools : Type} (IsPhonyOutput : Edge -> bool) (w : Scan)
    (from : list EdgeId) (b b' : Build Pools) : Prop :=
  (forall e : EdgeId,
     want_ (plan_ b') !! e <> want_ (plan_ b) !! e ->
     exists e0 : EdgeId, e0 ∈ from /\ rtc (edge_next w) e0 e) /\
  (forall b0 : Build Pools,
     plan_cleans IsPhonyOutput b0 b ->
     demoted_from b0 b -> demoted_from b0 b').

(** * Properties of the embedded program *)

(** ** Output dirtiness *)

Section OutputDirtyFacts.

Variable build_log : option BuildLog.
Implicit Types (edge : Edge) (input output : Node) (hash : Z).

Local Ltac unfold_verdict :=
  unfold RecomputeOutputDirty, RecomputeOutputDirty_explained, restat_entry,
    mtime_clean, LookupByOutput, dirty_because, not_dirty, return_if in *;
  cbn [flow_run mbind Flow_bind flow_bind option_bind fst snd] in *.

(** C1.  A non-phony edge with an existing output older than the most recent
    input: without a restat log entry the output is reported dirty; with one,
    the mtime test compares the entry's mtime, and it is the reason of the
    verdict exactly when the entry's mtime is older than the input's. *)
Theorem RecomputeOutputDirty_older_than_input edge input hash output :
  is_phony edge = false ->
  exists_ output = true ->
  mtime_ output < mtime_ input ->
  match restat_entry build_log edge output with
  | None =>
      RecomputeOutputDirty_explained build_log edge (Some input) hash output
      = dirty_because (ExplainOlderThanInput false (path_ output)
                         (path_ input) (mtime_ output) (mtime_ input))
  | Some entry =>
      (entry_mtime entry < mtime_ input ->
       RecomputeOutputDirty_explained build_log edge (Some input) hash output
       = dirty_because (ExplainOlderThanInput true (path_ output)
                          (path_ input) (entry_mtime entry) (mtime_ input)))
      /\ (mtime_ input <= entry_mtime entry ->
          forall x,
            x ∈ snd (RecomputeOutputDirty_explained build_log edge
                       (Some input) hash output) ->
            is_older_than_input x = false)
  end.
Proof.
  intros Hphony Hex Hold. unfold_verdict. rewrite Hphony, Hex. cbn.
  destruct (Z.ltb_spec (mtime_ output) (mtime_ input)); [|lia].
  destruct (IsRestat edge), build_log as [log|]; cbn;
    try (destruct (Z.ltb_spec (mtime_ output) (mtime_ input)); [done|lia]).
  - destruct (log !! path_ output) as [entry|] eqn:Hentry; cbn.
    + split; intros Hcmp.
      * destruct (Z.ltb_spec (entry_mtime entry) (mtime_ input)); [done|lia].
      * destruct (Z.ltb_spec (entry_mtime entry) (mtime_ input)); [lia|].
        cbn. intros x.
        destruct (negb _ && negb _); cbn;
          [rewrite list_elem_of_singleton; by intros ->|].
        destruct (Z.ltb_spec (entry_mtime entry) (mtime_ input)); [lia|].
        cbn. by rewrite elem_of_nil.
    + destruct (Z.ltb_spec (mtime_ output) (mtime_ input)); [done|lia].
Qed.

End OutputDirtyFacts.

Lemma RecomputeOutputDirty_older_than_input_witness :
  let edge := sample_edge cc_rule [1%nat] (sample_info true false 7) in
  let log : BuildLog := {[ "out" := mkLogEntry 7 200 ]} in
  let input := sample_node "in" 150 None in
  let output := sample_node "out" 100 (Some 0%nat) in
  match restat_entry (Some log) edge output with
  | None =>
      RecomputeOutputDirty_explained (Some log) edge (Some input) 7 output
      = dirty_because (ExplainOlderThanInput false (path_ output)
                         (path_ input) (mtime_ output) (mtime_ input))
  | Some entry =>
      (entry_mtime entry < mtime_ input ->
       RecomputeOutputDirty_explained (Some log) edge (Some input) 7 output
       = dirty_because (ExplainOlderThanInput true (path_ output)
                          (path_ input) (entry_mtime entry) (mtime_ input)))
      /\ (mtime_ input <= entry_mtime entry ->
          forall x,
            x ∈ snd (RecomputeOutputDirty_explained (Some log) edge
                       (Some input) 7 output) ->
            is_older_than_input x = false)
  end.
Proof.
  intros edge log input output.
  apply (RecomputeOutputDirty_older_than_input (Some log) edge input 7 output);
    [reflexivity | reflexivity | cbn; lia].
Defined.

Section CommandHashFacts.

Variable log : BuildLog.
Implicit Types (edge : Edge) (input output : Node) (hash : Z).

Local Ltac unfold_verdict :=
  unfold RecomputeOutputDirty, RecomputeOutputDirty_explained, restat_entry,
    mtime_clean, LookupByOutput, dirty_because, not_dirty, return_if in *;
  cbn [flow_run mbind Flow_bind flow_bind option_bind fst snd] in *.

(** The mtime test lets an mtime-clean output through and hands the entry it
    may have read to the build-log checks, which look the same entry up. *)
Lemma mtime_clean_passes edge most_recent_input hash output :
  is_phony edge = false ->
  exists_ output = true ->
  mtime_clean (Some log) edge most_recent_input output ->
  RecomputeOutputDirty_explained (Some log) edge most_recent_input hash output
  = match log !! path_ output with
    | Some entry =>
        if negb (IsGenerator edge) && negb (hash =? entry_command_hash entry)
        then dirty_because (ExplainCommandLineChanged (path_ output))
        else
          match most_recent_input with
          | Some input =>
              if entry_mtime entry <? mtime_ input
              then dirty_because
                     (ExplainRecordedMtimeOlder (path_ output) (path_ input)
                        (entry_mtime entry) (mtime_ input))
              else not_dirty
          | None => not_dirty
          end
    | None =>
        if negb (IsGenerator edge)
        then dirty_because (ExplainCommandLineNotFound (path_ output))
        else not_dirty
    end.
Proof.
  intros Hphony Hex Hclean. unfold_verdict. rewrite Hphony, Hex. cbn.
  destruct most_recent_input as [input|]; cbn.
  - destruct (Z.ltb_spec (mtime_ output) (mtime_ input)) as [Hlt|Hge]; cbn.
    + destruct Hclean as [?|(entry & Hentry & Hle)]; [lia|].
      unfold restat_entry, LookupByOutput in Hentry.
      destruct (IsRestat edge); cbn in Hentry; [|done]. rewrite Hentry. cbn.
      destruct (Z.ltb_spec (entry_mtime entry) (mtime_ input)); [lia|]. cbn.
      destruct (negb _ && negb _); [done|]. cbn.
      by destruct (Z.ltb_spec (entry_mtime entry) (mtime_ input)); [lia|].
    + destruct (log !! path_ output) as [entry|]; cbn.
      * destruct (negb _ && negb _); [done|]. cbn.
        by destruct (entry_mtime entry <? mtime_ input).
      * by destruct (negb _).
  - destruct (log !! path_ output) as [entry|]; cbn.
    + by destruct (negb _ && negb _).
    + by destruct (negb _).
Qed.

(** C2.  With a build log, a non-phony edge and an existing, mtime-clean
    output: a changed command hash and a missing log entry each make the
    output of a non-generator edge dirty, and neither of the two checks is
    ever the reason of a generator edge's verdict. *)
Theorem RecomputeOutputDirty_command_hash edge most_recent_input hash output :
  is_phony edge = false ->
  exists_ output = true ->
  mtime_clean (Some log) edge most_recent_input output ->
  (forall entry,
      LookupByOutput log (path_ output) = Some entry ->
      IsGenerator edge = false ->
      hash <> entry_command_hash entry ->
      RecomputeOutputDirty_explained (Some log) edge most_recent_input hash
        output
      = dirty_because (ExplainCommandLineChanged (path_ output)))
  /\ (LookupByOutput log (path_ output) = None ->
      IsGenerator edge = false ->
      RecomputeOutputDirty_explained (Some log) edge most_recent_input hash
        output
      = dirty_because (ExplainCommandLineNotFound (path_ output)))
  /\ (IsGenerator edge = true ->
      forall x,
        x ∈ snd (RecomputeOutputDirty_explained (Some log) edge
                   most_recent_input hash output) ->
        is_command_hash_check x = false).
Proof.
  intros Hphony Hex Hclean.
  rewrite (mtime_clean_passes _ _ _ _ Hphony Hex Hclean).
  unfold LookupByOutput. repeat split.
  - intros entry -> -> Hne. cbn.
    by destruct (Z.eqb_spec hash (entry_command_hash entry)).
  - by intros -> ->.
  - intros -> x. cbn. destruct (log !! path_ output) as [entry|].
    + destruct most_recent_input as [input|];
        [destruct (entry_mtime entry <? mtime_ input)|]; cbn;
        rewrite ?list_elem_of_singleton, ?elem_of_nil; by try intros ->.
    + cbn. by rewrite elem_of_nil.
Qed.

End CommandHashFacts.

Lemma RecomputeOutputDirty_command_hash_witness :
  let edge := sample_edge cc_rule [1%nat] (sample_info false false 7) in
  let log : BuildLog := {[ "out" := mkLogEntry 8 200 ]} in
  let input := sample_node "in" 150 None in
  let output := sample_node "out" 200 (Some 0%nat) in
  RecomputeOutputDirty_explained (Some log) edge (Some input) 7 output
  = dirty_because (ExplainCommandLineChanged "out").
Proof.
  intros edge log input output.
  refine (proj1 (RecomputeOutputDirty_command_hash log edge (Some input) 7
                   output _ _ _) (mkLogEntry 8 200) _ _ _);
    [reflexivity | reflexivity | left; cbn; lia
    | reflexivity | reflexivity | cbn; lia].
Defined.

(** ** The cleanup pass of the builder *)

Section CleanupFacts.

Context {D : Type} `{DiskInterface D}.

(** One turn of the loop of the cleanup pass.  For an output of an active
    edge that is not a phony-output edge, an LStat error is logged and
    otherwise ignored: the output is removed exactly when it was not reported to be a directory and
    the edge has a depfile or the recorded mtime differs from what LStat
    returned, [-1] included. *)
Theorem cleanup_output_policy (depfile : string) (o : Node) (disk : D) :
  let r := LStat disk (path_ o) in
  let events := snd (cleanup_output depfile o disk) in
  (StatusError (written "" (stat_err r)) ∈ events <-> stat_mtime r = -1)
  /\ (RemoveFileCall (path_ o) ∈ events <->
      written false (stat_is_dir r) = false /\
      (depfile <> "" \/ mtime_ o <> stat_mtime r))
  /\ fst (cleanup_output depfile o disk)
     = if bool_decide (RemoveFileCall (path_ o) ∈ events)
       then RemoveFile disk (path_ o) else disk.
Proof.
  intros r events. subst events. unfold cleanup_output. fold r.
  destruct (Z.eqb_spec (stat_mtime r) (-1)) as [Herr|Herr];
    destruct (written false (stat_is_dir r));
    destruct (String.eqb_spec depfile "") as [Hd|Hd];
    destruct (Z.eqb_spec (mtime_ o) (stat_mtime r)) as [Hm|Hm];
    cbn -[bool_decide]; (split; [|split]);
    try (rewrite bool_decide_true
           by (rewrite ?elem_of_cons, ?elem_of_nil; intuition congruence));
    try (rewrite bool_decide_false
           by (rewrite ?elem_of_cons, ?elem_of_nil; intuition congruence));
    rewrite ?elem_of_cons, ?elem_of_nil; intuition congruence.
Qed.

End CleanupFacts.


(** ** Variable expansion *)

(** The variable is expanded from its rule binding exactly when the first
    three look-ups of [EvaluateVariable] miss and the fourth hits. *)
Lemma rule_binding_of_Some edge var value :
  rule_binding_of edge var = Some value <->
  is_in_or_in_newline var = false /\ var <> "out" /\
  last_binding edge var = None /\ GetBinding (rule_ edge) var = Some value.
Proof.
  unfold rule_binding_of.
  destruct (is_in_or_in_newline var); cbn; [intuition congruence|].
  case_bool_decide; cbn; [intuition congruence|].
  destruct (last_binding edge var); intuition congruence.
Qed.

Section EdgeEvalFacts.

Variable nodes : list Node.
Variable limit : nat.
Variable shell_escape : string -> string.
Variable EvaluateBindingInScope : Edge -> list Token -> string.
Variable ScopeEvaluateVariable : EvalPhase -> Edge -> string -> string.

Local Abbreviation eval :=
  (EvaluateVariable nodes limit shell_escape EvaluateBindingInScope
     ScopeEvaluateVariable).

Lemma eval_extends_refl ev : eval_extends ev ev.
Proof. by repeat split. Qed.

Lemma eval_extends_trans ev1 ev2 ev3 :
  eval_extends ev1 ev2 -> eval_extends ev2 ev3 -> eval_extends ev1 ev3.
Proof.
  intros (He & Hp & Hs & Hc & Ht) (He' & Hp' & Hs' & Hc' & Ht').
  repeat split; try congruence; try lia.
  rewrite <- Ht.
  replace (recursion_count_ ev1)
    with (recursion_count_ ev1 `min` recursion_count_ ev2)%nat by lia.
  by rewrite <- !take_take, Ht'.
Qed.

Lemma append_out_extends s ev : eval_extends ev (append_out s ev).
Proof. by repeat split. Qed.

Lemma append_out_wf s ev : eval_wf limit ev -> eval_wf limit (append_out s ev).
Proof. done. Qed.

Lemma append_paths_same b paths sep ev :
  let ev' := append_paths nodes shell_escape b paths sep ev in
  eval_extends ev ev' /\ (eval_wf limit ev -> eval_wf limit ev').
Proof.
  revert b ev. induction paths as [|it paths IH]; intros b ev; cbn.
  - split; [apply eval_extends_refl|done].
  - set (ev1 := if b then ev else append_out sep ev).
    assert (eval_extends ev ev1 /\ (eval_wf limit ev -> eval_wf limit ev1))
      as [H1 W1] by (subst ev1; destruct b; split;
                     auto using eval_extends_refl, append_out_extends).
    set (ev2 := match escape_in_out_ ev1 with
                | kShellEscape => _ | kDoNotEscape => _ end).
    assert (eval_extends ev1 ev2 /\ (eval_wf limit ev1 -> eval_wf limit ev2))
      as [H2 W2] by (subst ev2; destruct (escape_in_out_ ev1); split;
                     auto using append_out_extends).
    destruct (IH false ev2) as [H3 W3].
    split; [eauto using eval_extends_trans | auto].
Qed.

Lemma push_recursion_var_extends var ev :
  eval_extends ev (push_recursion_var var ev).
Proof.
  repeat split; cbn; [lia|]. by rewrite take_insert_ge.
Qed.

Lemma push_recursion_var_wf var ev :
  eval_wf limit ev ->
  recursion_count_ ev <> limit ->
  is_Some (rule_binding_of (edge_ ev) var) ->
  eval_wf limit (push_recursion_var var ev).
Proof.
  intros (Hlen & Hle & Hvars) Hne Hvar. repeat split; cbn.
  - by rewrite length_insert.
  - lia.
  - intros i v Hi. destruct (decide (i = recursion_count_ ev)) as [->|Hi'].
    + rewrite list_lookup_insert_eq by lia. by intros [= <-].
    + rewrite list_lookup_insert_ne by done. apply Hvars. lia.
Qed.

Lemma EvaluateVariableSelfOnly_None var ev :
  EvaluateVariableSelfOnly EvaluateBindingInScope var ev = None <->
  last_binding (edge_ ev) var = None.
Proof.
  unfold EvaluateVariableSelfOnly. by destruct (last_binding (edge_ ev) var).
Qed.

Lemma EvaluateVariableSelfOnly_Some var ev ev' :
  EvaluateVariableSelfOnly EvaluateBindingInScope var ev = Some ev' ->
  exists s, ev' = append_out s ev.
Proof.
  unfold EvaluateVariableSelfOnly.
  destruct (last_binding (edge_ ev) var); cbn; [|done]. intros [= <-]. eauto.
Qed.

Lemma eval_post_trans ev ev1 r ev' :
  eval_extends ev ev1 -> eval_post limit ev1 r ev' -> eval_post limit ev r ev'.
Proof.
  intros Hext (Hwf & Hext' & Hfail).
  split; [done|]. split; [by eapply eval_extends_trans|done].
Qed.

Lemma eval_post_true ev ev' :
  eval_wf limit ev' -> eval_extends ev ev' -> eval_post limit ev true ev'.
Proof. intros. split; [done|]. split; [done|]. done. Qed.

Lemma EvaluateBindingOnRule_post eval_var value :
  (forall var ev r ev',
      eval_wf limit ev -> eval_var var ev = Some (r, ev') ->
      eval_post limit ev r ev') ->
  forall ev r ev',
    eval_wf limit ev ->
    EvaluateBindingOnRule eval_var value ev = Some (r, ev') ->
    eval_post limit ev r ev'.
Proof.
  intros Hvar.
  induction value as [|[text|var] value IH]; intros ev r ev' Hwf; cbn.
  - intros [= <- <-]. apply eval_post_true; [done|apply eval_extends_refl].
  - intros Hrun. apply IH in Hrun; [|by apply append_out_wf].
    eapply eval_post_trans; [apply append_out_extends|done].
  - destruct (eval_var var ev) as [[[] ev1]|] eqn:Hcall; [| |done].
    + apply Hvar in Hcall as (? & ? & ?); [|done].
      intros Hrun. apply IH in Hrun; [|done]. by eapply eval_post_trans.
    + intros [= <- <-]. by apply Hvar in Hcall.
Qed.

Lemma EvaluateVariable_post fuel var ev r ev' :
  eval_wf limit ev -> eval fuel var ev = Some (r, ev') ->
  eval_post limit ev r ev'.
Proof.
  revert var ev r ev'. induction fuel as [|fuel IH]; intros var ev r ev' Hwf;
    [done|]. cbn.
  destruct (is_in_or_in_newline var) eqn:Hin.
  { intros [= <- <-]. unfold AppendPathList.
    edestruct append_paths_same as [? ?]. apply eval_post_true; eauto. }
  case_bool_decide as Hout.
  { intros [= <- <-]. unfold AppendPathList.
    edestruct append_paths_same as [? ?]. apply eval_post_true; eauto. }
  destruct (EvaluateVariableSelfOnly _ var ev) as [ev1|] eqn:Hself.
  { intros [= <- <-]. apply EvaluateVariableSelfOnly_Some in Hself as [s ->].
    apply eval_post_true; [done|apply append_out_extends]. }
  apply EvaluateVariableSelfOnly_None in Hself.
  destruct (GetBinding (rule_ (edge_ ev)) var) as [value|] eqn:Hrule.
  - case_bool_decide as Hcount.
    + intros [= <- <-]. split; [done|]. split; [by repeat split|done].
    + intros Hrun.
      apply (EvaluateBindingOnRule_post _ _ IH) in Hrun.
      * eapply eval_post_trans; [apply push_recursion_var_extends|done].
      * apply push_recursion_var_wf; [done..|].
        exists value. by apply rule_binding_of_Some.
  - intros [= <- <-]. apply eval_post_true; [done|apply append_out_extends].
Qed.

(** Enough fuel: one level for each free entry of the array, and one more
    for the look-up that finds it full. *)
Lemma EvaluateBindingOnRule_total fuel value ev :
  (forall var ev,
      eval_wf limit ev -> (limit - recursion_count_ ev < fuel)%nat ->
      is_Some (eval fuel var ev)) ->
  eval_wf limit ev -> (limit - recursion_count_ ev < fuel)%nat ->
  is_Some (EvaluateBindingOnRule (eval fuel) value ev).
Proof.
  intros Hvar. revert ev.
  induction value as [|[text|var] value IH]; intros ev Hwf Hfuel; cbn.
  - done.
  - by apply IH.
  - destruct (Hvar var ev Hwf Hfuel) as [[[] ev1] Hcall]; rewrite Hcall; [|done].
    apply EvaluateVariable_post in Hcall as (? & (_ & _ & _ & ? & _) & _);
      [|done].
    apply IH; [done|lia].
Qed.

Lemma EvaluateVariable_total fuel var ev :
  eval_wf limit ev -> (limit - recursion_count_ ev < fuel)%nat ->
  is_Some (eval fuel var ev).
Proof.
  revert var ev. induction fuel as [|fuel IH]; intros var ev Hwf Hfuel; [lia|].
  cbn. destruct (is_in_or_in_newline var) eqn:Hin; [done|].
  case_bool_decide; [done|].
  destruct (EvaluateVariableSelfOnly _ var ev) eqn:Hself; [done|].
  apply EvaluateVariableSelfOnly_None in Hself.
  destruct (GetBinding (rule_ (edge_ ev)) var) as [value|] eqn:Hrule; [|done].
  case_bool_decide as Hcount; [done|].
  pose proof Hwf as (Hlen & Hle & Hvars).
  apply EvaluateBindingOnRule_total; [exact IH| |cbn; lia].
  apply push_recursion_var_wf; [done..|].
  exists value. by apply rule_binding_of_Some.
Qed.

End EdgeEvalFacts.

Lemma string_app_empty_r (s : string) : s +:+ "" = s.
Proof.
  induction s as [|a s IH]; [done|].
  change (String a (s +:+ "") = String a s). by rewrite IH.
Qed.

(** The text of the cycle is the list of its names joined by arrows. *)
Lemma cycle_tail_concat first x rest :
  x +:+ cycle_tail first rest = String.concat " -> " (x :: upto_first first rest).
Proof.
  revert x. induction rest as [|v rest IH]; intros x; cbn.
  - apply string_app_empty_r.
  - destruct (String.eqb v first).
    + by rewrite string_app_empty_r.
    + by rewrite IH.
Qed.

Lemma cycle_text_concat limit recursion_vars :
  cycle_text limit recursion_vars
  = String.concat " -> " (cycle_names limit recursion_vars).
Proof. apply cycle_tail_concat. Qed.

Lemma upto_first_subseteq first rest : upto_first first rest ⊆ rest.
Proof.
  induction rest as [|v rest IH]; cbn; [done|].
  destruct (String.eqb v first).
  - intros x. rewrite !elem_of_cons, elem_of_nil. tauto.
  - intros x. rewrite !elem_of_cons. intros [->|Hx]; [by left|].
    right. by apply IH.
Qed.

Lemma cycle_names_subseteq limit recursion_vars :
  (0 < length recursion_vars)%nat ->
  cycle_names limit recursion_vars ⊆ recursion_vars.
Proof.
  intros Hlen x. unfold cycle_names. rewrite elem_of_cons. intros [->|Hx].
  - apply list_elem_of_lookup. exists 0%nat.
    destruct recursion_vars; [cbn in Hlen; lia|done].
  - apply upto_first_subseteq in Hx.
    apply subseteq_take, subseteq_drop in Hx. done.
Qed.

Section RuleCycle.

Variable nodes : list Node.
Variable limit : nat.
Variable shell_escape : string -> string.
Variable EvaluateBindingInScope : Edge -> list Token -> string.
Variable ScopeEvaluateVariable : EvalPhase -> Edge -> string -> string.

Local Abbreviation eval :=
  (EvaluateVariable nodes limit shell_escape EvaluateBindingInScope
     ScopeEvaluateVariable).

Lemma reaches_cycle_step edge v :
  reaches_cycle edge v -> exists u, refers edge v u /\ reaches_cycle edge u.
Proof.
  intros (w & Hvw & Hcycle). destruct Hvw as [w|v u w Hvu Huw].
  - inversion Hcycle as [? ? Hww|? u ? Hwu Huw]; subst.
    + exists w. split; [done|]. by exists w.
    + exists u. split; [done|]. exists w. split; [by apply tc_rtc|done].
  - exists u. split; [done|]. by exists w.
Qed.

(** The expansion of a variable that leads into a cycle never succeeds. *)
Lemma EvaluateBindingOnRule_cycle fuel edge value u :
  (forall ev r ev',
      eval_wf limit ev -> edge_ ev = edge ->
      eval fuel u ev = Some (r, ev') -> r = false) ->
  Special u ∈ value ->
  forall ev r ev',
    eval_wf limit ev -> edge_ ev = edge ->
    EvaluateBindingOnRule (eval fuel) value ev = Some (r, ev') -> r = false.
Proof.
  intros Hu. induction value as [|tok value IH]; intros Hin ev r ev' Hwf He.
  - by apply elem_of_nil in Hin.
  - apply elem_of_cons in Hin. cbn. destruct tok as [text|var].
    + destruct Hin as [?|Hin]; [done|]. by apply IH.
    + destruct (eval fuel var ev) as [[[] ev1]|] eqn:Hcall; [| |done].
      * destruct Hin as [[= <-]|Hin]; [by apply Hu in Hcall|].
        apply EvaluateVariable_post in Hcall as (? & (? & _) & _); [|done].
        apply IH; [done..|congruence].
      * by intros [= <- <-].
Qed.

Lemma EvaluateVariable_cycle fuel var ev r ev' :
  eval_wf limit ev ->
  reaches_cycle (edge_ ev) var ->
  eval fuel var ev = Some (r, ev') -> r = false.
Proof.
  revert var ev r ev'.
  induction fuel as [|fuel IH]; intros var ev r ev' Hwf Hcycle; [done|].
  apply reaches_cycle_step in Hcycle as (u & (value & Hvar & Hu) & Hcycle).
  apply rule_binding_of_Some in Hvar as (Hin & Hout & Hself & Hrule).
  pose proof Hself as Hself'.
  apply (proj2 (EvaluateVariableSelfOnly_None EvaluateBindingInScope var ev))
    in Hself'.
  cbn. rewrite Hin, bool_decide_false, Hself', Hrule by done.
  case_bool_decide as Hcount; [by intros [= <- <-]|].
  apply (EvaluateBindingOnRule_cycle fuel (edge_ ev) value u); [|done| |done].
  - intros ev0 r0 ev0' Hwf0 He0. apply IH; [done|by rewrite He0].
  - apply push_recursion_var_wf; [done..|].
    exists value. by apply rule_binding_of_Some.
Qed.


End RuleCycle.

Lemma cyclic_edge_reaches_cycle : reaches_cycle cyclic_edge "command".
Proof.
  exists "command". split; [apply rtc_refl|].
  eapply tc_l; [|apply tc_once].
  - exists [Literal "run "; Special "description"].
    split; [reflexivity|]. apply elem_of_cons. right. apply list_elem_of_here.
  - exists [Special "command"]. split; [reflexivity|]. apply list_elem_of_here.
Defined.


(** The run of the witness, spelled out. *)
Example cyclic_edge_error :
  Edge_EvaluateVariable_fuel [] 16 id (fun _ _ => "") (fun _ _ _ => "") 17
    cyclic_edge "" "command" "" kFinalScope kShellEscape
  = Some (false, "run run run run run run run run ",
          "cycle in rule variables: command -> description -> command").
Proof. vm_compute. reflexivity. Qed.

(** What refers to what on [wide_edge]. *)
Lemma wide_edge_refers v t :
  refers wide_edge v t ->
  (v = "command" /\ t <> "command") \/ (v = "y" /\ t = "y").
Proof.
  intros (value & Hbinding & Hin). unfold rule_binding_of in Hbinding.
  destruct (_ || _); [done|].
  change (last_binding wide_edge v) with (@None (list Token)) in Hbinding.
  cbn in Hbinding.
  repeat (apply lookup_insert_Some in Hbinding as [[<- <-]|[_ Hbinding]];
          [repeat (apply elem_of_cons in Hin as [Heq|Hin];
                   [try discriminate Heq; injection Heq as ->;
                    try (by left); by right|]);
           by apply elem_of_nil in Hin|]).
  by rewrite lookup_empty in Hbinding.
Qed.


(** ** The graph during a scan *)

Section GraphUpdates.

Local Open Scope nat_scope.
Implicit Types (w : Scan) (n : NodeId) (e : EdgeId).

Lemma node_at_update_node n f w n' :
  node_at (update_node n f w) n'
  = if decide (n = n' /\ n < length (nodes_ w)) then f (node_at w n)
    else node_at w n'.
Proof. apply list_lookup_total_alter. Qed.

Lemma edge_at_update_edge e f w e' :
  edge_at (update_edge e f w) e'
  = if decide (e = e' /\ e < length (edges_ w)) then f (edge_at w e)
    else edge_at w e'.
Proof. apply list_lookup_total_alter. Qed.

Lemma edge_at_update_edge_ne e f w e' :
  e <> e' -> edge_at (update_edge e f w) e' = edge_at w e'.
Proof. intros. rewrite edge_at_update_edge. case_decide; [tauto|done]. Qed.

Lemma edge_at_update_edge_eq e f w :
  e < length (edges_ w) -> edge_at (update_edge e f w) e = f (edge_at w e).
Proof. intros. rewrite edge_at_update_edge. case_decide; [done|tauto]. Qed.

Lemma node_at_ge w n : length (nodes_ w) <= n -> node_at w n = inhabitant.
Proof.
  intros. unfold node_at. rewrite list_lookup_total_alt.
  by rewrite lookup_ge_None_2.
Qed.

Lemma edge_at_ge w e : length (edges_ w) <= e -> edge_at w e = inhabitant.
Proof.
  intros. unfold edge_at. rewrite list_lookup_total_alt.
  by rewrite lookup_ge_None_2.
Qed.

Lemma in_edge_lt w n e : in_edge_ (node_at w n) = Some e -> n < length (nodes_ w).
Proof.
  intros Hin. destruct (decide (n < length (nodes_ w))); [done|].
  rewrite node_at_ge in Hin by lia. done.
Qed.

Lemma inert_inhabitant : inert inhabitant.
Proof. done. Qed.

Lemma same_static_refl x : same_static x x.
Proof. split; try done. by intros []. Qed.

Lemma same_static_trans x y z :
  same_static x y -> same_static y z -> same_static x z.
Proof.
  intros [] []. split; try congruence; try (etrans; eassumption); try tauto.
  intros Hx. apply static_inert1. split; [tauto|].
  destruct Hx as (_ & ? & ?). unfold UsesDepsLog, UsesDepfile in *.
  by rewrite static_info0.
Qed.

Lemma inert_static x y : same_static x y -> inert x -> inert y.
Proof.
  intros [] Hx. split; [tauto|]. destruct Hx as (_ & ? & ?).
  unfold UsesDepsLog, UsesDepfile in *. by rewrite static_info0.
Qed.

Lemma grows_except_refl cur w : grows_except cur w w.
Proof.
  split; try done; auto using same_static_refl.
  intros e ?. rewrite edge_at_ge by done. apply inert_inhabitant.
Qed.

Lemma grows_except_trans cur w1 w2 w3 :
  grows_except cur w1 w2 -> grows_except cur w2 w3 -> grows_except cur w1 w3.
Proof.
  intros H12 H23. split.
  - etrans; [apply H12|apply H23].
  - etrans; [apply H12|apply H23].
  - intros n Hn. rewrite (grows_path _ _ _ H23), (grows_path _ _ _ H12); [done..|].
    pose proof (grows_nodes _ _ _ H12). lia.
  - intros n e Hn. by apply H23, H12.
  - intros n e Hn. pose proof (grows_edges _ _ _ H12).
    apply (grows_in_edge_new _ _ _ H23) in Hn as [Hn|?]; [|right; lia].
    apply (grows_in_edge_new _ _ _ H12) in Hn as [Hn|?]; auto.
  - intros e He. pose proof (grows_edges _ _ _ H12).
    eapply same_static_trans; [by apply H12|]. apply H23. lia.
  - intros e He. destruct (decide (e < length (edges_ w2))) as [Hlt|Hge].
    + eapply inert_static; [by apply (grows_static _ _ _ H23)|].
      by apply (grows_new_inert _ _ _ H12).
    + apply (grows_new_inert _ _ _ H23). lia.
  - intros e Hcur He Hmark. pose proof (grows_edges _ _ _ H12).
    assert (mark_ (edge_at w1 e) <> VisitNone \/
            mark_ (edge_at w2 e) = VisitNone) as Hmark12.
    { destruct Hmark as [?|Hmark]; [by left|].
      destruct (decide (mark_ (edge_at w2 e) = VisitNone)); [by right|].
      exfalso. eapply (static_mark _ _ (grows_static _ _ _ H23 e ltac:(lia)));
        eauto. }
    rewrite <- (grows_frozen _ _ _ H12 e Hcur He Hmark12).
    apply (grows_frozen _ _ _ H23 e Hcur); [lia|].
    destruct Hmark as [Hmark|?]; [left|by right].
    by rewrite (grows_frozen _ _ _ H12 e Hcur He Hmark12).
Qed.

Lemma grows_weaken cur w w' : grows w w' -> grows_except cur w w'.
Proof.
  intros []. split; try done. intros e _. by apply grows_frozen0.
Qed.

(** Only the stack and the error string differ. *)
Lemma grows_same_graph cur w w' :
  nodes_ w' = nodes_ w -> edges_ w' = edges_ w -> grows_except cur w w'.
Proof.
  intros Hn He. destruct (grows_except_refl cur w).
  split; unfold node_at, edge_at in *; rewrite ?Hn, ?He; done.
Qed.

(** An assignment to a field of a node other than its path and in-edge. *)
Lemma grows_update_node cur n f w :
  (forall x, path_ (f x) = path_ x /\ in_edge_ (f x) = in_edge_ x) ->
  grows_except cur w (update_node n f w).
Proof.
  intros Hf. destruct (grows_except_refl cur w).
  split; try done; cbn; rewrite ?length_alter; try done.
  - intros n' ?. rewrite node_at_update_node.
    case_decide as Hn; [|done]. destruct Hn as [<- _]. apply Hf.
  - intros n' e. rewrite node_at_update_node.
    case_decide as Hn; [|done]. destruct Hn as [<- _]. by rewrite (proj2 (Hf _)).
  - intros n' e. rewrite node_at_update_node.
    case_decide as Hn; [|by left]. destruct Hn as [<- _].
    rewrite (proj2 (Hf _)). by left.
Qed.

(** An assignment to a field of the edge being visited. *)
Lemma grows_update_edge e f w :
  same_static (edge_at w e) (f (edge_at w e)) ->
  grows_except (Some e) w (update_edge e f w).
Proof.
  intros Hf. destruct (grows_except_refl (Some e) w).
  split; try done; cbn; rewrite ?length_alter; try done.
  - intros e' ?. rewrite edge_at_update_edge.
    case_decide as He; [|apply same_static_refl]. by destruct He as [<- _].
  - intros e' ?. rewrite edge_at_update_edge.
    case_decide; [lia|]. by apply grows_new_inert0.
  - intros e' Hcur _ _. rewrite edge_at_update_edge_ne; [done|congruence].
Qed.

Lemma grows_intro cur w w' :
  length (nodes_ w) <= length (nodes_ w') ->
  length (edges_ w) <= length (edges_ w') ->
  (forall n, path_ (node_at w' n) = path_ (node_at w n) \/
             length (nodes_ w) <= n) ->
  (forall n, in_edge_ (node_at w' n) = in_edge_ (node_at w n) \/
             in_edge_ (node_at w n) = None /\
             exists p, in_edge_ (node_at w' n) = Some p /\
                       length (edges_ w) <= p) ->
  (forall e, e < length (edges_ w) ->
             edge_at w' e = edge_at w e \/
             Some e = cur /\ same_static (edge_at w e) (edge_at w' e)) ->
  (forall e, length (edges_ w) <= e -> inert (edge_at w' e)) ->
  grows_except cur w w'.
Proof.
  intros Hn He Hpath Hin Hold Hnew. split; try done.
  - intros n ?. destruct (Hpath n); [done|lia].
  - intros n e Hne. destruct (Hin n) as [->|[? _]]; congruence.
  - intros n e Hne. destruct (Hin n) as [<-|(_ & p & ? & ?)]; [by left|].
    right. congruence.
  - intros e Hlt. destruct (Hold e Hlt) as [->|[_ ?]];
      [apply same_static_refl|done].
  - intros e Hcur Hlt _. destruct (Hold e Hlt) as [?|[? _]]; done.
Qed.

Lemma edge_at_AddEdge rule w e :
  edge_at (AddEdge rule w).2 e
  = if decide (e = length (edges_ w)) then new_Edge rule else edge_at w e.
Proof.
  unfold edge_at, AddEdge. cbn. case_decide as He.
  - subst. by rewrite list_lookup_total_middle.
  - destruct (decide (e < length (edges_ w))).
    + by rewrite lookup_total_app_l.
    + rewrite !list_lookup_total_alt, !lookup_ge_None_2; [done|lia|].
      rewrite length_app. cbn. lia.
Qed.

Lemma inert_new_Edge : inert (new_Edge kPhonyRule).
Proof. done. Qed.

Lemma grows_CreatePhonyInEdge cur n w :
  grows_except cur w (CreatePhonyInEdge n w).
Proof.
  unfold CreatePhonyInEdge.
  destruct (in_edge_ (node_at w n)) eqn:Hin; [apply grows_except_refl|].
  set (p := length (edges_ w)).
  apply grows_intro; cbn; rewrite ?length_alter, ?length_app; cbn; try lia.
  - intros n'. left. unfold node_at. cbn. fold (node_at w n').
    change (alter ?f n (nodes_ w) !!! n') with (node_at (update_node n f w) n').
    rewrite node_at_update_node. by case_decide as Hn; [destruct Hn as [<- _]|].
  - intros n'.
    change (in_edge_ (node_at (update_node n (with_in_edge (Some p)) w) n')
            = in_edge_ (node_at w n') \/ in_edge_ (node_at w n') = None /\
              exists p0, in_edge_ (node_at (update_node n
                           (with_in_edge (Some p)) w) n') = Some p0 /\
                         p <= p0).
    rewrite node_at_update_node.
    case_decide as Hn; [destruct Hn as [<- _]|by left].
    right. split; [done|]. by exists p.
  - intros e He. left. unfold edge_at. cbn.
    rewrite !list_lookup_total_alter_ne by (fold p; lia).
    by rewrite lookup_total_app_l.
  - intros e He. unfold edge_at. cbn.
    destruct (decide (e = p)) as [->|Hne].
    + rewrite !list_lookup_total_alter_eq
        by (rewrite ?length_alter, length_app; cbn; fold p; lia).
      by rewrite list_lookup_total_middle.
    + rewrite !list_lookup_total_alter_ne by done.
      rewrite list_lookup_total_alt, lookup_ge_None_2; [done|].
      rewrite length_app. cbn. fold p. lia.
Qed.

Lemma grows_GetNode cur path w : grows_except cur w (GetNode path w).2.
Proof.
  unfold GetNode. destruct (LookupNode path w); [apply grows_except_refl|].
  apply grows_intro; cbn; rewrite ?length_app; cbn; try lia.
  - intros n. destruct (decide (n < length (nodes_ w))); [left|right; lia].
    unfold node_at. cbn. by rewrite lookup_total_app_l.
  - intros n. left. unfold node_at. cbn.
    destruct (decide (n < length (nodes_ w))).
    + by rewrite lookup_total_app_l.
    + destruct (decide (n = length (nodes_ w))) as [->|].
      * rewrite list_lookup_total_middle by done.
        by rewrite list_lookup_total_alt, lookup_ge_None_2.
      * rewrite !list_lookup_total_alt, !lookup_ge_None_2; [done|lia|].
        rewrite length_app. cbn. lia.
  - by left.
  - intros e ?. rewrite edge_at_ge by done. apply inert_inhabitant.
Qed.

(** The same for the steps of a visit. *)
Lemma step_except_refl cur w : step_except cur w w.
Proof.
  split; [apply grows_except_refl|done..].
Qed.

Lemma step_except_trans cur w1 w2 w3 :
  step_except cur w1 w2 -> step_except cur w2 w3 -> step_except cur w1 w3.
Proof.
  intros H12 H23. pose proof (grows_edges _ _ _ (step_grows _ _ _ H12)).
  split.
  - eapply grows_except_trans; [apply H12|apply H23].
  - intros e Hcur He.
    rewrite (step_kept _ _ _ H23 e Hcur) by lia.
    by apply (step_kept _ _ _ H12).
  - intros e. by rewrite (step_mark _ _ _ H23), (step_mark _ _ _ H12).
  - intros Hr. by apply (step_range _ _ _ H23), (step_range _ _ _ H12).
Qed.

Lemma step_same_graph cur w w' :
  nodes_ w' = nodes_ w -> edges_ w' = edges_ w -> step_except cur w w'.
Proof.
  intros Hn He. destruct (step_except_refl cur w).
  split; [by apply grows_same_graph|..];
    unfold node_at, edge_at in *; rewrite ?Hn, ?He; done.
Qed.

Lemma step_update_node cur n f w :
  (forall x, path_ (f x) = path_ x /\ in_edge_ (f x) = in_edge_ x) ->
  step_except cur w (update_node n f w).
Proof.
  intros Hf. destruct (step_except_refl cur w).
  split; [by apply grows_update_node|done..|].
  intros Hr n' e. rewrite node_at_update_node. cbn.
  case_decide as Hn; [|apply Hr]. destruct Hn as [<- _].
  rewrite (proj2 (Hf _)). apply Hr.
Qed.

Lemma step_update_edge e f w :
  same_static (edge_at w e) (f (edge_at w e)) ->
  mark_ (f (edge_at w e)) = mark_ (edge_at w e) ->
  step_except (Some e) w (update_edge e f w).
Proof.
  intros Hf Hm. split; [by apply grows_update_edge|..].
  - intros e' Hcur _. rewrite edge_at_update_edge_ne; [done|congruence].
  - intros e'. rewrite edge_at_update_edge.
    case_decide as He; [|done]. by destruct He as [<- _].
  - intros Hr n e'. cbn. rewrite length_alter. apply Hr.
Qed.

Lemma step_CreatePhonyInEdge cur n w :
  step_except cur w (CreatePhonyInEdge n w).
Proof.
  split; [apply grows_CreatePhonyInEdge|..]; unfold CreatePhonyInEdge;
    destruct (in_edge_ (node_at w n)) eqn:Hin;
    try apply (step_except_refl cur w); set (p := length (edges_ w)).
  - intros e _ He. unfold edge_at. cbn.
    rewrite !list_lookup_total_alter_ne by (fold p; lia).
    by rewrite lookup_total_app_l.
  - intros e. unfold edge_at. cbn.
    destruct (decide (e = p)) as [->|Hne].
    + rewrite !list_lookup_total_alter_eq
        by (rewrite ?length_alter, length_app; cbn; fold p; lia).
      rewrite list_lookup_total_middle by done.
      by rewrite (list_lookup_total_alt (edges_ w)), lookup_ge_None_2.
    + rewrite !list_lookup_total_alter_ne by done.
      destruct (decide (e < p)).
      * by rewrite lookup_total_app_l.
      * rewrite !list_lookup_total_alt, !lookup_ge_None_2; [done|fold p; lia|].
        rewrite length_app. cbn. fold p. lia.
  - intros Hr n' e. cbn. rewrite !length_alter, length_app. cbn.
    change (in_edge_ (node_at (update_node n (with_in_edge (Some p)) w) n')
            = Some e -> e < length (edges_ w) + 1).
    rewrite node_at_update_node. case_decide as Hn.
    + intros [= <-]. fold p. lia.
    + intros He. apply Hr in He. lia.
Qed.

Lemma step_GetNode cur path w : step_except cur w (GetNode path w).2.
Proof.
  split; [apply grows_GetNode|..]; unfold GetNode;
    destruct (LookupNode path w); try apply (step_except_refl cur w); cbn.
  intros Hr n e. unfold node_at. cbn.
  destruct (decide (n < length (nodes_ w))).
  - rewrite lookup_total_app_l by done. apply Hr.
  - destruct (decide (n = length (nodes_ w))) as [->|].
    + by rewrite list_lookup_total_middle.
    + rewrite list_lookup_total_alt, lookup_ge_None_2; [done|].
      rewrite length_app. cbn. lia.
Qed.

End GraphUpdates.

Section ScanFacts.

Context {D : Type} `{DiskInterface D}.
Variable disk_interface_ : D.
Variable build_log : option BuildLog.
Variable deps_log : DepsLog.
Variable DepfileParser_Parse : string -> DepfileParse.
Variable CanonicalizePath : string -> Canonicalize.
Variable kEvalRecursionLimit : nat.
Variable shell_escape : string -> string.
Variable EvaluateBindingInScope : Edge -> list Token -> string.
Variable ScopeEvaluateVariable : EvalPhase -> Edge -> string -> string.

Local Open Scope nat_scope.
Implicit Types (w : Scan) (n node : NodeId) (e edge : EdgeId).

Local Abbreviation load_deps_from_log := (LoadDepsFromLog deps_log).
Local Abbreviation load_dep_file :=
  (LoadDepFile disk_interface_ DepfileParser_Parse CanonicalizePath).
Local Abbreviation load_deps :=
  (LoadDeps disk_interface_ deps_log DepfileParser_Parse CanonicalizePath
     kEvalRecursionLimit shell_escape EvaluateBindingInScope
     ScopeEvaluateVariable).
Local Abbreviation stat_if_necessary := (StatIfNecessary disk_interface_).
Local Abbreviation stat_outs := (stat_outputs disk_interface_).

Local Ltac flow_simpl :=
  cbn [mbind Flow_bind flow_bind flow_run return_if fst snd].

Lemma loads_lt w e : loads (edge_at w e) -> e < length (edges_ w).
Proof.
  intros Hl. destruct (decide (e < length (edges_ w))); [done|].
  rewrite edge_at_ge in Hl by lia. by destruct Hl.
Qed.

Lemma loads_grows cur w w' e :
  grows_except cur w w' -> loads (edge_at w e) -> loads (edge_at w' e).
Proof.
  intros Hg Hl. pose proof (loads_lt _ _ Hl) as Hlt.
  unfold loads, UsesDepsLog, UsesDepfile in *.
  by rewrite (static_info _ _ (grows_static _ _ _ Hg e Hlt)).
Qed.

Lemma not_inert_loads x : loads x -> ~ inert x.
Proof. intros [?|?] (_ & ? & ?); congruence. Qed.

Lemma loads_step cur w w' e :
  step_except cur w w' -> loads (edge_at w e) -> loads (edge_at w' e).
Proof. intros Hs. apply (loads_grows cur), Hs. Qed.

Lemma step_assign_implicit_dep edge pos node w :
  loads (edge_at w edge) ->
  step_except (Some edge) w (assign_implicit_dep edge pos node w).
Proof.
  intros Hl. apply step_update_edge; [|done]. split; try done; cbn.
  - intros x Hx. rewrite <- (take_drop pos (inputs_ (edge_at w edge))) in Hx.
    rewrite elem_of_app in *. rewrite elem_of_cons. tauto.
  - intros Hi. by apply not_inert_loads in Hi.
Qed.

Lemma step_AddOutEdgeDepScan cur node edge w :
  step_except cur w (AddOutEdgeDepScan node edge w).
Proof. by apply step_update_node. Qed.

Lemma step_PreallocateSpace edge count w :
  step_except (Some edge) w (PreallocateSpace edge count w).2.
Proof. apply step_update_edge; [|done]. split; try done. by intros []. Qed.

Lemma step_load_deps_nodes edge deps_nodes pos w :
  loads (edge_at w edge) ->
  step_except (Some edge) w (load_deps_nodes edge deps_nodes pos w).
Proof.
  revert pos w. induction deps_nodes as [|node deps_nodes IH]; intros pos w Hl.
  - apply step_except_refl.
  - cbn. set (w1 := assign_implicit_dep edge pos node w).
    set (w2 := AddOutEdgeDepScan node edge w1).
    set (w3 := CreatePhonyInEdge node w2).
    assert (step_except (Some edge) w w3) as Hg.
    { eapply step_except_trans; [by apply step_assign_implicit_dep|].
      eapply step_except_trans; [apply step_AddOutEdgeDepScan|].
      apply step_CreatePhonyInEdge. }
    eapply step_except_trans; [exact Hg|]. apply IH. by eapply loads_step.
Qed.

Lemma step_LoadDepsFromLog edge w :
  UsesDepsLog (edge_at w edge) = true ->
  step_except (Some edge) w (load_deps_from_log edge w).2.
Proof.
  intros Hl. unfold LoadDepsFromLog.
  destruct (GetDeps _ _) as [deps|]; [|apply step_except_refl].
  case_match; [apply step_except_refl|].
  destruct (PreallocateSpace _ _ _) as [pos w1] eqn:Hpre. cbn.
  pose proof (step_PreallocateSpace edge (length (deps_nodes deps)) w) as Hg.
  rewrite Hpre in Hg. eapply step_except_trans; [exact Hg|].
  apply step_load_deps_nodes. eapply loads_step; [exact Hg|by left].
Qed.

Lemma step_load_depfile_ins edge ins pos w :
  loads (edge_at w edge) ->
  step_except (Some edge) w
    (load_depfile_ins CanonicalizePath edge ins pos w).2.
Proof.
  revert pos w. induction ins as [|i ins IH]; intros pos w Hl.
  - apply step_except_refl.
  - cbn. destruct (CanonicalizePath i) as [path|err];
      [|by apply step_same_graph].
    destruct (GetNode path w) as [node w0] eqn:Hget.
    set (w1 := assign_implicit_dep edge pos node w0).
    set (w2 := AddOutEdgeDepScan node edge w1).
    set (w3 := CreatePhonyInEdge node w2).
    assert (step_except (Some edge) w w0) as Hg0.
    { pose proof (step_GetNode (Some edge) path w) as Hg. by rewrite Hget in Hg. }
    assert (step_except (Some edge) w w3) as Hg.
    { eapply step_except_trans; [exact Hg0|].
      eapply step_except_trans;
        [apply step_assign_implicit_dep; by eapply loads_step|].
      eapply step_except_trans; [apply step_AddOutEdgeDepScan|].
      apply step_CreatePhonyInEdge. }
    eapply step_except_trans; [exact Hg|]. apply IH. by eapply loads_step.
Qed.

Lemma step_LoadDepFile edge path w :
  loads (edge_at w edge) ->
  step_except (Some edge) w (load_dep_file edge path w).2.
Proof.
  intros Hl. unfold LoadDepFile.
  destruct (ReadFile disk_interface_ path) as [content|err|err]; flow_simpl;
    [| |by apply step_same_graph].
  - destruct (String.eqb content ""); flow_simpl; [apply step_except_refl|].
    destruct (DepfileParser_Parse content) as [out ins|err]; flow_simpl;
      [|by apply step_same_graph].
    destruct (CanonicalizePath out) as [out'|err]; flow_simpl;
      [|by apply step_same_graph].
    destruct (negb _); flow_simpl; [apply step_except_refl|].
    destruct (PreallocateSpace edge (length ins) w) as [pos w1] eqn:Hpre.
    flow_simpl.
    pose proof (step_PreallocateSpace edge (length ins) w) as Hg.
    rewrite Hpre in Hg. eapply step_except_trans; [exact Hg|].
    apply step_load_depfile_ins. eapply loads_step; [exact Hg|done].
  - by apply step_same_graph.
Qed.

Lemma step_LoadDeps edge w ok w' :
  load_deps edge w = Returned ok w' -> step_except (Some edge) w w'.
Proof.
  unfold LoadDeps.
  destruct (UsesDepsLog (edge_at w edge)) eqn:Hlog.
  { intros [= _ <-]. by apply step_LoadDepsFromLog. }
  destruct (UsesDepfile (edge_at w edge)) eqn:Hfile.
  - destruct (GetUnescapedDepfile _ _ _ _ _ _) as [depfile|msg]; [|done].
    intros [= _ <-]. apply step_LoadDepFile. by right.
  - intros [= _ <-]. apply step_except_refl.
Qed.

Lemma step_StatIfNecessary cur n w :
  step_except cur w (stat_if_necessary n w).2.
Proof.
  unfold StatIfNecessary.
  destruct (status_known _); [apply step_except_refl|].
  destruct (negb _); cbn; [by apply step_update_node|].
  eapply step_except_trans; [|by apply step_update_node].
  by apply step_same_graph.
Qed.

Lemma step_stat_outputs cur outputs w :
  step_except cur w (stat_outs outputs w).2.
Proof.
  revert w. induction outputs as [|o outputs IH]; intros w; cbn.
  - apply step_except_refl.
  - pose proof (step_StatIfNecessary cur o w) as Hg.
    destruct (stat_if_necessary o w) as [[] w1]; cbn in *; [|done].
    by eapply step_except_trans.
Qed.

Lemma grows_LoadDeps edge w ok w' :
  load_deps edge w = Returned ok w' -> grows_except (Some edge) w w'.
Proof. intros Hload. by apply step_grows, (step_LoadDeps _ _ ok). Qed.

Lemma grows_StatIfNecessary cur n w :
  grows_except cur w (stat_if_necessary n w).2.
Proof. apply step_grows, step_StatIfNecessary. Qed.

Lemma grows_stat_outputs cur outputs w :
  grows_except cur w (stat_outs outputs w).2.
Proof. apply step_grows, step_stat_outputs. Qed.

Lemma grows_VerifyDAG cur node w ok w' :
  VerifyDAG node w = Some (ok, w') -> grows_except cur w w'.
Proof.
  unfold VerifyDAG. destruct (in_edge_ _) as [edge|]; [|done].
  destruct (negb _); [intros [= _ <-]; apply grows_except_refl|].
  destruct (list_find _ _) as [[start ?]|]; [|done].
  intros [= _ <-]. by apply grows_same_graph.
Qed.

Lemma step_MarkDirty_outputs cur outputs w :
  step_except cur w (foldl (fun w o => MarkDirty o w) w outputs).
Proof.
  revert w. induction outputs as [|o outputs IH]; intros w; cbn.
  - apply step_except_refl.
  - eapply step_except_trans; [|apply IH]. by apply step_update_node.
Qed.

Lemma grows_MarkDirty_outputs cur outputs w :
  grows_except cur w (foldl (fun w o => MarkDirty o w) w outputs).
Proof. apply step_grows, step_MarkDirty_outputs. Qed.

Lemma grows_finish_edge node edge dirty mri w :
  grows_except (Some edge) w (finish_edge build_log node edge dirty mri w).2.
Proof.
  unfold finish_edge.
  destruct (if negb dirty then _ else _) as [ok dirty']. 
  destruct (negb ok); [apply grows_except_refl|]. cbn.
  match goal with |- grows_except _ _ (set_stack _ ?w1) =>
    eapply (grows_except_trans _ _ w1); [|by apply grows_same_graph] end.
  match goal with |- grows_except _ _ (update_edge _ _ ?w1) =>
    eapply (grows_except_trans _ _ w1);
      [|apply grows_update_edge; split; try done; by intros []] end.
  match goal with |- grows_except _ _ (if _ then update_edge _ _ ?w1 else _) =>
    eapply (grows_except_trans _ _ w1);
      [|destruct (_ && _);
        [apply grows_update_edge; split; try done; by intros []
        |apply grows_except_refl]] end.
  destruct dirty'; [apply grows_MarkDirty_outputs|apply grows_except_refl].
Qed.

End ScanFacts.

(** ** The invariant of the traversal *)

Section TraversalInvariant.

Local Open Scope nat_scope.
Implicit Types (w : Scan) (n node i : NodeId) (e edge : EdgeId).

Lemma marked_lt w edge :
  mark_ (edge_at w edge) <> VisitNone -> edge < length (edges_ w).
Proof.
  intros Hm. destruct (decide (edge < length (edges_ w))); [done|].
  rewrite edge_at_ge in Hm by lia. done.
Qed.

Lemma edge_succ_lt w e e' : edge_succ w e e' -> e < length (edges_ w).
Proof.
  intros (i & Hi & _). destruct (decide (e < length (edges_ w))); [done|].
  rewrite edge_at_ge in Hi by lia. by apply elem_of_nil in Hi.
Qed.

Lemma inert_no_succ w e e' : inert (edge_at w e) -> ~ edge_succ w e e'.
Proof. intros [Hi _] (i & Hin & _). rewrite Hi in Hin. by apply elem_of_nil in Hin. Qed.

Lemma edge_succ_grows cur w w' e e' :
  grows_except cur w w' -> edge_succ w e e' -> edge_succ w' e e'.
Proof.
  intros Hg Hs. pose proof (edge_succ_lt _ _ _ Hs) as Hlt.
  destruct Hs as (i & Hi & Hin). exists i. split.
  - by apply (static_inputs _ _ (grows_static _ _ _ Hg e Hlt)).
  - by apply (grows_in_edge _ _ _ Hg).
Qed.

Lemma tc_first w e e' : tc (edge_succ w) e e' -> exists x, edge_succ w e x.
Proof. intros [x y ?|x y z ? _]; eauto. Qed.

(** Behind a settled edge there are only settled edges. *)
Lemma settled_rtc w e e' :
  scan_inv w -> settled w e -> rtc (edge_succ w) e e' -> settled w e'.
Proof.
  intros Hinv Hs Hrtc. induction Hrtc as [|x y z Hxy _ IH]; [done|].
  apply IH. destruct Hs as [Hdone|Hi].
  - by apply (inv_closed _ Hinv x).
  - by apply inert_no_succ in Hxy.
Qed.

Lemma inert_grows cur w w' e :
  grows_except cur w w' -> inert (edge_at w e) -> inert (edge_at w' e).
Proof.
  intros Hg Hi. destruct (decide (e < length (edges_ w))) as [Hlt|Hge].
  - by apply (inert_static _ _ (grows_static _ _ _ Hg e Hlt)).
  - apply (grows_new_inert _ _ _ Hg). lia.
Qed.

Lemma settled_grows cur w w' e :
  grows_except cur w w' ->
  (forall c, cur = Some c -> mark_ (edge_at w c) <> VisitDone) ->
  settled w e -> settled w' e.
Proof.
  intros Hg Hcur Hs. destruct (decide (e < length (edges_ w))) as [Hlt|Hge];
    [|right; apply (grows_new_inert _ _ _ Hg); lia].
  destruct Hs as [Hdone|Hi].
  - left. rewrite (grows_frozen _ _ _ Hg e); [done| |done|left; congruence].
    intros <-. by apply (Hcur e).
  - right. by apply (inert_grows cur w).
Qed.

Lemma visited_grows cur w w' i :
  grows_except cur w w' ->
  (forall c, cur = Some c -> mark_ (edge_at w c) <> VisitDone) ->
  visited w i -> visited w' i.
Proof.
  intros Hg Hcur Hv e He.
  apply (grows_in_edge_new _ _ _ Hg) in He as [He|Hge].
  - eapply settled_grows; eauto.
  - right. by apply (grows_new_inert _ _ _ Hg).
Qed.

Lemma no_entry_refl w : no_entry w w.
Proof. by intros e. Qed.

Lemma no_entry_trans w1 w2 w3 :
  no_entry w1 w2 -> no_entry w2 w3 -> no_entry w1 w3.
Proof. intros H12 H23 e ?. by apply H12, H23. Qed.

Lemma step_no_entry cur w w' : step_except cur w w' -> no_entry w w'.
Proof. intros Hs e. by rewrite (step_mark _ _ _ Hs). Qed.

(** A step of the visit of [cur], an edge that is not finished, keeps the
    invariant. *)
Lemma scan_inv_step cur w w' :
  scan_inv w -> step_except cur w w' -> stack_ w' = stack_ w ->
  (forall c, cur = Some c -> mark_ (edge_at w c) <> VisitDone) ->
  scan_inv w'.
Proof.
  intros Hinv Hs Hstack Hcur. pose proof (step_grows _ _ _ Hs) as Hg.
  assert (forall d, mark_ (edge_at w' d) = VisitDone ->
            mark_ (edge_at w d) = VisitDone /\ edge_at w' d = edge_at w d)
    as Hdone.
  { intros d Hd. rewrite (step_mark _ _ _ Hs) in Hd. split; [done|].
    apply (step_kept _ _ _ Hs).
    - intros <-. by apply (Hcur d).
    - destruct (decide (d < length (edges_ w))); [done|].
      rewrite edge_at_ge in Hd by lia. done. }
  assert (forall d e, mark_ (edge_at w' d) = VisitDone -> edge_succ w' d e ->
            edge_succ w d e \/ inert (edge_at w' e)) as Hsucc.
  { intros d e Hd (i & Hi & Hin). destruct (Hdone d Hd) as [_ Heq].
    rewrite Heq in Hi.
    apply (grows_in_edge_new _ _ _ Hg) in Hin as [Hin|Hge].
    - left. by exists i.
    - right. by apply (grows_new_inert _ _ _ Hg). }
  split.
  - intros d e Hd Hde. destruct (Hsucc d e Hd Hde) as [Hold|Hi]; [|by right].
    eapply settled_grows; [done..|].
    apply (inv_closed _ Hinv d); [|done]. by apply Hdone.
  - intros d Hd Htc.
    apply (inv_acyclic _ Hinv d); [by apply Hdone|].
    assert (forall x z, tc (edge_succ w') x z ->
              mark_ (edge_at w' x) = VisitDone ->
              tc (edge_succ w) x z \/ inert (edge_at w' z)) as Hpath.
    { clear d Hd Htc. intros x z Htc.
      induction Htc as [x z Hxz|x y z Hxy Hyz IH]; intros Hx.
      - destruct (Hsucc x z Hx Hxz); [left; by apply tc_once|by right].
      - destruct (Hsucc x y Hx Hxy) as [Hold|Hi].
        + assert (settled w y) as [Hy|Hi]
            by (apply (inv_closed _ Hinv x); [by apply Hdone|done]).
          * destruct IH as [Htc|?]; [|left; by eapply tc_l|by right].
            by rewrite (step_mark _ _ _ Hs).
          * apply tc_first in Hyz as [? Hyz]. apply inert_no_succ in Hyz; [done|].
            by apply (inert_grows cur w).
        + apply tc_first in Hyz as [? Hyz]. by apply inert_no_succ in Hyz. }
    destruct (Hpath d d Htc Hd) as [?|Hi]; [done|].
    apply tc_first in Htc as [? Htc]. by apply inert_no_succ in Htc.
  - intros e He. rewrite (step_mark _ _ _ Hs) in He.
    destruct (inv_stack _ Hinv e He) as (n & Hn & Hin). exists n.
    rewrite Hstack. split; [done|]. by apply (grows_in_edge _ _ _ Hg).
  - apply (step_range _ _ _ Hs), Hinv.
Qed.

(** Setting a mark changes nothing else. *)
Lemma mark_with_mark edge m s w e :
  mark_ (edge_at (set_stack s (update_edge edge (with_mark m) w)) e)
  = if decide (edge = e /\ edge < length (edges_ w)) then m
    else mark_ (edge_at w e).
Proof.
  change (edge_at (set_stack s ?w0) e) with (edge_at w0 e).
  rewrite edge_at_update_edge. by case_decide.
Qed.

Lemma inputs_with_mark edge m s w e :
  inputs_ (edge_at (set_stack s (update_edge edge (with_mark m) w)) e)
  = inputs_ (edge_at w e).
Proof.
  change (edge_at (set_stack s ?w0) e) with (edge_at w0 e).
  rewrite edge_at_update_edge. case_decide as He; [|done].
  by destruct He as [<- _].
Qed.

Lemma inert_with_mark edge m s w e :
  inert (edge_at (set_stack s (update_edge edge (with_mark m) w)) e)
  <-> inert (edge_at w e).
Proof.
  change (edge_at (set_stack s ?w0) e) with (edge_at w0 e).
  rewrite edge_at_update_edge. case_decide as He; [|done].
  by destruct He as [<- _].
Qed.

Lemma edge_succ_with_mark edge m s w e e' :
  edge_succ (set_stack s (update_edge edge (with_mark m) w)) e e'
  <-> edge_succ w e e'.
Proof. unfold edge_succ. by setoid_rewrite inputs_with_mark. Qed.

Lemma tc_with_mark edge m s w e e' :
  tc (edge_succ (set_stack s (update_edge edge (with_mark m) w))) e e' ->
  tc (edge_succ w) e e'.
Proof.
  induction 1 as [x y Hxy|x y z Hxy _ IH].
  - apply tc_once. by apply edge_succ_with_mark in Hxy.
  - eapply tc_l; [|exact IH]. by apply edge_succ_with_mark in Hxy.
Qed.

(** Entering an unmarked edge keeps the invariant. *)
Lemma scan_inv_enter node edge w :
  scan_inv w -> mark_ (edge_at w edge) = VisitNone ->
  in_edge_ (node_at w node) = Some edge ->
  scan_inv (set_stack (stack_ w ++ [node])
              (update_edge edge (with_mark VisitInStack) w)).
Proof.
  intros Hinv Hnone Hin.
  assert (forall d,
    mark_ (edge_at (set_stack (stack_ w ++ [node])
             (update_edge edge (with_mark VisitInStack) w)) d) = VisitDone ->
    mark_ (edge_at w d) = VisitDone) as Hdone.
  { intros d. rewrite mark_with_mark. by case_decide. }
  split.
  - intros d e Hd Hde. apply Hdone in Hd. apply edge_succ_with_mark in Hde.
    destruct (inv_closed _ Hinv d e Hd Hde) as [He|Hi].
    + left. rewrite mark_with_mark. case_decide as Heq; [|done].
      destruct Heq as [<- _]. congruence.
    + right. by apply inert_with_mark.
  - intros d Hd Htc. apply Hdone in Hd. apply tc_with_mark in Htc.
    by apply (inv_acyclic _ Hinv d).
  - intros e. rewrite mark_with_mark. cbn. case_decide as Heq.
    + intros _. destruct Heq as [<- _]. exists node.
      split; [|done]. apply elem_of_app. right. by apply list_elem_of_singleton.
    + intros He. destruct (inv_stack _ Hinv e He) as (n & Hn & Hne).
      exists n. split; [|done]. apply elem_of_app. by left.
  - intros n e. cbn. rewrite length_alter. apply Hinv.
Qed.

(** Leaving an edge all of whose inputs are visited keeps the invariant. *)
Lemma scan_inv_leave node edge s w :
  scan_inv w -> mark_ (edge_at w edge) = VisitInStack ->
  (forall i, i ∈ inputs_ (edge_at w edge) -> visited w i) ->
  stack_ w = s ++ [node] -> in_edge_ (node_at w node) = Some edge ->
  scan_inv (set_stack s (update_edge edge (with_mark VisitDone) w)).
Proof.
  intros Hinv Hmark Hvis Hstack Hin.
  assert (forall e, settled w e ->
    settled (set_stack s (update_edge edge (with_mark VisitDone) w)) e)
    as Hsettled.
  { intros e [He|Hi]; [left|right; by apply inert_with_mark].
    rewrite mark_with_mark. by case_decide. }
  assert (forall e, edge_succ w edge e -> settled w e) as Hnext.
  { intros e (i & Hi & He). by apply (Hvis i). }
  split.
  - intros d e Hd Hde. apply edge_succ_with_mark in Hde. apply Hsettled.
    rewrite mark_with_mark in Hd. case_decide as Heq.
    + destruct Heq as [<- _]. by apply Hnext.
    + by apply (inv_closed _ Hinv d).
  - intros d Hd Htc. apply tc_with_mark in Htc.
    rewrite mark_with_mark in Hd. case_decide as Heq;
      [|by apply (inv_acyclic _ Hinv d)].
    destruct Heq as [<- _].
    assert (exists e, edge_succ w edge e /\ rtc (edge_succ w) e edge)
      as (e & Hfirst & Hback).
    { inversion Htc as [x y Hxy|x y z Hxy Hyz]; subst.
      - exists edge. split; [done|apply rtc_refl].
      - exists y. split; [done|by apply tc_rtc]. }
    pose proof (settled_rtc _ _ _ Hinv (Hnext e Hfirst) Hback) as [He|Hi].
    + congruence.
    + by apply inert_no_succ in Hfirst.
  - intros e. rewrite mark_with_mark. cbn. case_decide as Heq; [done|].
    intros He. destruct (inv_stack _ Hinv e He) as (n & Hn & Hne).
    exists n. split; [|done]. rewrite Hstack in Hn.
    apply elem_of_app in Hn as [Hn|Hn]; [done|].
    apply list_elem_of_singleton in Hn as ->.
    assert (e = edge) as -> by congruence. destruct Heq. split; [done|].
    destruct (decide (edge < length (edges_ w))); [done|].
    rewrite edge_at_ge in Hmark by lia. done.
  - intros n e. cbn. rewrite length_alter. apply Hinv.
Qed.

(** *** The edges yet to enter *)

Lemma pending_lt w e : pending w e -> e < length (edges_ w).
Proof.
  intros [_ Hi]. destruct (decide (e < length (edges_ w))); [done|].
  rewrite edge_at_ge in Hi by lia. by destruct Hi.
Qed.

Lemma pending_grows cur w w' e :
  grows_except cur w w' -> pending w' e -> pending w e.
Proof.
  intros Hg [Hm Hi]. split.
  - destruct (decide (mark_ (edge_at w e) = VisitNone)) as [|Hne]; [done|].
    pose proof (marked_lt _ _ Hne) as Hlt.
    by apply (static_mark _ _ (grows_static _ _ _ Hg e Hlt)) in Hne.
  - intros Hi0. apply Hi. by apply (inert_grows cur w).
Qed.

Lemma filter_seq_bound (P : nat -> Prop) `{!forall x, Decision (P x)} n n' :
  (forall x, P x -> x < n) -> n <= n' ->
  filter P (seq 0 n') = filter P (seq 0 n).
Proof.
  intros Hb Hle. replace n' with (n + (n' - n)) by lia.
  rewrite seq_app, filter_app. cbn.
  assert (forall a k, n <= a -> filter P (seq a k) = []) as Hnil.
  { intros a k. revert a. induction k as [|k IH]; intros a Ha; [done|].
    change (seq a (S k)) with (a :: seq (S a) k).
    rewrite filter_cons. case_decide as HP.
    - apply Hb in HP. lia.
    - apply IH. lia. }
  rewrite (Hnil n) by lia. apply app_nil_r.
Qed.

Lemma unvisited_filter cur w w' :
  grows_except cur w w' ->
  filter (pending w') (seq 0 (length (edges_ w')))
  = filter (pending w') (filter (pending w) (seq 0 (length (edges_ w)))).
Proof.
  intros Hg.
  rewrite (filter_seq_bound (pending w') (length (edges_ w))).
  - rewrite list_filter_filter. apply list_filter_iff. intros e.
    split; [|tauto]. intros He. split; [done|]. by apply (pending_grows cur w w').
  - intros e He. eapply pending_lt, pending_grows; eauto.
  - apply Hg.
Qed.

Lemma unvisited_grows cur w w' :
  grows_except cur w w' -> unvisited w' <= unvisited w.
Proof.
  intros Hg. unfold unvisited. rewrite (unvisited_filter cur w w' Hg).
  apply length_filter.
Qed.

Lemma unvisited_enter cur w w' e :
  grows_except cur w w' -> pending w e -> ~ pending w' e ->
  unvisited w' < unvisited w.
Proof.
  intros Hg He Hne. unfold unvisited. rewrite (unvisited_filter cur w w' Hg).
  apply (length_filter_lt _ _ e); [|done].
  apply list_elem_of_filter. split; [done|].
  apply elem_of_seq. pose proof (pending_lt _ _ He). lia.
Qed.

(** A graph without marks satisfies the invariant. *)
Lemma fresh_scan_inv w : fresh w -> scan_inv w.
Proof.
  intros [Hm Hr]. split; [| | |done].
  - intros d e Hd. by rewrite Hm in Hd.
  - intros d Hd. by rewrite Hm in Hd.
  - intros e He. by rewrite Hm in He.
Qed.

Lemma rtc_grows cur w w' e e' :
  grows_except cur w w' -> rtc (edge_succ w) e e' -> rtc (edge_succ w') e e'.
Proof.
  intros Hg. induction 1 as [|x y z Hxy _ IH]; [done|].
  eapply rtc_l; [|exact IH]. by eapply edge_succ_grows.
Qed.

Lemma tc_grows cur w w' e e' :
  grows_except cur w w' -> tc (edge_succ w) e e' -> tc (edge_succ w') e e'.
Proof.
  intros Hg. induction 1 as [x y Hxy|x y z Hxy _ IH].
  - apply tc_once. by eapply edge_succ_grows.
  - eapply tc_l; [|exact IH]. by eapply edge_succ_grows.
Qed.

Lemma reaches_edge_cycle_grows cur w w' node :
  grows_except cur w w' -> reaches_edge_cycle w node ->
  reaches_edge_cycle w' node.
Proof.
  intros Hg (e & c & Hin & Hpath & Hcyc). exists e, c.
  split; [by apply (grows_in_edge _ _ _ Hg)|].
  split; [by eapply rtc_grows|by eapply tc_grows].
Qed.

End TraversalInvariant.

(** ** The message of [VerifyDAG] *)

Lemma string_app_assoc (a b c : string) : (a +:+ b) +:+ c = a +:+ b +:+ c.
Proof.
  induction a as [|x a IH]; [done|].
  change (String x ((a +:+ b) +:+ c) = String x (a +:+ b +:+ c)).
  by rewrite IH.
Qed.

Lemma concat_cons_app sep (x : string) xs y :
  String.concat sep (x :: xs ++ [y])
  = x +:+ sep +:+ String.concat sep (xs ++ [y]).
Proof. by destruct xs. Qed.

Lemma cycle_path_text_concat (w : Scan) (cycle : list NodeId) (p : string) :
  cycle_path_text w cycle +:+ p
  = String.concat " -> " (((fun i => path_ (node_at w i)) <$> cycle) ++ [p]).
Proof.
  induction cycle as [|i cycle IH]; [done|].
  cbn [cycle_path_text fmap list_fmap]. rewrite <- app_comm_cons.
  by rewrite concat_cons_app, !string_app_assoc, IH.
Qed.

(** When the in-edge of [node] carries the temporary mark and [start] is the
    first position of the stack whose node has that in-edge, [VerifyDAG]
    fails, writes [node] at [start], and reports the paths from there to the
    end of the stack and back to [node]. *)
Lemma VerifyDAG_message (node : NodeId) (edge : EdgeId) (start : nat)
    (first : NodeId) (w : Scan) :
  in_edge_ (node_at w node) = Some edge ->
  mark_ (edge_at w edge) = VisitInStack ->
  list_find (fun i => in_edge_ (node_at w i) = Some edge) (stack_ w)
  = Some (start, first) ->
  exists w' : Scan,
    VerifyDAG node w = Some (false, w') /\
    nodes_ w' = nodes_ w /\ edges_ w' = edges_ w /\
    stack_ w' = <[start := node]> (stack_ w) /\
    err_ w'
    = "dependency cycle: "
      +:+ String.concat " -> "
            ((fun i => path_ (node_at w i))
               <$> node :: drop (S start) (stack_ w) ++ [node])
      +:+ (if bool_decide (S start = length (stack_ w))
              && maybe_phonycycle_diagnostic (edge_at w edge)
           then " [-w phonycycle=err]" else "").
Proof.
  intros Hin Hmark Hfind. unfold VerifyDAG.
  rewrite Hin, bool_decide_true by done. cbn [negb]. rewrite Hfind.
  eexists. split; [reflexivity|]. cbn [nodes_ edges_ stack_ err_ set_err set_stack].
  do 3 (split; [done|]).
  apply list_find_Some in Hfind as (Hlook & _ & _).
  pose proof (lookup_lt_Some _ _ _ Hlook) as Hlt.
  assert (drop start (<[start:=node]> (stack_ w))
          = node :: drop (S start) (stack_ w)) as Hdrop.
  { rewrite (drop_S _ node start) by (by apply list_lookup_insert_eq).
    f_equal. apply drop_insert_lt. lia. }
  rewrite length_insert.
  change (node_at (set_stack ?s w)) with (node_at w).
  change (edge_at (set_stack ?s w)) with (edge_at w).
  rewrite list_lookup_total_insert_eq by done. rewrite Hdrop.
  rewrite cycle_path_text_concat, (app_comm_cons _ _ node), fmap_app.
  destruct (_ && _).
  - by rewrite !string_app_assoc.
  - by rewrite string_app_empty_r.
Qed.

Section RecursivePass.

Context {D : Type} `{DiskInterface D}.
Variable disk_interface_ : D.
Variable build_log : option BuildLog.
Variable deps_log : DepsLog.
Variable DepfileParser_Parse : string -> DepfileParse.
Variable CanonicalizePath : string -> Canonicalize.
Variable kEvalRecursionLimit : nat.
Variable shell_escape : string -> string.
Variable EvaluateBindingInScope : Edge -> list Token -> string.
Variable ScopeEvaluateVariable : EvalPhase -> Edge -> string -> string.

Local Open Scope nat_scope.
Implicit Types (w : Scan) (n node : NodeId) (e edge : EdgeId).

Local Abbreviation load_deps :=
  (LoadDeps disk_interface_ deps_log DepfileParser_Parse CanonicalizePath
     kEvalRecursionLimit shell_escape EvaluateBindingInScope
     ScopeEvaluateVariable).
Local Abbreviation stat_if_necessary := (StatIfNecessary disk_interface_).
Local Abbreviation stat_outs := (stat_outputs disk_interface_).
Local Abbreviation visit_in_edge :=
  (visit_edge disk_interface_ build_log deps_log DepfileParser_Parse
     CanonicalizePath kEvalRecursionLimit shell_escape EvaluateBindingInScope
     ScopeEvaluateVariable).
Local Abbreviation recompute :=
  (RecomputeNodeDirty disk_interface_ build_log deps_log DepfileParser_Parse
     CanonicalizePath kEvalRecursionLimit shell_escape EvaluateBindingInScope
     ScopeEvaluateVariable).

Local Abbreviation main :=
  (main_pass disk_interface_ build_log deps_log DepfileParser_Parse
     CanonicalizePath kEvalRecursionLimit shell_escape EvaluateBindingInScope
     ScopeEvaluateVariable).

Local Ltac flow_simpl :=
  cbn [mbind Flow_bind flow_bind flow_run return_if fst snd].

(** The loader and the stat() calls leave the stack alone. *)
Lemma stack_CreatePhonyInEdge n w : stack_ (CreatePhonyInEdge n w) = stack_ w.
Proof. unfold CreatePhonyInEdge. by destruct (in_edge_ _). Qed.

Lemma stack_GetNode path w : stack_ (GetNode path w).2 = stack_ w.
Proof. unfold GetNode. by destruct (LookupNode _ _). Qed.

Lemma stack_load_deps_nodes edge deps_nodes pos w :
  stack_ (load_deps_nodes edge deps_nodes pos w) = stack_ w.
Proof.
  revert pos w. induction deps_nodes as [|node deps_nodes IH]; intros pos w;
    [done|]. cbn. by rewrite IH, stack_CreatePhonyInEdge.
Qed.

Lemma stack_load_depfile_ins edge ins pos w :
  stack_ (load_depfile_ins CanonicalizePath edge ins pos w).2 = stack_ w.
Proof.
  revert pos w. induction ins as [|i ins IH]; intros pos w; [done|]. cbn.
  destruct (CanonicalizePath i) as [path|err]; [|done].
  pose proof (stack_GetNode path w) as Hget.
  destruct (GetNode path w) as [node w0]. cbn in Hget.
  by rewrite IH, stack_CreatePhonyInEdge.
Qed.

Lemma stack_LoadDeps edge w ok w' :
  load_deps edge w = Returned ok w' -> stack_ w' = stack_ w.
Proof.
  unfold LoadDeps. destruct (UsesDepsLog _).
  { intros [= _ <-]. unfold LoadDepsFromLog.
    destruct (GetDeps _ _) as [deps|]; [|done]. case_match; [done|].
    cbn. by rewrite stack_load_deps_nodes. }
  destruct (UsesDepfile _); [|by intros [= _ <-]].
  destruct (GetUnescapedDepfile _ _ _ _ _ _) as [depfile|msg]; [|done].
  intros [= _ <-]. unfold LoadDepFile.
  destruct (ReadFile disk_interface_ depfile) as [content|err|err]; flow_simpl;
    [| |done].
  - destruct (String.eqb content ""); flow_simpl; [done|].
    destruct (DepfileParser_Parse content) as [out ins|err]; flow_simpl; [|done].
    destruct (CanonicalizePath out) as [out'|err]; flow_simpl; [|done].
    destruct (negb _); flow_simpl; [done|].
    destruct (PreallocateSpace edge (length ins) w) as [pos w1] eqn:Hpre.
    flow_simpl. rewrite stack_load_depfile_ins.
    unfold PreallocateSpace in Hpre. by injection Hpre as _ <-.
  - done.
Qed.

Lemma stack_StatIfNecessary n w : stack_ (stat_if_necessary n w).2 = stack_ w.
Proof.
  unfold StatIfNecessary. destruct (status_known _); [done|].
  by destruct (negb _).
Qed.

Lemma stack_stat_outputs outputs w : stack_ (stat_outs outputs w).2 = stack_ w.
Proof.
  revert w. induction outputs as [|o outputs IH]; intros w; [done|]. cbn.
  pose proof (stack_StatIfNecessary o w) as Hs.
  destruct (stat_if_necessary o w) as [[] w1]; cbn in *; [|done].
  by rewrite IH.
Qed.

Lemma stack_MarkDirty_outputs outputs w :
  stack_ (foldl (fun w o => MarkDirty o w) w outputs) = stack_ w.
Proof.
  revert w. induction outputs as [|o outputs IH]; intros w; [done|]. cbn.
  by rewrite IH.
Qed.

(** The end of a visit pops the stack and marks the edge finished. *)
Lemma finish_edge_spec node edge dirty mri w :
  let r := finish_edge build_log node edge dirty mri w in
  r.1 = true /\ stack_ r.2 = removelast (stack_ w) /\
  (edge < length (edges_ w) -> mark_ (edge_at r.2 edge) = VisitDone).
Proof.
  unfold finish_edge.
  assert (forall d, (RecomputeOutputsDirty build_log edge mri d w).1 = true)
    as Hok.
  { intros d. unfold RecomputeOutputsDirty.
    generalize (node_at w <$> outputs_ (edge_at w edge)).
    induction l as [|o l IH]; cbn; [done|]. by destruct (RecomputeOutputDirty _ _ _ _ _). }
  destruct (if negb dirty then _ else _) as [ok dirty'] eqn:Hd.
  assert (ok = true) as ->.
  { destruct dirty; cbn in Hd; [congruence|].
    specialize (Hok false). by rewrite Hd in Hok. }
  cbn. split; [done|]. split.
  - destruct (dirty' && _); destruct dirty'; cbn;
      by rewrite ?stack_MarkDirty_outputs.
  - intros Hlt.
    match goal with |- mark_ (edge_at (set_stack ?s ?w1) _) = _ =>
      change (mark_ (edge_at w1 edge) = VisitDone) end.
    rewrite edge_at_update_edge_eq; [done|].
    pose proof (grows_edges _ _ _
      (grows_MarkDirty_outputs None (outputs_ (edge_at w edge)) w)).
    destruct (dirty' && _); cbn; rewrite ?length_alter;
      destruct dirty'; cbn in *; lia.
Qed.

Lemma grows_close e w w' :
  grows_except (Some e) w w' ->
  (e < length (edges_ w) ->
   mark_ (edge_at w e) = VisitNone /\ mark_ (edge_at w' e) <> VisitNone) ->
  grows w w'.
Proof.
  intros [] Hmark. split; try done.
  intros e' _ Hlt Hm. destruct (decide (e' = e)) as [->|Hne].
  - destruct (Hmark Hlt) as [? ?]. by destruct Hm.
  - apply grows_frozen0; [congruence|done..].
Qed.

Lemma VerifyDAG_true node w w' :
  VerifyDAG node w = Some (true, w') ->
  w' = w /\ exists edge, in_edge_ (node_at w node) = Some edge /\
                         mark_ (edge_at w edge) <> VisitInStack.
Proof.
  unfold VerifyDAG. destruct (in_edge_ _) as [edge|]; [|done].
  case_bool_decide as Hm; cbn.
  - by destruct (list_find _ _) as [[? ?]|].
  - intros [= <-]. eauto.
Qed.

(** What the loop over the inputs and the second half of a visit guarantee
    when the recursive calls keep their promise. *)
Lemma visit_inputs_post visit edge inputs index dirty mri w r :
  (forall i w r, visit i w = Some r -> visit_post i w r) ->
  visit_inputs visit edge inputs index dirty mri w = Some r ->
  match r with
  | FatalExit _ => True
  | Returned ok l =>
      grows_except (Some edge) w (loop_scan l) /\
      (ok = true -> stack_ (loop_scan l) = stack_ w)
  end.
Proof.
  intros Hvisit. revert index dirty mri w.
  induction inputs as [|i inputs IH]; intros index dirty mri w; cbn.
  - intros [= <-]. split; [apply grows_except_refl|done].
  - destruct (visit i w) as [[[] w1|msg]|] eqn:Hv; [| | |done].
    + apply Hvisit in Hv. destruct Hv as [Hg Hpost].
      destruct (Hpost eq_refl) as [Hs _].
      set (w2 := match in_edge_ (node_at w1 i) with
                 | Some in_edge => _ | None => w1 end).
      assert (grows_except (Some edge) w w2 /\ stack_ w2 = stack_ w)
        as [Hg2 Hs2].
      { subst w2. destruct (in_edge_ (node_at w1 i)) as [in_edge|];
          [destruct (negb _)|]; (split; [|done]);
          try (by apply grows_weaken).
        eapply grows_except_trans; [by apply grows_weaken|].
        apply grows_update_edge. split; try done. by intros []. }
      destruct (if negb (is_order_only _ _) then _ else _) as [dirty' mri'].
      intros Hloop. apply IH in Hloop. destruct r as [ok l|]; [|done].
      destruct Hloop as [Hg3 Hs3].
      split; [by eapply grows_except_trans|]. intros ->. by rewrite Hs3.
    + intros [= <-]. apply Hvisit in Hv as [Hg _].
      split; [by apply grows_weaken|done].
    + by intros [= <-].
Qed.

Lemma visit_edge_post visit node edge dirty w r :
  (forall i w r, visit i w = Some r -> visit_post i w r) ->
  visit_in_edge visit node edge dirty w = Some r ->
  match r with
  | FatalExit _ => True
  | Returned ok w' =>
      grows_except (Some edge) w w' /\
      (ok = true ->
       stack_ w' = removelast (stack_ w) /\
       (edge < length (edges_ w) -> mark_ (edge_at w' edge) = VisitDone))
  end.
Proof.
  intros Hvisit. unfold visit_edge.
  destruct (load_deps edge w) as [ok w1|msg] eqn:Hload; [|by intros [= <-]].
  pose proof (grows_LoadDeps _ _ _ _ _ _ _ _ _ _ _ _ Hload) as Hg1.
  pose proof (stack_LoadDeps _ _ _ _ Hload) as Hs1.
  destruct (negb ok && _); [by intros [= <-]|].
  set (p := if negb ok then _ else _).
  assert (grows_except (Some edge) w p.2 /\ stack_ p.2 = stack_ w) as [Hg2 Hs2].
  { subst p. destruct (negb ok); cbn; [|done]. split; [|done].
    eapply grows_except_trans; [done|].
    apply grows_update_edge. split; try done. by intros []. }
  destruct p as [dirty' w2]. cbn in Hg2, Hs2.
  destruct (visit_inputs _ _ _ _ _ _ _) as [[[] l|msg]|] eqn:Hloop;
    [| | |done].
  - apply visit_inputs_post in Hloop as [Hg3 Hs3]; [|done].
    intros [= <-]. unfold returned.
    pose proof (finish_edge_spec node edge (loop_dirty l)
                  (loop_most_recent_input l) (loop_scan l)) as (Hok & Hs4 & Hm).
    pose proof (grows_finish_edge build_log node edge (loop_dirty l)
                  (loop_most_recent_input l) (loop_scan l)) as Hg4.
    cbn zeta in *. rewrite Hok. split.
    + eapply grows_except_trans; [exact Hg2|].
      by eapply grows_except_trans.
    + intros _. rewrite Hs4, Hs3, Hs2 by done. split; [done|].
      intros Hlt. apply Hm.
      pose proof (grows_edges _ _ _ Hg2). pose proof (grows_edges _ _ _ Hg3). lia.
  - apply visit_inputs_post in Hloop as [Hg3 _]; [|done].
    intros [= <-]. split; [by eapply grows_except_trans|done].
  - by intros [= <-].
Qed.

(** Every call of [recompute] that returns keeps the promise. *)
Lemma RecomputeNodeDirty_post fuel node w r :
  recompute fuel node w = Some r -> visit_post node w r.
Proof.
  revert node w r. induction fuel as [|fuel IH]; intros node w r; [done|].
  cbn. destruct (in_edge_ (node_at w node)) as [edge|] eqn:Hin.
  - case_bool_decide as Hdone.
    { intros [= <-]. split; [apply grows_except_refl|]. intros _.
      split; [done|]. intros e He _. rewrite Hin in He. by injection He as <-. }
    destruct (VerifyDAG node w) as [[[] w0]|] eqn:Hdag; [| |done].
    2:{ intros [= <-]. split; [by eapply grows_VerifyDAG|done]. }
    apply VerifyDAG_true in Hdag as (-> & edge' & Hin' & Hstack).
    assert (edge' = edge) as -> by congruence.
    assert (mark_ (edge_at w edge) = VisitNone) as Hnone
      by (by destruct (mark_ (edge_at w edge))).
    set (w1 := update_edge edge (with_mark VisitInStack) w).
    set (w2 := set_stack (stack_ w ++ [node]) w1).
    set (w3 := update_edge edge (with_outputs_ready true) w2).
    set (w4 := update_edge edge (with_deps_missing false) w3).
    assert (grows_except (Some edge) w w1) as Hg1
      by (apply grows_update_edge; split; try done; by intros []).
    assert (grows_except (Some edge) w1 w4) as Hg4.
    { eapply (grows_except_trans _ _ w2); [by apply grows_same_graph|].
      eapply (grows_except_trans _ _ w3);
        apply grows_update_edge; split; try done; by intros []. }
    assert (edge < length (edges_ w) -> mark_ (edge_at w1 edge) <> VisitNone)
      as Hm1.
    { intros Hlt. subst w1. by rewrite edge_at_update_edge_eq. }
    assert (stack_ w4 = stack_ w ++ [node]) as Hs4 by done.
    pose proof (grows_stat_outputs disk_interface_ (Some edge)
                  (outputs_ (edge_at w4 edge)) w4) as Hg5.
    pose proof (stack_stat_outputs (outputs_ (edge_at w4 edge)) w4) as Hs5.
    destruct (stat_outs _ w4) as [ok w5]. cbn in Hg5, Hs5.
    assert (forall w', grows_except (Some edge) w5 w' -> grows w w') as Hclose.
    { intros w' Hg'. apply (grows_close edge).
      - eapply grows_except_trans; [exact Hg1|].
        eapply grows_except_trans; [exact Hg4|].
        by eapply grows_except_trans.
      - intros Hlt. split; [done|].
        assert (grows_except (Some edge) w1 w') as Hg1'.
        { eapply grows_except_trans; [exact Hg4|].
          by eapply grows_except_trans. }
        apply (static_mark _ _ (grows_static _ _ _ Hg1' edge
                 ltac:(subst w1; cbn; by rewrite length_alter))).
        by apply Hm1. }
    destruct ok; cbn.
    + intros Hvisit. apply visit_edge_post in Hvisit; [|exact IH].
      destruct r as [ok w'|]; [|done]. destruct Hvisit as [Hg6 Hpost].
      split; [by apply Hclose|]. intros ->.
      destruct (Hpost eq_refl) as [Hs6 Hm6]. split.
      * rewrite Hs6, Hs5. by rewrite removelast_last.
      * intros e He Hlt. rewrite Hin in He. injection He as <-. apply Hm6.
        pose proof (grows_edges _ _ _ Hg1). pose proof (grows_edges _ _ _ Hg4).
        pose proof (grows_edges _ _ _ Hg5). lia.
    + intros [= <-]. split; [|done]. apply Hclose, grows_except_refl.
  - destruct (status_known _); [intros [= <-]|].
    { split; [apply grows_except_refl|]. intros _. split; [done|].
      intros e. by rewrite Hin. }
    pose proof (grows_StatIfNecessary disk_interface_ None node w) as Hg.
    pose proof (stack_StatIfNecessary node w) as Hs.
    destruct (stat_if_necessary node w) as [[] w1]; cbn in *; intros [= <-].
    + split.
      * eapply grows_except_trans; [exact Hg|]. by apply grows_update_node.
      * intros _. split; [done|]. intros e. by rewrite Hin.
    + done.
Qed.

(** The visit of an edge changes nothing of the edge but [outputs_ready_]
    while its inputs are visited. *)
Lemma visit_inputs_current visit edge inputs index dirty mri w ok l :
  (forall i w r, visit i w = Some r -> visit_post i w r) ->
  edge < length (edges_ w) ->
  mark_ (edge_at w edge) <> VisitNone ->
  visit_inputs visit edge inputs index dirty mri w = Some (Returned ok l) ->
  with_outputs_ready true (edge_at (loop_scan l) edge)
  = with_outputs_ready true (edge_at w edge).
Proof.
  intros Hvisit. revert index dirty mri w.
  induction inputs as [|i inputs IH]; intros index dirty mri w Hlt Hmark; cbn.
  - by intros [= <- <-].
  - destruct (visit i w) as [[[] w1|msg]|] eqn:Hv; [| |done..].
    + apply Hvisit in Hv. destruct Hv as [Hg _].
      pose proof (grows_frozen _ _ _ Hg edge ltac:(done) Hlt (or_introl Hmark))
        as Hsame.
      pose proof (grows_edges _ _ _ Hg) as Hlen.
      set (w2 := match in_edge_ (node_at w1 i) with
                 | Some in_edge => _ | None => w1 end).
      assert (with_outputs_ready true (edge_at w2 edge)
              = with_outputs_ready true (edge_at w edge)
              /\ length (edges_ w2) = length (edges_ w1)) as [Hsame2 Hlen2].
      { subst w2. destruct (in_edge_ (node_at w1 i)) as [in_edge|];
          [destruct (negb _)|]; rewrite ?Hsame; try done.
        rewrite edge_at_update_edge_eq by lia. rewrite Hsame.
        split; [done|]. cbn. by rewrite length_alter. }
      destruct (if negb (is_order_only _ _) then _ else _) as [dirty' mri'].
      intros Hloop. apply IH in Hloop; [congruence|lia|].
      apply (f_equal mark_) in Hsame2. cbn in Hsame2. congruence.
    + intros [= <- <-]. apply Hvisit in Hv. destruct Hv as [Hg _]. cbn.
      by rewrite (grows_frozen _ _ _ Hg edge ltac:(done) Hlt (or_introl Hmark)).
Qed.

Lemma dirty_MarkDirty_outputs outputs w o :
  o < length (nodes_ w) ->
  dirty_ (node_at (foldl (fun w o => MarkDirty o w) w outputs) o)
  = bool_decide (o ∈ outputs) || dirty_ (node_at w o).
Proof.
  revert w. induction outputs as [|o' outputs IH]; intros w Hlt; cbn; [done|].
  rewrite IH by (cbn; by rewrite length_alter). unfold MarkDirty.
  rewrite node_at_update_node.
  destruct (decide (o' = o)) as [->|Hne].
  - rewrite decide_True by done. cbn. rewrite orb_true_r.
    by rewrite bool_decide_true by apply list_elem_of_here.
  - rewrite decide_False by tauto. f_equal.
    apply bool_decide_ext. rewrite elem_of_cons. intuition congruence.
Qed.

Lemma edges_MarkDirty_outputs outputs w :
  edges_ (foldl (fun w o => MarkDirty o w) w outputs) = edges_ w.
Proof.
  revert w. induction outputs as [|o outputs IH]; intros w; cbn; [done|].
  by rewrite IH.
Qed.

Lemma finish_edge_state node edge dirty mri w :
  edge < length (edges_ w) ->
  let e := edge_at w edge in
  let w' := (finish_edge build_log node edge dirty mri w).2 in
  let dirty' := edge_dirty build_log edge dirty mri w in
  edge_at w' edge
  = with_mark VisitDone
      (if dirty' && negb (is_phony e && bool_decide (inputs_ e = []))
       then with_outputs_ready false e else e)
  /\ forall o, o < length (nodes_ w) ->
       dirty_ (node_at w' o)
       = dirty' && bool_decide (o ∈ outputs_ e) || dirty_ (node_at w o).
Proof.
  intros Hlt e w' dirty'. subst w'. unfold finish_edge.
  assert ((if negb dirty then RecomputeOutputsDirty build_log edge mri dirty w
           else (true, dirty)) = (true, dirty')) as ->.
  { subst dirty'. unfold edge_dirty. destruct dirty; cbn; [done|].
    pose proof (finish_edge_spec node edge false mri w) as (Hok & _).
    unfold finish_edge in Hok. cbn in Hok.
    destruct (RecomputeOutputsDirty build_log edge mri false w) as [ok d].
    by destruct ok. }
  cbn [negb].
  set (w1 := if dirty' then _ else w).
  assert (edge_at w1 edge = e /\ length (edges_ w1) = length (edges_ w) /\
          forall o, o < length (nodes_ w) ->
            dirty_ (node_at w1 o)
            = dirty' && bool_decide (o ∈ outputs_ e) || dirty_ (node_at w o))
    as (He & Hlen & Hd).
  { subst w1. destruct dirty'; cbn; [|done].
    pose proof (grows_MarkDirty_outputs (Some edge) (outputs_ e) w) as Hg.
    split; [|split].
    - unfold edge_at. by rewrite edges_MarkDirty_outputs.
    - by rewrite edges_MarkDirty_outputs.
    - intros o Ho. by apply dirty_MarkDirty_outputs. }
  rewrite He. cbn [snd]. split.
  - change (edge_at (set_stack ?s ?w2) edge) with (edge_at w2 edge).
    destruct (dirty' && _).
    + rewrite edge_at_update_edge_eq by (cbn; rewrite length_alter; lia).
      rewrite edge_at_update_edge_eq by lia. by rewrite He.
    + rewrite edge_at_update_edge_eq by lia. by rewrite He.
  - intros o Ho. rewrite <- Hd by done. by destruct (dirty' && _).
Qed.

Lemma edges_stat_outputs outputs w : edges_ (stat_outs outputs w).2 = edges_ w.
Proof.
  revert w. induction outputs as [|o outputs IH]; intros w; [done|]. cbn.
  assert (edges_ (stat_if_necessary o w).2 = edges_ w) as Hs.
  { unfold StatIfNecessary. destruct (status_known _); [done|].
    by destruct (negb _). }
  destruct (stat_if_necessary o w) as [[] w1]; cbn in *; [|done].
  by rewrite IH.
Qed.

Lemma LoadDeps_not_loads edge w :
  ~ loads (edge_at w edge) -> load_deps edge w = Returned true w.
Proof.
  unfold LoadDeps, loads. intros Hl.
  destruct (UsesDepsLog _); [tauto|]. destruct (UsesDepfile _); [tauto|done].
Qed.

(** A phony edge without inputs that loads no dependencies is ready after
    its visit, whatever the state of its outputs. *)
Lemma phony_without_inputs_ready fuel node edge w w' :
  recompute (S fuel) node w = Some (Returned true w') ->
  in_edge_ (node_at w node) = Some edge ->
  edge < length (edges_ w) ->
  mark_ (edge_at w edge) = VisitNone ->
  is_phony (edge_at w edge) = true ->
  inputs_ (edge_at w edge) = [] ->
  ~ loads (edge_at w edge) ->
  outputs_ready_ (edge_at w' edge) = true
  /\ mark_ (edge_at w' edge) = VisitDone.
Proof.
  intros Hrun Hin Hlt Hmark Hphony Hinputs Hloads. cbn in Hrun.
  rewrite Hin, Hmark in Hrun. rewrite bool_decide_false in Hrun by done.
  unfold VerifyDAG in Hrun. rewrite Hin, Hmark in Hrun.
  rewrite bool_decide_false in Hrun by done. cbn [negb] in Hrun.
  set (w1 := update_edge edge (with_mark VisitInStack) w) in *.
  set (w2 := set_stack (stack_ w ++ [node]) w1) in *.
  set (w3 := update_edge edge (with_outputs_ready true) w2) in *.
  set (w4 := update_edge edge (with_deps_missing false) w3) in *.
  assert (edge_at w4 edge
          = with_deps_missing false (with_outputs_ready true
              (with_mark VisitInStack (edge_at w edge))) /\
          length (edges_ w4) = length (edges_ w)) as [He4 Hlen4].
  { subst w4 w3 w2 w1.
    rewrite !edge_at_update_edge_eq by (cbn; rewrite ?length_alter; lia).
    change (edge_at (set_stack ?s ?w0) edge) with (edge_at w0 edge).
    rewrite edge_at_update_edge_eq by lia.
    split; [done|]. cbn. by rewrite !length_alter. }
  pose proof (edges_stat_outputs (outputs_ (edge_at w4 edge)) w4) as He5.
  destruct (stat_outs _ w4) as [[] w5]; cbn in Hrun, He5; [|done].
  assert (edge_at w5 edge = edge_at w4 edge) as He5'
    by (unfold edge_at; by rewrite He5).
  unfold visit_edge in Hrun.
  rewrite LoadDeps_not_loads in Hrun.
  2:{ rewrite He5', He4. exact Hloads. }
  cbn [negb andb] in Hrun. rewrite He5', He4 in Hrun.
  cbn [inputs_ with_deps_missing with_outputs_ready with_mark] in Hrun.
  rewrite Hinputs in Hrun.
  cbn [visit_inputs loop_dirty loop_most_recent_input loop_scan] in Hrun.
  unfold returned in Hrun. injection Hrun as _ <-.
  destruct (finish_edge_state node edge false None w5) as [Hfin _];
    [rewrite He5, !length_alter; exact Hlt|].
  cbn zeta in Hfin. rewrite Hfin, He5', He4.
  replace (is_phony _) with true by (by rewrite <- Hphony).
  cbn [inputs_ with_deps_missing with_outputs_ready with_mark].
  rewrite Hinputs, bool_decide_true by done. cbn [andb negb].
  by rewrite andb_false_r.
Qed.

(** C4, as the code has it.  For a phony edge, [RecomputeOutputDirty]
    reports an output dirty exactly when the edge has no inputs and the
    output is missing.  At the end of the visit of an edge whose verdict is
    dirty, every output is marked dirty, and [outputs_ready_] is set to
    false unless the edge is phony without inputs, which stays ready: such
    an edge is ready after its visit. *)
Theorem phony_edge_dirty_and_ready :
  (forall (edge : Edge) mri hash output,
      is_phony edge = true ->
      RecomputeOutputDirty build_log edge mri hash output = true <->
      inputs_ edge = [] /\ exists_ output = false)
  /\ (forall node edge dirty mri w,
        edge < length (edges_ w) ->
        let e := edge_at w edge in
        let w' := (finish_edge build_log node edge dirty mri w).2 in
        edge_dirty build_log edge dirty mri w = true ->
        (forall o, o ∈ outputs_ e -> o < length (nodes_ w) ->
                   dirty_ (node_at w' o) = true)
        /\ outputs_ready_ (edge_at w' edge)
           = if is_phony e && bool_decide (inputs_ e = [])
             then outputs_ready_ e else false)
  /\ (forall fuel node edge w w',
        recompute (S fuel) node w = Some (Returned true w') ->
        in_edge_ (node_at w node) = Some edge ->
        edge < length (edges_ w) ->
        mark_ (edge_at w edge) = VisitNone ->
        is_phony (edge_at w edge) = true ->
        inputs_ (edge_at w edge) = [] ->
        ~ loads (edge_at w edge) ->
        outputs_ready_ (edge_at w' edge) = true).
Proof.
  split; [|split].
  - intros edge mri hash output Hphony.
    unfold RecomputeOutputDirty, RecomputeOutputDirty_explained.
    rewrite Hphony. case_bool_decide as Hin; cbn.
    + destruct (exists_ output); cbn; split; try done. by intros [_ ?].
    + split; [done|]. by intros [? _].
  - intros node edge dirty mri w Hlt e w' Hdirty.
    destruct (finish_edge_state node edge dirty mri w Hlt) as [He Hd].
    cbn zeta in He, Hd. rewrite Hdirty in He, Hd. subst w'. split.
    + intros o Ho Hon. rewrite Hd by done.
      by rewrite bool_decide_true by done.
    + rewrite He. cbn. by destruct (is_phony _ && _).
  - intros fuel node edge w w' Hrun Hin Hlt Hmark Hphony Hinputs Hloads.
    by eapply phony_without_inputs_ready.
Qed.

Lemma visit_inputs_dirty visit edge inputs index mri w ok l :
  visit_inputs visit edge inputs index true mri w = Some (Returned ok l) ->
  loop_dirty l = true.
Proof.
  revert index mri w. induction inputs as [|i inputs IH]; intros index mri w; cbn.
  - by intros [= <- <-].
  - destruct (visit i w) as [[[] w1|msg]|]; [| |done..].
    + destruct (negb (is_order_only _ _)); [|by apply IH].
      destruct (dirty_ _); [by apply IH|].
      destruct mri as [input|]; [|by apply IH].
      destruct (_ <? _)%Z; by apply IH.
    + by intros [= <- <-].
Qed.

(** When the loader fails without an error, the visit goes on with the edge
    dirty and its [deps_missing_] set, and ends with every output marked
    dirty. *)
Lemma visit_edge_deps_missing fuel node edge dirty w w1 :
  load_deps edge w = Returned false w1 ->
  err_ w1 = "" ->
  visit_in_edge (recompute fuel) node edge dirty w
  = match visit_inputs (recompute fuel) edge
            (inputs_ (edge_at w1 edge)) 0 true None
            (update_edge edge (with_deps_missing true) w1) with
    | None => None
    | Some (FatalExit msg) => Some (FatalExit msg)
    | Some (Returned false l) => Some (Returned false (loop_scan l))
    | Some (Returned true l) =>
        Some (returned (finish_edge build_log node edge (loop_dirty l)
                          (loop_most_recent_input l) (loop_scan l)))
    end
  /\ forall w',
       edge < length (edges_ w) ->
       mark_ (edge_at w edge) <> VisitNone ->
       visit_in_edge (recompute fuel) node edge dirty w
       = Some (Returned true w') ->
       deps_missing_ (edge_at w' edge) = true /\
       forall o, o ∈ outputs_ (edge_at w edge) -> o < length (nodes_ w) ->
                 dirty_ (node_at w' o) = true.
Proof.
  intros Hload Herr.
  assert (visit_in_edge (recompute fuel) node edge dirty w
          = match visit_inputs (recompute fuel) edge
                    (inputs_ (edge_at w1 edge)) 0 true None
                    (update_edge edge (with_deps_missing true) w1) with
            | None => None
            | Some (FatalExit msg) => Some (FatalExit msg)
            | Some (Returned false l) => Some (Returned false (loop_scan l))
            | Some (Returned true l) =>
                Some (returned (finish_edge build_log node edge (loop_dirty l)
                                  (loop_most_recent_input l) (loop_scan l)))
            end) as Heq.
  { unfold visit_edge. rewrite Hload, Herr. cbn [negb andb String.eqb].
    cbn [negb andb]. 
    destruct (decide (edge < length (edges_ w1))) as [Hlt|Hge].
    - by rewrite edge_at_update_edge_eq.
    - rewrite edge_at_update_edge. rewrite decide_False by tauto. done. }
  split; [exact Heq|]. rewrite Heq. clear Heq.
  intros w' Hlt Hmark.
  pose proof (grows_LoadDeps _ _ _ _ _ _ _ _ _ _ _ _ Hload) as Hg1.
  set (w2 := update_edge edge (with_deps_missing true) w1).
  assert (grows_except (Some edge) w1 w2) as Hg2
    by (apply grows_update_edge; split; try done; by intros []).
  pose proof (grows_edges _ _ _ Hg1) as Hlen1.
  assert (edge_at w2 edge = with_deps_missing true (edge_at w1 edge)) as He2
    by (subst w2; rewrite edge_at_update_edge_eq; [done|lia]).
  destruct (visit_inputs _ _ _ _ _ _ w2) as [[[] l|msg]|] eqn:Hloop;
    [|done..].
  unfold returned. intros [= _ <-].
  pose proof (visit_inputs_dirty _ _ _ _ _ _ _ _ Hloop) as Hdirty.
  pose proof (visit_inputs_post _ _ _ _ _ _ _ _
                (RecomputeNodeDirty_post fuel) Hloop) as [Hg3 _].
  assert (mark_ (edge_at w2 edge) <> VisitNone) as Hmark2.
  { rewrite He2. cbn.
    by apply (static_mark _ _ (grows_static _ _ _ Hg1 edge Hlt)). }
  pose proof (grows_edges _ _ _ Hg2) as Hlen2.
  pose proof (grows_edges _ _ _ Hg3) as Hlen3.
  assert (edge < length (edges_ w2)) as Hlt2.
  { unfold w2, update_edge. cbn [edges_]. rewrite length_alter. lia. }
  pose proof (visit_inputs_current _ _ _ _ _ _ _ _ _
                (RecomputeNodeDirty_post fuel) Hlt2 Hmark2 Hloop)
    as Hcur.
  destruct (finish_edge_state node edge (loop_dirty l)
              (loop_most_recent_input l) (loop_scan l) ltac:(lia))
    as [Hfin Hd].
  cbn zeta in Hfin, Hd. rewrite Hdirty in Hfin, Hd.
  unfold edge_dirty in Hfin, Hd. cbn [andb orb] in Hfin, Hd.
  assert (grows_except (Some edge) w (loop_scan l)) as Hg.
  { eapply grows_except_trans; [exact Hg1|].
    by eapply grows_except_trans. }
  rewrite Hdirty. split.
  - rewrite Hfin.
    apply (f_equal deps_missing_) in Hcur. rewrite He2 in Hcur. cbn in Hcur.
    by destruct (negb _).
  - intros o Ho Hon. rewrite Hd by (pose proof (grows_nodes _ _ _ Hg); lia).
    rewrite (static_outputs _ _ (grows_static _ _ _ Hg edge Hlt)).
    by rewrite bool_decide_true by done.
Qed.

(** The two silent failures of [LoadDepsFromLog]. *)
Lemma LoadDepsFromLog_missing edge w :
  let output := outputs_ (edge_at w edge) !!! 0 in
  GetDeps deps_log output = None \/
  (exists deps, GetDeps deps_log output = Some deps /\
                (deps_mtime deps < mtime_ (node_at w output))%Z) ->
  LoadDepsFromLog deps_log edge w = (false, w).
Proof.
  intros output [Hnone|(deps & Hsome & Hstale)]; unfold LoadDepsFromLog;
    fold output.
  - by rewrite Hnone.
  - rewrite Hsome. by destruct (Z.ltb_spec (deps_mtime deps)
                                  (mtime_ (node_at w output))); [|lia].
Qed.

(** C10.  For an edge that declares a depfile and no [deps], a depfile that
    is on the disk with empty content makes [LoadDepFile] return false with
    the error string still empty, exactly what it returns on a disk where
    the depfile is missing; the scanner then goes on as for missing deps:
    [deps_missing_] is set and every output is marked dirty. *)
Theorem LoadDepFile_empty_content fuel node edge dirty path w :
  UsesDepsLog (edge_at w edge) = false ->
  UsesDepfile (edge_at w edge) = true ->
  GetUnescapedDepfile kEvalRecursionLimit shell_escape EvaluateBindingInScope
    ScopeEvaluateVariable w (edge_at w edge) = inl path ->
  ReadFile disk_interface_ path = Okay "" ->
  err_ w = "" ->
  LoadDepFile disk_interface_ DepfileParser_Parse CanonicalizePath edge path w
  = (false, w)
  /\ (forall (missing : D) err,
        ReadFile missing path = NotFound err ->
        LoadDepFile missing DepfileParser_Parse CanonicalizePath edge path w
        = LoadDepFile disk_interface_ DepfileParser_Parse CanonicalizePath
            edge path w)
  /\ load_deps edge w = Returned false w
  /\ forall w',
       edge < length (edges_ w) ->
       mark_ (edge_at w edge) <> VisitNone ->
       visit_in_edge (recompute fuel) node edge dirty w
       = Some (Returned true w') ->
       deps_missing_ (edge_at w' edge) = true /\
       forall o, o ∈ outputs_ (edge_at w edge) -> o < length (nodes_ w) ->
                 dirty_ (node_at w' o) = true.
Proof.
  intros Hlog Hfile Hpath Hread Herr.
  assert (LoadDepFile disk_interface_ DepfileParser_Parse CanonicalizePath
            edge path w = (false, w)) as Hdepfile
    by (unfold LoadDepFile; by rewrite Hread).
  assert (load_deps edge w = Returned false w) as Hload.
  { unfold LoadDeps. by rewrite Hlog, Hfile, Hpath, Hdepfile. }
  split; [exact Hdepfile|]. split; [|split; [exact Hload|]].
  - intros missing err Hnot. rewrite Hdepfile. unfold LoadDepFile.
    rewrite Hnot. cbn. destruct w. cbn in Herr. by subst.
  - apply (proj2 (visit_edge_deps_missing fuel node edge dirty w w Hload Herr)).
Qed.

(** *** The invariant through a visit *)

Lemma finish_edge_keeps node edge dirty mri s w :
  scan_inv w -> mark_ (edge_at w edge) = VisitInStack ->
  (forall i, i ∈ inputs_ (edge_at w edge) -> visited w i) ->
  stack_ w = s ++ [node] -> in_edge_ (node_at w node) = Some edge ->
  let w' := (finish_edge build_log node edge dirty mri w).2 in
  scan_inv w' /\ no_entry w w'.
Proof.
  intros Hinv Hmark Hvis Hstack Hin. unfold finish_edge.
  destruct (if negb dirty then _ else _) as [ok dirty'].
  destruct (negb ok); cbn; [split; [done|apply no_entry_refl]|].
  set (w1 := if dirty' then _ else w).
  set (w2 := if dirty' && _ then _ else w1).
  assert (step_except (Some edge) w w1 /\ stack_ w1 = stack_ w /\
          edges_ w1 = edges_ w) as (Hs1 & Hst1 & He1).
  { subst w1. destruct dirty';
      [|split; [apply step_except_refl|done]].
    split; [apply step_MarkDirty_outputs|].
    by rewrite stack_MarkDirty_outputs, edges_MarkDirty_outputs. }
  assert (step_except (Some edge) w1 w2 /\ stack_ w2 = stack_ w1 /\
          inputs_ (edge_at w2 edge) = inputs_ (edge_at w1 edge))
    as (Hs2 & Hst2 & Hi2).
  { subst w2. destruct (dirty' && _);
      [|split; [apply step_except_refl|done]].
    split; [apply step_update_edge; [|done]; split; try done; by intros []|].
    split; [done|]. rewrite edge_at_update_edge. by case_decide. }
  pose proof (step_except_trans _ _ _ _ Hs1 Hs2) as Hs.
  assert (forall c, Some edge = Some c -> mark_ (edge_at w c) <> VisitDone)
    as Hcur by (intros c [= <-]; congruence).
  assert (scan_inv w2) as Hinv2
    by (eapply scan_inv_step; [exact Hinv|exact Hs|congruence|exact Hcur]).
  assert (scan_inv (set_stack s (update_edge edge (with_mark VisitDone) w2)))
    as Hinv3.
  { apply (scan_inv_leave node); [done| | |congruence|].
    - by rewrite (step_mark _ _ _ Hs).
    - intros i Hi. apply (visited_grows (Some edge) w); [apply Hs|done|].
      apply Hvis. rewrite Hi2 in Hi. unfold edge_at in *. by rewrite He1 in Hi.
    - by apply (grows_in_edge _ _ _ (step_grows _ _ _ Hs)). }
  assert (removelast (stack_ w2) = s) as Hpop
    by (rewrite Hst2, Hst1, Hstack; apply removelast_last).
  rewrite Hpop. split; [done|].
  intros e. rewrite mark_with_mark. case_decide; [done|].
  by rewrite (step_mark _ _ _ Hs).
Qed.

Lemma visit_inputs_keeps visit edge inputs index dirty mri w l :
  (forall i w r, visit i w = Some r -> visit_post i w r) ->
  (forall i w r, visit i w = Some r -> visit_keeps w r) ->
  scan_inv w -> mark_ (edge_at w edge) = VisitInStack ->
  visit_inputs visit edge inputs index dirty mri w = Some (Returned true l) ->
  scan_inv (loop_scan l) /\ no_entry w (loop_scan l) /\
  mark_ (edge_at (loop_scan l) edge) = VisitInStack /\
  forall i, i ∈ inputs -> visited (loop_scan l) i.
Proof.
  intros Hpost Hkeeps. revert index dirty mri w.
  induction inputs as [|i inputs IH]; intros index dirty mri w Hinv Hmark; cbn.
  - intros [= <-]. cbn. split; [done|]. split; [apply no_entry_refl|].
    split; [done|]. intros i Hi. by apply elem_of_nil in Hi.
  - destruct (visit i w) as [[[] w1|msg]|] eqn:Hv; [|done..].
    pose proof (Hpost _ _ _ Hv) as [Hg Hp]. destruct (Hp eq_refl) as [_ Hdone].
    pose proof (Hkeeps _ _ _ Hv Hinv) as [Hinv1 Hne1].
    assert (edge_at w1 edge = edge_at w edge) as Hsame.
    { apply (grows_frozen _ _ _ Hg); [done| |left; congruence].
      apply marked_lt. congruence. }
    assert (visited w1 i) as Hv1.
    { intros e He. apply (grows_in_edge_new _ _ _ Hg) in He as [He|Hge].
      - left. apply Hdone; [done|]. by apply (inv_range _ Hinv i).
      - right. by apply (grows_new_inert _ _ _ Hg). }
    set (w2 := match in_edge_ (node_at w1 i) with
               | Some in_edge => _ | None => w1 end).
    assert (step_except (Some edge) w1 w2 /\ stack_ w2 = stack_ w1)
      as [Hs2 Hst2].
    { subst w2. destruct (in_edge_ (node_at w1 i)) as [in_edge|];
        [destruct (negb _)|]; (split; [|done]); try apply step_except_refl.
      apply step_update_edge; [|done]. split; try done. by intros []. }
    assert (forall c, Some edge = Some c -> mark_ (edge_at w1 c) <> VisitDone)
      as Hcur1 by (intros c [= <-]; rewrite Hsame; congruence).
    assert (scan_inv w2) as Hinv2 by (by eapply scan_inv_step).
    assert (mark_ (edge_at w2 edge) = VisitInStack) as Hmark2
      by (by rewrite (step_mark _ _ _ Hs2), Hsame).
    destruct (if negb (is_order_only _ _) then _ else _) as [dirty' mri'].
    intros Hloop. pose proof Hloop as Hloop'.
    apply visit_inputs_post in Hloop' as [Hg3 _]; [|done].
    apply IH in Hloop as (Hinv3 & Hne3 & Hm3 & Hvis3); [|done..].
    split; [done|]. split; [|split; [done|]].
    + eapply no_entry_trans; [exact Hne1|].
      eapply no_entry_trans; [eapply step_no_entry, Hs2|exact Hne3].
    + intros i' Hi'. apply elem_of_cons in Hi' as [->|Hi']; [|by apply Hvis3].
      apply (visited_grows (Some edge) w2);
        [done|intros c [= <-]; congruence|].
      by apply (visited_grows (Some edge) w1); [apply Hs2|..].
Qed.

Lemma visit_edge_keeps visit node edge dirty s w w' :
  (forall i w r, visit i w = Some r -> visit_post i w r) ->
  (forall i w r, visit i w = Some r -> visit_keeps w r) ->
  scan_inv w -> mark_ (edge_at w edge) = VisitInStack ->
  stack_ w = s ++ [node] -> in_edge_ (node_at w node) = Some edge ->
  visit_in_edge visit node edge dirty w = Some (Returned true w') ->
  scan_inv w' /\ no_entry w w'.
Proof.
  intros Hpost Hkeeps Hinv Hmark Hstack Hin. unfold visit_edge.
  destruct (load_deps edge w) as [ok w1|msg] eqn:Hload; [|done].
  assert (step_except (Some edge) w w1) as Hs1 by (by eapply step_LoadDeps).
  pose proof (stack_LoadDeps _ _ _ _ Hload) as Hst1.
  destruct (negb ok && _); [done|].
  set (p := if negb ok then _ else _).
  assert (step_except (Some edge) w p.2 /\ stack_ p.2 = stack_ w)
    as [Hs2 Hst2].
  { subst p. destruct (negb ok); cbn; [|done]. split; [|done].
    eapply step_except_trans; [done|].
    apply step_update_edge; [|done]. split; try done. by intros []. }
  destruct p as [dirty' w2]. cbn in Hs2, Hst2.
  assert (forall c, Some edge = Some c -> mark_ (edge_at w c) <> VisitDone)
    as Hcur by (intros c [= <-]; congruence).
  assert (scan_inv w2) as Hinv2 by (by eapply scan_inv_step).
  assert (mark_ (edge_at w2 edge) = VisitInStack) as Hmark2
    by (by rewrite (step_mark _ _ _ Hs2)).
  destruct (visit_inputs _ _ _ _ _ _ _) as [[[] l|msg]|] eqn:Hloop; [|done..].
  pose proof Hloop as Hloop1. pose proof Hloop as Hloop2.
  apply visit_inputs_post in Hloop1 as [Hg3 Hst3]; [|done].
  apply visit_inputs_current in Hloop2;
    [|done|apply marked_lt; congruence|congruence].
  apply visit_inputs_keeps in Hloop as (Hinv3 & Hne3 & Hmark3 & Hvis3);
    [|done..].
  unfold returned.
  pose proof (finish_edge_keeps node edge (loop_dirty l)
                (loop_most_recent_input l) s (loop_scan l)) as Hfin.
  cbn zeta in *.
  destruct (finish_edge _ _ _ _ _ _) as [ok' w4]. cbn in Hfin.
  intros [= _ <-]. destruct Hfin as [Hinv4 Hne4]; try done.
  - intros i Hi. apply Hvis3. apply (f_equal inputs_) in Hloop2.
    cbn in Hloop2. by rewrite <- Hloop2.
  - rewrite Hst3 by done. congruence.
  - apply (grows_in_edge _ _ _ Hg3).
    by apply (grows_in_edge _ _ _ (step_grows _ _ _ Hs2)).
  - split; [done|].
    eapply no_entry_trans; [eapply step_no_entry, Hs2|].
    by eapply no_entry_trans.
Qed.

Lemma RecomputeNodeDirty_keeps fuel node w r :
  recompute fuel node w = Some r -> visit_keeps w r.
Proof.
  revert node w r. induction fuel as [|fuel IH]; intros node w r; [done|].
  cbn. destruct (in_edge_ (node_at w node)) as [edge|] eqn:Hin.
  - case_bool_decide as Hdone.
    { intros [= <-] Hinv. split; [done|apply no_entry_refl]. }
    destruct (VerifyDAG node w) as [[[] w0]|] eqn:Hdag; [| |done].
    2:{ by intros [= <-]. }
    apply VerifyDAG_true in Hdag as (-> & edge' & Hin' & Hstack).
    assert (edge' = edge) as -> by congruence.
    assert (mark_ (edge_at w edge) = VisitNone) as Hnone
      by (by destruct (mark_ (edge_at w edge))).
    set (w1 := update_edge edge (with_mark VisitInStack) w).
    set (w2 := set_stack (stack_ w ++ [node]) w1).
    set (w3 := update_edge edge (with_outputs_ready true) w2).
    set (w4 := update_edge edge (with_deps_missing false) w3).
    assert (step_except (Some edge) w2 w4) as Hs4.
    { eapply (step_except_trans _ _ w3);
        (apply step_update_edge; [|done]); split; try done; by intros []. }
    pose proof (step_stat_outputs disk_interface_ (Some edge)
                  (outputs_ (edge_at w4 edge)) w4) as Hs5.
    pose proof (stack_stat_outputs (outputs_ (edge_at w4 edge)) w4) as Hst5.
    destruct (stat_outs _ w4) as [ok w5]. cbn in Hs5, Hst5.
    destruct ok; cbn; [|by intros [= <-]].
    destruct r as [[] w'|]; [|done..].
    intros Hvisit Hinv.
    assert (scan_inv w2) as Hinv2 by (by apply scan_inv_enter).
    destruct (decide (edge < length (edges_ w))) as [Hlt|Hge].
    + assert (mark_ (edge_at w2 edge) = VisitInStack) as Hmark2.
      { subst w2 w1. rewrite mark_with_mark. by case_decide; [|tauto]. }
      pose proof (step_except_trans _ _ _ _ Hs4 Hs5) as Hs.
      assert (scan_inv w5) as Hinv5.
      { eapply scan_inv_step; [exact Hinv2|exact Hs|done|].
        intros c [= <-]. congruence. }
      pose proof Hvisit as Hvisit'.
      apply (visit_edge_post _ _ _ _ _ _
               (fun i w r => RecomputeNodeDirty_post fuel i w r))
        in Hvisit' as [_ Hp].
      destruct (Hp eq_refl) as [_ Hfinal].
      eapply (visit_edge_keeps _ _ _ _ (stack_ w)) in Hvisit
        as [Hinv' Hne'];
        [|intros; by eapply RecomputeNodeDirty_post|exact IH|exact Hinv5
         |by rewrite (step_mark _ _ _ Hs)|done
         |by apply (grows_in_edge _ _ _ (step_grows _ _ _ Hs))].
      split; [done|]. intros e He.
      assert (e <> edge) as Hne.
      { intros ->. rewrite Hfinal in He; [done|].
        pose proof (grows_edges _ _ _ (step_grows _ _ _ Hs)).
        subst w2 w1. cbn in *. rewrite length_alter in *. lia. }
      apply Hne' in He. rewrite (step_mark _ _ _ Hs) in He.
      subst w2 w1. rewrite mark_with_mark in He.
      by case_decide as Heq; [destruct Heq|].
    + rewrite edge_at_ge in Hnone by lia.
      apply Hinv in Hin. lia.
  - destruct (status_known _); [intros [= <-]|].
    { intros Hinv. split; [done|apply no_entry_refl]. }
    pose proof (step_StatIfNecessary disk_interface_ None node w) as Hs.
    pose proof (stack_StatIfNecessary node w) as Hst.
    destruct (stat_if_necessary node w) as [[] w1]; cbn in *; intros [= <-];
      [|done].
    intros Hinv.
    assert (step_except None w
              (set_dirty node (negb (exists_ (node_at w1 node))) w1)) as Hs'
      by (eapply step_except_trans; [exact Hs|]; by apply step_update_node).
    split; [|by eapply step_no_entry].
    eapply scan_inv_step; [exact Hinv|exact Hs'|done|done].
Qed.

(** *** A cycle makes the visit fail *)

Lemma RecomputeNodeDirty_cycle_fails fuel node w w' :
  scan_inv w -> reaches_edge_cycle w node ->
  recompute fuel node w <> Some (Returned true w').
Proof.
  intros Hinv Hcycle Hrun.
  pose proof (RecomputeNodeDirty_post _ _ _ _ Hrun) as [Hg Hp].
  destruct (Hp eq_refl) as [_ Hdone].
  pose proof (RecomputeNodeDirty_keeps _ _ _ _ Hrun Hinv) as [Hinv' _].
  destruct Hcycle as (e & c & Hin & Hpath & Hcyc).
  assert (settled w' e) as He
    by (left; apply Hdone; [done|by apply Hinv in Hin]).
  apply (rtc_grows None w w') in Hpath; [|done].
  apply (tc_grows None w w') in Hcyc; [|done].
  pose proof (settled_rtc _ _ _ Hinv' He Hpath) as [Hc|Hi].
  - by apply (inv_acyclic _ Hinv' c).
  - apply tc_first in Hcyc as [x Hx]. by apply inert_no_succ in Hx.
Qed.

(** *** Every visit returns *)

Lemma VerifyDAG_returns node w :
  scan_inv w -> in_edge_ (node_at w node) <> None -> VerifyDAG node w <> None.
Proof.
  intros Hinv Hin. unfold VerifyDAG.
  destruct (in_edge_ (node_at w node)) as [edge|]; [|done].
  case_bool_decide as Hm; cbn; [|done].
  destruct (list_find _ _) as [[start ?]|] eqn:Hfind; [done|].
  apply list_find_None in Hfind.
  destruct (inv_stack _ Hinv edge Hm) as (n & Hn & Hne).
  by apply (proj1 (Forall_forall _ _) Hfind n Hn) in Hne.
Qed.

Lemma visit_inputs_returns visit bound edge inputs index dirty mri w :
  (forall i w r, visit i w = Some r -> visit_post i w r) ->
  (forall i w r, visit i w = Some r -> visit_keeps w r) ->
  (forall i w, scan_inv w -> unvisited w < bound ->
     exists r, visit i w = Some r) ->
  scan_inv w -> mark_ (edge_at w edge) = VisitInStack ->
  inputs = [] \/ unvisited w < bound ->
  exists r, visit_inputs visit edge inputs index dirty mri w = Some r.
Proof.
  intros Hpost Hkeeps Hret. revert index dirty mri w.
  induction inputs as [|i inputs IH]; intros index dirty mri w Hinv Hmark Hb;
    cbn; [eauto|].
  destruct Hb as [?|Hb]; [done|].
  destruct (Hret i w Hinv Hb) as [r Hv]. rewrite Hv.
  destruct r as [[] w1|msg]; [|eauto..].
  pose proof (Hpost _ _ _ Hv) as [Hg _].
  pose proof (Hkeeps _ _ _ Hv Hinv) as [Hinv1 _].
  assert (edge_at w1 edge = edge_at w edge) as Hsame.
  { apply (grows_frozen _ _ _ Hg); [done| |left; congruence].
    apply marked_lt. congruence. }
  set (w2 := match in_edge_ (node_at w1 i) with
             | Some in_edge => _ | None => w1 end).
  assert (step_except (Some edge) w1 w2 /\ stack_ w2 = stack_ w1)
    as [Hs2 Hst2].
  { subst w2. destruct (in_edge_ (node_at w1 i)) as [in_edge|];
      [destruct (negb _)|]; (split; [|done]); try apply step_except_refl.
    apply step_update_edge; [|done]. split; try done. by intros []. }
  destruct (if negb (is_order_only _ _) then _ else _) as [dirty' mri'].
  apply IH.
  - eapply scan_inv_step; [exact Hinv1|exact Hs2|done|].
    intros c [= <-]. rewrite Hsame. congruence.
  - by rewrite (step_mark _ _ _ Hs2), Hsame.
  - right. pose proof (unvisited_grows _ _ _ Hg).
    pose proof (unvisited_grows _ _ _ (step_grows _ _ _ Hs2)). lia.
Qed.

Lemma visit_edge_returns visit bound node edge dirty w :
  (forall i w r, visit i w = Some r -> visit_post i w r) ->
  (forall i w r, visit i w = Some r -> visit_keeps w r) ->
  (forall i w, scan_inv w -> unvisited w < bound ->
     exists r, visit i w = Some r) ->
  scan_inv w -> mark_ (edge_at w edge) = VisitInStack ->
  inert (edge_at w edge) \/ unvisited w < bound ->
  exists r, visit_in_edge visit node edge dirty w = Some r.
Proof.
  intros Hpost Hkeeps Hret Hinv Hmark Hb. unfold visit_edge.
  destruct (load_deps edge w) as [ok w1|msg] eqn:Hload; [|eauto].
  assert (step_except (Some edge) w w1) as Hs1 by (by eapply step_LoadDeps).
  pose proof (stack_LoadDeps _ _ _ _ Hload) as Hst1.
  destruct (negb ok && _); [eauto|].
  set (p := if negb ok then _ else _).
  assert (step_except (Some edge) w p.2 /\ stack_ p.2 = stack_ w)
    as [Hs2 Hst2].
  { subst p. destruct (negb ok); cbn; [|done]. split; [|done].
    eapply step_except_trans; [done|].
    apply step_update_edge; [|done]. split; try done. by intros []. }
  destruct p as [dirty' w2]. cbn in Hs2, Hst2.
  destruct (visit_inputs_returns visit bound edge (inputs_ (edge_at w2 edge))
              0 dirty' None w2) as [r Hr]; try done.
  - eapply scan_inv_step; [exact Hinv|exact Hs2|done|].
    intros c [= <-]. congruence.
  - by rewrite (step_mark _ _ _ Hs2).
  - destruct Hb as [Hi|Hb].
    + left. apply (static_inert _ _ (grows_static _ _ _
                     (step_grows _ _ _ Hs2) edge ltac:(apply marked_lt; congruence))).
      done.
    + right. pose proof (unvisited_grows _ _ _ (step_grows _ _ _ Hs2)). lia.
  - rewrite Hr. destruct r as [[] l|msg]; eauto.
Qed.

Lemma RecomputeNodeDirty_returns fuel node w :
  scan_inv w -> unvisited w < fuel -> exists r, recompute fuel node w = Some r.
Proof.
  revert node w. induction fuel as [|fuel IH]; intros node w Hinv Hfuel; [lia|].
  cbn. destruct (in_edge_ (node_at w node)) as [edge|] eqn:Hin.
  - case_bool_decide as Hdone; [eauto|].
    pose proof (VerifyDAG_returns node w Hinv) as Hdag.
    destruct (VerifyDAG node w) as [[[] w0]|] eqn:Hdag';
      [|eauto|by destruct Hdag; [rewrite Hin|]].
    apply VerifyDAG_true in Hdag' as (-> & edge' & Hin' & Hstack).
    assert (edge' = edge) as -> by congruence.
    assert (mark_ (edge_at w edge) = VisitNone) as Hnone
      by (by destruct (mark_ (edge_at w edge))).
    assert (edge < length (edges_ w)) as Hlt by (by apply Hinv in Hin).
    set (w1 := update_edge edge (with_mark VisitInStack) w).
    set (w2 := set_stack (stack_ w ++ [node]) w1).
    set (w3 := update_edge edge (with_outputs_ready true) w2).
    set (w4 := update_edge edge (with_deps_missing false) w3).
    assert (grows_except (Some edge) w w2) as Hg2.
    { eapply (grows_except_trans _ _ w1); [|by apply grows_same_graph].
      apply grows_update_edge; split; try done; by intros []. }
    assert (step_except (Some edge) w2 w4) as Hs4.
    { eapply (step_except_trans _ _ w3);
        (apply step_update_edge; [|done]); split; try done; by intros []. }
    pose proof (step_stat_outputs disk_interface_ (Some edge)
                  (outputs_ (edge_at w4 edge)) w4) as Hs5.
    pose proof (stack_stat_outputs (outputs_ (edge_at w4 edge)) w4) as Hst5.
    destruct (stat_outs _ w4) as [ok w5]. cbn in Hs5, Hst5.
    destruct ok; cbn; [|eauto].
    pose proof (step_except_trans _ _ _ _ Hs4 Hs5) as Hs.
    assert (mark_ (edge_at w2 edge) = VisitInStack) as Hmark2.
    { subst w2 w1. rewrite mark_with_mark. by case_decide; [|tauto]. }
    apply (visit_edge_returns _ fuel).
    + intros. by eapply RecomputeNodeDirty_post.
    + exact (RecomputeNodeDirty_keeps fuel).
    + exact IH.
    + eapply (scan_inv_step (Some edge) w2);
        [by apply (scan_inv_enter node edge w)|exact Hs|done|].
      intros c [= <-]. congruence.
    + by rewrite (step_mark _ _ _ Hs).
    + destruct (decide (inert (edge_at w edge))) as [Hi|Hi].
      * left. apply (inert_grows (Some edge) w2); [apply Hs|].
        by apply (inert_grows (Some edge) w).
      * right. pose proof (unvisited_grows _ _ _ (step_grows _ _ _ Hs)).
        assert (unvisited w2 < unvisited w); [|lia].
        apply (unvisited_enter (Some edge) w w2 edge); [done|done|].
        intros [Hm _]. congruence.
  - destruct (status_known _); [eauto|].
    destruct (stat_if_necessary node w) as [[] w1]; cbn; eauto.
Qed.

(** *** Where a failure comes from

    The recursive pass fails in three places: in [VerifyDAG], in a stat()
    call, and in the loader of implicit dependencies when it reports an
    error.  The state it returns is the one the failing step left. *)

Local Abbreviation failed_at w' :=
  ((exists node w, VerifyDAG node w = Some (false, w')) \/
   (exists n w, stat_if_necessary n w = (false, w')) \/
   (exists edge w, load_deps edge w = Returned false w' /\ err_ w' <> "")).

Lemma stat_outputs_failure outputs w w' :
  stat_outs outputs w = (false, w') ->
  exists n w0, stat_if_necessary n w0 = (false, w').
Proof.
  revert w. induction outputs as [|o outputs IH]; intros w; cbn; [done|].
  destruct (stat_if_necessary o w) as [[] w1] eqn:Hstat.
  - apply IH.
  - intros [= <-]. eauto.
Qed.

Lemma visit_inputs_failure visit edge inputs index dirty mri w l :
  (forall i w w', visit i w = Some (Returned false w') -> failed_at w') ->
  visit_inputs visit edge inputs index dirty mri w = Some (Returned false l) ->
  failed_at (loop_scan l).
Proof.
  intros Hvisit. revert index dirty mri w.
  induction inputs as [|i inputs IH]; intros index dirty mri w; cbn; [done|].
  destruct (visit i w) as [[[] w1|msg]|] eqn:Hv; [| |done..].
  - destruct (if negb (is_order_only _ _) then _ else _) as [dirty' mri'].
    apply IH.
  - intros [= <-]. cbn. by eapply Hvisit.
Qed.

Lemma visit_edge_failure visit node edge dirty w w' :
  (forall i w w', visit i w = Some (Returned false w') -> failed_at w') ->
  visit_in_edge visit node edge dirty w = Some (Returned false w') ->
  failed_at w'.
Proof.
  intros Hvisit. unfold visit_edge.
  destruct (load_deps edge w) as [ok w1|msg] eqn:Hload; [|done].
  destruct (negb ok && _) eqn:Hfail.
  { intros [= <-]. right. right. exists edge, w.
    apply andb_true_iff in Hfail as [Hok Herr].
    destruct ok; [done|]. split; [done|].
    intros Hempty. rewrite Hempty in Herr. done. }
  destruct (if negb ok then _ else _) as [dirty' w2].
  destruct (visit_inputs _ _ _ _ _ _ _) as [[[] l|msg]|] eqn:Hloop; [| |done..].
  - pose proof (finish_edge_spec node edge (loop_dirty l)
                  (loop_most_recent_input l) (loop_scan l)) as (Hok & _).
    cbn zeta in Hok. unfold returned. intros [= Hfin _]. congruence.
  - intros [= <-]. by eapply visit_inputs_failure.
Qed.

Lemma RecomputeNodeDirty_failure fuel node w w' :
  recompute fuel node w = Some (Returned false w') -> failed_at w'.
Proof.
  revert node w w'. induction fuel as [|fuel IH]; intros node w w'; [done|].
  cbn. destruct (in_edge_ (node_at w node)) as [edge|] eqn:Hin.
  - case_bool_decide as Hdone; [done|].
    destruct (VerifyDAG node w) as [[[] w0]|] eqn:Hdag; [| |done].
    2:{ intros [= <-]. left. eauto. }
    destruct (stat_outs _ _) as [[] w5] eqn:Hstat; cbn.
    + apply visit_edge_failure, IH.
    + intros [= <-]. right. left. by eapply stat_outputs_failure.
  - destruct (status_known _); [done|].
    destruct (stat_if_necessary node w) as [[] w1] eqn:Hstat; cbn; [done|].
    intros [= <-]. right. left. eauto.
Qed.

Lemma main_pass_failure fuel initial_nodes w w' :
  main fuel initial_nodes w = Some (Returned false w') -> failed_at w'.
Proof.
  revert w. induction initial_nodes as [|n initial_nodes IH]; intros w; cbn;
    [done|].
  destruct (recompute fuel n (set_stack [] w)) as [[[] w1|msg]|] eqn:Hr;
    [apply IH| |done..].
  intros [= <-]. by eapply RecomputeNodeDirty_failure.
Qed.

(** *** The main pass over the initial nodes *)

Lemma main_pass_cycle_fails fuel initial_nodes node w :
  scan_inv w -> (forall e, mark_ (edge_at w e) <> VisitInStack) ->
  node ∈ initial_nodes -> reaches_edge_cycle w node -> unvisited w < fuel ->
  exists r, main fuel initial_nodes w = Some r /\
            forall w', r <> Returned true w'.
Proof.
  revert w. induction initial_nodes as [|n initial_nodes IH];
    intros w Hinv Hno Hnode Hcycle Hfuel; [by apply elem_of_nil in Hnode|].
  cbn.
  assert (scan_inv (set_stack [] w)) as Hinv0.
  { destruct Hinv. split; try done. intros e He. by apply Hno in He. }
  destruct (RecomputeNodeDirty_returns fuel n (set_stack [] w) Hinv0 Hfuel)
    as [r Hr].
  rewrite Hr. destruct r as [[] w1|msg]; [|by eexists..].
  pose proof (RecomputeNodeDirty_post _ _ _ _ Hr) as [Hg _].
  pose proof (RecomputeNodeDirty_keeps _ _ _ _ Hr Hinv0) as [Hinv1 Hne1].
  apply elem_of_cons in Hnode as [->|Hnode].
  - by apply (RecomputeNodeDirty_cycle_fails fuel n (set_stack [] w) w1) in Hr.
  - apply IH; try done.
    + intros e He. by apply Hne1, Hno in He.
    + by apply (reaches_edge_cycle_grows None (set_stack [] w)).
    + pose proof (unvisited_grows _ _ _ Hg).
      change (unvisited (set_stack [] w)) with (unvisited w) in *. lia.
Qed.

Lemma main_pass_cycle_report fuel initial_nodes node w :
  fresh w -> node ∈ initial_nodes -> reaches_edge_cycle w node ->
  unvisited w < fuel ->
  exists r, main fuel initial_nodes w = Some r /\
            match r with
            | Returned true _ => False
            | Returned false w' => failed_at w'
            | FatalExit _ => True
            end.
Proof.
  intros Hfresh Hnode Hcycle Hfuel.
  destruct (main_pass_cycle_fails fuel initial_nodes node w)
    as (r & Hr & Hfail); try done.
  - by apply fresh_scan_inv.
  - intros e. by rewrite (proj1 Hfresh).
  - exists r. split; [done|].
    destruct r as [[] w'|msg]; [|by eapply main_pass_failure|done].
    by destruct (Hfail w').
Qed.

End RecursivePass.

(** C4, as the spec has it, fails: the scanner marks the output of a phony
    edge dirty when an input of the edge is dirty, although the edge has
    inputs. *)
Lemma phony_alias_marked_dirty :
  exists w',
    sim_RecomputeNodeDirty ∅ None ∅ 3 0%nat phony_alias_graph
    = Some (Returned true w')
    /\ is_phony (edge_at w' 0%nat) = true
    /\ inputs_ (edge_at w' 0%nat) = [1%nat]
    /\ dirty_ (node_at w' 0%nat) = true.
Proof. eexists. split; [vm_compute; reflexivity|]. by vm_compute. Qed.

Lemma phony_edge_dirty_and_ready_witness :
  match sim_RecomputeNodeDirty ∅ None ∅ 2 0%nat phony_leaf_graph with
  | Some (Returned true w') => outputs_ready_ (edge_at w' 0%nat) = true
  | _ => False
  end.
Proof.
  destruct (sim_RecomputeNodeDirty ∅ None ∅ 2 0%nat phony_leaf_graph)
    as [[[] w'|]|] eqn:Hrun; try (vm_compute in Hrun; discriminate Hrun).
  refine (proj2 (proj2 (phony_edge_dirty_and_ready _ _ _ _ _ _ _ _ _))
            1%nat 0%nat 0%nat phony_leaf_graph w' Hrun _ _ _ _ _ _);
    [reflexivity | vm_compute; lia | reflexivity | reflexivity | reflexivity
    | intros [Hl|Hl]; discriminate Hl].
Defined.

Lemma LoadDepFile_empty_content_witness :
  LoadDepFile empty_depfile_disk (split_depfile "") Canonical 0%nat "obj.d"
    (deps_graph depfile_rule false)
  = (false, deps_graph depfile_rule false).
Proof.
  exact (proj1 (LoadDepFile_empty_content empty_depfile_disk None ∅
                  (split_depfile "") Canonical 16 id (fun _ => literal_text)
                  (fun _ _ _ => "") 2 0%nat 0%nat false "obj.d"
                  (deps_graph depfile_rule false) eq_refl eq_refl eq_refl
                  eq_refl eq_refl)).
Defined.

(** The whole scan of the two graphs: the object is dirty and the edge has
    its [deps_missing_] set. *)
Example scan_missing_deps :
  (c ← sim_RecomputeNodesDirty {[ "src" := SimRegular 100 "" ]} None ∅ 3
         [0%nat] (mkScan [graph_node "obj" (Some 0%nat); graph_node "src" None]
                    [graph_edge gcc_rule [1%nat] [0%nat]] [] "");
   match c with
   | Returned ok c =>
       let w := collected_scan c in
       Some (ok, deps_missing_ (edge_at w 0%nat), dirty_ (node_at w 0%nat),
             dirty_ (node_at w 1%nat), err_ w)
   | FatalExit _ => None
   end) = Some (true, true, true, false, "").
Proof. vm_compute. reflexivity. Qed.

Example scan_empty_depfile :
  (c ← sim_RecomputeNodesDirty empty_depfile_disk None ∅ 3
         [0%nat] (mkScan [graph_node "obj" (Some 0%nat); graph_node "src" None]
                    [graph_edge depfile_rule [1%nat] [0%nat]] [] "");
   match c with
   | Returned ok c =>
       let w := collected_scan c in
       Some (ok, deps_missing_ (edge_at w 0%nat), dirty_ (node_at w 0%nat),
             dirty_ (node_at w 1%nat), err_ w)
   | FatalExit _ => None
   end) = Some (true, true, true, false, "").
Proof. vm_compute. reflexivity. Qed.

(** ** The scan as a whole *)

Section NodesDirty.

Context {D : Type} `{DiskInterface D}.
Variable disk_interface_ : D.
Variable build_log : option BuildLog.
Variable deps_log : DepsLog.
Variable DepfileParser_Parse : string -> DepfileParse.
Variable CanonicalizePath : string -> Canonicalize.
Variable HashCommand : string -> Z.
Variable kEvalRecursionLimit : nat.
Variable shell_escape : string -> string.
Variable EvaluateBindingInScope : Edge -> list Token -> string.
Variable ScopeEvaluateVariable : EvalPhase -> Edge -> string -> string.
Variable GetOptimalThreadPoolJobCount : nat.

Local Open Scope nat_scope.
Implicit Types (w : Scan) (n node : NodeId) (e edge : EdgeId) (c : Collected).

Local Abbreviation recompute :=
  (RecomputeNodeDirty disk_interface_ build_log deps_log DepfileParser_Parse
     CanonicalizePath kEvalRecursionLimit shell_escape EvaluateBindingInScope
     ScopeEvaluateVariable).
Local Abbreviation main :=
  (main_pass disk_interface_ build_log deps_log DepfileParser_Parse
     CanonicalizePath kEvalRecursionLimit shell_escape EvaluateBindingInScope
     ScopeEvaluateVariable).
Local Abbreviation load_deps :=
  (LoadDeps disk_interface_ deps_log DepfileParser_Parse CanonicalizePath
     kEvalRecursionLimit shell_escape EvaluateBindingInScope
     ScopeEvaluateVariable).
Local Abbreviation stat_if_necessary := (StatIfNecessary disk_interface_).
Local Abbreviation collect := (CollectPrecomputeLists deps_log).
Local Abbreviation precompute_info :=
  (PrecomputeDepScanInfo HashCommand kEvalRecursionLimit shell_escape
     EvaluateBindingInScope ScopeEvaluateVariable).
Local Abbreviation scan :=
  (RecomputeNodesDirty disk_interface_ build_log deps_log DepfileParser_Parse
     CanonicalizePath HashCommand kEvalRecursionLimit shell_escape
     EvaluateBindingInScope ScopeEvaluateVariable GetOptimalThreadPoolJobCount).

Lemma marks_kept_refl w : marks_kept w w.
Proof. by split. Qed.

Lemma marks_kept_trans w1 w2 w3 :
  marks_kept w1 w2 -> marks_kept w2 w3 -> marks_kept w1 w3.
Proof. intros [] []. split; eauto; lia. Qed.

Lemma marks_kept_grows w w' : grows w w' -> marks_kept w w'.
Proof.
  intros Hg. split; try apply Hg.
  - intros e Hm. destruct (decide (e < length (edges_ w))) as [Hlt|Hge].
    + rewrite (grows_frozen _ _ _ Hg e ltac:(done) Hlt); [done|].
      left. congruence.
    + rewrite edge_at_ge in Hm by lia. done.
  - intros e Hm. destruct (decide (e < length (edges_ w))) as [Hlt|Hge].
    + by apply (static_mark _ _ (grows_static _ _ _ Hg e Hlt)).
    + rewrite edge_at_ge in Hm by lia. done.
Qed.

Lemma marks_kept_same_edges w w' :
  length (nodes_ w) <= length (nodes_ w') ->
  (forall n, in_edge_ (node_at w' n) = in_edge_ (node_at w n)) ->
  length (edges_ w) <= length (edges_ w') ->
  (forall e, mark_ (edge_at w' e) = mark_ (edge_at w e)) ->
  marks_kept w w'.
Proof.
  intros Hn Hin He Hm. split; try done.
  - intros n e. by rewrite Hin.
  - intros e. by rewrite Hm.
  - intros e. by rewrite Hm.
Qed.

Lemma marks_kept_update_node n f w :
  (forall x, in_edge_ (f x) = in_edge_ x) -> marks_kept w (update_node n f w).
Proof.
  intros Hf. apply marks_kept_same_edges; cbn; rewrite ?length_alter; try done.
  intros n'. rewrite node_at_update_node.
  case_decide as Hn; [|done]. destruct Hn as [<- _]. apply Hf.
Qed.

Lemma marks_kept_update_edge e f w :
  (forall x, mark_ (f x) = mark_ x) -> marks_kept w (update_edge e f w).
Proof.
  intros Hf. apply marks_kept_same_edges; cbn; rewrite ?length_alter; try done.
  intros e'. rewrite edge_at_update_edge.
  case_decide as He; [|done]. destruct He as [<- _]. apply Hf.
Qed.

Lemma shape_kept_refl w : shape_kept w w.
Proof. by split. Qed.

Lemma shape_kept_trans w1 w2 w3 :
  shape_kept w1 w2 -> shape_kept w2 w3 -> shape_kept w1 w3.
Proof.
  intros H12 H23. split.
  - by rewrite (shape_nodes _ _ H23), (shape_nodes _ _ H12).
  - by rewrite (shape_edges _ _ H23), (shape_edges _ _ H12).
  - intros n. by rewrite (shape_in_edge _ _ H23), (shape_in_edge _ _ H12).
  - intros e. by rewrite (shape_inputs _ _ H23), (shape_inputs _ _ H12).
  - intros e. by rewrite (shape_mark _ _ H23), (shape_mark _ _ H12).
  - intros n Hn. by apply (shape_collected _ _ H23), (shape_collected _ _ H12).
Qed.

Lemma shape_kept_marks_kept w w' : shape_kept w w' -> marks_kept w w'.
Proof.
  intros []. apply marks_kept_same_edges; try done; lia.
Qed.

Lemma shape_kept_update_node n f w :
  (forall x, in_edge_ (f x) = in_edge_ x /\
             (node_precomputed_dirtiness_ x = true ->
              node_precomputed_dirtiness_ (f x) = true)) ->
  shape_kept w (update_node n f w).
Proof.
  intros Hf. split; cbn; rewrite ?length_alter; try done.
  - intros n'. rewrite node_at_update_node.
    case_decide as Hn; [|done]. destruct Hn as [<- _]. apply Hf.
  - intros n'. rewrite node_at_update_node.
    case_decide as Hn; [|done]. destruct Hn as [<- _]. apply Hf.
Qed.

Lemma shape_kept_update_edge e f w :
  (forall x, inputs_ (f x) = inputs_ x /\ mark_ (f x) = mark_ x) ->
  shape_kept w (update_edge e f w).
Proof.
  intros Hf. split; cbn; rewrite ?length_alter; try done.
  - intros e'. rewrite edge_at_update_edge.
    case_decide as He; [|done]. destruct He as [<- _]. apply Hf.
  - intros e'. rewrite edge_at_update_edge.
    case_decide as He; [|done]. destruct He as [<- _]. apply Hf.
Qed.

(** Collecting the nodes and the edges only sets their
    [precomputed_dirtiness] flags. *)
Lemma collect_each_shape fuel nodes c c' :
  (forall node c c', collect fuel node c = Some c' ->
                     shape_kept (collected_scan c) (collected_scan c')) ->
  collect_each (collect fuel) nodes c = Some c' ->
  shape_kept (collected_scan c) (collected_scan c').
Proof.
  intros IH. revert c. induction nodes as [|node nodes IHn]; intros c; cbn.
  - intros [= <-]. apply shape_kept_refl.
  - destruct (negb _); [|by apply IHn].
    destruct (collect fuel node c) as [c1|] eqn:Hc; [|done]. cbn.
    intros Hrest. eapply shape_kept_trans; [by eapply IH|by apply IHn].
Qed.

Lemma collect_shape fuel node c c' :
  collect fuel node c = Some c' ->
  shape_kept (collected_scan c) (collected_scan c').
Proof.
  revert node c c'. induction fuel as [|fuel IH]; intros node c c'; [done|].
  cbn. destruct (node_precomputed_dirtiness_ _);
    [intros [= <-]; apply shape_kept_refl|].
  set (w1 := update_node node (with_node_precomputed_dirtiness true)
               (collected_scan c)).
  assert (shape_kept (collected_scan c) w1) as Hk1
    by (by apply shape_kept_update_node).
  destruct (in_edge_ (node_at w1 node)) as [edge|].
  - destruct (negb (precomputed_dirtiness_ _)).
    + destruct (collect_each _ _ _) as [c1|] eqn:Hc1; [|done]. cbn.
      apply (collect_each_shape _ _ _ _ IH) in Hc1. cbn in Hc1.
      assert (shape_kept (collected_scan c) (collected_scan c1)) as Hk2.
      { eapply shape_kept_trans; [exact Hk1|].
        eapply shape_kept_trans; [|exact Hc1].
        by apply shape_kept_update_edge. }
      destruct (GetDeps deps_log node) as [deps|]; [|by intros [= <-]].
      intros Hc2. apply (collect_each_shape _ _ _ _ IH) in Hc2.
      by eapply shape_kept_trans.
    + cbn. destruct (GetDeps deps_log node) as [deps|]; [|by intros [= <-]].
      intros Hc2. apply (collect_each_shape _ _ _ _ IH) in Hc2.
      by eapply shape_kept_trans.
  - cbn. destruct (GetDeps deps_log node) as [deps|]; [|by intros [= <-]].
    intros Hc2. apply (collect_each_shape _ _ _ _ IH) in Hc2.
    by eapply shape_kept_trans.
Qed.

Lemma collect_initial_shape fuel initial_nodes c c' :
  collect_initial deps_log fuel initial_nodes c = Some c' ->
  shape_kept (collected_scan c) (collected_scan c').
Proof.
  revert c. induction initial_nodes as [|node nodes IH]; intros c; cbn.
  - intros [= <-]. apply shape_kept_refl.
  - destruct (collect fuel node c) as [c1|] eqn:Hc; [|done]. cbn.
    intros Hrest. eapply shape_kept_trans; [by eapply collect_shape|].
    by apply IH.
Qed.

Lemma collect_initial_marks_kept fuel initial_nodes c c' :
  collect_initial deps_log fuel initial_nodes c = Some c' ->
  marks_kept (collected_scan c) (collected_scan c').
Proof. intros Hc. by eapply shape_kept_marks_kept, collect_initial_shape. Qed.

(** Precomputing only fills in the stat() cache and [dep_scan_info_]. *)
Lemma PrecomputeDepScanInfo_shape w x err :
  inputs_ (precompute_info w x err).2 = inputs_ x /\
  mark_ (precompute_info w x err).2 = mark_ x.
Proof.
  unfold PrecomputeDepScanInfo. repeat case_match; done.
Qed.

Lemma parallel_map_nodes_shape nodes w :
  shape_kept w (parallel_map_nodes disk_interface_ nodes w).2.
Proof.
  revert w. induction nodes as [|node nodes IH]; intros w; cbn.
  - apply shape_kept_refl.
  - specialize (IH (update_node node (with_precomputed_mtime
                      (stat_mtime match in_edge_ (node_at w node) with
                                  | Some _ => LStat disk_interface_ (path_ (node_at w node))
                                  | None => Stat disk_interface_ (path_ (node_at w node))
                                  end)) w)).
    destruct (parallel_map_nodes _ _ _) as [errs w1]. cbn in *.
    eapply shape_kept_trans; [|exact IH]. by apply shape_kept_update_node.
Qed.

Lemma parallel_map_edges_shape edges w :
  shape_kept w (parallel_map_edges HashCommand kEvalRecursionLimit shell_escape
                  EvaluateBindingInScope ScopeEvaluateVariable edges w).2.
Proof.
  revert w. induction edges as [|edge edges IH]; intros w; cbn.
  - apply shape_kept_refl.
  - pose proof (PrecomputeDepScanInfo_shape w (edge_at w edge) "") as [Hi Hm].
    destruct (precompute_info w (edge_at w edge) "") as [[ok err] x].
    cbn in Hi, Hm. specialize (IH (update_edge edge (fun _ => x) w)).
    destruct (parallel_map_edges _ _ _ _ _ _ _) as [errs w1]. cbn in *.
    eapply shape_kept_trans; [|exact IH].
    split; cbn; rewrite ?length_alter; try done.
    + intros e'. rewrite edge_at_update_edge. case_decide as He; [|done].
      by destruct He as [<- _].
    + intros e'. rewrite edge_at_update_edge. case_decide as He; [|done].
      by destruct He as [<- _].
Qed.

Lemma PropagateError_shape errs w : shape_kept w (PropagateError errs w).2.
Proof.
  unfold PropagateError. by destruct (list_find _ _) as [[? ?]|].
Qed.

Lemma PrecomputeNodesDirty_shape nodes edges w :
  shape_kept w (PrecomputeNodesDirty disk_interface_ HashCommand
                  kEvalRecursionLimit shell_escape EvaluateBindingInScope
                  ScopeEvaluateVariable GetOptimalThreadPoolJobCount nodes
                  edges w).2.
Proof.
  unfold PrecomputeNodesDirty.
  set (first := if _ && _ then _ else _).
  assert (match first with
          | Return r => shape_kept w r.2
          | Next w1 => shape_kept w w1
          end) as Hfirst.
  { subst first. destruct (_ && _); [|apply shape_kept_refl].
    pose proof (parallel_map_nodes_shape nodes w) as Hk.
    destruct (parallel_map_nodes _ _ _) as [errs w1].
    pose proof (PropagateError_shape errs w1) as Hk'.
    destruct (PropagateError errs w1) as [[] w2]; cbn in *;
      by eapply shape_kept_trans. }
  destruct first as [r|w1]; cbn; [done|].
  pose proof (parallel_map_edges_shape edges w1) as Hk.
  destruct (parallel_map_edges _ _ _ _ _ _ _) as [errs w2].
  pose proof (PropagateError_shape errs w2) as Hk'.
  destruct (PropagateError errs w2) as [[] w3]; cbn in *;
    eapply shape_kept_trans; try exact Hfirst; by eapply shape_kept_trans.
Qed.

Lemma PrecomputeNodesDirty_marks_kept nodes edges w :
  marks_kept w (PrecomputeNodesDirty disk_interface_ HashCommand
                  kEvalRecursionLimit shell_escape EvaluateBindingInScope
                  ScopeEvaluateVariable GetOptimalThreadPoolJobCount nodes
                  edges w).2.
Proof. apply shape_kept_marks_kept, PrecomputeNodesDirty_shape. Qed.

(** The main pass leaves the in-edge of every initial node finished. *)
Lemma main_pass_done fuel initial_nodes w ok w' :
  main_pass disk_interface_ build_log deps_log DepfileParser_Parse
    CanonicalizePath kEvalRecursionLimit shell_escape EvaluateBindingInScope
    ScopeEvaluateVariable fuel initial_nodes w = Some (Returned ok w') ->
  marks_kept w w' /\
  (ok = true ->
   forall node e, node ∈ initial_nodes ->
     in_edge_ (node_at w node) = Some e -> e < length (edges_ w) ->
     mark_ (edge_at w' e) = VisitDone).
Proof.
  revert w. induction initial_nodes as [|node nodes IH]; intros w; cbn.
  - intros [= <- <-]. split; [apply marks_kept_refl|].
    intros _ node e Hin. by apply elem_of_nil in Hin.
  - destruct (recompute fuel node (set_stack [] w)) as [[[] w1|msg]|] eqn:Hrun;
      [| |done..].
    + apply RecomputeNodeDirty_post in Hrun. destruct Hrun as [Hg Hpost].
      destruct (Hpost eq_refl) as [_ Hdone].
      apply marks_kept_grows in Hg.
      assert (marks_kept w w1) as Hg'
        by (eapply marks_kept_trans; [|exact Hg]; by split).
      clear Hg. rename Hg' into Hg.
      intros Hrest. apply IH in Hrest as [Hk Hall].
      split; [by eapply marks_kept_trans|].
      intros -> node' e Hin Hedge Hlt. apply elem_of_cons in Hin as [->|Hin].
      * apply (kept_done _ _ Hk). by apply Hdone.
      * apply (Hall eq_refl node' e Hin); [by apply (kept_in_edge _ _ Hg)|].
        pose proof (kept_edges _ _ Hg). cbn in *. lia.
    + intros [= <- <-]. apply RecomputeNodeDirty_post in Hrun.
      destruct Hrun as [Hg _]. split; [|done].
      eapply marks_kept_trans; [|by apply marks_kept_grows]. by split.
Qed.

Lemma ClearPrecomputedStat_all nodes w :
  let w' := foldl (fun w node => ClearPrecomputedStat node w) w nodes in
  marks_kept w w' /\
  forall n, n < length (nodes_ w) ->
    precomputed_mtime_ (node_at w' n)
    = if bool_decide (n ∈ nodes) then (-1)%Z
      else precomputed_mtime_ (node_at w n).
Proof.
  revert w. induction nodes as [|node nodes IH]; intros w; cbn.
  - split; [apply marks_kept_refl|]. intros n _.
    by rewrite bool_decide_false by apply not_elem_of_nil.
  - destruct (IH (ClearPrecomputedStat node w)) as [Hk Hpre]. split.
    + eapply marks_kept_trans; [|exact Hk]. by apply marks_kept_update_node.
    + intros n Hn. rewrite Hpre by (cbn; by rewrite length_alter).
      unfold ClearPrecomputedStat. rewrite node_at_update_node.
      destruct (decide (n = node)) as [->|Hne].
      * rewrite decide_True by done. cbn.
        rewrite (bool_decide_true (node ∈ node :: nodes))
          by apply list_elem_of_here.
        by case_bool_decide.
      * rewrite decide_False by (intros [? _]; congruence).
        apply (f_equal (fun b : bool => if b then _ else _)).
        apply bool_decide_ext. rewrite elem_of_cons. intuition congruence.
Qed.

(** C5, as the code has it.  When [RecomputeNodesDirty] returns, the
    precomputed mtime of every collected node is cleared.  The traversal
    marks are not reset: a mark set by this or an earlier scan is still
    there, after a successful scan the in-edge of every initial node is
    [VisitDone], and a later visit of such a node returns at once. *)
Theorem RecomputeNodesDirty_leaves fuel initial_nodes w success c :
  scan fuel initial_nodes w = Some (Returned success c) ->
  let w' := collected_scan c in
  (forall n, n ∈ all_nodes c -> n < length (nodes_ w) ->
             precomputed_mtime_ (node_at w' n) = (-1)%Z)
  /\ marks_kept w w'
  /\ (success = true ->
      forall node e, node ∈ initial_nodes ->
        in_edge_ (node_at w node) = Some e -> e < length (edges_ w) ->
        mark_ (edge_at w' e) = VisitDone /\
        forall fuel', recompute (S fuel') node w' = Some (Returned true w')).
Proof.
  unfold RecomputeNodesDirty.
  destruct (collect_initial _ _ _ _) as [c0|] eqn:Hcollect; [|done]. cbn.
  apply collect_initial_marks_kept in Hcollect. cbn in Hcollect.
  pose proof (PrecomputeNodesDirty_marks_kept (all_nodes c0) (all_edges c0)
                (collected_scan c0)) as Hpre.
  destruct (PrecomputeNodesDirty _ _ _ _ _ _ _ _ _ _) as [ok w1]. cbn in Hpre.
  assert (marks_kept w w1) as Hk1 by (by eapply marks_kept_trans).
  set (r := if ok then _ else _). intros Hrun.
  destruct r as [[ok2 w2|msg]|] eqn:Hr; cbn in Hrun; [|done..].
  injection Hrun as <- <-. cbn.
  destruct (ClearPrecomputedStat_all (all_nodes c0) w2) as [Hk3 Hclear].
  cbn zeta in Hk3, Hclear.
  assert (marks_kept w1 w2 /\
          (ok2 = true ->
           forall node e, node ∈ initial_nodes ->
             in_edge_ (node_at w1 node) = Some e -> e < length (edges_ w1) ->
             mark_ (edge_at w2 e) = VisitDone)) as [Hk2 Hdone].
  { subst r. destruct ok.
    - by apply main_pass_done in Hr.
    - injection Hr as <- <-. split; [apply marks_kept_refl|done]. }
  split; [|split].
  - intros n Hn Hlt. rewrite Hclear.
    + by rewrite bool_decide_true.
    + pose proof (kept_nodes _ _ Hk1). pose proof (kept_nodes _ _ Hk2). lia.
  - eapply marks_kept_trans; [exact Hk1|]. by eapply marks_kept_trans.
  - intros -> node e Hnode Hin Hlt.
    assert (mark_ (edge_at (foldl (fun w node => ClearPrecomputedStat node w)
                              w2 (all_nodes c0)) e) = VisitDone) as Hmark.
    { apply (kept_done _ _ Hk3). apply (Hdone eq_refl node e Hnode).
      - by apply (kept_in_edge _ _ Hk1).
      - pose proof (kept_edges _ _ Hk1). lia. }
    split; [exact Hmark|]. intros fuel'. cbn.
    rewrite (kept_in_edge _ _ Hk3 node e
               (kept_in_edge _ _ Hk2 node e
                  (kept_in_edge _ _ Hk1 node e Hin))).
    by rewrite Hmark, bool_decide_true.
Qed.

(** *** The whole scan of a graph with a cycle *)

Lemma fresh_shape w w' : shape_kept w w' -> fresh w -> fresh w'.
Proof.
  intros Hs [Hm Hr]. split.
  - intros e. by rewrite (shape_mark _ _ Hs).
  - intros n e. rewrite (shape_in_edge _ _ Hs), (shape_edges _ _ Hs). apply Hr.
Qed.

Lemma edge_succ_shape w w' e e' :
  shape_kept w w' -> edge_succ w e e' -> edge_succ w' e e'.
Proof.
  intros Hs (i & Hi & Hin). exists i.
  by rewrite (shape_inputs _ _ Hs), (shape_in_edge _ _ Hs).
Qed.

Lemma tc_shape w w' e e' :
  shape_kept w w' -> tc (edge_succ w) e e' -> tc (edge_succ w') e e'.
Proof.
  intros Hs. induction 1 as [x y Hxy|x y z Hxy _ IH].
  - apply tc_once. by apply (edge_succ_shape w).
  - eapply tc_l; [|exact IH]. by apply (edge_succ_shape w).
Qed.

Lemma reaches_edge_cycle_shape w w' node :
  shape_kept w w' -> reaches_edge_cycle w node -> reaches_edge_cycle w' node.
Proof.
  intros Hs (e & e' & Hin & Hpath & Hcyc). exists e, e'.
  split; [by rewrite (shape_in_edge _ _ Hs)|]. split.
  - eapply rtc_subrel; [|exact Hpath]. intros x y. by apply edge_succ_shape.
  - by apply (tc_shape w).
Qed.

Lemma ids_in_range_shape w w' :
  shape_kept w w' -> ids_in_range deps_log w -> ids_in_range deps_log w'.
Proof.
  intros Hs [Hi Hd]. split.
  - intros e i. rewrite (shape_inputs _ _ Hs), (shape_nodes _ _ Hs). apply Hi.
  - intros n deps i. rewrite (shape_nodes _ _ Hs). apply Hd.
Qed.

Lemma uncollected_filter w w' :
  shape_kept w w' ->
  filter (fun n => node_precomputed_dirtiness_ (node_at w' n) = false)
    (seq 0 (length (nodes_ w')))
  = filter (fun n => node_precomputed_dirtiness_ (node_at w' n) = false)
      (filter (fun n => node_precomputed_dirtiness_ (node_at w n) = false)
         (seq 0 (length (nodes_ w)))).
Proof.
  intros Hs. rewrite (shape_nodes _ _ Hs), list_filter_filter.
  apply list_filter_iff. intros n. split; [|tauto]. intros Hn.
  split; [done|].
  destruct (node_precomputed_dirtiness_ (node_at w n)) eqn:Hw; [|done].
  apply (shape_collected _ _ Hs) in Hw. congruence.
Qed.

Lemma uncollected_shape w w' :
  shape_kept w w' -> uncollected w' <= uncollected w.
Proof.
  intros Hs. unfold uncollected. rewrite (uncollected_filter w w' Hs).
  apply length_filter.
Qed.

Lemma uncollected_collect w w' n :
  shape_kept w w' -> n < length (nodes_ w) ->
  node_precomputed_dirtiness_ (node_at w n) = false ->
  node_precomputed_dirtiness_ (node_at w' n) = true ->
  uncollected w' < uncollected w.
Proof.
  intros Hs Hn Hw Hw'. unfold uncollected. rewrite (uncollected_filter w w' Hs).
  apply (length_filter_lt _ _ n); [|congruence].
  apply list_elem_of_filter. split; [done|]. apply elem_of_seq. lia.
Qed.

Lemma uncollected_le w : uncollected w <= length (nodes_ w).
Proof.
  unfold uncollected. etrans; [apply length_filter|]. by rewrite length_seq.
Qed.

Lemma unvisited_le w : unvisited w <= length (edges_ w).
Proof.
  unfold unvisited. etrans; [apply length_filter|]. by rewrite length_seq.
Qed.

(** With fuel for the nodes not collected yet, collecting returns. *)
Lemma collect_each_returns fuel nodes c :
  (forall node c,
     ids_in_range deps_log (collected_scan c) ->
     node < length (nodes_ (collected_scan c)) ->
     uncollected (collected_scan c) < fuel -> is_Some (collect fuel node c)) ->
  ids_in_range deps_log (collected_scan c) ->
  (forall n, n ∈ nodes -> n < length (nodes_ (collected_scan c))) ->
  uncollected (collected_scan c) < fuel ->
  is_Some (collect_each (collect fuel) nodes c).
Proof.
  intros Hcollect. revert c.
  induction nodes as [|node nodes IH]; intros c Hids Hnodes Hfuel; cbn; [done|].
  assert (forall c', shape_kept (collected_scan c) (collected_scan c') ->
            is_Some (collect_each (collect fuel) nodes c')) as Hrest.
  { intros c' Hs. apply IH.
    - by eapply ids_in_range_shape.
    - intros n Hn. rewrite (shape_nodes _ _ Hs). apply Hnodes.
      apply elem_of_cons. by right.
    - pose proof (uncollected_shape _ _ Hs). lia. }
  destruct (negb _); [|apply Hrest, shape_kept_refl].
  destruct (Hcollect node c) as [c1 Hc1]; [done| |done|].
  { apply Hnodes, list_elem_of_here. }
  rewrite Hc1. cbn. by eapply Hrest, collect_shape.
Qed.

Lemma collect_returns fuel node c :
  ids_in_range deps_log (collected_scan c) ->
  node < length (nodes_ (collected_scan c)) ->
  uncollected (collected_scan c) < fuel -> is_Some (collect fuel node c).
Proof.
  revert node c. induction fuel as [|fuel IH]; intros node c Hids Hnode Hfuel;
    [lia|].
  cbn. destruct (node_precomputed_dirtiness_ _) eqn:Hflag; [done|].
  set (w1 := update_node node (with_node_precomputed_dirtiness true)
               (collected_scan c)).
  assert (shape_kept (collected_scan c) w1) as Hs1
    by (by apply shape_kept_update_node).
  assert (uncollected w1 < fuel) as Hfuel1.
  { assert (uncollected w1 < uncollected (collected_scan c)); [|lia].
    apply (uncollected_collect _ _ node); [done..|].
    subst w1. rewrite node_at_update_node. by rewrite decide_True. }
  assert (forall c1, shape_kept w1 (collected_scan c1) ->
            is_Some (match GetDeps deps_log node with
                     | Some deps => collect_each (collect fuel)
                                      (deps_nodes deps) c1
                     | None => Some c1
                     end)) as Hdeps.
  { intros c1 Hsc. destruct (GetDeps deps_log node) as [deps|] eqn:Hget;
      [|done].
    assert (shape_kept (collected_scan c) (collected_scan c1)) as Hs
      by (by eapply shape_kept_trans).
    apply collect_each_returns; [exact IH|by eapply ids_in_range_shape| |].
    - intros n Hn. rewrite (shape_nodes _ _ Hs).
      by apply (proj2 Hids node deps).
    - pose proof (uncollected_shape _ _ Hsc). lia. }
  destruct (in_edge_ (node_at w1 node)) as [edge|]; [|by apply Hdeps].
  destruct (negb (precomputed_dirtiness_ _)); [|by apply Hdeps].
  set (w2 := update_edge edge (with_precomputed_dirtiness true) w1).
  assert (shape_kept w1 w2) as Hs2 by (by apply shape_kept_update_edge).
  assert (shape_kept (collected_scan c) w2) as Hs by (by eapply shape_kept_trans).
  destruct (collect_each_returns fuel (inputs_ (edge_at w2 edge))
              (mkCollected (all_nodes c ++ [node]) (all_edges c ++ [edge]) w2))
    as [c1 Hc1]; [exact IH|by eapply ids_in_range_shape| | |].
  - intros n Hn. by apply (proj1 (ids_in_range_shape _ _ Hs Hids) edge).
  - change (uncollected w2 < fuel).
    pose proof (uncollected_shape _ _ Hs2). lia.
  - rewrite Hc1. cbn. apply Hdeps.
    eapply shape_kept_trans; [exact Hs2|].
    by apply (collect_each_shape _ _ _ _ (collect_shape fuel)) in Hc1.
Qed.

Lemma collect_initial_returns fuel initial_nodes c :
  ids_in_range deps_log (collected_scan c) ->
  (forall n, n ∈ initial_nodes -> n < length (nodes_ (collected_scan c))) ->
  uncollected (collected_scan c) < fuel ->
  is_Some (collect_initial deps_log fuel initial_nodes c).
Proof.
  revert c. induction initial_nodes as [|node nodes IH];
    intros c Hids Hnodes Hfuel; cbn; [done|].
  destruct (collect_returns fuel node c) as [c1 Hc1]; [done| |done|].
  { apply Hnodes, list_elem_of_here. }
  rewrite Hc1. cbn. pose proof (collect_shape _ _ _ _ Hc1) as Hs. apply IH.
  - by eapply ids_in_range_shape.
  - intros n Hn. rewrite (shape_nodes _ _ Hs). apply Hnodes.
    apply elem_of_cons. by right.
  - pose proof (uncollected_shape _ _ Hs). lia.
Qed.

Lemma RecomputeNodesDirty_cycle_fails fuel initial_nodes node w :
  fresh w -> ids_in_range deps_log w ->
  (forall n, n ∈ initial_nodes -> n < length (nodes_ w)) ->
  node ∈ initial_nodes -> reaches_edge_cycle w node ->
  length (nodes_ w) < fuel -> length (edges_ w) < fuel ->
  exists r, scan fuel initial_nodes w = Some r /\
            forall c, r <> Returned true c.
Proof.
  intros Hfresh Hids Hinit Hnode Hcycle Hn He. unfold RecomputeNodesDirty.
  destruct (collect_initial_returns fuel initial_nodes (mkCollected [] [] w))
    as [c0 Hc0]; [done|done| |].
  { pose proof (uncollected_le w). cbn. lia. }
  rewrite Hc0. cbn. apply collect_initial_shape in Hc0. cbn in Hc0.
  pose proof (PrecomputeNodesDirty_shape (all_nodes c0) (all_edges c0)
                (collected_scan c0)) as Hpre.
  destruct (PrecomputeNodesDirty _ _ _ _ _ _ _ _ _ _) as [ok w1]. cbn in Hpre.
  assert (shape_kept w w1) as Hs by (by eapply shape_kept_trans).
  destruct ok; [|cbn; eexists; split; [reflexivity|done]].
  destruct (main_pass_cycle_report disk_interface_ build_log deps_log
              DepfileParser_Parse CanonicalizePath kEvalRecursionLimit
              shell_escape EvaluateBindingInScope ScopeEvaluateVariable
              fuel initial_nodes node w1) as (r & Hr & Hfail).
  - by apply (fresh_shape w).
  - done.
  - by apply (reaches_edge_cycle_shape w).
  - pose proof (unvisited_le w1). rewrite (shape_edges _ _ Hs) in *. lia.
  - rewrite Hr. cbn. destruct r as [[] w2|msg]; [done|..];
      (eexists; split; [reflexivity|done]).
Qed.


End NodesDirty.

(** C5, as the spec has it, fails: after the null build the edge is left
    [VisitDone], not unvisited. *)
Lemma null_build_leaves_VisitDone :
  exists c,
    sim_RecomputeNodesDirty null_build_disk (Some null_build_log) ∅ 3 [0%nat]
      null_build_graph = Some (Returned true c)
    /\ mark_ (edge_at null_build_graph 0%nat) = VisitNone
    /\ mark_ (edge_at (collected_scan c) 0%nat) = VisitDone
    /\ dirty_ (node_at (collected_scan c) 0%nat) = false.
Proof. eexists. split; [vm_compute; reflexivity|]. by vm_compute. Qed.

Lemma RecomputeNodesDirty_leaves_witness :
  match sim_RecomputeNodesDirty null_build_disk (Some null_build_log) ∅ 3
          [0%nat] null_build_graph with
  | Some (Returned _ c) => marks_kept null_build_graph (collected_scan c)
  | _ => False
  end.
Proof.
  destruct (sim_RecomputeNodesDirty null_build_disk (Some null_build_log) ∅ 3
              [0%nat] null_build_graph) as [[success c|]|] eqn:Hrun;
    try (vm_compute in Hrun; discriminate Hrun).
  exact (proj1 (proj2 (RecomputeNodesDirty_leaves _ _ _ _ _ _ _ _ _ _ _ _ _ _
                         _ _ Hrun))).
Defined.


Lemma cycle_graph_fresh : fresh cycle_graph.
Proof.
  split.
  - by intros [|[|e]].
  - intros [|[|n]] e; cbn; intros [= <-]; lia.
Qed.

Lemma cycle_graph_reaches : reaches_edge_cycle cycle_graph 0%nat.
Proof.
  exists 0%nat, 0%nat. split; [reflexivity|]. split; [apply rtc_refl|].
  apply (tc_l _ _ 1%nat).
  - exists 1%nat. split; [apply list_elem_of_singleton|]; reflexivity.
  - apply tc_once. exists 0%nat.
    split; [apply list_elem_of_singleton|]; reflexivity.
Qed.

Lemma cycle_graph_ids : ids_in_range ∅ cycle_graph.
Proof.
  split.
  - intros [|[|e]] i Hi; cbn in Hi;
      [apply list_elem_of_singleton in Hi as ->; cbn; lia..
      |by apply elem_of_nil in Hi].
  - intros n deps i Hget. unfold GetDeps in Hget.
    by rewrite lookup_empty in Hget.
Qed.


(** The whole scan of the two-edge cycle. *)
Example scan_cycle_graph :
  (c ← sim_RecomputeNodesDirty ∅ None ∅ 3 [0%nat] cycle_graph;
   match c with
   | Returned ok c =>
       Some (ok, err_ (collected_scan c), stack_ (collected_scan c))
   | FatalExit _ => None
   end) = Some (false, "dependency cycle: a -> b -> a", [0%nat; 1%nat]).
Proof. vm_compute. reflexivity. Qed.

(** ** The counters of the plan *)

Section PlanFacts.

Variable Pools : Type.
Variable ShouldDelayEdge : EdgeId -> Pools -> bool.
Variable DelayEdge : EdgeId -> Pools -> Pools.
Variable RetrieveReadyEdges :
  EdgeId -> Pools -> gset EdgeId -> Pools * gset EdgeId.
Variable EdgeScheduled : EdgeId -> Pools -> Pools.
Variable PoolEdgeFinished : EdgeId -> Pools -> Pools.
Variable IsPhonyOutput : Edge -> bool.
Variable build_log : option BuildLog.

Implicit Types (b : Build Pools) (edge oe : EdgeId) (node : NodeId).

Local Abbreviation schedule_work :=
  (ScheduleWork Pools ShouldDelayEdge DelayEdge RetrieveReadyEdges
     EdgeScheduled).
Local Abbreviation add_sub_target :=
  (AddSubTarget Pools ShouldDelayEdge DelayEdge RetrieveReadyEdges
     EdgeScheduled).
Local Abbreviation edge_finished :=
  (EdgeFinished Pools ShouldDelayEdge DelayEdge RetrieveReadyEdges
     EdgeScheduled PoolEdgeFinished).
Local Abbreviation node_out_edges_finished :=
  (out_edges_finished Pools ShouldDelayEdge DelayEdge RetrieveReadyEdges
     EdgeScheduled).
Local Abbreviation edge_outputs_finished :=
  (outputs_finished Pools ShouldDelayEdge DelayEdge RetrieveReadyEdges
     EdgeScheduled).
Local Abbreviation clean_node := (CleanNode Pools IsPhonyOutput build_log).
Local Abbreviation run_calls :=
  (plan_calls Pools ShouldDelayEdge DelayEdge RetrieveReadyEdges
     EdgeScheduled PoolEdgeFinished IsPhonyOutput build_log).

Lemma same_counters_refl b : same_counters b b.
Proof. done. Qed.

Lemma same_counters_trans b1 b2 b3 :
  same_counters b1 b2 -> same_counters b2 b3 -> same_counters b1 b3.
Proof. intros (? & ? & ?) (? & ? & ?). repeat split; congruence. Qed.

Lemma same_counters_balance b b' :
  same_counters b b' -> command_balance b' = command_balance b.
Proof. intros (Hc & _ & Hl). unfold command_balance. by rewrite Hc, Hl. Qed.

Lemma promoted_commands_snoc changes c :
  promoted_commands (changes ++ [c])
  = promoted_commands changes
    + (if is_promotion c && negb (change_phony c) then 1 else 0).
Proof.
  unfold promoted_commands. rewrite filter_app, length_app, filter_cons.
  rewrite filter_nil. case_decide as Hc.
  - apply Is_true_true in Hc. rewrite Hc. cbn. lia.
  - apply Is_true_false in Hc. rewrite Hc. cbn. lia.
Qed.

Lemma demoted_commands_snoc changes c :
  demoted_commands (changes ++ [c])
  = demoted_commands changes
    + (if negb (is_promotion c) && negb (change_phony c) then 1 else 0).
Proof.
  unfold demoted_commands. rewrite filter_app, length_app, filter_cons.
  rewrite filter_nil. case_decide as Hc.
  - apply Is_true_true in Hc. rewrite Hc. cbn. lia.
  - apply Is_true_false in Hc. rewrite Hc. cbn. lia.
Qed.

(** [ScheduleWork] moves the edge to [kWantToFinish] and touches neither
    the counters nor the graph. *)
Lemma ScheduleWork_spec edge b b' :
  schedule_work edge b = Some b' ->
  same_counters b b' /\ graph_ b' = graph_ b /\
  size (want_ (plan_ b')) = size (want_ (plan_ b)).
Proof.
  unfold ScheduleWork.
  destruct (want_ (plan_ b) !! edge) as [[]|] eqn:Hwant; try done.
  - destruct (ShouldDelayEdge _ _); [destruct (RetrieveReadyEdges _ _ _)|];
      intros [= <-]; cbn; repeat split;
      by erewrite map_size_insert_Some.
  - by intros [= <-].
Qed.

Lemma ScheduleWork_returns edge want b :
  want_ (plan_ b) !! edge = Some want -> want <> kWantNothing ->
  is_Some (schedule_work edge b).
Proof.
  intros Hwant Hne. unfold ScheduleWork. rewrite Hwant.
  destruct want; [done| |done].
  destruct (ShouldDelayEdge _ _); [destruct (RetrieveReadyEdges _ _ _)|]; done.
Qed.

(** *** [AddSubTarget] *)

Lemma add_inputs_balance add inputs b r :
  (forall i b r, add i b = Some r -> command_balance r.2 = command_balance b) ->
  add_inputs Pools add inputs b = Some r ->
  command_balance r.2 = command_balance b.
Proof.
  intros Hadd. revert b. induction inputs as [|i inputs IH]; intros b; cbn.
  - by intros [= <-].
  - destruct (add i b) as [[ok b1]|] eqn:Hi; [|done].
    apply Hadd in Hi. cbn in Hi. destruct (negb ok && _).
    + by intros [= <-].
    + intros Hrest. apply IH in Hrest. congruence.
Qed.

Lemma AddSubTarget_balance fuel node dependent b r :
  add_sub_target fuel node dependent b = Some r ->
  command_balance r.2 = command_balance b.
Proof.
  revert node dependent b r.
  induction fuel as [|fuel IH]; intros node dependent b r; [done|]. cbn.
  destruct (in_edge_ (node_at (graph_ b) node)) as [edge|].
  2:{ destruct (dirty_ _); by intros [= <-]. }
  destruct (outputs_ready_ _); [by intros [= <-]|].
  set (b1 := if bool_decide (want_ (plan_ b) !! edge = None) then _ else b).
  assert (command_balance b1 = command_balance b) as Hb1
    by (subst b1; by case_bool_decide).
  destruct (dirty_ _ && bool_decide (want_ (plan_ b1) !! edge = _)); cbn.
  - set (phony := is_phony (edge_at (graph_ b) edge)).
    set (b2 := add_wanted_edges Pools 1 _).
    assert (command_balance b2
            = command_balance b - (if phony then 0 else 1)) as Hb2.
    { subst b2. unfold command_balance in *. cbn.
      rewrite promoted_commands_snoc, demoted_commands_snoc. cbn.
      destruct phony; cbn; lia. }
    destruct (if AllInputsReady _ _ then _ else Some b2) as [b3|] eqn:Hsched;
      [|done]. cbn.
    assert (same_counters b2 b3) as Hb3.
    { destruct (AllInputsReady _ _); [|by injection Hsched as <-].
      by apply ScheduleWork_spec in Hsched as [? _]. }
    apply same_counters_balance in Hb3.
    set (b4 := if negb phony then _ else b3).
    assert (command_balance b4 = command_balance b) as Hb4.
    { subst b4. destruct phony; cbn; [lia|].
      unfold command_balance in *. cbn. lia. }
    destruct (negb (bool_decide _)); [intros [= <-]; done|].
    intros Hrest. apply add_inputs_balance in Hrest; [congruence|].
    intros i b' r'. apply IH.
  - destruct (negb (bool_decide _)); [intros [= <-]; done|].
    intros Hrest. apply add_inputs_balance in Hrest; [congruence|].
    intros i b' r'. apply IH.
Qed.

(** *** [EdgeFinished] and [NodeFinished] *)

Lemma out_edges_finished_counters finish out_edges b b' :
  (forall oe b b', want_ (plan_ b) !! oe = Some kWantNothing ->
                   finish oe b = Some b' -> same_counters b b') ->
  node_out_edges_finished finish out_edges b = Some b' ->
  same_counters b b'.
Proof.
  intros Hfinish. revert b.
  induction out_edges as [|oe out_edges IH]; intros b; cbn.
  - by intros [= <-].
  - destruct (want_ (plan_ b) !! oe) as [want|] eqn:Hwant; [|apply IH].
    destruct (if AllInputsReady _ _ then _ else Some b) as [b1|] eqn:Hstep;
      [|done]. cbn.
    assert (same_counters b b1) as Hb1.
    { destruct (AllInputsReady _ _); [|by injection Hstep as <-].
      case_bool_decide as Hnothing; cbn in Hstep.
      - subst want. by eapply Hfinish.
      - by apply ScheduleWork_spec in Hstep as [? _]. }
    intros Hrest. apply IH in Hrest. by eapply same_counters_trans.
Qed.

Lemma outputs_finished_counters finish outputs b b' :
  (forall oe b b', want_ (plan_ b) !! oe = Some kWantNothing ->
                   finish oe b = Some b' -> same_counters b b') ->
  edge_outputs_finished finish outputs b = Some b' ->
  same_counters b b'.
Proof.
  intros Hfinish. revert b.
  induction outputs as [|o outputs IH]; intros b; cbn.
  - by intros [= <-].
  - destruct (node_out_edges_finished _ _ _) as [b1|] eqn:Hnode; [|done]. cbn.
    apply out_edges_finished_counters in Hnode; [|done].
    intros Hrest. apply IH in Hrest. by eapply same_counters_trans.
Qed.

(** [EdgeFinished] leaves the counter of command edges and the record of
    changes alone, and takes one off the counter of wanted edges when the
    edge succeeded and was wanted itself. *)
Lemma EdgeFinished_counters fuel edge result want b b' :
  want_ (plan_ b) !! edge = Some want ->
  edge_finished fuel edge result b = Some b' ->
  command_edges_ (plan_ b') = command_edges_ (plan_ b) /\
  changes_ b' = changes_ b /\
  wanted_edges_ (plan_ b')
  = wanted_edges_ (plan_ b)
    - (if bool_decide (result = kEdgeSucceeded)
          && negb (bool_decide (want = kWantNothing)) then 1 else 0).
Proof.
  revert edge result want b b'.
  induction fuel as [|fuel IH]; intros edge result want b b' Hwant; [done|].
  cbn. rewrite Hwant.
  destruct (RetrieveReadyEdges _ _ _) as [pools ready].
  destruct (decide (result = kEdgeSucceeded)) as [->|Hresult].
  2:{ rewrite !(bool_decide_false (result = _)) by done.
      intros [= <-]. cbn. repeat split. lia. }
  rewrite !(bool_decide_true (kEdgeSucceeded = _)) by done. cbn [negb andb].
  intros Hrest. apply outputs_finished_counters in Hrest.
  - destruct Hrest as (Hc & Hw & Hl). rewrite Hc, Hw, Hl.
    case_bool_decide; cbn; repeat split; lia.
  - intros oe b0 b0' Hnothing Hfinish.
    destruct (IH _ _ _ _ _ Hnothing Hfinish) as (Hc & Hl & Hw).
    repeat split; [done| |done]. rewrite Hw.
    rewrite (bool_decide_true (kWantNothing = _)) by done. cbn [negb].
    rewrite andb_false_r. lia.
Qed.

(** With fuel for every entry of [want_], [EdgeFinished] returns. *)
Lemma out_edges_finished_returns finish (bound : nat) out_edges b :
  (forall oe b, is_Some (want_ (plan_ b) !! oe) ->
                (size (want_ (plan_ b)) <= bound)%nat ->
                exists b', finish oe b = Some b' /\
                           (size (want_ (plan_ b'))
                            <= size (want_ (plan_ b)))%nat) ->
  (size (want_ (plan_ b)) <= bound)%nat ->
  exists b', node_out_edges_finished finish out_edges b = Some b' /\
             (size (want_ (plan_ b')) <= size (want_ (plan_ b)))%nat.
Proof.
  intros Hfinish. revert b.
  induction out_edges as [|oe out_edges IH]; intros b Hsize; cbn; [eauto|].
  destruct (want_ (plan_ b) !! oe) as [want|] eqn:Hwant; [|by apply IH].
  assert (exists b1, (if AllInputsReady (edge_at (graph_ b) oe) (graph_ b)
                      then if negb (bool_decide (want = kWantNothing))
                           then schedule_work oe b else finish oe b
                      else Some b) = Some b1 /\
                     (size (want_ (plan_ b1)) <= size (want_ (plan_ b)))%nat)
    as (b1 & -> & Hb1).
  { destruct (AllInputsReady _ _); [|eauto].
    case_bool_decide as Hnothing; cbn; [by apply Hfinish|].
    destruct (ScheduleWork_returns oe want b Hwant Hnothing) as [b1 Hb1].
    exists b1. split; [done|].
    apply ScheduleWork_spec in Hb1 as (_ & _ & ->). done. }
  cbn. destruct (IH b1) as (b' & -> & Hb'); [lia|].
  exists b'. split; [done|lia].
Qed.

Lemma outputs_finished_returns finish (bound : nat) outputs b :
  (forall oe b, is_Some (want_ (plan_ b) !! oe) ->
                (size (want_ (plan_ b)) <= bound)%nat ->
                exists b', finish oe b = Some b' /\
                           (size (want_ (plan_ b'))
                            <= size (want_ (plan_ b)))%nat) ->
  (size (want_ (plan_ b)) <= bound)%nat ->
  exists b', edge_outputs_finished finish outputs b = Some b' /\
             (size (want_ (plan_ b')) <= size (want_ (plan_ b)))%nat.
Proof.
  intros Hfinish. revert b.
  induction outputs as [|o outputs IH]; intros b Hsize; cbn; [eauto|].
  destruct (out_edges_finished_returns finish bound
              (GetOutEdges (node_at (graph_ b) o)) b Hfinish Hsize)
    as (b1 & -> & Hb1).
  cbn. destruct (IH b1) as (b' & -> & Hb'); [lia|].
  exists b'. split; [done|lia].
Qed.

Lemma EdgeFinished_returns fuel edge result b :
  is_Some (want_ (plan_ b) !! edge) ->
  (size (want_ (plan_ b)) <= fuel)%nat ->
  exists b', edge_finished fuel edge result b = Some b' /\
             (size (want_ (plan_ b')) <= size (want_ (plan_ b)))%nat.
Proof.
  revert edge result b.
  induction fuel as [|fuel IH]; intros edge result b [want Hwant] Hsize.
  { pose proof (map_size_ne_0_lookup_2 _ edge (mk_is_Some _ _ Hwant)). lia. }
  cbn. rewrite Hwant.
  destruct (RetrieveReadyEdges _ _ _) as [pools ready].
  destruct (decide (result = kEdgeSucceeded)) as [->|Hresult];
    [|rewrite !(bool_decide_false (result = _)) by done; cbn; eauto].
  rewrite !(bool_decide_true (kEdgeSucceeded = _)) by done. cbn [negb].
  pose proof (map_size_delete_Some edge (want_ (plan_ b)) (mk_is_Some _ _ Hwant))
    as Hdelete.
  match goal with |- exists b', edge_outputs_finished ?f ?outs ?b1 = _ /\ _ =>
    destruct (outputs_finished_returns f fuel outs b1) as (b' & -> & Hb')
  end.
  - intros oe b0 Hoe Hb0. by apply IH.
  - cbn. case_bool_decide; cbn; lia.
  - exists b'. split; [done|].
    revert Hb'. cbn. case_bool_decide; cbn; lia.
Qed.

(** *** [CleanNode] *)

Lemma clean_outputs_balance clean outputs b r :
  (forall o b r, clean o b = Some r ->
                 command_balance r.2 = command_balance b) ->
  clean_outputs Pools clean outputs b = Some r ->
  command_balance r.2 = command_balance b.
Proof.
  intros Hclean. revert b. induction outputs as [|o outputs IH]; intros b; cbn.
  - by intros [= <-].
  - destruct (clean o b) as [[ok b1]|] eqn:Ho; [|done].
    apply Hclean in Ho. cbn in Ho. destruct (negb ok).
    + by intros [= <-].
    + intros Hrest. apply IH in Hrest. congruence.
Qed.

Lemma demote_balance oe phony b :
  let b1 := add_wanted_edges Pools (-1)
              (record_change Pools (Demoted oe phony)
                 (with_want Pools (<[oe := kWantNothing]> (want_ (plan_ b)))
                    b)) in
  command_balance (if negb phony then add_command_edges Pools (-1) b1 else b1)
  = command_balance b.
Proof.
  unfold command_balance. destruct phony; cbn;
    rewrite promoted_commands_snoc, demoted_commands_snoc; cbn; lia.
Qed.

Lemma clean_out_edges_balance clean out_edges b r :
  (forall o b r, clean o b = Some r ->
                 command_balance r.2 = command_balance b) ->
  clean_out_edges Pools IsPhonyOutput build_log clean out_edges b = Some r ->
  command_balance r.2 = command_balance b.
Proof.
  intros Hclean. revert b.
  induction out_edges as [|oe out_edges IH]; intros b; cbn.
  - by intros [= <-].
  - destruct (want_ (plan_ b) !! oe) as [[]|]; try apply IH;
      (destruct (deps_missing_ _); [apply IH|]);
      (destruct (IsPhonyOutput _); [apply IH|]);
      (destruct (forallb _ _); [|apply IH]);
      destruct (RecomputeOutputsDirty _ _ _ _ _) as [ok outputs_dirty];
      (destruct (negb ok); [by intros [= <-]|]);
      (destruct (negb outputs_dirty); [|apply IH]);
      (destruct (clean_outputs _ _ _ _) as [[[] b1]|] eqn:Houts; [| |done]);
      apply clean_outputs_balance in Houts; try done; cbn in Houts;
      try (by intros [= <-]);
      intros Hrest; apply IH in Hrest; rewrite Hrest;
      by rewrite demote_balance.
Qed.

Lemma CleanNode_balance fuel node b r :
  clean_node fuel node b = Some r -> command_balance r.2 = command_balance b.
Proof.
  revert node b r. induction fuel as [|fuel IH]; intros node b r; [done|].
  cbn. intros Hrun. apply clean_out_edges_balance in Hrun; [done|].
  intros o b' r'. apply IH.
Qed.

(** *** Every state of the plan *)

Lemma plan_calls_balance fuel calls b b' :
  run_calls fuel calls b = Some b' -> command_balance b' = command_balance b.
Proof.
  revert b. induction calls as [|c calls IH]; intros b; cbn.
  - by intros [= <-].
  - destruct (plan_call _ _ _ _ _ _ _ _ _ _ _) as [b1|] eqn:Hcall; [|done].
    cbn. intros Hrest. apply IH in Hrest. rewrite Hrest.
    destruct c as [node| |edge result|node|w]; cbn in Hcall.
    + unfold AddTarget in Hcall.
      destruct (add_sub_target fuel node None b) as [r|] eqn:Hadd; [|done].
      injection Hcall as <-. by eapply AddSubTarget_balance.
    + injection Hcall as <-. unfold FindWork.
      by destruct (merge_sort _ _).
    + destruct (want_ (plan_ b) !! edge) as [want|] eqn:Hwant.
      * destruct (EdgeFinished_counters _ _ _ _ _ _ Hwant Hcall)
          as (Hc & Hl & _).
        unfold command_balance. by rewrite Hc, Hl.
      * destruct fuel; [done|]. cbn in Hcall. by rewrite Hwant in Hcall.
    + destruct (clean_node fuel node b) as [r|] eqn:Hclean; [|done].
      injection Hcall as <-. by eapply CleanNode_balance.
    + by injection Hcall as <-.
Qed.

End PlanFacts.

(** C9, as the spec has it, fails in both parts.  After [AddTarget(all)] on
    [plan_graph] and [CleanNode(a)], the phony edge of [all] has been
    demoted and [command_edges_] is still 1, the one promotion of an edge
    that is not phony; the number of edges demoted is 1 as well.  In that
    state the edge of [all] is in the plan as [kWantNothing]: reporting it
    finished leaves [wanted_edges_] as it is, and the completion of the edge
    of [a] finishes both edges and takes one off the counter. *)
Lemma Plan_counters_as_claimed_fail :
  exists b b1 b2 : Build unit,
    plan_cleaned = Some b /\
    command_edges_ (plan_ b) = 1 /\
    promoted_commands (changes_ b) = 1 /\
    demoted_edges (changes_ b) = 1 /\
    want_ (plan_ b) !! 1%nat = Some kWantNothing /\
    free_EdgeFinished 5 1%nat kEdgeSucceeded b = Some b1 /\
    wanted_edges_ (plan_ b1) = wanted_edges_ (plan_ b) /\
    free_EdgeFinished 5 0%nat kEdgeSucceeded b = Some b2 /\
    size (want_ (plan_ b)) = 2%nat /\ size (want_ (plan_ b2)) = 0%nat /\
    wanted_edges_ (plan_ b2) = wanted_edges_ (plan_ b) - 1.
Proof.
  eexists _, _, _. split; [vm_compute; reflexivity|].
  do 4 (split; [vm_compute; reflexivity|]).
  split; [vm_compute; reflexivity|]. split; [vm_compute; reflexivity|].
  split; [vm_compute; reflexivity|].
  repeat split; vm_compute; reflexivity.
Qed.

(** * Further properties of the embedded program *)

(** ** [RecomputeOutputDirty] and [RecomputeOutputsDirty] *)

Section OutputVerdicts.

Implicit Types (edge : Edge) (input output : Node) (hash : Z).

Local Ltac unfold_verdict :=
  unfold RecomputeOutputDirty, RecomputeOutputDirty_explained,
    LookupByOutput, dirty_because, not_dirty, return_if in *;
  cbn [flow_run mbind Flow_bind flow_bind option_bind fst snd] in *.

(** X1.  Without a build log the verdict on an output of an edge that is
    not phony is the one of make: the output is dirty exactly when it is
    missing or older than the most recent input. *)
Theorem RecomputeOutputDirty_without_log edge most_recent_input hash output :
  is_phony edge = false ->
  RecomputeOutputDirty None edge most_recent_input hash output = true
  <-> (mtime_ output = 0 \/
       exists input, most_recent_input = Some input /\
                     mtime_ output < mtime_ input).
Proof.
  intros Hphony. unfold_verdict. rewrite Hphony. unfold exists_.
  destruct (Z.eqb_spec (mtime_ output) 0) as [Hmiss|Hex]; cbn.
  { split; [by left|done]. }
  destruct most_recent_input as [input|]; cbn.
  - destruct (Z.ltb_spec (mtime_ output) (mtime_ input)) as [Hlt|Hge]; cbn.
    + destruct (IsRestat edge); cbn;
        (destruct (Z.ltb_spec (mtime_ output) (mtime_ input)); [|lia]); cbn;
        (split; [intros _; right; by exists input|done]).
    + split; [done|]. intros [?|(i & [= <-] & ?)]; [done|lia].
  - split; [done|]. by intros [?|(i & ? & ?)].
Qed.

(** X2.  With a build log whose entry for the output records an mtime older
    than the most recent input, the output of an edge that is not phony is
    dirty, whatever the mtime on disk and also for a generator. *)
Theorem RecomputeOutputDirty_recorded_mtime log edge input hash output entry :
  is_phony edge = false ->
  LookupByOutput log (path_ output) = Some entry ->
  entry_mtime entry < mtime_ input ->
  RecomputeOutputDirty (Some log) edge (Some input) hash output = true.
Proof.
  intros Hphony Hentry Hold. unfold_verdict. rewrite Hphony, Hentry.
  destruct (negb (exists_ output)); cbn; [done|].
  destruct (mtime_ output <? mtime_ input); cbn.
  - destruct (IsRestat edge); cbn.
    + rewrite Hentry. cbn.
      by destruct (Z.ltb_spec (entry_mtime entry) (mtime_ input)); [|lia].
    + destruct (mtime_ output <? mtime_ input); cbn; [done|].
      destruct (negb _ && negb _); cbn; [done|].
      by destruct (Z.ltb_spec (entry_mtime entry) (mtime_ input)); [|lia].
  - destruct (negb _ && negb _); cbn; [done|].
    by destruct (Z.ltb_spec (entry_mtime entry) (mtime_ input)); [|lia].
Qed.

(** X3.  For a restat edge with a log entry the mtime of an existing output
    plays no part: the output is dirty exactly when the command hash
    differs from the recorded one (unless the edge is a generator) or the
    recorded mtime is older than the most recent input. *)
Theorem RecomputeOutputDirty_restat_entry log edge most_recent_input hash
    output entry :
  is_phony edge = false ->
  IsRestat edge = true ->
  exists_ output = true ->
  LookupByOutput log (path_ output) = Some entry ->
  RecomputeOutputDirty (Some log) edge most_recent_input hash output
  = (negb (IsGenerator edge) && negb (hash =? entry_command_hash entry))
    || match most_recent_input with
       | Some input => entry_mtime entry <? mtime_ input
       | None => false
       end.
Proof.
  intros Hphony Hrestat Hex Hentry. unfold_verdict.
  rewrite Hphony, Hex, Hrestat, Hentry. cbn.
  destruct most_recent_input as [input|]; cbn.
  - destruct (mtime_ output <? mtime_ input); cbn.
    + destruct (entry_mtime entry <? mtime_ input) eqn:Hcmp; cbn;
        [by rewrite orb_true_r|].
      destruct (negb _ && negb _); cbn; [done|]. by rewrite Hcmp.
    + destruct (negb _ && negb _); cbn; [done|].
      by destruct (entry_mtime entry <? mtime_ input).
  - by destruct (negb _ && negb _).
Qed.

Lemma RecomputeOutputsDirty_returns_true build_log (e : EdgeId)
    (most_recent_input : option NodeId) (outputs_dirty : bool) (w : Scan) :
  RecomputeOutputsDirty build_log e most_recent_input outputs_dirty w
  = (true,
     outputs_dirty
     || existsb (fun o => RecomputeOutputDirty build_log (edge_at w e)
                            (node_at w <$> most_recent_input)
                            (GetCommandHash (edge_at w e)) (node_at w o))
          (outputs_ (edge_at w e))).
Proof.
  unfold RecomputeOutputsDirty.
  induction (outputs_ (edge_at w e)) as [|o outputs IH]; cbn.
  - by rewrite orb_false_r.
  - destruct (RecomputeOutputDirty _ _ _ _ _); cbn;
      [by rewrite orb_true_r|done].
Qed.

(** X4.  [RecomputeOutputsDirty] never fails, and it reports the outputs
    dirty exactly when they were reported dirty before or
    [RecomputeOutputDirty] holds of one of the outputs of the edge. *)
Theorem RecomputeOutputsDirty_any_output build_log (e : EdgeId)
    (most_recent_input : option NodeId) (outputs_dirty : bool) (w : Scan) :
  RecomputeOutputsDirty build_log e most_recent_input outputs_dirty w
  = (true,
     outputs_dirty
     || existsb (fun o => RecomputeOutputDirty build_log (edge_at w e)
                            (node_at w <$> most_recent_input)
                            (GetCommandHash (edge_at w e)) (node_at w o))
          (outputs_ (edge_at w e))).
Proof. apply RecomputeOutputsDirty_returns_true. Qed.

End OutputVerdicts.

Lemma RecomputeOutputDirty_without_log_witness :
  let edge := sample_edge cc_rule [1%nat] (sample_info false false 7) in
  let input := sample_node "in" 150 None in
  let output := sample_node "out" 100 (Some 0%nat) in
  RecomputeOutputDirty None edge (Some input) 7 output = true
  <-> (mtime_ output = 0 \/
       exists i, Some input = Some i /\ mtime_ output < mtime_ i).
Proof.
  intros edge input output.
  apply (RecomputeOutputDirty_without_log edge (Some input) 7 output).
  reflexivity.
Defined.

Lemma RecomputeOutputDirty_recorded_mtime_witness :
  let edge := sample_edge cc_rule [1%nat] (sample_info false true 7) in
  let log : BuildLog := {[ "out" := mkLogEntry 7 100 ]} in
  let input := sample_node "in" 150 None in
  let output := sample_node "out" 200 (Some 0%nat) in
  RecomputeOutputDirty (Some log) edge (Some input) 7 output = true.
Proof.
  intros edge log input output.
  apply (RecomputeOutputDirty_recorded_mtime log edge input 7 output
           (mkLogEntry 7 100)); [reflexivity | reflexivity | cbn; lia].
Defined.

Lemma RecomputeOutputDirty_restat_entry_witness :
  let edge := sample_edge cc_rule [1%nat] (sample_info true false 7) in
  let log : BuildLog := {[ "out" := mkLogEntry 7 200 ]} in
  let input := sample_node "in" 150 None in
  let output := sample_node "out" 100 (Some 0%nat) in
  RecomputeOutputDirty (Some log) edge (Some input) 7 output
  = (negb (IsGenerator edge) && negb (7 =? 7)) || (200 <? mtime_ input).
Proof.
  intros edge log input output.
  apply (RecomputeOutputDirty_restat_entry log edge (Some input) 7 output
           (mkLogEntry 7 200)); reflexivity.
Defined.

(** ** [EdgeEval]: what the expansion of a variable appends *)

Section Expansion.

Variable nodes : list Node.
Variable limit : nat.
Variable shell_escape : string -> string.
Variable EvaluateBindingInScope : Edge -> list Token -> string.
Variable ScopeEvaluateVariable : EvalPhase -> Edge -> string -> string.

Local Abbreviation eval :=
  (EvaluateVariable nodes limit shell_escape EvaluateBindingInScope
     ScopeEvaluateVariable).

(** The text [AppendPathList] writes for one node. *)
Local Abbreviation path_text ev :=
  (fun it : NodeId =>
     match escape_in_out_ ev with
     | kShellEscape => shell_escape (path_ (nodes !!! it))
     | kDoNotEscape => path_ (nodes !!! it)
     end).

Lemma append_out_empty ev : append_out "" ev = ev.
Proof. destruct ev. unfold append_out. cbn. by rewrite string_app_empty_r. Qed.

Lemma append_out_app s t ev :
  append_out t (append_out s ev) = append_out (s +:+ t) ev.
Proof. unfold append_out. cbn. by rewrite string_app_assoc. Qed.

Lemma append_paths_concat paths sep ev :
  append_paths nodes shell_escape false paths sep ev
  = append_out (String.concat ""
                  ((fun it => sep +:+ path_text ev it) <$> paths)) ev.
Proof.
  revert ev. induction paths as [|it paths IH]; intros ev.
  - cbn. by rewrite append_out_empty.
  - cbn [append_paths]. rewrite IH.
    change (escape_in_out_ (append_out sep ev)) with (escape_in_out_ ev).
    assert (forall s t, String.concat "" (s :: t) = s +:+ String.concat "" t)
      as Hcons.
    { intros s [|t0 t]; cbn; [by rewrite string_app_empty_r|done]. }
    rewrite fmap_cons, Hcons.
    destruct (escape_in_out_ ev) eqn:Hesc; cbn [PathDecanonicalized];
      rewrite !append_out_app, ?string_app_assoc;
      cbn [escape_in_out_ append_out]; by rewrite Hesc.
Qed.

Lemma concat_sep_cons sep (s : string) (l : list string) :
  s +:+ String.concat "" ((fun t => sep +:+ t) <$> l)
  = String.concat sep (s :: l).
Proof.
  revert s. induction l as [|t l IH]; intros s.
  - cbn. apply string_app_empty_r.
  - rewrite fmap_cons.
    change (String.concat sep (s :: t :: l))
      with (s +:+ sep +:+ String.concat sep (t :: l)).
    rewrite <- IH.
    destruct ((fun t => sep +:+ t) <$> l) as [|u us] eqn:Hl.
    + cbn. by rewrite !string_app_empty_r.
    + change (String.concat "" ((sep +:+ t) :: u :: us))
        with ((sep +:+ t) +:+ "" +:+ String.concat "" (u :: us)).
      change ("" +:+ String.concat "" (u :: us))
        with (String.concat "" (u :: us)).
      by rewrite string_app_assoc.
Qed.

Lemma AppendPathList_concat range sep ev :
  AppendPathList nodes shell_escape range sep ev
  = append_out (String.concat sep (path_text ev <$> range)) ev.
Proof.
  unfold AppendPathList. destruct range as [|it range].
  - cbn. by rewrite append_out_empty.
  - cbn [append_paths]. rewrite append_paths_concat.
    assert (escape_in_out_
              (match escape_in_out_ ev with
               | kShellEscape =>
                   append_out (shell_escape
                                 (PathDecanonicalized (nodes !!! it))) ev
               | kDoNotEscape =>
                   append_out (PathDecanonicalized (nodes !!! it)) ev
               end) = escape_in_out_ ev) as ->
      by (by destruct (escape_in_out_ ev) eqn:Hesc).
    rewrite fmap_cons, <- concat_sep_cons, <- list_fmap_compose.
    destruct (escape_in_out_ ev); cbn [PathDecanonicalized];
      by rewrite append_out_app.
Qed.

(** X5.  [$in] expands to the paths of the explicit inputs of the edge,
    escaped for the shell when the evaluation asks for it, with one space
    between two paths and none before or after; [$in_newline] to the same
    paths with a newline between them; [$out] to the paths of the explicit
    outputs.  The implicit and order-only inputs and the implicit outputs
    are left out, and no binding of the edge or the rule is looked at. *)
Theorem EvaluateVariable_in_out fuel ev :
  let e := edge_ ev in
  let explicit_ins :=
    take (length (inputs_ e) - implicit_deps_ e - order_only_deps_ e)
      (inputs_ e) in
  let explicit_outs :=
    take (length (outputs_ e) - implicit_outs_ e) (outputs_ e) in
  eval (S fuel) "in" ev
  = Some (true,
          append_out (String.concat " " (path_text ev <$> explicit_ins)) ev)
  /\ eval (S fuel) "in_newline" ev
     = Some (true,
             append_out (String.concat (String "010" "")
                           (path_text ev <$> explicit_ins)) ev)
  /\ eval (S fuel) "out" ev
     = Some (true,
             append_out (String.concat " " (path_text ev <$> explicit_outs))
               ev).
Proof.
  cbn -[String.concat]. by rewrite !AppendPathList_concat.
Qed.

(** The error string changes only when the evaluation fails. *)
Lemma EvaluateBindingOnRule_err eval_var value :
  (forall var ev ev',
      eval_var var ev = Some (true, ev') -> eval_err ev' = eval_err ev) ->
  forall ev ev',
    EvaluateBindingOnRule eval_var value ev = Some (true, ev') ->
    eval_err ev' = eval_err ev.
Proof.
  intros Hvar. induction value as [|[text|var] value IH]; intros ev ev'; cbn.
  - by intros [= <-].
  - intros Hrun. by rewrite (IH _ _ Hrun).
  - destruct (eval_var var ev) as [[[] ev1]|] eqn:Hev; [|done..].
    intros Hrun. rewrite (IH _ _ Hrun). by eapply Hvar.
Qed.

Lemma EvaluateVariable_err fuel var ev ev' :
  eval fuel var ev = Some (true, ev') -> eval_err ev' = eval_err ev.
Proof.
  revert var ev ev'. induction fuel as [|fuel IH]; intros var ev ev'; [done|].
  cbn [EvaluateVariable]. destruct (is_in_or_in_newline var).
  { intros [= <-]. by rewrite AppendPathList_concat. }
  case_bool_decide.
  { intros [= <-]. by rewrite AppendPathList_concat. }
  destruct (EvaluateVariableSelfOnly _ _ _) as [ev1|] eqn:Hself.
  { intros [= <-]. by apply EvaluateVariableSelfOnly_Some in Hself as [s ->]. }
  destruct (GetBinding _ _) as [value|]; [|by intros [= <-]].
  case_bool_decide; [done|]. intros Hrun.
  by rewrite (EvaluateBindingOnRule_err (eval fuel) value IH _ _ Hrun).
Qed.

(** X6.  The expansion of a variable from a fresh [EdgeEval] returns
    whatever the bindings are: [kEvalRecursionLimit + 1] nested calls are
    enough.  At most [kEvalRecursionLimit] look-ups of rule bindings are
    recorded, so that the writes to [recursion_vars_] stay inside the array;
    a success leaves the caller's error string as it was, and a failure has
    filled the array and reports a cycle in the rule variables. *)
Theorem EvaluateVariable_returns edge var phase escape out err fuel :
  (limit < fuel)%nat ->
  exists r ev,
    eval fuel var (new_EdgeEval limit edge phase escape out err) = Some (r, ev)
    /\ (recursion_count_ ev <= limit)%nat
    /\ length (recursion_vars_ ev) = limit
    /\ (r = true -> eval_err ev = err)
    /\ (r = false ->
        recursion_count_ ev = limit /\
        eval_err ev
        = "cycle in rule variables: "
          +:+ String.concat " -> " (cycle_names limit (recursion_vars_ ev))).
Proof.
  intros Hfuel.
  set (ev0 := new_EdgeEval limit edge phase escape out err).
  assert (eval_wf limit ev0) as Hwf0.
  { split; [apply length_replicate|]. split; [cbn; lia|]. cbn. lia. }
  destruct (EvaluateVariable_total nodes limit shell_escape
              EvaluateBindingInScope ScopeEvaluateVariable fuel var ev0 Hwf0)
    as [[r ev] Hrun]; [cbn; lia|].
  exists r, ev. split; [done|].
  pose proof (EvaluateVariable_post _ _ _ _ _ _ _ _ _ _ Hwf0 Hrun)
    as ((Hlen & Hle & _) & _ & Hfail).
  repeat split; try done.
  - intros ->. by apply EvaluateVariable_err in Hrun.
  - by destruct (Hfail H).
  - destruct (Hfail H) as [_ ->]. by rewrite cycle_text_concat.
Qed.

(** X7.  A binding declared on the edge hides the binding of the same name
    on the rule, and of several declarations on the edge the last one
    counts: the variable expands to the value of that declaration,
    evaluated in the scope of the edge. *)
Theorem EvaluateVariable_edge_binding fuel var value before after ev :
  unevaled_bindings_ (edge_ ev) = before ++ (var, value) :: after ->
  (forall b, b ∈ after -> b.1 <> var) ->
  var <> "in" -> var <> "in_newline" -> var <> "out" ->
  eval (S fuel) var ev
  = Some (true, append_out (EvaluateBindingInScope (edge_ ev) value) ev).
Proof.
  intros Hbind Hafter Hin Hnl Hout. cbn [EvaluateVariable].
  unfold is_in_or_in_newline.
  rewrite !bool_decide_false by done. cbn [orb].
  unfold EvaluateVariableSelfOnly, last_binding. rewrite Hbind.
  rewrite reverse_app, reverse_cons, <- app_assoc, filter_app.
  assert (filter (fun b : string * list Token => b.1 = var) (reverse after)
          = []) as ->.
  { assert (forall b, b ∈ reverse after -> b.1 <> var) as Hrev
      by (intros b Hb; rewrite elem_of_reverse in Hb; by apply Hafter).
    induction (reverse after) as [|b l IH]; [done|].
    rewrite filter_cons_False by (apply Hrev; left).
    apply IH. intros b' Hb'. apply Hrev. by right. }
  cbn [app]. rewrite filter_cons_True by done. by cbn.
Qed.

End Expansion.

Lemma EvaluateVariable_returns_witness :
  exists r ev,
    EvaluateVariable [] 16 (fun s => s) (fun _ => literal_text)
      (fun _ _ _ => "") 17 "command"
      (new_EdgeEval 16 cyclic_edge kFinalScope kShellEscape "" "")
    = Some (r, ev)
    /\ (recursion_count_ ev <= 16)%nat
    /\ length (recursion_vars_ ev) = 16%nat
    /\ (r = true -> eval_err ev = "")
    /\ (r = false ->
        recursion_count_ ev = 16%nat /\
        eval_err ev
        = "cycle in rule variables: "
          +:+ String.concat " -> " (cycle_names 16 (recursion_vars_ ev))).
Proof.
  apply (EvaluateVariable_returns [] 16 (fun s => s) (fun _ => literal_text)
           (fun _ _ _ => "") cyclic_edge "command" kFinalScope kShellEscape
           "" "" 17).
  lia.
Defined.

Lemma EvaluateVariable_edge_binding_witness :
  let edge :=
    mkEdge cc_rule [] [] 0 0 0 0 VisitNone false false false
      (sample_info false false 0)
      [("command", [Literal "first"]); ("command", [Literal "second"])] in
  let ev := new_EdgeEval 16 edge kFinalScope kShellEscape "" "" in
  EvaluateVariable [] 16 (fun s => s) (fun _ => literal_text)
    (fun _ _ _ => "") 1 "command" ev
  = Some (true, append_out "second" ev).
Proof.
  intros edge ev.
  apply (EvaluateVariable_edge_binding [] 16 (fun s => s)
           (fun _ => literal_text) (fun _ _ _ => "") 0 "command"
           [Literal "second"] [("command", [Literal "first"])] [] ev);
    [reflexivity | by intros b Hb; apply elem_of_nil in Hb | done..].
Defined.

(** ** The loader of implicit dependencies *)

Section Loader.

Context {D : Type} `{DiskInterface D}.
Variable disk_interface_ : D.
Variable deps_log : DepsLog.
Variable DepfileParser_Parse : string -> DepfileParse.
Variable CanonicalizePath : string -> Canonicalize.

Local Open Scope nat_scope.
Implicit Types (w : Scan) (n node : NodeId) (e edge : EdgeId).

Lemma deps_kept_refl w : deps_kept w w.
Proof. by split. Qed.

Lemma deps_kept_trans w1 w2 w3 :
  deps_kept w1 w2 -> deps_kept w2 w3 -> deps_kept w1 w3.
Proof.
  intros H12 H23. split.
  - pose proof (deps_kept_nodes _ _ H12). pose proof (deps_kept_nodes _ _ H23).
    lia.
  - intros n Hn. rewrite (deps_kept_path _ _ H23), (deps_kept_path _ _ H12);
      [done..|]. pose proof (deps_kept_nodes _ _ H12). lia.
  - intros n Hn. by apply (deps_kept_in_edge _ _ H23), (deps_kept_in_edge _ _ H12).
  - intros n e He.
    by apply (deps_kept_consumers _ _ H23), (deps_kept_consumers _ _ H12).
Qed.

Lemma deps_kept_update_edge e f w : deps_kept w (update_edge e f w).
Proof. by split. Qed.

Lemma deps_kept_AddOutEdgeDepScan n e w :
  deps_kept w (AddOutEdgeDepScan n e w).
Proof.
  unfold AddOutEdgeDepScan. split.
  - cbn. by rewrite length_alter.
  - intros m Hm. rewrite node_at_update_node.
    by destruct (decide _) as [[<- _]|].
  - intros m. rewrite node_at_update_node.
    by destruct (decide _) as [[<- _]|].
  - intros m e'. rewrite node_at_update_node.
    destruct (decide _) as [[<- _]|]; [|done]. cbn. set_solver.
Qed.

Lemma consumer_AddOutEdgeDepScan n e w :
  n < length (nodes_ w) ->
  e ∈ dep_scan_out_edges_ (node_at (AddOutEdgeDepScan n e w) n).
Proof.
  intros Hn. unfold AddOutEdgeDepScan. rewrite node_at_update_node.
  destruct (decide _) as [_|]; [|tauto]. cbn. set_solver.
Qed.

Lemma deps_kept_CreatePhonyInEdge n w : deps_kept w (CreatePhonyInEdge n w).
Proof.
  unfold CreatePhonyInEdge.
  destruct (in_edge_ (node_at w n)) eqn:Hin; [apply deps_kept_refl|].
  cbn. split; cbn.
  - by rewrite length_alter.
  - intros m Hm. unfold node_at. cbn. rewrite list_lookup_total_alter.
    by destruct (decide _) as [[<- _]|].
  - intros m. unfold node_at. cbn. rewrite list_lookup_total_alter.
    by destruct (decide _) as [[<- _]|].
  - intros m e. unfold node_at. cbn. rewrite list_lookup_total_alter.
    by destruct (decide _) as [[<- _]|].
Qed.

Lemma in_edge_CreatePhonyInEdge n w :
  n < length (nodes_ w) ->
  is_Some (in_edge_ (node_at (CreatePhonyInEdge n w) n)).
Proof.
  intros Hn. unfold CreatePhonyInEdge.
  destruct (in_edge_ (node_at w n)) eqn:Hin; [by rewrite Hin|].
  cbn. unfold node_at. cbn. by rewrite list_lookup_total_alter_eq.
Qed.

Lemma edge_at_CreatePhonyInEdge n w e :
  e < length (edges_ w) -> edge_at (CreatePhonyInEdge n w) e = edge_at w e.
Proof.
  intros He. by apply (step_kept _ _ _ (step_CreatePhonyInEdge None n w)).
Qed.

Lemma edges_CreatePhonyInEdge n w :
  length (edges_ w) <= length (edges_ (CreatePhonyInEdge n w)).
Proof. apply (step_CreatePhonyInEdge None n w). Qed.

(** One round of the loops of [LoadDepsFromLog] and [LoadDepFile]. *)
Lemma load_one edge pos node w :
  let w' := CreatePhonyInEdge node
              (AddOutEdgeDepScan node edge
                 (assign_implicit_dep edge pos node w)) in
  deps_kept w w'
  /\ length (edges_ w) <= length (edges_ w')
  /\ (edge < length (edges_ w) ->
      edge_at w' edge
      = with_inputs (take pos (inputs_ (edge_at w edge)) ++ node
                     :: drop pos (inputs_ (edge_at w edge))) (edge_at w edge))
  /\ (node < length (nodes_ w) ->
      is_Some (in_edge_ (node_at w' node)) /\
      edge ∈ dep_scan_out_edges_ (node_at w' node)).
Proof.
  cbn zeta. set (w1 := assign_implicit_dep edge pos node w).
  set (w2 := AddOutEdgeDepScan node edge w1).
  assert (deps_kept w w1) as H1 by apply deps_kept_update_edge.
  assert (deps_kept w1 w2) as H2 by apply deps_kept_AddOutEdgeDepScan.
  assert (deps_kept w2 (CreatePhonyInEdge node w2)) as H3
    by apply deps_kept_CreatePhonyInEdge.
  assert (length (edges_ w2) = length (edges_ w)) as Hlen.
  { subst w2 w1. cbn. by rewrite length_alter. }
  assert (length (nodes_ w2) = length (nodes_ w)) as Hnodes.
  { subst w2 w1. cbn. by rewrite length_alter. }
  split; [eauto using deps_kept_trans|]. split.
  { rewrite <- Hlen. apply edges_CreatePhonyInEdge. }
  split.
  - intros He. rewrite edge_at_CreatePhonyInEdge by lia.
    change (edge_at w2 edge) with (edge_at w1 edge). subst w1.
    unfold assign_implicit_dep. by rewrite edge_at_update_edge_eq.
  - intros Hn. split.
    + apply in_edge_CreatePhonyInEdge. lia.
    + apply (deps_kept_consumers _ _ H3). subst w2.
      apply consumer_AddOutEdgeDepScan. subst w1. cbn. lia.
Qed.

Lemma with_inputs_insert (pos : nat) (x : NodeId) (l rest : list NodeId) :
  pos <= length l ->
  take (S pos) (take pos l ++ x :: drop pos l) ++ rest
    ++ drop (S pos) (take pos l ++ x :: drop pos l)
  = take pos l ++ (x :: rest) ++ drop pos l.
Proof.
  intros Hpos.
  assert (length (take pos l) = pos) as Hlen by (rewrite length_take; lia).
  rewrite (take_app_ge (take pos l)), (drop_app_ge (take pos l)) by lia.
  rewrite Hlen. replace (S pos - pos) with 1 by lia. cbn.
  by rewrite take_0, <- app_assoc.
Qed.

Lemma load_deps_nodes_spec edge deps_nodes pos w :
  let w' := load_deps_nodes edge deps_nodes pos w in
  deps_kept w w'
  /\ length (edges_ w) <= length (edges_ w')
  /\ (edge < length (edges_ w) -> pos <= length (inputs_ (edge_at w edge)) ->
      edge_at w' edge
      = with_inputs (take pos (inputs_ (edge_at w edge)) ++ deps_nodes
                     ++ drop pos (inputs_ (edge_at w edge))) (edge_at w edge))
  /\ (forall n, n ∈ deps_nodes -> n < length (nodes_ w) ->
      is_Some (in_edge_ (node_at w' n)) /\
      edge ∈ dep_scan_out_edges_ (node_at w' n)).
Proof.
  revert pos w. induction deps_nodes as [|node deps_nodes IH]; intros pos w.
  - cbn. split; [apply deps_kept_refl|]. split; [done|]. split.
    + intros _ _. rewrite take_drop. by destruct (edge_at w edge).
    + intros n Hn. by apply elem_of_nil in Hn.
  - cbn [load_deps_nodes]. cbn zeta.
    destruct (load_one edge pos node w) as (Hk1 & Hl1 & He1 & Hn1).
    set (w1 := CreatePhonyInEdge node _) in *.
    destruct (IH (S pos) w1) as (Hk & Hl & He & Hn).
    split; [eauto using deps_kept_trans|]. split; [lia|]. split.
    + intros Hedge Hpos. rewrite He, He1; [|done|lia|].
      * cbn. by rewrite with_inputs_insert.
      * rewrite He1 by done. cbn. rewrite length_app, length_take. cbn.
        rewrite length_drop. lia.
    + intros n Hin Hlt. apply elem_of_cons in Hin as [->|Hin].
      * destruct (Hn1 Hlt) as [Hs Hc]. split.
        -- by apply (deps_kept_in_edge _ _ Hk).
        -- by apply (deps_kept_consumers _ _ Hk).
      * apply Hn; [done|]. pose proof (deps_kept_nodes _ _ Hk1). lia.
Qed.

(** X8.  When [LoadDepsFromLog] succeeds, the deps log has an entry for the
    first output of the edge that is not older than the output.  The nodes
    of the entry are then inputs of the edge, in the order of the log, after
    the explicit and implicit inputs it had and before its order-only
    inputs, and they count as implicit inputs; the rule, the outputs and the
    number of order-only inputs are as before.  Every node of the entry
    has the edge among the consumers found by the dependency scan, and has an
    in-edge, so that a header that is gone does not stop the build. *)
Theorem LoadDepsFromLog_inputs edge w w' :
  edge < length (edges_ w) ->
  LoadDepsFromLog deps_log edge w = (true, w') ->
  let e := edge_at w edge in
  let e' := edge_at w' edge in
  let k := length (inputs_ e) - order_only_deps_ e in
  exists deps,
    GetDeps deps_log (outputs_ e !!! 0%nat) = Some deps
    /\ (mtime_ (node_at w (outputs_ e !!! 0%nat)) <= deps_mtime deps)%Z
    /\ inputs_ e' = take k (inputs_ e) ++ deps_nodes deps ++ drop k (inputs_ e)
    /\ implicit_deps_ e' = implicit_deps_ e + length (deps_nodes deps)
    /\ order_only_deps_ e' = order_only_deps_ e
    /\ outputs_ e' = outputs_ e
    /\ rule_ e' = rule_ e
    /\ forall n, n ∈ deps_nodes deps -> n < length (nodes_ w) ->
         is_Some (in_edge_ (node_at w' n)) /\
         edge ∈ dep_scan_out_edges_ (node_at w' n).
Proof.
  intros Hedge. unfold LoadDepsFromLog.
  destruct (GetDeps _ _) as [deps|] eqn:Hdeps; [|done].
  destruct (Z.ltb_spec (deps_mtime deps)
              (mtime_ (node_at w (outputs_ (edge_at w edge) !!! 0%nat))))
    as [|Hfresh]; [done|].
  unfold PreallocateSpace. intros [= <-]. cbn zeta.
  exists deps. split; [done|]. split; [done|].
  set (w0 := update_edge edge _ w).
  assert (edge_at w0 edge
          = with_implicit_deps (implicit_deps_ (edge_at w edge)
                                + length (deps_nodes deps)) (edge_at w edge))
    as He0 by (subst w0; by rewrite edge_at_update_edge_eq).
  destruct (load_deps_nodes_spec edge (deps_nodes deps)
              (length (inputs_ (edge_at w edge))
               - order_only_deps_ (edge_at w edge)) w0)
    as (_ & _ & He & Hn).
  rewrite He, He0; [|subst w0; cbn; by rewrite length_alter|].
  - cbn [inputs_ implicit_deps_ order_only_deps_ outputs_ rule_ with_inputs
         with_implicit_deps].
    do 5 (split; [reflexivity|]). intros m Hin Hlt. apply Hn; [done|].
    subst w0. by cbn.
  - rewrite He0. cbn. lia.
Qed.

Lemma GetNode_spec path w :
  let '(n, w') := GetNode path w in
  deps_kept w w' /\ edges_ w' = edges_ w
  /\ n < length (nodes_ w') /\ path_ (node_at w' n) = path.
Proof.
  unfold GetNode, LookupNode.
  destruct (list_find _ _) as [[n x]|] eqn:Hfind; cbn.
  - apply list_find_Some in Hfind as (Hx & Hp & _).
    split; [apply deps_kept_refl|]. split; [done|]. split.
    + by apply lookup_lt_Some in Hx.
    + unfold node_at. by rewrite (list_lookup_total_correct _ _ _ Hx).
  - split; [|split; [done|split]].
    + split; cbn.
      * rewrite length_app. lia.
      * intros m Hm. unfold node_at. cbn. by rewrite lookup_total_app_l.
      * intros m. destruct (decide (m < length (nodes_ w))).
        -- unfold node_at. cbn. by rewrite lookup_total_app_l.
        -- rewrite (node_at_ge w) by lia. by intros [x Hx].
      * intros m e. destruct (decide (m < length (nodes_ w))).
        -- unfold node_at. cbn. by rewrite lookup_total_app_l.
        -- rewrite (node_at_ge w) by lia. cbn.
           intros He. by apply elem_of_nil in He.
    + rewrite length_app. cbn. lia.
    + unfold node_at. cbn. rewrite lookup_total_app_r by done.
      by rewrite Nat.sub_diag.
Qed.

(** What [LoadDepFile] leaves of a dependency the depfile lists: a node of
    the canonical path, with an in-edge and with [edge] as a consumer. *)
Local Abbreviation loaded edge w' :=
  (fun (i : string) (n : NodeId) =>
     CanonicalizePath i = Canonical (path_ (node_at w' n))
     /\ n < length (nodes_ w')
     /\ is_Some (in_edge_ (node_at w' n))
     /\ edge ∈ dep_scan_out_edges_ (node_at w' n)).

Lemma load_depfile_ins_spec edge ins pos w w' :
  load_depfile_ins CanonicalizePath edge ins pos w = (true, w') ->
  deps_kept w w'
  /\ length (edges_ w) <= length (edges_ w')
  /\ exists ins_nodes,
       Forall2 (loaded edge w') ins ins_nodes
       /\ (edge < length (edges_ w) ->
           pos <= length (inputs_ (edge_at w edge)) ->
           edge_at w' edge
           = with_inputs (take pos (inputs_ (edge_at w edge)) ++ ins_nodes
                          ++ drop pos (inputs_ (edge_at w edge)))
               (edge_at w edge)).
Proof.
  revert pos w. induction ins as [|i ins IH]; intros pos w.
  - cbn. intros [= <-]. split; [apply deps_kept_refl|]. split; [done|].
    exists []. split; [constructor|]. intros _ _. cbn.
    rewrite take_drop. by destruct (edge_at w edge).
  - cbn [load_depfile_ins].
    destruct (CanonicalizePath i) as [p|err] eqn:Hcanon; [|done].
    pose proof (GetNode_spec p w) as Hget.
    destruct (GetNode p w) as [node w0].
    destruct Hget as (Hk0 & He0 & Hn0 & Hp0).
    destruct (load_one edge pos node w0) as (Hk1 & Hl1 & He1 & Hn1).
    set (w1 := CreatePhonyInEdge node _) in *. intros Hrun.
    destruct (IH (S pos) w1 Hrun) as (Hk & Hl & ins_nodes & Hall & He).
    assert (edge_at w0 edge = edge_at w edge) as Hsame
      by (unfold edge_at; by rewrite He0).
    split; [eauto using deps_kept_trans|]. split; [rewrite <- He0; lia|].
    exists (node :: ins_nodes). split.
    + constructor; [|done]. destruct (Hn1 Hn0) as [Hs Hc].
      pose proof (deps_kept_nodes _ _ Hk1). pose proof (deps_kept_nodes _ _ Hk).
      split; [|split; [lia|split]].
      * rewrite (deps_kept_path _ _ Hk), (deps_kept_path _ _ Hk1), Hp0;
          [done|lia..].
      * by apply (deps_kept_in_edge _ _ Hk).
      * by apply (deps_kept_consumers _ _ Hk).
    + intros Hedge Hpos. rewrite <- He0 in Hedge. rewrite <- Hsame in Hpos.
      rewrite He, He1; [|done|lia|].
      * rewrite Hsame. cbn. by rewrite with_inputs_insert by (by rewrite <- Hsame).
      * rewrite He1 by done. cbn. rewrite length_app, length_take. cbn.
        rewrite length_drop. lia.
Qed.

(** X9.  When [LoadDepFile] succeeds, the depfile was read and is not
    empty, the parser accepted it, and the output it names is, once
    canonical, the path of the first output of the edge.  Every dependency
    the depfile lists is then an input of the edge, as the node of its
    canonical path and in the order of the file, after the explicit and
    implicit inputs the edge had and before its order-only inputs, and
    counts as an implicit input.  Each of these nodes has the edge among the
    consumers found by the dependency scan, and has an in-edge. *)
Theorem LoadDepFile_inputs edge path w w' :
  edge < length (edges_ w) ->
  LoadDepFile disk_interface_ DepfileParser_Parse CanonicalizePath edge path w
  = (true, w') ->
  let e := edge_at w edge in
  let e' := edge_at w' edge in
  let k := length (inputs_ e) - order_only_deps_ e in
  exists content out ins ins_nodes,
    ReadFile disk_interface_ path = Okay content
    /\ content <> ""
    /\ DepfileParser_Parse content = Parsed out ins
    /\ CanonicalizePath out
       = Canonical (path_ (node_at w (outputs_ e !!! 0%nat)))
    /\ Forall2 (loaded edge w') ins ins_nodes
    /\ inputs_ e' = take k (inputs_ e) ++ ins_nodes ++ drop k (inputs_ e)
    /\ implicit_deps_ e' = implicit_deps_ e + length ins
    /\ order_only_deps_ e' = order_only_deps_ e
    /\ outputs_ e' = outputs_ e
    /\ rule_ e' = rule_ e.
Proof.
  intros Hedge. unfold LoadDepFile.
  cbn [mbind Flow_bind flow_bind flow_run return_if].
  destruct (ReadFile disk_interface_ path) as [content|err|err] eqn:Hread;
    cbn [mbind Flow_bind flow_bind flow_run return_if]; [| |done].
  2: { by cbn. }
  destruct (String.eqb_spec content "") as [->|Hcontent];
    cbn [mbind Flow_bind flow_bind flow_run return_if]; [done|].
  destruct (DepfileParser_Parse content) as [out ins|perr] eqn:Hparse;
    cbn [mbind Flow_bind flow_bind flow_run return_if]; [|done].
  destruct (CanonicalizePath out) as [out'|cerr] eqn:Hout;
    cbn [mbind Flow_bind flow_bind flow_run return_if]; [|done].
  destruct (String.eqb_spec
              (path_ (node_at w (outputs_ (edge_at w edge) !!! 0%nat))) out')
    as [<-|Hne]; cbn [mbind Flow_bind flow_bind flow_run return_if negb];
    [|done].
  unfold PreallocateSpace. cbn zeta. set (w0 := update_edge edge _ w).
  intros Hrun.
  assert (edge_at w0 edge
          = with_implicit_deps (implicit_deps_ (edge_at w edge) + length ins)
              (edge_at w edge))
    as He0 by (subst w0; by rewrite edge_at_update_edge_eq).
  destruct (load_depfile_ins_spec _ _ _ _ _ Hrun)
    as (_ & _ & ins_nodes & Hall & He).
  exists content, out, ins, ins_nodes.
  do 5 (split; [done|]).
  rewrite He, He0; [|subst w0; cbn; by rewrite length_alter|].
  - cbn [inputs_ implicit_deps_ order_only_deps_ outputs_ rule_ with_inputs
         with_implicit_deps].
    by do 4 (split; [reflexivity|]).
  - rewrite He0. cbn. lia.
Qed.

End Loader.

(** ** [CollectPrecomputeLists] *)

Section Collecting.

Variable deps_log : DepsLog.

Local Open Scope nat_scope.
Implicit Types (w : Scan) (n node : NodeId) (e edge : EdgeId).

Local Abbreviation collect := (CollectPrecomputeLists deps_log).
Local Abbreviation nflag c n :=
  (node_precomputed_dirtiness_ (node_at (collected_scan c) n)).
Local Abbreviation eflag c e :=
  (precomputed_dirtiness_ (edge_at (collected_scan c) e)).

Lemma prefix_elem_of {A} (l1 l2 : list A) (x : A) :
  l1 `prefix_of` l2 -> x ∈ l1 -> x ∈ l2.
Proof. intros [k ->] Hx. apply elem_of_app. by left. Qed.

Lemma collects_refl (c : Collected) : collects deps_log c c.
Proof.
  split; try done; try (by left); try apply shape_kept_refl.
Qed.

Lemma collects_trans (c1 c2 c3 : Collected) :
  collects deps_log c1 c2 -> collects deps_log c2 c3 ->
  collects deps_log c1 c3.
Proof.
  intros H12 H23.
  pose proof (collects_shape _ _ _ H12) as Hs12.
  pose proof (collects_shape _ _ _ H23) as Hs23.
  pose proof (collects_nodes _ _ _ H23) as Hn23.
  pose proof (collects_edges _ _ _ H23) as He23.
  split.
  - by eapply shape_kept_trans.
  - intros e He. by apply (collects_edge_flag _ _ _ H23),
                          (collects_edge_flag _ _ _ H12).
  - intros Hinv. by apply (collects_inv _ _ _ H23), (collects_inv _ _ _ H12).
  - etrans; [apply (collects_nodes _ _ _ H12)|done].
  - etrans; [apply (collects_edges _ _ _ H12)|done].
  - intros n Hn. destruct (collects_new_node _ _ _ H23 n Hn) as [Hn2|?];
      [|by right].
    destruct (collects_new_node _ _ _ H12 n Hn2) as [?|Hin]; [by left|].
    right. by apply (prefix_elem_of _ _ _ Hn23).
  - intros e He. destruct (collects_new_edge _ _ _ H23 e He) as [He2|?];
      [|by right].
    destruct (collects_new_edge _ _ _ H12 e He2) as [?|Hin]; [by left|].
    right. by apply (prefix_elem_of _ _ _ He23).
  - intros n e Hin Hnot Hedge.
    destruct (decide (n ∈ all_nodes c2)) as [Hin2|Hnot2].
    + apply (collects_edge_flag _ _ _ H23),
        (collects_in_edge _ _ _ H12 n); [done..|].
      by rewrite <- (shape_in_edge _ _ Hs23).
    + by apply (collects_in_edge _ _ _ H23 n).
  - intros e i Hin Hnot Hi.
    destruct (decide (e ∈ all_edges c2)) as [Hin2|Hnot2].
    + apply (shape_collected _ _ Hs23),
        (collects_inputs _ _ _ H12 e); [done..|].
      by rewrite <- (shape_inputs _ _ Hs23).
    + by apply (collects_inputs _ _ _ H23 e).
  - intros n deps i Hin Hnot Hdeps Hi.
    destruct (decide (n ∈ all_nodes c2)) as [Hin2|Hnot2].
    + by apply (shape_collected _ _ Hs23),
        (collects_deps _ _ _ H12 n deps).
    + by apply (collects_deps _ _ _ H23 n deps).
Qed.

Lemma collect_range_shape w w' :
  shape_kept w w' -> collect_range deps_log w -> collect_range deps_log w'.
Proof.
  intros Hs [Hids Hin]. split; [by eapply ids_in_range_shape|].
  intros n e. rewrite (shape_in_edge _ _ Hs), (shape_edges _ _ Hs).
  apply Hin.
Qed.

Lemma collect_each_spec
    (f : NodeId -> Collected -> option Collected) nodes (c c' : Collected) :
  (forall node (c c' : Collected),
     collect_range deps_log (collected_scan c) ->
     node < length (nodes_ (collected_scan c)) ->
     f node c = Some c' ->
     collects deps_log c c' /\ nflag c' node = true) ->
  collect_range deps_log (collected_scan c) ->
  (forall n, n ∈ nodes -> n < length (nodes_ (collected_scan c))) ->
  collect_each f nodes c = Some c' ->
  collects deps_log c c' /\ forall n, n ∈ nodes -> nflag c' n = true.
Proof.
  intros Hf. revert c. induction nodes as [|node nodes IH];
    intros c Hrange Hnodes; cbn.
  - intros [= <-]. split; [apply collects_refl|].
    intros n Hn. by apply elem_of_nil in Hn.
  - destruct (nflag c node) eqn:Hflag; cbn.
    + intros Hrun. destruct (IH c Hrange) as [Hc Hall]; [|done|].
      { intros n Hn. apply Hnodes. by right. }
      split; [done|]. intros n Hn. apply elem_of_cons in Hn as [->|Hn].
      * by apply (shape_collected _ _ (collects_shape _ _ _ Hc)).
      * by apply Hall.
    + destruct (f node c) as [c1|] eqn:Hrun1; [|done]. cbn. intros Hrun.
      destruct (Hf node c c1 Hrange) as [Hc1 Hflag1]; [|done|].
      { apply Hnodes. by left. }
      pose proof (collects_shape _ _ _ Hc1) as Hs1.
      destruct (IH c1) as [Hc Hall]; [| |done|].
      { by eapply collect_range_shape. }
      { intros n Hn. rewrite (shape_nodes _ _ Hs1). apply Hnodes. by right. }
      split; [by eapply collects_trans|].
      intros n Hn. apply elem_of_cons in Hn as [->|Hn].
      * by apply (shape_collected _ _ (collects_shape _ _ _ Hc)).
      * by apply Hall.
Qed.

(** The end of a call of [CollectPrecomputeLists] that has pushed [node],
    and maybe its in-edge, from what the two loops of the call did. *)
Lemma collect_assemble (c cA c2 c' : Collected) node ins :
  shape_kept (collected_scan c) (collected_scan cA) ->
  (forall e, eflag c e = true -> eflag cA e = true) ->
  (collected_inv c -> collected_inv cA) ->
  all_nodes cA = all_nodes c ++ [node] ->
  all_edges c `prefix_of` all_edges cA ->
  (forall n, nflag cA n = true -> nflag c n = true \/ n = node) ->
  (forall e, eflag cA e = true -> eflag c e = true \/ e ∈ all_edges cA) ->
  nflag cA node = true ->
  (forall e, in_edge_ (node_at (collected_scan cA) node) = Some e ->
             eflag cA e = true) ->
  (forall e, e ∈ all_edges cA -> e ∉ all_edges c ->
             inputs_ (edge_at (collected_scan cA) e) = ins) ->
  collects deps_log cA c2 ->
  (forall i, i ∈ ins -> nflag c2 i = true) ->
  collects deps_log c2 c' ->
  (forall deps i, GetDeps deps_log node = Some deps -> i ∈ deps_nodes deps ->
                  nflag c' i = true) ->
  collects deps_log c c' /\ nflag c' node = true.
Proof.
  intros Hs He Hinv Hnodes Hedges Hnn Hne Hflag Hin Hins HA2 Hall2 H2' Hdeps.
  pose proof (collects_trans _ _ _ HA2 H2') as HA'.
  pose proof (collects_shape _ _ _ HA') as HsA'.
  pose proof (collects_shape _ _ _ H2') as Hs2'.
  assert (node ∈ all_nodes cA) as HnodeA
    by (rewrite Hnodes; apply elem_of_app; right; by left).
  assert (forall n, n ∈ all_nodes cA -> n ∉ all_nodes c -> n = node) as Honly.
  { intros n. rewrite Hnodes, elem_of_app, list_elem_of_singleton. tauto. }
  split; [split|].
  - by eapply shape_kept_trans.
  - intros e Hf. by apply (collects_edge_flag _ _ _ HA'), He.
  - intros Hc. by apply (collects_inv _ _ _ HA'), Hinv.
  - etrans; [|apply (collects_nodes _ _ _ HA')]. rewrite Hnodes.
    by apply prefix_app_r.
  - etrans; [done|apply (collects_edges _ _ _ HA')].
  - intros n Hn. destruct (collects_new_node _ _ _ HA' n Hn) as [HnA|?];
      [|by right].
    destruct (Hnn n HnA) as [?| ->]; [by left|]. right.
    by apply (prefix_elem_of _ _ _ (collects_nodes _ _ _ HA')).
  - intros e Hf. destruct (collects_new_edge _ _ _ HA' e Hf) as [HeA|?];
      [|by right].
    destruct (Hne e HeA) as [?|HinA]; [by left|]. right.
    by apply (prefix_elem_of _ _ _ (collects_edges _ _ _ HA')).
  - intros n e Hn Hnot Hedge.
    destruct (decide (n ∈ all_nodes cA)) as [HinA|HnotA].
    + rewrite (Honly n HinA Hnot) in Hedge.
      apply (collects_edge_flag _ _ _ HA'), Hin.
      by rewrite <- (shape_in_edge _ _ HsA').
    + by apply (collects_in_edge _ _ _ HA' n).
  - intros e i Hin' Hnot Hi.
    destruct (decide (e ∈ all_edges cA)) as [HinA|HnotA].
    + apply (shape_collected _ _ Hs2'), Hall2.
      by rewrite <- (Hins e HinA Hnot), <- (shape_inputs _ _ HsA').
    + by apply (collects_inputs _ _ _ HA' e).
  - intros n deps i Hn Hnot Hd Hi.
    destruct (decide (n ∈ all_nodes cA)) as [HinA|HnotA].
    + rewrite (Honly n HinA Hnot) in Hd. by apply (Hdeps deps).
    + by apply (collects_deps _ _ _ HA' n deps).
  - by apply (shape_collected _ _ HsA').
Qed.

Lemma collected_inv_snoc_node (c : Collected) node w1 :
  node < length (nodes_ (collected_scan c)) ->
  nflag c node = false ->
  w1 = update_node node (with_node_precomputed_dirtiness true)
         (collected_scan c) ->
  collected_inv c ->
  collected_inv (mkCollected (all_nodes c ++ [node]) (all_edges c) w1).
Proof.
  intros Hnode Hflag -> [Hn He Hnf Hef]. split; cbn.
  - apply NoDup_app. split; [done|]. split; [|apply NoDup_singleton].
    intros n Hin ->%list_elem_of_singleton. apply Hnf in Hin. congruence.
  - done.
  - intros n [Hin| ->%list_elem_of_singleton]%elem_of_app;
      rewrite node_at_update_node.
    + destruct (decide _) as [[<- _]|]; [done|]. by apply Hnf.
    + by destruct (decide _) as [_|]; [|tauto].
  - done.
Qed.

Lemma collected_inv_snoc_edge (c : Collected) edge w2 :
  edge < length (edges_ (collected_scan c)) ->
  eflag c edge = false ->
  w2 = update_edge edge (with_precomputed_dirtiness true) (collected_scan c) ->
  collected_inv c ->
  collected_inv (mkCollected (all_nodes c) (all_edges c ++ [edge]) w2).
Proof.
  intros Hedge Hflag -> [Hn He Hnf Hef]. split; cbn.
  - done.
  - apply NoDup_app. split; [done|]. split; [|apply NoDup_singleton].
    intros e Hin ->%list_elem_of_singleton. apply Hef in Hin. congruence.
  - done.
  - intros e [Hin| ->%list_elem_of_singleton]%elem_of_app;
      rewrite edge_at_update_edge.
    + destruct (decide _) as [[<- _]|]; [done|]. by apply Hef.
    + by destruct (decide _) as [_|]; [|tauto].
Qed.

Lemma collect_spec fuel node (c c' : Collected) :
  collect_range deps_log (collected_scan c) ->
  node < length (nodes_ (collected_scan c)) ->
  collect fuel node c = Some c' ->
  collects deps_log c c' /\ nflag c' node = true.
Proof.
  revert node c c'. induction fuel as [|fuel IH]; intros node c c'; [done|].
  intros Hrange Hnode. cbn [CollectPrecomputeLists]. cbn zeta.
  destruct (nflag c node) eqn:Hflag.
  { intros [= <-]. split; [apply collects_refl|done]. }
  set (w := collected_scan c) in *.
  set (w1 := update_node node (with_node_precomputed_dirtiness true) w).
  set (c1 := mkCollected (all_nodes c ++ [node]) (all_edges c) w1).
  assert (shape_kept w w1) as Hs1 by (by apply shape_kept_update_node).
  assert (forall n, node_precomputed_dirtiness_ (node_at w1 n) = true ->
                    node_precomputed_dirtiness_ (node_at w n) = true
                    \/ n = node) as Hnn1.
  { intros n. subst w1. rewrite node_at_update_node.
    destruct (decide _) as [[<- _]|]; [by right|by left]. }
  assert (node_precomputed_dirtiness_ (node_at w1 node) = true) as Hflag1.
  { subst w1. rewrite node_at_update_node.
    by destruct (decide _) as [_|]; [|tauto]. }
  assert (collected_inv c -> collected_inv c1) as Hinv1
    by (by apply collected_inv_snoc_node).
  (* The loop over the nodes of the deps log. *)
  assert (forall c2 : Collected,
            collect_range deps_log (collected_scan c2) ->
            length (nodes_ (collected_scan c2)) = length (nodes_ w) ->
            match GetDeps deps_log node with
            | Some deps =>
                collect_each (collect fuel) (deps_nodes deps) c2
            | None => Some c2
            end = Some c' ->
            collects deps_log c2 c' /\
            forall deps i, GetDeps deps_log node = Some deps ->
                           i ∈ deps_nodes deps -> nflag c' i = true)
    as Hloop.
  { intros c2 Hrange2 Hlen2. destruct (GetDeps deps_log node) as [deps|] eqn:Hd.
    - intros Hrun. apply collect_each_spec in Hrun as [Hc Hall]; try done.
      + split; [done|]. intros deps' i [= <-]. apply Hall.
      + intros n Hn. rewrite Hlen2.
        by apply (proj2 (proj1 Hrange) node deps).
    - intros [= <-]. split; [apply collects_refl|done]. }
  assert (in_edge_ (node_at w1 node) = in_edge_ (node_at w node)) as Hin1
    by apply (shape_in_edge _ _ Hs1).
  rewrite Hin1.
  destruct (in_edge_ (node_at w node)) as [edge|] eqn:Hin;
    [destruct (precomputed_dirtiness_ (edge_at w1 edge)) eqn:Heflag|];
    cbn [negb mbind option_bind].
  - (* the in-edge is collected already *)
    intros Hrun.
    destruct (Hloop c1) as [H1' Hdeps]; [by eapply collect_range_shape|
      exact (shape_nodes _ _ Hs1)|done|].
    apply (collect_assemble c c1 c1 c' node []); try done.
    + intros e He. by left.
    + intros e He. change (in_edge_ (node_at w1 node) = Some e) in He.
      rewrite Hin1 in He. by injection He as <-.
    + apply collects_refl.
    + intros i Hi. by apply elem_of_nil in Hi.
  - (* the in-edge joins the list *)
    set (w2 := update_edge edge (with_precomputed_dirtiness true) w1).
    set (cA := mkCollected (all_nodes c ++ [node]) (all_edges c ++ [edge]) w2).
    assert (edge < length (edges_ w)) as Hedge by (by apply (proj2 Hrange node)).
    assert (shape_kept w1 w2) as Hs2 by (by apply shape_kept_update_edge).
    assert (shape_kept w w2) as Hs by (by eapply shape_kept_trans).
    change (mkCollected (all_nodes c1) (all_edges c1 ++ [edge]) w2) with cA.
    destruct (collect_each (collect fuel) (inputs_ (edge_at w2 edge)) cA)
      as [c2|] eqn:Hrun2; cbn [mbind option_bind]; [|done]. intros Hrun.
    apply collect_each_spec in Hrun2 as [HA2 Hall2]; try done.
    2: { by apply (collect_range_shape w). }
    2: { intros n Hn. change (n < length (nodes_ w2)).
         rewrite (shape_nodes _ _ Hs).
         apply (proj1 (proj1 Hrange) edge).
         by rewrite <- (shape_inputs _ _ Hs). }
    pose proof (collects_shape _ _ _ HA2) as HsA2.
    change (collected_scan cA) with w2 in HsA2.
    destruct (Hloop c2) as [H2' Hdeps]; [| |done|].
    { eapply collect_range_shape; [|exact Hrange].
      by eapply shape_kept_trans. }
    { by rewrite (shape_nodes _ _ HsA2), (shape_nodes _ _ Hs). }
    apply (collect_assemble c cA c2 c' node (inputs_ (edge_at w2 edge))).
    + exact Hs.
    + intros e He. change (precomputed_dirtiness_ (edge_at w2 e) = true).
      subst w2. rewrite edge_at_update_edge.
      by destruct (decide _) as [[<- _]|].
    + intros Hc. apply (collected_inv_snoc_edge c1 edge w2); try done.
      by apply Hinv1.
    + done.
    + by apply prefix_app_r.
    + intros n Hn. by apply Hnn1.
    + intros e He. change (precomputed_dirtiness_ (edge_at w2 e) = true) in He.
      subst w2. rewrite edge_at_update_edge in He.
      destruct (decide _) as [[<- _]|]; [right|by left].
      apply elem_of_app. right. by left.
    + exact Hflag1.
    + intros e He. change (in_edge_ (node_at w1 node) = Some e) in He.
      rewrite Hin1 in He. injection He as <-.
      change (precomputed_dirtiness_ (edge_at w2 edge) = true). subst w2.
      rewrite edge_at_update_edge_eq; [done|].
      by rewrite (shape_edges _ _ Hs1).
    + intros e He Hnot. change (e ∈ all_edges c ++ [edge]) in He.
      apply elem_of_app in He as [?| ->%list_elem_of_singleton]; done.
    + exact HA2.
    + exact Hall2.
    + exact H2'.
    + exact Hdeps.
  - (* a node without in-edge *)
    intros Hrun.
    destruct (Hloop c1) as [H1' Hdeps]; [by eapply collect_range_shape|
      exact (shape_nodes _ _ Hs1)|done|].
    apply (collect_assemble c c1 c1 c' node []); try done.
    + intros e He. by left.
    + intros e He. change (in_edge_ (node_at w1 node) = Some e) in He.
      by rewrite Hin1 in He.
    + apply collects_refl.
    + intros i Hi. by apply elem_of_nil in Hi.
Qed.

Lemma collect_initial_spec fuel initial_nodes (c c' : Collected) :
  collect_range deps_log (collected_scan c) ->
  (forall n, n ∈ initial_nodes -> n < length (nodes_ (collected_scan c))) ->
  collect_initial deps_log fuel initial_nodes c = Some c' ->
  collects deps_log c c' /\ forall n, n ∈ initial_nodes -> nflag c' n = true.
Proof.
  revert c. induction initial_nodes as [|node initial_nodes IH];
    intros c Hrange Hnodes; cbn.
  - intros [= <-]. split; [apply collects_refl|].
    intros n Hn. by apply elem_of_nil in Hn.
  - destruct (collect fuel node c) as [c1|] eqn:Hrun1; [|done]. cbn.
    intros Hrun.
    destruct (collect_spec fuel node c c1 Hrange) as [Hc1 Hflag1]; [|done|].
    { apply Hnodes. by left. }
    pose proof (collects_shape _ _ _ Hc1) as Hs1.
    destruct (IH c1) as [Hc Hall]; [| |done|].
    { by eapply collect_range_shape. }
    { intros n Hn. rewrite (shape_nodes _ _ Hs1). apply Hnodes. by right. }
    split; [by eapply collects_trans|].
    intros n Hn. apply elem_of_cons in Hn as [->|Hn].
    + by apply (shape_collected _ _ (collects_shape _ _ _ Hc)).
    + by apply Hall.
Qed.

(** X10.  The collecting pass of [RecomputeNodesDirty] returns on every
    graph whose ids are in range, with fuel for its nodes, and it lists no
    node and no edge twice: the workers of the parallel passes never share an
    object.  What it lists is a node or an edge of the graph with its flag
    set. *)
Theorem CollectPrecomputeLists_once fuel initial_nodes w :
  collect_range deps_log w ->
  (forall n, n ∈ initial_nodes -> n < length (nodes_ w)) ->
  length (nodes_ w) < fuel ->
  exists c : Collected,
    collect_initial deps_log fuel initial_nodes (mkCollected [] [] w) = Some c
    /\ NoDup (all_nodes c) /\ NoDup (all_edges c)
    /\ (forall n, n ∈ all_nodes c ->
          n < length (nodes_ (collected_scan c)) /\ nflag c n = true)
    /\ (forall e, e ∈ all_edges c ->
          e < length (edges_ (collected_scan c)) /\ eflag c e = true).
Proof.
  intros Hrange Hinit Hfuel.
  destruct (collect_initial_returns deps_log fuel initial_nodes
              (mkCollected [] [] w)) as [c Hrun]; [apply Hrange|done| |].
  { pose proof (uncollected_le w). cbn. lia. }
  exists c. split; [done|].
  apply collect_initial_spec in Hrun as [Hc _]; [|done..].
  destruct (collects_inv _ _ _ Hc) as [Hn He Hnf Hef].
  { split; cbn; try apply NoDup_nil_2; intros x Hx; by apply elem_of_nil in Hx. }
  split; [done|]. split; [done|]. split.
  - intros n Hin. split; [|by apply Hnf].
    destruct (decide (n < length (nodes_ (collected_scan c)))); [done|].
    apply Hnf in Hin. by rewrite node_at_ge in Hin by lia.
  - intros e Hin. split; [|by apply Hef].
    destruct (decide (e < length (edges_ (collected_scan c)))); [done|].
    apply Hef in Hin. by rewrite edge_at_ge in Hin by lia.
Qed.

(** X11.  On a graph whose flags are clear, the lists the collecting pass
    leaves are closed: they hold the initial nodes, the in-edge of every
    node listed, the inputs of every edge listed, and the nodes the deps log
    records for every node listed.  The nodes and edges the main pass can
    reach through the manifest and the deps log are all there to be
    precomputed. *)
Theorem CollectPrecomputeLists_closed fuel initial_nodes w (c : Collected) :
  collect_range deps_log w ->
  (forall n, n ∈ initial_nodes -> n < length (nodes_ w)) ->
  (forall n, node_precomputed_dirtiness_ (node_at w n) = false) ->
  (forall e, precomputed_dirtiness_ (edge_at w e) = false) ->
  collect_initial deps_log fuel initial_nodes (mkCollected [] [] w) = Some c ->
  (forall n, n ∈ initial_nodes -> n ∈ all_nodes c)
  /\ (forall n e, n ∈ all_nodes c -> in_edge_ (node_at w n) = Some e ->
                  e ∈ all_edges c)
  /\ (forall e i, e ∈ all_edges c -> i ∈ inputs_ (edge_at w e) ->
                  i ∈ all_nodes c)
  /\ (forall n deps i, n ∈ all_nodes c -> GetDeps deps_log n = Some deps ->
                       i ∈ deps_nodes deps -> i ∈ all_nodes c).
Proof.
  intros Hrange Hinit Hnclear Heclear Hrun.
  apply collect_initial_spec in Hrun as [Hc Hall]; [|done..].
  pose proof (collects_shape _ _ _ Hc) as Hs. cbn in Hs.
  assert (forall n, nflag c n = true -> n ∈ all_nodes c) as Hlisted.
  { intros n Hn. destruct (collects_new_node _ _ _ Hc n Hn) as [Hw|?]; [|done].
    cbn in Hw. by rewrite Hnclear in Hw. }
  assert (forall e, eflag c e = true -> e ∈ all_edges c) as Helisted.
  { intros e He. destruct (collects_new_edge _ _ _ Hc e He) as [Hw|?]; [|done].
    cbn in Hw. by rewrite Heclear in Hw. }
  assert (forall x : nat, x ∉ @nil nat) as Hnil
    by (intros x Hx; by apply elem_of_nil in Hx).
  split; [|split; [|split]].
  - intros n Hn. by apply Hlisted, Hall.
  - intros n e Hn Hin. apply Helisted, (collects_in_edge _ _ _ Hc n);
      [done|apply Hnil|]. by rewrite (shape_in_edge _ _ Hs).
  - intros e i He Hi. apply Hlisted, (collects_inputs _ _ _ Hc e);
      [done|apply Hnil|]. by rewrite (shape_inputs _ _ Hs).
  - intros n deps i Hn Hd Hi.
    apply Hlisted, (collects_deps _ _ _ Hc n deps); [done|apply Hnil|done..].
Qed.

End Collecting.

(** ** The passes of [RecomputeNodesDirty] *)

Section Passes.

Context {D : Type} `{DiskInterface D}.
Variable disk_interface_ : D.
Variable build_log : option BuildLog.
Variable deps_log : DepsLog.
Variable DepfileParser_Parse : string -> DepfileParse.
Variable CanonicalizePath : string -> Canonicalize.
Variable HashCommand : string -> Z.
Variable kEvalRecursionLimit : nat.
Variable shell_escape : string -> string.
Variable EvaluateBindingInScope : Edge -> list Token -> string.
Variable ScopeEvaluateVariable : EvalPhase -> Edge -> string -> string.
Variable GetOptimalThreadPoolJobCount : nat.

Local Open Scope nat_scope.
Implicit Types (w : Scan) (n node : NodeId) (e edge : EdgeId).

Local Abbreviation evaluate :=
  (Edge_EvaluateVariable kEvalRecursionLimit shell_escape
     EvaluateBindingInScope ScopeEvaluateVariable).
Local Abbreviation precompute_info :=
  (PrecomputeDepScanInfo HashCommand kEvalRecursionLimit shell_escape
     EvaluateBindingInScope ScopeEvaluateVariable).
Local Abbreviation map_edges :=
  (parallel_map_edges HashCommand kEvalRecursionLimit shell_escape
     EvaluateBindingInScope ScopeEvaluateVariable).
Local Abbreviation precompute :=
  (PrecomputeNodesDirty disk_interface_ HashCommand kEvalRecursionLimit
     shell_escape EvaluateBindingInScope ScopeEvaluateVariable
     GetOptimalThreadPoolJobCount).
Local Abbreviation recompute :=
  (RecomputeNodeDirty disk_interface_ build_log deps_log DepfileParser_Parse
     CanonicalizePath kEvalRecursionLimit shell_escape EvaluateBindingInScope
     ScopeEvaluateVariable).
Local Abbreviation main :=
  (main_pass disk_interface_ build_log deps_log DepfileParser_Parse
     CanonicalizePath kEvalRecursionLimit shell_escape EvaluateBindingInScope
     ScopeEvaluateVariable).
Local Abbreviation scan :=
  (RecomputeNodesDirty disk_interface_ build_log deps_log DepfileParser_Parse
     CanonicalizePath HashCommand kEvalRecursionLimit shell_escape
     EvaluateBindingInScope ScopeEvaluateVariable GetOptimalThreadPoolJobCount).

(** [Edge::EvaluateVariable] writes an error exactly when it fails. *)
Lemma Edge_EvaluateVariable_error w x out key err phase escape :
  match evaluate w x out key err phase escape with
  | (true, _, err') => err' = err
  | (false, _, err') => err' <> ""
  end.
Proof.
  unfold Edge_EvaluateVariable, Edge_EvaluateVariable_fuel.
  set (ev0 := new_EdgeEval kEvalRecursionLimit x phase escape out err).
  assert (eval_wf kEvalRecursionLimit ev0) as Hwf0.
  { split; [apply length_replicate|]. split; [cbn; lia|]. cbn. lia. }
  destruct (EvaluateVariable_total (nodes_ w) kEvalRecursionLimit shell_escape
              EvaluateBindingInScope ScopeEvaluateVariable
              (S kEvalRecursionLimit) key ev0 Hwf0) as [[r ev] Hrun];
    [cbn; lia|].
  rewrite Hrun. cbn. destruct r.
  - by apply EvaluateVariable_err in Hrun.
  - apply EvaluateVariable_post in Hrun as (_ & _ & Hfail); [|done].
    destruct (Hfail eq_refl) as [_ ->]. done.
Qed.

Lemma EvaluateCommand_error w x out incl_rsp_file err :
  match EvaluateCommand kEvalRecursionLimit shell_escape
          EvaluateBindingInScope ScopeEvaluateVariable w x out incl_rsp_file
          err with
  | (true, _, err') => err' = err
  | (false, _, err') => err' <> ""
  end.
Proof.
  unfold EvaluateCommand.
  pose proof (Edge_EvaluateVariable_error w x out "command" err kFinalScope
                kShellEscape) as H1.
  destruct (evaluate w x out "command" err kFinalScope kShellEscape)
    as [[[] out1] err1]; cbn [negb]; [|done]. subst err1.
  destruct incl_rsp_file; [|done].
  pose proof (Edge_EvaluateVariable_error w x "" "rspfile_content" err
                kFinalScope kShellEscape) as H2.
  destruct (evaluate w x "" "rspfile_content" err kFinalScope kShellEscape)
    as [[[] out2] err2]; cbn [negb]; [|done].
  by destruct (negb _).
Qed.

(** [PrecomputeDepScanInfo] leaves the edge valid when it succeeds, writes
    an error when it fails, and leaves a valid edge alone. *)
Lemma PrecomputeDepScanInfo_error w x err :
  match precompute_info w x err with
  | (true, err', x') => err' = err /\ valid (dep_scan_info_ x') = true
  | (false, err', _) => err' <> ""
  end
  /\ (valid (dep_scan_info_ x) = true ->
      precompute_info w x err = (true, err, x)).
Proof.
  unfold PrecomputeDepScanInfo.
  destruct (valid (dep_scan_info_ x)) eqn:Hvalid; [done|]. split; [|done].
  pose proof (Edge_EvaluateVariable_error w x "" "restat" err kFinalScope
                kShellEscape) as H1.
  destruct (evaluate w x "" "restat" err kFinalScope kShellEscape)
    as [[[] v1] e1]; cbn [negb]; [|done]. subst e1.
  pose proof (Edge_EvaluateVariable_error w x "" "generator" err kFinalScope
                kShellEscape) as H2.
  destruct (evaluate w x "" "generator" err kFinalScope kShellEscape)
    as [[[] v2] e2]; cbn [negb]; [|done]. subst e2.
  pose proof (Edge_EvaluateVariable_error w x "" "deps" err kFinalScope
                kShellEscape) as H3.
  destruct (evaluate w x "" "deps" err kFinalScope kShellEscape)
    as [[[] v3] e3]; cbn [negb]; [|done]. subst e3.
  pose proof (Edge_EvaluateVariable_error w x "" "depfile" err kFinalScope
                kDoNotEscape) as H4.
  destruct (evaluate w x "" "depfile" err kFinalScope kDoNotEscape)
    as [[[] v4] e4]; cbn [negb]; [|done]. subst e4.
  pose proof (EvaluateCommand_error w x "" true err) as H5.
  destruct (EvaluateCommand _ _ _ _ w x "" true err)
    as [[[] v5] e5]; cbn [negb]; done.
Qed.

Lemma map_edges_valid edges w e :
  valid (dep_scan_info_ (edge_at w e)) = true ->
  valid (dep_scan_info_ (edge_at (map_edges edges w).2 e)) = true.
Proof.
  revert w. induction edges as [|edge edges IH]; intros w Hvalid; [done|].
  cbn [parallel_map_edges].
  pose proof (PrecomputeDepScanInfo_error w (edge_at w edge) "") as [_ Hkeep].
  destruct (precompute_info w (edge_at w edge) "") as [[ok err] x] eqn:Hrun.
  specialize (IH (update_edge edge (fun _ => x) w)).
  destruct (map_edges edges _) as [errs w1]. cbn in *. apply IH.
  rewrite edge_at_update_edge. destruct (decide _) as [[<- _]|]; [|done].
  by injection (Hkeep Hvalid) as _ _ ->.
Qed.

Lemma map_edges_spec edges w :
  Forall (fun err => err = "") (map_edges edges w).1 ->
  forall e, e ∈ edges -> e < length (edges_ w) ->
            valid (dep_scan_info_ (edge_at (map_edges edges w).2 e)) = true.
Proof.
  revert w. induction edges as [|edge edges IH]; intros w Herrs e He Hlt.
  { by apply elem_of_nil in He. }
  cbn [parallel_map_edges] in *.
  pose proof (PrecomputeDepScanInfo_error w (edge_at w edge) "") as [Hrun _].
  pose proof (map_edges_valid edges
                (update_edge edge (fun _ => (precompute_info w (edge_at w edge) "").2) w))
    as Hkeep.
  destruct (precompute_info w (edge_at w edge) "") as [[ok err] x].
  specialize (IH (update_edge edge (fun _ => x) w)).
  destruct (map_edges edges _) as [errs w1]. cbn in *.
  apply Forall_cons in Herrs as [-> Herrs]. destruct ok; [|done].
  destruct Hrun as [_ Hvalid].
  destruct (decide (e = edge)) as [->|Hne].
  - apply Hkeep. by rewrite edge_at_update_edge_eq.
  - apply IH; [done| |by rewrite length_alter].
    apply elem_of_cons in He as [?|?]; done.
Qed.

Lemma PropagateError_spec errs w :
  match PropagateError errs w with
  | (true, w') => w' = w /\ Forall (fun err => err = "") errs
  | (false, w') => err_ w' <> "" /\ nodes_ w' = nodes_ w /\ edges_ w' = edges_ w
  end.
Proof.
  unfold PropagateError.
  destruct (list_find _ errs) as [[i err]|] eqn:Hfind.
  - by apply list_find_Some in Hfind as (_ & Hne & _).
  - split; [done|]. apply list_find_None in Hfind.
    eapply Forall_impl; [exact Hfind|]. intros err Herr. cbn in Herr.
    by destruct (decide (err = "")).
Qed.

Lemma parallel_map_nodes_edges nodes w :
  edges_ (parallel_map_nodes disk_interface_ nodes w).2 = edges_ w.
Proof.
  revert w. induction nodes as [|node nodes IH]; intros w; [done|]. cbn.
  specialize (IH (update_node node
                    (with_precomputed_mtime
                       (stat_mtime
                          match in_edge_ (node_at w node) with
                          | Some _ => LStat disk_interface_ (path_ (node_at w node))
                          | None => Stat disk_interface_ (path_ (node_at w node))
                          end)) w)).
  unfold Node_PrecomputeStat.
  destruct (parallel_map_nodes _ nodes _) as [errs w1]. by cbn in *.
Qed.

(** X12.  When [PrecomputeNodesDirty] returns true, every edge of the list
    it was given has valid dependency-scan info, although the pass looks
    only at the error strings of [PrecomputeDepScanInfo] and never at its
    verdict: an evaluation that fails always leaves an error.  When the
    pass returns false it has set the error. *)
Theorem PrecomputeNodesDirty_edges_valid nodes edges w :
  match precompute nodes edges w with
  | (true, w') =>
      forall e, e ∈ edges -> e < length (edges_ w) ->
                valid (dep_scan_info_ (edge_at w' e)) = true
  | (false, w') => err_ w' <> ""
  end.
Proof.
  unfold PrecomputeNodesDirty.
  cbn [mbind Flow_bind flow_bind flow_run return_if].
  assert (forall w0, edges_ w0 = edges_ w ->
            match flow_run
                    (let '(errs, w1) := map_edges edges w0 in
                     let '(ok, w2) := PropagateError errs w1 in
                     return_if (negb ok) (false, w2) ;; Return (true, w2)) with
            | (true, w') =>
                forall e, e ∈ edges -> e < length (edges_ w) ->
                          valid (dep_scan_info_ (edge_at w' e)) = true
            | (false, w') => err_ w' <> ""
            end) as Hedges.
  { intros w0 Hw0. pose proof (map_edges_spec edges w0) as Hspec.
    destruct (map_edges edges w0) as [errs w1]. cbn in Hspec.
    pose proof (PropagateError_spec errs w1) as Hprop.
    destruct (PropagateError errs w1) as [[] w2]; cbn.
    - destruct Hprop as [-> Herrs]. intros e He Hlt. apply Hspec; try done.
      by rewrite Hw0.
    - apply Hprop. }
  destruct (IsStatThreadSafe disk_interface_ && _).
  - pose proof (parallel_map_nodes_edges nodes w) as Hn.
    destruct (parallel_map_nodes disk_interface_ nodes w) as [errs w1].
    cbn in Hn. pose proof (PropagateError_spec errs w1) as Hprop.
    destruct (PropagateError errs w1) as [[] w2];
      cbn [mbind Flow_bind flow_bind flow_run return_if negb].
    + destruct Hprop as [-> _]. by apply Hedges.
    + apply Hprop.
  - cbn [mbind Flow_bind flow_bind flow_run return_if negb]. by apply Hedges.
Qed.

Lemma main_pass_returns fuel initial_nodes w :
  scan_inv w -> (forall e, mark_ (edge_at w e) <> VisitInStack) ->
  unvisited w < fuel ->
  exists r, main fuel initial_nodes w = Some r.
Proof.
  revert w. induction initial_nodes as [|n initial_nodes IH];
    intros w Hinv Hno Hfuel; [by eexists|].
  cbn.
  assert (scan_inv (set_stack [] w)) as Hinv0.
  { destruct Hinv. split; try done. intros e He. by apply Hno in He. }
  destruct (RecomputeNodeDirty_returns disk_interface_ build_log deps_log
              DepfileParser_Parse CanonicalizePath kEvalRecursionLimit
              shell_escape EvaluateBindingInScope ScopeEvaluateVariable
              fuel n (set_stack [] w) Hinv0 Hfuel) as [r Hr].
  rewrite Hr. destruct r as [[] w1|msg]; [|by eexists..].
  pose proof (RecomputeNodeDirty_post _ _ _ _ _ _ _ _ _ _ _ _ _ Hr) as [Hg _].
  pose proof (RecomputeNodeDirty_keeps _ _ _ _ _ _ _ _ _ _ _ _ _ Hr Hinv0)
    as [Hinv1 Hne1].
  apply IH; try done.
  - intros e He. by apply Hne1, Hno in He.
  - pose proof (unvisited_grows _ _ _ Hg).
    change (unvisited (set_stack [] w)) with (unvisited w) in *. lia.
Qed.

(** X13.  [RecomputeNodesDirty] returns on every graph without marks whose
    ids are in range, cyclic or not, whatever the disk, the logs and the
    depfiles hold: fuel for the nodes and the edges of the graph is enough,
    although the scan may add nodes and edges as it loads dependencies. *)
Theorem RecomputeNodesDirty_returns fuel initial_nodes w :
  fresh w -> ids_in_range deps_log w ->
  (forall n, n ∈ initial_nodes -> n < length (nodes_ w)) ->
  length (nodes_ w) < fuel -> length (edges_ w) < fuel ->
  exists r, scan fuel initial_nodes w = Some r.
Proof.
  intros Hfresh Hids Hinit Hn He. unfold RecomputeNodesDirty.
  destruct (collect_initial_returns deps_log fuel initial_nodes
              (mkCollected [] [] w)) as [c0 Hc0]; [done|done| |].
  { pose proof (uncollected_le w). cbn. lia. }
  rewrite Hc0. cbn. apply collect_initial_shape in Hc0. cbn in Hc0.
  pose proof (PrecomputeNodesDirty_shape disk_interface_ HashCommand
                kEvalRecursionLimit shell_escape EvaluateBindingInScope
                ScopeEvaluateVariable GetOptimalThreadPoolJobCount
                (all_nodes c0) (all_edges c0) (collected_scan c0)) as Hpre.
  destruct (PrecomputeNodesDirty _ _ _ _ _ _ _ _ _ _) as [ok w1]. cbn in Hpre.
  assert (shape_kept w w1) as Hs by (by eapply shape_kept_trans).
  destruct ok; [|cbn; by eexists].
  destruct (main_pass_returns fuel initial_nodes w1) as [r Hr].
  - by apply fresh_scan_inv, (fresh_shape w).
  - intros e. rewrite (shape_mark _ _ Hs), (proj1 Hfresh). done.
  - pose proof (unvisited_le w1). rewrite (shape_edges _ _ Hs) in *. lia.
  - rewrite Hr. cbn. destruct r as [[] w2|msg]; by eexists.
Qed.

(** X14.  After a successful visit of a node of a graph without marks,
    nothing behind the node is left to visit: every edge that can be reached
    from its in-edge through the inputs, in the graph as the visit leaves it
    with the dependencies it loaded, is finished or is an edge without
    inputs that loads nothing, and none of these edges lies on a cycle. *)
Theorem RecomputeNodeDirty_visits_reachable fuel node w w' e e' :
  fresh w ->
  recompute fuel node w = Some (Returned true w') ->
  in_edge_ (node_at w node) = Some e ->
  rtc (edge_succ w') e e' ->
  (mark_ (edge_at w' e') = VisitDone \/ inert (edge_at w' e'))
  /\ ~ tc (edge_succ w') e' e'.
Proof.
  intros Hfresh Hrun Hin Hpath.
  pose proof (fresh_scan_inv w Hfresh) as Hinv.
  pose proof (RecomputeNodeDirty_post _ _ _ _ _ _ _ _ _ _ _ _ _ Hrun)
    as [Hg Hp].
  destruct (Hp eq_refl) as [_ Hdone].
  pose proof (RecomputeNodeDirty_keeps _ _ _ _ _ _ _ _ _ _ _ _ _ Hrun Hinv)
    as [Hinv' _].
  assert (settled w' e) as He
    by (left; apply Hdone; [done|by apply Hinv in Hin]).
  pose proof (settled_rtc _ _ _ Hinv' He Hpath) as Hs. split; [done|].
  intros Hcyc. destruct Hs as [Hd|Hi].
  - by apply (inv_acyclic _ Hinv' e').
  - apply tc_first in Hcyc as [x Hx]. by apply inert_no_succ in Hx.
Qed.

(** X15.  A visit only adds to the graph.  Whatever its verdict, no node
    and no edge is gone when [RecomputeNodeDirty] returns, every node keeps
    its path and the in-edge it had, every edge keeps its rule, its outputs,
    its number of order-only inputs and its bindings, an edge whose
    dependency-scan info is valid keeps that info, and no input of an edge is
    taken away; a successful visit hands the traversal stack back as it got
    it. *)
Theorem RecomputeNodeDirty_only_grows fuel node w ok w' :
  recompute fuel node w = Some (Returned ok w') ->
  length (nodes_ w) <= length (nodes_ w')
  /\ length (edges_ w) <= length (edges_ w')
  /\ (forall n, n < length (nodes_ w) ->
        path_ (node_at w' n) = path_ (node_at w n))
  /\ (forall n e, in_edge_ (node_at w n) = Some e ->
        in_edge_ (node_at w' n) = Some e)
  /\ (forall e, e < length (edges_ w) ->
        rule_ (edge_at w' e) = rule_ (edge_at w e)
        /\ outputs_ (edge_at w' e) = outputs_ (edge_at w e)
        /\ order_only_deps_ (edge_at w' e) = order_only_deps_ (edge_at w e)
        /\ unevaled_bindings_ (edge_at w' e) = unevaled_bindings_ (edge_at w e)
        /\ (valid (dep_scan_info_ (edge_at w e)) = true ->
            dep_scan_info_ (edge_at w' e) = dep_scan_info_ (edge_at w e))
        /\ inputs_ (edge_at w e) ⊆ inputs_ (edge_at w' e))
  /\ (ok = true -> stack_ w' = stack_ w).
Proof.
  intros Hrun.
  pose proof (RecomputeNodeDirty_post _ _ _ _ _ _ _ _ _ _ _ _ _ Hrun)
    as [Hg Hp].
  split; [apply Hg|]. split; [apply Hg|]. split; [apply Hg|].
  split; [apply Hg|]. split.
  - intros e He. destruct (grows_static _ _ _ Hg e He). by repeat split.
  - intros ->. by destruct (Hp eq_refl).
Qed.

End Passes.

(** ** [Edge::PrecomputeDepScanInfo] *)

Section DepScanInfoFacts.

Variable HashCommand : string -> Z.
Variable kEvalRecursionLimit : nat.
Variable shell_escape : string -> string.
Variable EvaluateBindingInScope : Edge -> list Token -> string.
Variable ScopeEvaluateVariable : EvalPhase -> Edge -> string -> string.

Local Abbreviation precompute_info :=
  (PrecomputeDepScanInfo HashCommand kEvalRecursionLimit shell_escape
     EvaluateBindingInScope ScopeEvaluateVariable).

Lemma with_dep_scan_info_same (x : Edge) :
  with_dep_scan_info (dep_scan_info_ x) x = x.
Proof. by destruct x. Qed.

Lemma PrecomputeDepScanInfo_edge w x err :
  let x' := (precompute_info w x err).2 in
  x' = with_dep_scan_info (dep_scan_info_ x') x
  /\ ((precompute_info w x err).1.1 = false ->
      valid (dep_scan_info_ x') = false).
Proof.
  cbn zeta. unfold PrecomputeDepScanInfo.
  destruct (valid (dep_scan_info_ x)) eqn:Hvalid;
    [by rewrite with_dep_scan_info_same|].
  repeat match goal with
         | |- context [Edge_EvaluateVariable ?l ?s ?b ?v w x ?o ?k ?e ?p ?q] =>
             destruct (Edge_EvaluateVariable l s b v w x o k e p q)
               as [[[] ?] ?]; cbn [negb];
             [|by rewrite ?with_dep_scan_info_same]
         end.
  match goal with
  | |- context [EvaluateCommand ?l ?s ?b ?v w x ?o ?i ?e] =>
      destruct (EvaluateCommand l s b v w x o i e) as [[[] ?] ?]; cbn [negb]
  end; done.
Qed.

(** X26.  [PrecomputeDepScanInfo] changes nothing of the edge but its
    dependency-scan info.  When it returns true the info is valid and the
    error string is as it was, so that a second call returns true and
    changes nothing; when it returns false it has written an error and the
    info is still not valid, so that a later call evaluates the bindings
    again. *)
Theorem PrecomputeDepScanInfo_verdict w x err :
  match precompute_info w x err with
  | (true, err', x') =>
      err' = err /\ valid (dep_scan_info_ x') = true
      /\ x' = with_dep_scan_info (dep_scan_info_ x') x
      /\ precompute_info w x' err = (true, err, x')
  | (false, err', x') =>
      err' <> "" /\ valid (dep_scan_info_ x') = false
      /\ x' = with_dep_scan_info (dep_scan_info_ x') x
  end.
Proof.
  pose proof (PrecomputeDepScanInfo_error HashCommand kEvalRecursionLimit
                shell_escape EvaluateBindingInScope ScopeEvaluateVariable
                w x err) as [Herr _].
  pose proof (PrecomputeDepScanInfo_edge w x err) as [Hedge Hfail].
  destruct (precompute_info w x err) as [[[] err'] x']; cbn in Hedge, Hfail.
  - destruct Herr as [-> Hvalid]. split; [done|]. split; [done|].
    split; [done|].
    by apply (PrecomputeDepScanInfo_error HashCommand kEvalRecursionLimit
                shell_escape EvaluateBindingInScope ScopeEvaluateVariable).
  - split; [done|]. split; [by apply Hfail|done].
Qed.

End DepScanInfoFacts.

(** ** The plan *)

Section PlanMore.

Variable Pools : Type.
Variable ShouldDelayEdge : EdgeId -> Pools -> bool.
Variable DelayEdge : EdgeId -> Pools -> Pools.
Variable RetrieveReadyEdges :
  EdgeId -> Pools -> gset EdgeId -> Pools * gset EdgeId.
Variable EdgeScheduled : EdgeId -> Pools -> Pools.
Variable PoolEdgeFinished : EdgeId -> Pools -> Pools.
Variable IsPhonyOutput : Edge -> bool.
Variable build_log : option BuildLog.

Implicit Types (b : Build Pools) (edge oe : EdgeId) (node : NodeId).

Local Abbreviation schedule_work :=
  (ScheduleWork Pools ShouldDelayEdge DelayEdge RetrieveReadyEdges
     EdgeScheduled).
Local Abbreviation add_sub_target :=
  (AddSubTarget Pools ShouldDelayEdge DelayEdge RetrieveReadyEdges
     EdgeScheduled).
Local Abbreviation add_target :=
  (AddTarget Pools ShouldDelayEdge DelayEdge RetrieveReadyEdges
     EdgeScheduled).
Local Abbreviation edge_finished :=
  (EdgeFinished Pools ShouldDelayEdge DelayEdge RetrieveReadyEdges
     EdgeScheduled PoolEdgeFinished).
Local Abbreviation node_out_edges_finished :=
  (out_edges_finished Pools ShouldDelayEdge DelayEdge RetrieveReadyEdges
     EdgeScheduled).
Local Abbreviation edge_outputs_finished :=
  (outputs_finished Pools ShouldDelayEdge DelayEdge RetrieveReadyEdges
     EdgeScheduled).
Local Abbreviation clean_node := (CleanNode Pools IsPhonyOutput build_log).
Local Abbreviation run_calls :=
  (plan_calls Pools ShouldDelayEdge DelayEdge RetrieveReadyEdges
     EdgeScheduled PoolEdgeFinished IsPhonyOutput build_log).

(** *** [AddSubTarget] *)

Lemma plan_grows_refl b : plan_grows b b.
Proof. by split. Qed.

Lemma plan_grows_trans b1 b2 b3 :
  plan_grows b1 b2 -> plan_grows b2 b3 -> plan_grows b1 b3.
Proof.
  intros [Hn He Hw] [Hn' He' Hw']. split; [congruence..|]. auto.
Qed.

Lemma plan_grows_node_at b b' n :
  plan_grows b b' -> node_at (graph_ b') n = node_at (graph_ b) n.
Proof. intros [Hn _ _]. unfold node_at. by rewrite Hn. Qed.

Lemma plan_grows_edge_at b b' e :
  plan_grows b b' -> edge_at (graph_ b') e = edge_at (graph_ b) e.
Proof. intros [_ He _]. unfold edge_at. by rewrite He. Qed.

Lemma planned_grows b b' i : plan_grows b b' -> planned b i -> planned b' i.
Proof.
  intros Hg Hp e. rewrite (plan_grows_node_at _ _ _ Hg),
    (plan_grows_edge_at _ _ _ Hg). intros Hin Hready.
  by apply (plan_grows_want _ _ Hg), Hp.
Qed.

Lemma missing_leaf_grows b b' err :
  plan_grows b b' -> missing_leaf (graph_ b) err -> missing_leaf (graph_ b') err.
Proof.
  intros Hg (n & d & Hin & Hdirty & ->). exists n, d.
  rewrite !(plan_grows_node_at _ _ _ Hg). split; [done|]. split; [done|].
  destruct d as [d|]; [|done]. by rewrite (plan_grows_node_at _ _ _ Hg).
Qed.

(** The part of [AddSubTarget] between the look-up of the edge and the loop
    over its inputs touches the entry of the edge only. *)
Lemma ScheduleWork_entry edge b b' :
  schedule_work edge b = Some b' ->
  graph_ b' = graph_ b
  /\ is_Some (want_ (plan_ b') !! edge)
  /\ forall e, e <> edge -> want_ (plan_ b') !! e = want_ (plan_ b) !! e.
Proof.
  unfold ScheduleWork.
  destruct (want_ (plan_ b) !! edge) as [[]|] eqn:Hwant; try done.
  - destruct (ShouldDelayEdge _ _); [destruct (RetrieveReadyEdges _ _ _)|];
      intros [= <-]; cbn; (split; [done|]);
      (split; [by rewrite lookup_insert_eq|]);
      intros e He; by rewrite lookup_insert_ne.
  - intros [= <-]. by rewrite Hwant.
Qed.

Lemma add_inputs_post add inputs b ok b' :
  (forall i b ok b', add i b = Some (ok, b') -> add_post [i] b ok b') ->
  add_inputs Pools add inputs b = Some (ok, b') ->
  add_post inputs b ok b'.
Proof.
  intros Hadd. revert b. induction inputs as [|i inputs IH]; intros b; cbn.
  - intros [= <- <-]. split.
    + apply plan_grows_refl.
    + done.
    + intros _ i Hi. by apply elem_of_nil in Hi.
    + intros _ e i Hnone [x Hx]. congruence.
    + done.
  - destruct (add i b) as [[ok1 b1]|] eqn:Hi; [|done].
    apply Hadd in Hi as [Hg1 Hs1 Hp1 Hc1 He1].
    destruct (negb ok1 && negb (String.eqb (err_ (graph_ b1)) ""))
      eqn:Hbreak.
    + intros [= <- <-]. apply andb_true_iff in Hbreak as [Hok Herr].
      apply negb_true_iff, String.eqb_neq in Herr.
      split; [done|done|done|done|]. intros Hb _. split; [|by apply He1].
      by destruct ok1.
    + intros Hrest. apply IH in Hrest as [Hg Hs Hp Hc He].
      assert (err_ (graph_ b') = "" -> err_ (graph_ b1) = "") as Hback.
      { intros Herr. destruct (String.eqb_spec (err_ (graph_ b1)) "");
          [done|]. by destruct Hs. }
      split.
      * by eapply plan_grows_trans.
      * auto.
      * intros Herr j Hj. apply elem_of_cons in Hj as [->|Hj].
        -- apply (planned_grows b1); [done|]. apply Hp1; [auto|]. by left.
        -- by apply Hp.
      * intros Herr e j Hnone Hsome Hj.
        destruct (want_ (plan_ b1) !! e) as [x|] eqn:Hb1.
        -- apply (planned_grows b1); [done|].
           apply (Hc1 (Hback Herr) e); [done|by rewrite Hb1|].
           by rewrite <- (plan_grows_edge_at _ _ _ Hg).
        -- by apply (Hc Herr e).
      * intros Hb Herr.
        destruct (String.eqb_spec (err_ (graph_ b1)) "") as [Hb1|Hb1].
        -- by apply He.
        -- destruct (He1 Hb Hb1) as [-> _]. by cbn in Hbreak.
Qed.

Lemma AddSubTarget_post fuel node dependent b ok b' :
  add_sub_target fuel node dependent b = Some (ok, b') ->
  add_post [node] b ok b'.
Proof.
  revert node dependent b ok b'.
  induction fuel as [|fuel IH]; intros node dependent b ok b'; [done|].
  cbn [AddSubTarget]. cbn zeta.
  destruct (in_edge_ (node_at (graph_ b) node)) as [edge|] eqn:Hin.
  2:{ destruct (dirty_ (node_at (graph_ b) node)) eqn:Hdirty.
      - intros [= <- <-]. split; cbn.
        + by split.
        + done.
        + done.
        + done.
        + intros _ _. split; [done|]. by exists node, dependent.
      - intros [= <- <-]. split.
        + apply plan_grows_refl.
        + done.
        + intros _ i ->%list_elem_of_singleton e. by rewrite Hin.
        + intros _ e i Hnone [x Hx]. congruence.
        + done. }
  destruct (outputs_ready_ (edge_at (graph_ b) edge)) eqn:Hready.
  { intros [= <- <-]. split.
    - apply plan_grows_refl.
    - done.
    - intros _ i ->%list_elem_of_singleton e. rewrite Hin.
      intros [= <-]. by rewrite Hready.
    - intros _ e i Hnone [x Hx]. congruence.
    - done. }
  set (inserted := bool_decide (want_ (plan_ b) !! edge = None)).
  set (b1 := if inserted then _ else b).
  assert (graph_ b1 = graph_ b /\ is_Some (want_ (plan_ b1) !! edge)
          /\ forall e, e <> edge ->
                       want_ (plan_ b1) !! e = want_ (plan_ b) !! e)
    as (Hg1 & Hs1 & Ho1).
  { subst b1 inserted. case_bool_decide as Hnone; cbn.
    - split; [done|]. split; [by rewrite lookup_insert_eq|].
      intros e He. by rewrite lookup_insert_ne.
    - split; [done|]. split; [|done].
      by destruct (want_ (plan_ b) !! edge). }
  match goal with
  | |- (?step ≫= _) = _ -> _ =>
      assert (forall b4, step = Some b4 ->
                graph_ b4 = graph_ b /\ is_Some (want_ (plan_ b4) !! edge)
                /\ forall e, e <> edge ->
                             want_ (plan_ b4) !! e = want_ (plan_ b) !! e)
        as Hstep;
      [|destruct step as [b4|]; [|done]]
  end.
  { intros b4. destruct (dirty_ _ && _); [|by intros [= <-]].
    set (b2 := add_wanted_edges Pools 1 _).
    assert (graph_ b2 = graph_ b /\ is_Some (want_ (plan_ b2) !! edge)
            /\ forall e, e <> edge ->
                         want_ (plan_ b2) !! e = want_ (plan_ b) !! e)
      as (Hg2 & Hs2 & Ho2).
    { subst b2. cbn. split; [done|]. split; [by rewrite lookup_insert_eq|].
      intros e He. rewrite lookup_insert_ne by done. by apply Ho1. }
    destruct (if AllInputsReady _ _ then _ else Some b2) as [b3|] eqn:Hsched;
      [|done]. cbn.
    assert (graph_ b3 = graph_ b /\ is_Some (want_ (plan_ b3) !! edge)
            /\ forall e, e <> edge ->
                         want_ (plan_ b3) !! e = want_ (plan_ b) !! e)
      as (Hg3 & Hs3 & Ho3).
    { destruct (AllInputsReady _ _); [|by injection Hsched as <-].
      apply ScheduleWork_entry in Hsched as (Hg & Hs & Ho).
      split; [congruence|]. split; [done|].
      intros e He. rewrite Ho by done. by apply Ho2. }
    intros [= <-]. by destruct (negb _). }
  destruct (Hstep b4 eq_refl) as (Hg4 & Hs4 & Ho4). cbn [mbind option_bind].
  assert (plan_grows b b4) as Hgrows4.
  { split; [by rewrite Hg4..|]. intros e He.
    destruct (decide (e = edge)) as [->|Hne]; [done|]. by rewrite Ho4. }
  destruct (negb inserted) eqn:Hins.
  - intros [= <- <-]. split.
    + done.
    + by rewrite Hg4.
    + intros _ i ->%list_elem_of_singleton e. rewrite Hg4, Hin.
      by intros [= <-].
    + intros _ e i Hnone Hsome. destruct (decide (e = edge)) as [->|Hne].
      * subst inserted. apply negb_true_iff, bool_decide_eq_false in Hins.
        done.
      * rewrite Ho4 in Hsome by done. destruct Hsome. congruence.
    + by rewrite Hg4.
  - intros Hrest. apply add_inputs_post in Hrest as [Hg Hs Hp Hc He].
    2:{ intros i b0 ok0 b0'. apply IH. }
    split.
    + by eapply plan_grows_trans.
    + rewrite <- Hg4. exact Hs.
    + intros Herr i ->%list_elem_of_singleton e.
      rewrite (plan_grows_node_at b b') by (by eapply plan_grows_trans).
      rewrite Hin. intros [= <-] _. by apply (plan_grows_want _ _ Hg).
    + intros Herr e i Hnone Hsome Hi.
      destruct (decide (e = edge)) as [->|Hne].
      * apply Hp; [done|]. rewrite (plan_grows_edge_at _ _ _ Hg), Hg4 in Hi.
        done.
      * apply (Hc Herr e); [|done..]. by rewrite Ho4.
    + rewrite <- Hg4. exact He.
Qed.

(** *** [AddSubTarget] returns *)

Lemma unplanned_filter b b' :
  plan_grows b b' ->
  filter (fun e => want_ (plan_ b') !! e = None)
    (seq 0 (length (edges_ (graph_ b'))))
  = filter (fun e => want_ (plan_ b') !! e = None)
      (filter (fun e => want_ (plan_ b) !! e = None)
         (seq 0 (length (edges_ (graph_ b))))).
Proof.
  intros Hg. rewrite (plan_grows_edges _ _ Hg), list_filter_filter.
  apply list_filter_iff. intros e. split; [|tauto]. intros He.
  split; [done|].
  destruct (want_ (plan_ b) !! e) as [x|] eqn:Hb; [|done].
  destruct (plan_grows_want _ _ Hg e) as [y Hy]; [by exists x|].
  assert (Some y = None) as Hcontra
    by (etrans; [symmetry; exact Hy|exact He]). done.
Qed.

Lemma unplanned_grows b b' :
  plan_grows b b' -> (unplanned b' <= unplanned b)%nat.
Proof.
  intros Hg. unfold unplanned. rewrite (unplanned_filter b b' Hg).
  apply length_filter.
Qed.

Lemma unplanned_insert b b' e :
  plan_grows b b' -> (e < length (edges_ (graph_ b)))%nat ->
  want_ (plan_ b) !! e = None -> is_Some (want_ (plan_ b') !! e) ->
  (unplanned b' < unplanned b)%nat.
Proof.
  intros Hg He Hb [x Hb']. unfold unplanned.
  rewrite (unplanned_filter b b' Hg).
  apply (length_filter_lt _ _ e); [|congruence].
  apply list_elem_of_filter. split; [done|]. apply elem_of_seq. lia.
Qed.

Lemma unplanned_le b : (unplanned b <= length (edges_ (graph_ b)))%nat.
Proof.
  unfold unplanned. etrans; [apply length_filter|]. by rewrite length_seq.
Qed.

(** The promotion of the edge inside [AddSubTarget] goes through. *)
Lemma promote_step (c ready phony : bool) edge b1 :
  is_Some (want_ (plan_ b1) !! edge) ->
  exists b4,
    (if c then
       let b := with_want Pools (<[edge := kWantToStart]> (want_ (plan_ b1)))
                  b1 in
       let b := record_change Pools (Promoted edge phony) b in
       let b := add_wanted_edges Pools 1 b in
       b ← (if ready then schedule_work edge b else Some b);
       Some (if negb phony then add_command_edges Pools 1 b else b)
     else Some b1) = Some b4
    /\ graph_ b4 = graph_ b1
    /\ is_Some (want_ (plan_ b4) !! edge)
    /\ forall e, e <> edge -> want_ (plan_ b4) !! e = want_ (plan_ b1) !! e.
Proof.
  intros Hsome. destruct c; [|by exists b1]. cbn zeta.
  set (b2 := add_wanted_edges Pools 1 _).
  assert (graph_ b2 = graph_ b1 /\ want_ (plan_ b2) !! edge = Some kWantToStart
          /\ forall e, e <> edge ->
                       want_ (plan_ b2) !! e = want_ (plan_ b1) !! e)
    as (Hg2 & Hs2 & Ho2).
  { subst b2. cbn. split; [done|]. split; [by rewrite lookup_insert_eq|].
    intros e He. by rewrite lookup_insert_ne. }
  destruct ready; cbn [mbind option_bind].
  - destruct (ScheduleWork_returns Pools ShouldDelayEdge DelayEdge
                RetrieveReadyEdges EdgeScheduled edge kWantToStart b2 Hs2)
      as [b3 Hb3]; [done|].
    rewrite Hb3. cbn [mbind option_bind].
    apply ScheduleWork_entry in Hb3 as (Hg & Hs & Ho).
    eexists. split; [done|]. destruct phony; cbn; (split; [congruence|]);
      (split; [done|]); intros e He; rewrite Ho by done; by apply Ho2.
  - eexists. split; [done|]. destruct phony; cbn; (split; [done|]);
      (split; [by rewrite lookup_insert_eq|]); intros e He;
      by rewrite lookup_insert_ne.
Qed.

Lemma add_inputs_returns add (fuel : nat) inputs b :
  (forall i b, (unplanned b < fuel)%nat ->
               exists ok b', add i b = Some (ok, b') /\ plan_grows b b') ->
  (unplanned b < fuel)%nat ->
  exists ok b', add_inputs Pools add inputs b = Some (ok, b') /\
                plan_grows b b'.
Proof.
  intros Hadd. revert b. induction inputs as [|i inputs IH]; intros b Hfuel;
    cbn.
  - exists true, b. split; [done|]. apply plan_grows_refl.
  - destruct (Hadd i b Hfuel) as (ok1 & b1 & -> & Hg1).
    destruct (negb ok1 && _); [by exists false, b1|].
    destruct (IH b1) as (ok & b' & -> & Hg).
    { pose proof (unplanned_grows _ _ Hg1). lia. }
    exists ok, b'. split; [done|]. by eapply plan_grows_trans.
Qed.

Lemma AddSubTarget_returns fuel node dependent b :
  (unplanned b < fuel)%nat ->
  exists ok b', add_sub_target fuel node dependent b = Some (ok, b') /\
                plan_grows b b'.
Proof.
  revert node dependent b.
  induction fuel as [|fuel IH]; intros node dependent b Hfuel; [lia|].
  cbn [AddSubTarget]. cbn zeta.
  destruct (in_edge_ (node_at (graph_ b) node)) as [edge|] eqn:Hin.
  2:{ destruct (dirty_ (node_at (graph_ b) node)); eexists _, _;
        (split; [done|]); by split. }
  destruct (outputs_ready_ (edge_at (graph_ b) edge)).
  { exists false, b. split; [done|]. apply plan_grows_refl. }
  set (inserted := bool_decide (want_ (plan_ b) !! edge = None)).
  set (b1 := if inserted then _ else b).
  assert (graph_ b1 = graph_ b /\ is_Some (want_ (plan_ b1) !! edge)
          /\ forall e, e <> edge ->
                       want_ (plan_ b1) !! e = want_ (plan_ b) !! e)
    as (Hg1 & Hs1 & Ho1).
  { subst b1 inserted. case_bool_decide as Hnone; cbn.
    - split; [done|]. split; [by rewrite lookup_insert_eq|].
      intros e He. by rewrite lookup_insert_ne.
    - split; [done|]. split; [|done].
      by destruct (want_ (plan_ b) !! edge). }
  match goal with
  | |- exists ok b', (?step ≫= _) = _ /\ _ =>
      assert (exists b4, step = Some b4 /\ graph_ b4 = graph_ b1
                /\ is_Some (want_ (plan_ b4) !! edge)
                /\ forall e, e <> edge ->
                             want_ (plan_ b4) !! e = want_ (plan_ b1) !! e)
        as (b4 & -> & Hg4 & Hs4 & Ho4) by (by apply promote_step)
  end.
  cbn [mbind option_bind].
  assert (plan_grows b b4) as Hgrows4.
  { split; [by rewrite Hg4, Hg1..|]. intros e He.
    destruct (decide (e = edge)) as [->|Hne]; [done|].
    by rewrite Ho4, Ho1. }
  destruct (negb inserted) eqn:Hins; [by exists true, b4|].
  apply negb_false_iff, bool_decide_eq_true in Hins.
  destruct (decide (edge < length (edges_ (graph_ b)))%nat) as [Hlt|Hge].
  - destruct (add_inputs_returns
                (fun i => add_sub_target fuel i (Some node)) fuel
                (inputs_ (edge_at (graph_ b) edge)) b4)
      as (ok & b' & Hrun & Hg).
    + intros i b0 Hb0. by apply IH.
    + pose proof (unplanned_insert b b4 edge Hgrows4 Hlt Hins Hs4). lia.
    + exists ok, b'. split; [done|]. by eapply plan_grows_trans.
  - rewrite edge_at_ge by lia. cbn. by exists true, b4.
Qed.

(** X16.  [AddTarget] returns on every graph, cyclic or not: an edge is
    entered into [want_] before its inputs are looked at and is not looked
    at twice, so that fuel for the edges of the graph is enough.  The call
    leaves the nodes and the edges of the graph alone and takes no entry out
    of [want_]. *)
Theorem AddTarget_returns fuel node b :
  (length (edges_ (graph_ b)) < fuel)%nat ->
  exists ok b',
    AddTarget Pools ShouldDelayEdge DelayEdge RetrieveReadyEdges EdgeScheduled
      fuel node b = Some (ok, b')
    /\ nodes_ (graph_ b') = nodes_ (graph_ b)
    /\ edges_ (graph_ b') = edges_ (graph_ b)
    /\ forall e, is_Some (want_ (plan_ b) !! e) ->
                 is_Some (want_ (plan_ b') !! e).
Proof.
  intros Hfuel.
  destruct (AddSubTarget_returns fuel node None b) as (ok & b' & Hrun & Hg).
  { pose proof (unplanned_le b). lia. }
  exists ok, b'. split; [done|]. by destruct Hg.
Qed.

(** X17.  When [AddTarget] starts without an error and leaves none, the
    plan holds the in-edge of the target unless the outputs of that edge
    are ready, and a plan that was closed under the in-edges of inputs
    whose outputs are not ready is closed again: nothing the target needs
    built is left out.  When it leaves an error, it has returned false and
    the error names a dirty node without in-edge, with the node that
    needs it, as missing and without a rule to make it. *)
Theorem AddTarget_closed fuel node b ok b' :
  err_ (graph_ b) = "" ->
  add_target fuel node b = Some (ok, b') ->
  (err_ (graph_ b') = "" ->
   planned b' node /\ (plan_closed b -> plan_closed b'))
  /\ (err_ (graph_ b') <> "" ->
      ok = false /\ missing_leaf (graph_ b') (err_ (graph_ b'))).
Proof.
  intros Hclean Hrun. apply AddSubTarget_post in Hrun as [Hg _ Hp Hc He].
  split.
  - intros Herr. split; [apply Hp; [done|by left]|].
    intros Hclosed e i Hsome Hi.
    destruct (want_ (plan_ b) !! e) as [x|] eqn:Hb.
    + apply (planned_grows b); [done|]. apply (Hclosed e); [by rewrite Hb|].
      by rewrite <- (plan_grows_edge_at _ _ _ Hg).
    + by apply (Hc Herr e).
  - by apply He.
Qed.

(** *** [EdgeFinished] and [NodeFinished] *)

Lemma wanted_count_insert_nothing b edge :
  (forall x, want_ (plan_ b) !! edge = Some x -> x = kWantNothing) ->
  wanted_count (with_want Pools (<[edge := kWantNothing]> (want_ (plan_ b))) b)
  = wanted_count b.
Proof.
  intros Hold. unfold wanted_count. cbn. f_equal. f_equal.
  apply map_filter_insert_not'; [by intros []|].
  intros y Hy Hp. apply Hp. cbn. by apply Hold.
Qed.

Lemma wanted_count_insert (want : gmap EdgeId Want) edge x :
  x <> kWantNothing ->
  want !! edge = Some kWantNothing \/
  (exists y, want !! edge = Some y /\ y <> kWantNothing) ->
  Z.of_nat (size (filter (fun entry : EdgeId * Want =>
                            entry.2 <> kWantNothing) (<[edge := x]> want)))
  = (Z.of_nat (size (filter (fun entry : EdgeId * Want =>
                               entry.2 <> kWantNothing) want))
     + if decide (want !! edge = Some kWantNothing) then 1 else 0)%Z.
Proof.
  intros Hx Hold. rewrite map_filter_insert_True by done.
  rewrite map_size_insert.
  destruct Hold as [Hold|(y & Hold & Hy)].
  - rewrite decide_True by done.
    rewrite (proj2 (map_lookup_filter_None _ _ _)); [lia|].
    right. intros y. rewrite Hold. intros [= <-]. cbn. tauto.
  - rewrite decide_False by congruence.
    rewrite (map_lookup_filter_Some_2 _ _ _ y); [cbn; lia|done..].
Qed.

Lemma wanted_count_delete (want : gmap EdgeId Want) edge x :
  want !! edge = Some x ->
  Z.of_nat (size (filter (fun entry : EdgeId * Want =>
                            entry.2 <> kWantNothing) (delete edge want)))
  = (Z.of_nat (size (filter (fun entry : EdgeId * Want =>
                               entry.2 <> kWantNothing) want))
     - if decide (x = kWantNothing) then 0 else 1)%Z.
Proof.
  intros Hold. rewrite map_filter_delete, map_size_delete.
  destruct (decide (x = kWantNothing)) as [->|Hx].
  - rewrite (proj2 (map_lookup_filter_None _ _ _)); [cbn; lia|].
    right. intros y. rewrite Hold. intros [= <-]. cbn. tauto.
  - rewrite (map_lookup_filter_Some_2 _ _ _ x) by done. cbn.
    assert (size (filter (fun entry : EdgeId * Want =>
                            entry.2 <> kWantNothing) want) <> 0%nat).
    { apply (map_size_ne_0_lookup_2 _ edge). exists x.
      by apply map_lookup_filter_Some_2. }
    lia.
Qed.

Lemma plan_finishes_refl b : plan_finishes b b.
Proof.
  split; try done; auto. intros e _ [x Hx] Hnone. congruence.
Qed.

Lemma plan_finishes_ready b b' e :
  plan_finishes b b' ->
  outputs_ready_ (edge_at (graph_ b) e) = true ->
  outputs_ready_ (edge_at (graph_ b') e) = true.
Proof.
  intros Hf Hready. by destruct (finishes_edge _ _ Hf e) as [->| ->].
Qed.

Lemma plan_finishes_trans b1 b2 b3 :
  plan_finishes b1 b2 -> plan_finishes b2 b3 -> plan_finishes b1 b3.
Proof.
  intros H12 H23. split.
  - by rewrite (finishes_nodes _ _ H23), (finishes_nodes _ _ H12).
  - by rewrite (finishes_err _ _ H23), (finishes_err _ _ H12).
  - by rewrite (finishes_edges _ _ H23), (finishes_edges _ _ H12).
  - intros e. destruct (finishes_edge _ _ H23 e) as [->| ->],
      (finishes_edge _ _ H12 e) as [->| ->]; auto.
  - intros e x Hx.
    destruct (finishes_want _ _ H23 e x Hx) as [H2|[H2 ->]].
    + apply (finishes_want _ _ H12 e x H2).
    + destruct (finishes_want _ _ H12 e _ H2) as [?|[_ ?]]; [auto|done].
  - intros e He Hsome Hnone.
    destruct (want_ (plan_ b2) !! e) as [x|] eqn:H2.
    + apply (finishes_done _ _ H23 e); [|by rewrite H2|done].
      by rewrite (finishes_edges _ _ H12).
    + apply (plan_finishes_ready b2); [done|].
      by apply (finishes_done _ _ H12 e).
  - by rewrite (finishes_commands _ _ H23), (finishes_commands _ _ H12).
  - by rewrite (finishes_count _ _ H23), (finishes_count _ _ H12).
Qed.

Lemma ScheduleWork_finishes edge b b' :
  schedule_work edge b = Some b' -> plan_finishes b b'.
Proof.
  unfold ScheduleWork.
  destruct (want_ (plan_ b) !! edge) as [[]|] eqn:Hwant; try done.
  2:{ intros [= <-]. apply plan_finishes_refl. }
  assert (forall pools ready,
            plan_finishes b
              (mkBuild (mkPlan (<[edge := kWantToFinish]> (want_ (plan_ b)))
                          ready (command_edges_ (plan_ b))
                          (wanted_edges_ (plan_ b)))
                 (graph_ b) pools (changes_ b))) as Hf.
  { intros pools ready. split; cbn.
    - done.
    - done.
    - done.
    - by left.
    - intros e x. destruct (decide (e = edge)) as [->|Hne].
      + rewrite lookup_insert_eq. intros [= <-]. by right.
      + rewrite lookup_insert_ne by done. by left.
    - intros e _. destruct (decide (e = edge)) as [->|Hne].
      + by rewrite lookup_insert_eq.
      + rewrite lookup_insert_ne by done. intros [x Hx] Hnone. congruence.
    - done.
    - unfold wanted_count. cbn.
      rewrite wanted_count_insert by (try done; right; eauto).
      rewrite decide_False by congruence. lia. }
  destruct (ShouldDelayEdge _ _); [destruct (RetrieveReadyEdges _ _ _)|];
    intros [= <-]; apply Hf.
Qed.

Lemma out_edges_finished_finishes finish out_edges b b' :
  (forall oe b b', want_ (plan_ b) !! oe = Some kWantNothing ->
                   finish oe b = Some b' -> plan_finishes b b') ->
  node_out_edges_finished finish out_edges b = Some b' ->
  plan_finishes b b'.
Proof.
  intros Hfinish. revert b.
  induction out_edges as [|oe out_edges IH]; intros b; cbn.
  - intros [= <-]. apply plan_finishes_refl.
  - destruct (want_ (plan_ b) !! oe) as [want|] eqn:Hwant; [|apply IH].
    destruct (if AllInputsReady _ _ then _ else Some b) as [b1|] eqn:Hstep;
      [|done]. cbn.
    assert (plan_finishes b b1) as Hb1.
    { destruct (AllInputsReady _ _);
        [|injection Hstep as <-; apply plan_finishes_refl].
      case_bool_decide as Hnothing; cbn in Hstep.
      - subst want. by eapply Hfinish.
      - by apply ScheduleWork_finishes in Hstep. }
    intros Hrest. apply IH in Hrest. by eapply plan_finishes_trans.
Qed.

Lemma outputs_finished_finishes finish outputs b b' :
  (forall oe b b', want_ (plan_ b) !! oe = Some kWantNothing ->
                   finish oe b = Some b' -> plan_finishes b b') ->
  edge_outputs_finished finish outputs b = Some b' ->
  plan_finishes b b'.
Proof.
  intros Hfinish. revert b.
  induction outputs as [|o outputs IH]; intros b; cbn.
  - intros [= <-]. apply plan_finishes_refl.
  - destruct (node_out_edges_finished _ _ _) as [b1|] eqn:Hnode; [|done]. cbn.
    apply out_edges_finished_finishes in Hnode; [|done].
    intros Hrest. apply IH in Hrest. by eapply plan_finishes_trans.
Qed.

Lemma EdgeFinished_finishes fuel edge result b b' :
  edge_finished fuel edge result b = Some b' ->
  plan_finishes b b'
  /\ (result = kEdgeSucceeded -> want_ (plan_ b') !! edge = None)
  /\ (result <> kEdgeSucceeded ->
      want_ (plan_ b') = want_ (plan_ b) /\ graph_ b' = graph_ b /\
      wanted_edges_ (plan_ b') = wanted_edges_ (plan_ b)).
Proof.
  revert edge result b b'.
  induction fuel as [|fuel IH]; intros edge result b b'; [done|].
  cbn. destruct (want_ (plan_ b) !! edge) as [want|] eqn:Hwant; [|done].
  destruct (RetrieveReadyEdges _ _ _) as [pools ready].
  destruct (decide (result = kEdgeSucceeded)) as [->|Hresult].
  2:{ rewrite !(bool_decide_false (result = _)) by done.
      intros [= <-]. cbn. split; [|done]. split; cbn; try done; auto.
      intros e _ [x Hx] Hnone. congruence. }
  rewrite !(bool_decide_true (kEdgeSucceeded = _)) by done. cbn [negb].
  match goal with |- edge_outputs_finished _ _ ?b0 = _ -> _ =>
    set (b1 := b0); assert (plan_finishes b b1
                            /\ want_ (plan_ b1) !! edge = None) as [H1 Hgone]
  end.
  { subst b1. split; [|by case_bool_decide; cbn; rewrite lookup_delete_eq].
    split.
    - by case_bool_decide.
    - by case_bool_decide.
    - case_bool_decide; cbn; by rewrite length_alter.
    - intros e. case_bool_decide; cbn;
        change (mkScan (nodes_ (graph_ b))
                  (alter (with_outputs_ready true) edge (edges_ (graph_ b)))
                  (stack_ (graph_ b)) (err_ (graph_ b)))
          with (update_edge edge (with_outputs_ready true) (graph_ b));
        rewrite edge_at_update_edge;
        (destruct (decide (edge = e /\ _)) as [[<- _]|]; [by right|by left]).
    - intros e x. destruct (decide (e = edge)) as [->|Hne].
      + case_bool_decide; cbn; by rewrite lookup_delete_eq.
      + case_bool_decide; cbn; rewrite lookup_delete_ne by done; by left.
    - intros e He Hsome. destruct (decide (e = edge)) as [->|Hne].
      + intros _. case_bool_decide; cbn;
          change (mkScan (nodes_ (graph_ b))
                    (alter (with_outputs_ready true) edge (edges_ (graph_ b)))
                    (stack_ (graph_ b)) (err_ (graph_ b)))
            with (update_edge edge (with_outputs_ready true) (graph_ b));
          by rewrite edge_at_update_edge_eq.
      + case_bool_decide; cbn;
          rewrite lookup_delete_ne by done; intros Hnone;
          rewrite Hnone in Hsome; by destruct Hsome.
    - by case_bool_decide.
    - unfold wanted_count.
      case_bool_decide as Hnothing; cbn;
        rewrite (wanted_count_delete _ _ want) by done.
      + rewrite decide_True by done. lia.
      + rewrite decide_False by done. lia. }
  intros Hrest. apply outputs_finished_finishes in Hrest.
  - split; [by eapply plan_finishes_trans|]. split; [|done]. intros _.
    destruct (want_ (plan_ b') !! edge) as [x|] eqn:Hb'; [|done].
    destruct (finishes_want _ _ Hrest edge x Hb') as [?|[? _]]; congruence.
  - intros oe b0 b0' _ Hfinish. by apply IH in Hfinish as [? _].
Qed.

(** X18.  [EdgeFinished] adds nothing to the plan.  For a command that
    failed it leaves the entries, the counters and the graph as they are.
    For one that succeeded the entry of the edge is gone on return and its
    outputs are ready; every other entry is as it was or went from
    [kWantToStart] to [kWantToFinish]; an entry is gone only when the outputs
    of its edge are ready; no edge loses [outputs_ready_], and nothing else
    in the graph changes. *)
Theorem EdgeFinished_effect fuel edge result b b' :
  edge_finished fuel edge result b = Some b' ->
  (result = kEdgeFailed ->
   want_ (plan_ b') = want_ (plan_ b) /\ graph_ b' = graph_ b /\
   wanted_edges_ (plan_ b') = wanted_edges_ (plan_ b) /\
   command_edges_ (plan_ b') = command_edges_ (plan_ b))
  /\ (result = kEdgeSucceeded ->
      want_ (plan_ b') !! edge = None /\
      ((edge < length (edges_ (graph_ b)))%nat ->
       outputs_ready_ (edge_at (graph_ b') edge) = true))
  /\ (forall e want',
        want_ (plan_ b') !! e = Some want' ->
        want_ (plan_ b) !! e = Some want' \/
        (want_ (plan_ b) !! e = Some kWantToStart /\ want' = kWantToFinish))
  /\ (forall e, (e < length (edges_ (graph_ b)))%nat ->
        is_Some (want_ (plan_ b) !! e) -> want_ (plan_ b') !! e = None ->
        outputs_ready_ (edge_at (graph_ b') e) = true)
  /\ (forall e,
        edge_at (graph_ b') e = edge_at (graph_ b) e \/
        edge_at (graph_ b') e = with_outputs_ready true (edge_at (graph_ b) e))
  /\ nodes_ (graph_ b') = nodes_ (graph_ b).
Proof.
  intros Hrun.
  assert (is_Some (want_ (plan_ b) !! edge)) as Hwant.
  { destruct fuel; [done|]. cbn in Hrun.
    by destruct (want_ (plan_ b) !! edge). }
  apply EdgeFinished_finishes in Hrun as (Hf & Hok & Hfail).
  split; [|split; [|split; [|split; [|split]]]].
  - intros ->. destruct Hfail as (? & ? & ?); [done|].
    repeat split; try done. apply Hf.
  - intros Hs. split; [by apply Hok|]. intros Hlt.
    apply (finishes_done _ _ Hf); auto.
  - apply Hf.
  - apply Hf.
  - apply Hf.
  - apply Hf.
Qed.

(** *** The counter of wanted edges *)

Lemma add_inputs_count add inputs b r :
  (forall i b r, add i b = Some r ->
     (wanted_edges_ (plan_ r.2) - wanted_count r.2
      = wanted_edges_ (plan_ b) - wanted_count b)%Z) ->
  add_inputs Pools add inputs b = Some r ->
  (wanted_edges_ (plan_ r.2) - wanted_count r.2
   = wanted_edges_ (plan_ b) - wanted_count b)%Z.
Proof.
  intros Hadd. revert b. induction inputs as [|i inputs IH]; intros b; cbn.
  - by intros [= <-].
  - destruct (add i b) as [[ok b1]|] eqn:Hi; [|done].
    apply Hadd in Hi. cbn in Hi. destruct (negb ok && _).
    + by intros [= <-].
    + intros Hrest. apply IH in Hrest. congruence.
Qed.

Lemma AddSubTarget_count fuel node dependent b r :
  add_sub_target fuel node dependent b = Some r ->
  (wanted_edges_ (plan_ r.2) - wanted_count r.2
   = wanted_edges_ (plan_ b) - wanted_count b)%Z.
Proof.
  revert node dependent b r.
  induction fuel as [|fuel IH]; intros node dependent b r; [done|]. cbn.
  destruct (in_edge_ (node_at (graph_ b) node)) as [edge|].
  2:{ destruct (dirty_ _); by intros [= <-]. }
  destruct (outputs_ready_ _); [by intros [= <-]|].
  set (b1 := if bool_decide (want_ (plan_ b) !! edge = None) then _ else b).
  assert (wanted_edges_ (plan_ b1) - wanted_count b1
          = wanted_edges_ (plan_ b) - wanted_count b)%Z as Hb1.
  { subst b1. case_bool_decide as Hnone; [|done].
    rewrite wanted_count_insert_nothing; [done|]. intros x. by rewrite Hnone. }
  destruct (dirty_ _).
  2:{ cbn. destruct (negb (bool_decide _)); [intros [= <-]; done|].
      intros Hrest. apply add_inputs_count in Hrest; [congruence|].
      intros i b' r'. apply IH. }
  cbn [andb].
  destruct (bool_decide (want_ (plan_ b1) !! edge = Some kWantNothing))
    eqn:Hnothing; cbn.
  2:{ destruct (negb (bool_decide _)); [intros [= <-]; done|].
      intros Hrest. apply add_inputs_count in Hrest; [congruence|].
      intros i b' r'. apply IH. }
  apply bool_decide_eq_true in Hnothing.
  set (phony := is_phony (edge_at (graph_ b) edge)).
  set (b2 := add_wanted_edges Pools 1 _).
  assert (wanted_edges_ (plan_ b2) - wanted_count b2
          = wanted_edges_ (plan_ b) - wanted_count b)%Z as Hb2.
  { subst b2. unfold wanted_count in *. cbn.
    rewrite wanted_count_insert by (try done; by left).
    rewrite decide_True by done. lia. }
  destruct (if AllInputsReady _ _ then _ else Some b2) as [b3|] eqn:Hsched;
    [|done]. cbn.
  assert (wanted_edges_ (plan_ b3) - wanted_count b3
          = wanted_edges_ (plan_ b) - wanted_count b)%Z as Hb3.
  { destruct (AllInputsReady _ _); [|by injection Hsched as <-].
    apply ScheduleWork_finishes in Hsched.
    by rewrite (finishes_count _ _ Hsched). }
  set (b4 := if negb phony then _ else b3).
  assert (wanted_edges_ (plan_ b4) - wanted_count b4
          = wanted_edges_ (plan_ b) - wanted_count b)%Z as Hb4
    by (subst b4; by destruct phony).
  destruct (negb (bool_decide _)); [intros [= <-]; done|].
  intros Hrest. apply add_inputs_count in Hrest; [congruence|].
  intros i b' r'. apply IH.
Qed.

(** X19.  As long as the builder does not call [CleanNode],
    [wanted_edges_] is the number of entries of [want_] other than
    [kWantNothing], in every state the calls lead to from an empty plan:
    the build has more to do exactly as long as an edge is wanted. *)
Theorem Plan_wanted_edges fuel calls w pools b' :
  (forall node, CallCleanNode node ∉ calls) ->
  run_calls fuel calls (new_Build w pools) = Some b' ->
  wanted_edges_ (plan_ b') = wanted_count b'.
Proof.
  intros Hcalls Hrun.
  assert (wanted_edges_ (plan_ b') - wanted_count b'
          = wanted_edges_ (plan_ (new_Build w pools))
            - wanted_count (new_Build w pools))%Z as Hgap.
  { revert Hcalls Hrun. generalize (new_Build w pools).
    induction calls as [|c calls IH]; intros b Hcalls; cbn.
    - by intros [= <-].
    - destruct (plan_call _ _ _ _ _ _ _ _ _ _ _) as [b1|] eqn:Hcall;
        [|done]. cbn. intros Hrest. apply IH in Hrest.
      2:{ intros node Hin. apply (Hcalls node). by right. }
      rewrite Hrest. clear Hrest IH. destruct c as [node| |edge result|node|w0];
        cbn in Hcall.
      + destruct (AddTarget _ _ _ _ _ _ _ _) as [r|] eqn:Hadd; [|done].
        injection Hcall as <-. by apply AddSubTarget_count in Hadd.
      + injection Hcall as <-. unfold FindWork.
        by destruct (merge_sort _ _).
      + apply EdgeFinished_finishes in Hcall as [Hf _].
        apply (finishes_count _ _ Hf).
      + destruct (Hcalls node). by left.
      + by injection Hcall as <-. }
  unfold wanted_count in Hgap at 2. cbn in Hgap.
  rewrite map_filter_empty, map_size_empty in Hgap. lia.
Qed.

(** *** [FindWork] *)

(** X20.  [FindWork] returns no edge exactly when the ready set is empty.
    Otherwise it returns the edge of the ready set that comes first, by
    its id, and takes that edge and no other out of the set; the entries
    of [want_], the counters and the graph are as before. *)
Theorem FindWork_first b :
  match FindWork Pools b with
  | (None, b') => ready_ (plan_ b) = ∅ /\ b' = b
  | (Some edge, b') =>
      edge ∈ ready_ (plan_ b)
      /\ (forall e, e ∈ ready_ (plan_ b) -> (edge <= e)%nat)
      /\ ready_ (plan_ b') = ready_ (plan_ b) ∖ {[edge]}
      /\ want_ (plan_ b') = want_ (plan_ b)
      /\ wanted_edges_ (plan_ b') = wanted_edges_ (plan_ b)
      /\ command_edges_ (plan_ b') = command_edges_ (plan_ b)
      /\ graph_ b' = graph_ b
  end.
Proof.
  unfold FindWork.
  pose proof (merge_sort_Permutation Nat.le (elements (ready_ (plan_ b))))
    as Hperm.
  pose proof (StronglySorted_merge_sort Nat.le
                (elements (ready_ (plan_ b)))) as Hsorted.
  destruct (merge_sort Nat.le (elements (ready_ (plan_ b))))
    as [|edge rest].
  - split; [|done]. apply Permutation_nil_l in Hperm. symmetry in Hperm.
    by apply elements_empty_inv, leibniz_equiv in Hperm.
  - cbn. repeat split.
    + apply elem_of_elements. rewrite <- Hperm. by left.
    + intros e He. apply elem_of_elements in He. rewrite <- Hperm in He.
      apply StronglySorted_inv in Hsorted as [_ Hall].
      apply elem_of_cons in He as [->|He]; [done|].
      by apply (proj1 (Forall_forall _ _) Hall).
Qed.

(** *** [CleanNode] *)

Lemma plan_cleans_refl b : plan_cleans IsPhonyOutput b b.
Proof. split; try done; auto. Qed.

Lemma plan_cleans_edge_at b b' e :
  plan_cleans IsPhonyOutput b b' ->
  edge_at (graph_ b') e = edge_at (graph_ b) e.
Proof. intros Hc. unfold edge_at. by rewrite (cleans_edges _ _ _ Hc). Qed.

Lemma plan_cleans_trans b1 b2 b3 :
  plan_cleans IsPhonyOutput b1 b2 -> plan_cleans IsPhonyOutput b2 b3 ->
  plan_cleans IsPhonyOutput b1 b3.
Proof.
  intros H12 H23. split.
  - by rewrite (cleans_edges _ _ _ H23), (cleans_edges _ _ _ H12).
  - by rewrite (cleans_err _ _ _ H23), (cleans_err _ _ _ H12).
  - by rewrite (cleans_nodes _ _ _ H23), (cleans_nodes _ _ _ H12).
  - intros n. destruct (cleans_node _ _ _ H23 n) as [->| ->],
      (cleans_node _ _ _ H12 n) as [->| ->]; auto.
  - intros e. destruct (cleans_want _ _ _ H23 e) as [->|(-> & Hs & Hd & Hp)].
    + apply (cleans_want _ _ _ H12 e).
    + right. split; [done|].
      rewrite (plan_cleans_edge_at _ _ _ H12) in Hd, Hp.
      split; [|done].
      destruct (cleans_want _ _ _ H12 e) as [<-|(_ & ? & _)]; done.
  - by rewrite (cleans_ready _ _ _ H23), (cleans_ready _ _ _ H12).
  - pose proof (cleans_wanted _ _ _ H12). pose proof (cleans_wanted _ _ _ H23).
    lia.
  - pose proof (cleans_commands _ _ _ H12).
    pose proof (cleans_commands _ _ _ H23). lia.
Qed.

Lemma clean_outputs_cleans clean outputs b ok b' :
  (forall o b ok b', clean o b = Some (ok, b') ->
                     ok = true /\ plan_cleans IsPhonyOutput b b') ->
  clean_outputs Pools clean outputs b = Some (ok, b') ->
  ok = true /\ plan_cleans IsPhonyOutput b b'.
Proof.
  intros Hclean. revert b. induction outputs as [|o outputs IH]; intros b; cbn.
  - intros [= <- <-]. split; [done|]. apply plan_cleans_refl.
  - destruct (clean o b) as [[ok1 b1]|] eqn:Ho; [|done].
    apply Hclean in Ho as [-> H1]. cbn. intros Hrest.
    apply IH in Hrest as [-> H2]. split; [done|].
    by eapply plan_cleans_trans.
Qed.

Lemma demote_cleans oe (phony : bool) b :
  is_Some (want_ (plan_ b) !! oe) ->
  deps_missing_ (edge_at (graph_ b) oe) = false ->
  IsPhonyOutput (edge_at (graph_ b) oe) = false ->
  plan_cleans IsPhonyOutput b
    (let b := with_want Pools (<[oe := kWantNothing]> (want_ (plan_ b))) b in
     let b := record_change Pools (Demoted oe phony) b in
     let b := add_wanted_edges Pools (-1) b in
     if negb phony then add_command_edges Pools (-1) b else b).
Proof.
  intros Hsome Hdeps Hphony. split.
  - by destruct phony.
  - by destruct phony.
  - by destruct phony.
  - intros n. left. by destruct phony.
  - intros e. destruct (decide (e = oe)) as [->|Hne].
    + right. destruct phony; cbn; by rewrite lookup_insert_eq.
    + left. destruct phony; cbn; by rewrite lookup_insert_ne.
  - by destruct phony.
  - destruct phony; cbn; lia.
  - destruct phony; cbn; lia.
Qed.

Lemma clean_out_edges_cleans clean out_edges b ok b' :
  (forall o b ok b', clean o b = Some (ok, b') ->
                     ok = true /\ plan_cleans IsPhonyOutput b b') ->
  clean_out_edges Pools IsPhonyOutput build_log clean out_edges b
  = Some (ok, b') ->
  ok = true /\ plan_cleans IsPhonyOutput b b'.
Proof.
  intros Hclean. revert b.
  induction out_edges as [|oe out_edges IH]; intros b; cbn [clean_out_edges].
  - intros [= <- <-]. split; [done|]. apply plan_cleans_refl.
  - cbn zeta.
    destruct (want_ (plan_ b) !! oe) as [[]|] eqn:Hwant;
      [apply IH| | |apply IH].
    all: destruct (deps_missing_ (edge_at (graph_ b) oe)) eqn:Hdeps;
      [apply IH|].
    all: destruct (IsPhonyOutput (edge_at (graph_ b) oe)) eqn:Hphony;
      [apply IH|].
    all: destruct (forallb _ _); [|apply IH].
    all: rewrite RecomputeOutputsDirty_returns_true; cbn [negb orb].
    all: destruct (existsb _ _); cbn [negb]; [apply IH|].
    all: destruct (clean_outputs _ _ _ _) as [[ok1 b1]|] eqn:Hout; [|done].
    all: apply clean_outputs_cleans in Hout as [-> H1]; [|done].
    all: intros Hrest; apply IH in Hrest as [-> H2]; split; [done|].
    all: eapply plan_cleans_trans; [exact H1|].
    all: eapply plan_cleans_trans; [|exact H2].
    all: rewrite <- (plan_cleans_edge_at _ _ oe H1).
    all: apply demote_cleans; rewrite ?(plan_cleans_edge_at _ _ oe H1);
      try done.
    all: destruct (cleans_want _ _ _ H1 oe) as [->|(-> & _)];
      [by rewrite Hwant|by eexists].
Qed.

Lemma CleanNode_cleans fuel node b ok b' :
  clean_node fuel node b = Some (ok, b') ->
  ok = true /\ plan_cleans IsPhonyOutput b b'.
Proof.
  revert node b ok b'.
  induction fuel as [|fuel IH]; intros node b ok b'; [done|]. cbn.
  intros Hrun. apply clean_out_edges_cleans in Hrun as [-> Hc]; [|apply IH].
  split; [done|]. eapply plan_cleans_trans; [|exact Hc].
  split; cbn; try done; auto.
  - by rewrite length_alter.
  - intros n. unfold set_dirty. rewrite node_at_update_node.
    destruct (decide (node = n /\ _)) as [[<- _]|]; auto.
Qed.

(** X21.  [CleanNode] never fails, and it only takes away: the node it is
    given is clean on return; of a node only the dirty flag changes, and only
    to false; no entry joins or leaves [want_], and an entry changes only
    from wanted to [kWantNothing], and only for an edge that loaded its
    dependencies and is not a phony-output edge; the counters of wanted and
    command edges do not go up; the edges, the ready set and the error are
    as before. *)
Theorem CleanNode_effect fuel node b ok b' :
  clean_node fuel node b = Some (ok, b') ->
  ok = true
  /\ dirty_ (node_at (graph_ b') node) = false
  /\ (forall n,
        node_at (graph_ b') n = node_at (graph_ b) n \/
        node_at (graph_ b') n = with_dirty false (node_at (graph_ b) n))
  /\ (forall e,
        want_ (plan_ b') !! e = want_ (plan_ b) !! e \/
        (want_ (plan_ b') !! e = Some kWantNothing /\
         is_Some (want_ (plan_ b) !! e) /\
         deps_missing_ (edge_at (graph_ b) e) = false /\
         IsPhonyOutput (edge_at (graph_ b) e) = false))
  /\ (wanted_edges_ (plan_ b') <= wanted_edges_ (plan_ b))%Z
  /\ (command_edges_ (plan_ b') <= command_edges_ (plan_ b))%Z
  /\ edges_ (graph_ b') = edges_ (graph_ b)
  /\ ready_ (plan_ b') = ready_ (plan_ b)
  /\ err_ (graph_ b') = err_ (graph_ b).
Proof.
  intros Hrun. pose proof (CleanNode_cleans _ _ _ _ _ Hrun) as [-> Hc].
  split; [done|]. split; [|destruct Hc; by repeat split].
  destruct fuel; [done|]. cbn in Hrun.
  apply clean_out_edges_cleans in Hrun as [_ Hc1];
    [|apply CleanNode_cleans].
  cbn in Hc1.
  assert (dirty_ (node_at (set_dirty node false (graph_ b)) node) = false)
    as Hclean.
  { unfold set_dirty. rewrite node_at_update_node.
    destruct (decide (node = node /\ _)) as [_|Hne]; [done|].
    destruct (decide (node < length (nodes_ (graph_ b)))%nat); [tauto|].
    by rewrite node_at_ge by lia. }
  by destruct (cleans_node _ _ _ Hc1 node) as [->| ->].
Qed.

End PlanMore.

(** ** The out-edges of a node and the dry-run command runner *)

Lemma out_edges_foldr (edges : list EdgeId) (n : Node) :
  out_edges_ (foldr AddOutEdge n edges) = edges ++ out_edges_ n
  /\ dep_scan_out_edges_ (foldr AddOutEdge n edges) = dep_scan_out_edges_ n.
Proof.
  induction edges as [|e edges [IH1 IH2]]; [done|]. cbn. by rewrite IH1, IH2.
Qed.

(** X22.  The out-edges of the manifest are reported in the order of their
    ids whatever the order in which [AddOutEdge] pushed them on the list of
    the node, so that the order in which concurrent calls get through does
    not show; they come before the out-edges the dependency scan found, which
    keep their order.  An edge that was added is reported, and the node has
    an out-edge. *)
Theorem GetOutEdges_order (n : Node) (edges1 edges2 : list EdgeId) :
  edges1 ≡ₚ edges2 ->
  GetOutEdges (foldr AddOutEdge n edges1)
  = GetOutEdges (foldr AddOutEdge n edges2)
  /\ (forall e, e ∈ GetOutEdges (foldr AddOutEdge n edges1) <->
                e ∈ edges1 \/ e ∈ GetOutEdges n)
  /\ (edges1 <> [] -> has_out_edge (foldr AddOutEdge n edges1) = true)
  /\ exists manifest,
       GetOutEdges (foldr AddOutEdge n edges1)
       = manifest ++ dep_scan_out_edges_ n
       /\ StronglySorted Nat.le manifest.
Proof.
  intros Hperm. unfold GetOutEdges.
  destruct (out_edges_foldr edges1 n) as [-> ->].
  destruct (out_edges_foldr edges2 n) as [-> ->].
  split; [|split; [|split]].
  - f_equal. apply (StronglySorted_unique Nat.le);
      try apply StronglySorted_merge_sort; try apply _.
    rewrite !merge_sort_Permutation. by rewrite Hperm.
  - intros e. rewrite !elem_of_app, !merge_sort_Permutation, elem_of_app.
    tauto.
  - intros Hne. unfold has_out_edge.
    destruct (out_edges_foldr edges1 n) as [-> _].
    rewrite bool_decide_false; [done|]. by destruct edges1.
  - eexists. split; [done|]. apply StronglySorted_merge_sort; apply _.
Qed.

(** X23.  The dry-run runner is a queue.  It can always run more; the
    commands started on an empty runner are reported finished in the order
    in which they were started, each with [ExitSuccess] and with the output
    of the result left alone, and once they are all reported
    [WaitForCommand] fails. *)
Theorem DryRun_first_in_first_out (edges : list EdgeId)
    (result : CommandResult) :
  let runner := foldl (fun runner edge => (DryRun_StartCommand edge runner).2)
                  [] edges in
  DryRun_CanRunMore runner = true
  /\ DryRun_wait (length edges) result runner
     = ((fun edge => (Some edge, ExitSuccess)) <$> edges, [])
  /\ (forall result', (DryRun_WaitForCommand result' []).1.1 = false)
  /\ forall edge rest,
       edges = edge :: rest ->
       (DryRun_WaitForCommand result runner).1.2
       = mkCommandResult (Some edge) ExitSuccess (result_output result).
Proof.
  cbn zeta.
  assert (forall runner,
            foldl (fun runner edge => (DryRun_StartCommand edge runner).2)
              runner edges = runner ++ edges) as Hqueue.
  { induction edges as [|e edges IH]; intros runner; cbn.
    - by rewrite app_nil_r.
    - by rewrite IH, <- app_assoc. }
  rewrite Hqueue. cbn [app]. split; [done|]. split; [|split; [done|]].
  - clear Hqueue. revert result.
    induction edges as [|e edges IH]; intros result; [done|].
    cbn. by rewrite IH.
  - by intros edge rest ->.
Qed.

(** ** [Builder::AddTargets] *)

Section BuilderTargetsFacts.

Context {D : Type} `{DiskInterface D}.
Variable disk_interface_ : D.
Variable build_log : option BuildLog.
Variable deps_log : DepsLog.
Variable DepfileParser_Parse : string -> DepfileParse.
Variable CanonicalizePath : string -> Canonicalize.
Variable HashCommand : string -> Z.
Variable kEvalRecursionLimit : nat.
Variable shell_escape : string -> string.
Variable EvaluateBindingInScope : Edge -> list Token -> string.
Variable ScopeEvaluateVariable : EvalPhase -> Edge -> string -> string.
Variable GetOptimalThreadPoolJobCount : nat.
Variable Pools : Type.
Variable ShouldDelayEdge : EdgeId -> Pools -> bool.
Variable DelayEdge : EdgeId -> Pools -> Pools.
Variable RetrieveReadyEdges :
  EdgeId -> Pools -> gset EdgeId -> Pools * gset EdgeId.
Variable EdgeScheduled : EdgeId -> Pools -> Pools.

Implicit Types (b : Build Pools) (node : NodeId).

Local Abbreviation add_all :=
  (add_targets Pools ShouldDelayEdge DelayEdge RetrieveReadyEdges
     EdgeScheduled).
Local Abbreviation builder_add_targets :=
  (Builder_AddTargets disk_interface_ build_log deps_log DepfileParser_Parse
     CanonicalizePath HashCommand kEvalRecursionLimit shell_escape
     EvaluateBindingInScope ScopeEvaluateVariable GetOptimalThreadPoolJobCount
     Pools ShouldDelayEdge DelayEdge RetrieveReadyEdges EdgeScheduled).

Lemma plan_grows_set_err err b :
  plan_grows b (with_graph Pools (set_err err (graph_ b)) b)
  /\ plan_grows (with_graph Pools (set_err err (graph_ b)) b) b.
Proof. by split. Qed.

Lemma plan_closed_grows b b' :
  plan_grows b b' -> plan_grows b' b -> plan_closed b -> plan_closed b'.
Proof.
  intros Hg Hg' Hclosed e i Hsome Hi. refine (planned_grows _ _ _ _ Hg _).
  apply (Hclosed e).
  - by apply (plan_grows_want _ _ Hg').
  - by rewrite <- (plan_grows_edge_at _ _ _ _ Hg).
Qed.

Lemma add_targets_post fuel nodes b r :
  add_all fuel nodes b = Some r ->
  match r with
  | Returned true b' =>
      plan_grows b b' /\ err_ (graph_ b') = err_ (graph_ b)
      /\ (forall node, node ∈ nodes -> planned b' node)
      /\ (plan_closed b -> plan_closed b')
  | Returned false b' =>
      plan_grows b b' /\ missing_leaf (graph_ b') (err_ (graph_ b'))
  | FatalExit _ => False
  end.
Proof.
  revert b. induction nodes as [|node nodes IH]; intros b; cbn.
  - intros [= <-]. split; [apply plan_grows_refl|]. split; [done|].
    split; [|done]. intros node Hn. by apply elem_of_nil in Hn.
  - set (b0 := with_graph Pools (set_err "" (graph_ b)) b).
    destruct (AddTarget _ _ _ _ _ _ _ b0) as [[ok b1]|] eqn:Hadd; [|done].
    apply AddSubTarget_post in Hadd as [Hg1 _ Hp1 Hc1 He1].
    assert (plan_grows b b1) as Hgb1
      by (eapply plan_grows_trans; [apply (plan_grows_set_err "" b)|done]).
    destruct (negb ok && negb (String.eqb (err_ (graph_ b1)) "")) eqn:Hbreak.
    + intros [= <-]. split; [done|].
      apply andb_true_iff in Hbreak as [_ Herr].
      apply negb_true_iff, String.eqb_neq in Herr. by apply He1.
    + assert (err_ (graph_ b1) = "") as Herr1.
      { destruct (String.eqb_spec (err_ (graph_ b1)) "") as [?|Hne]; [done|].
        destruct (He1 eq_refl Hne) as [-> _]. done. }
      set (b2 := with_graph Pools (set_err (err_ (graph_ b)) (graph_ b1)) b1).
      intros Hrest. apply IH in Hrest.
      destruct (plan_grows_set_err (err_ (graph_ b)) b1) as [H12 H21].
      fold b2 in H12, H21.
      destruct r as [[] b'|msg]; [| |done].
      * destruct Hrest as (Hg & Herr & Hp & Hcl).
        split; [eauto using plan_grows_trans|]. split; [done|]. split.
        -- intros n Hn. apply elem_of_cons in Hn as [->|Hn]; [|by apply Hp].
           refine (planned_grows _ _ _ _ (plan_grows_trans _ _ _ _ H12 Hg) _).
           apply Hp1; [done|by left].
        -- intros Hclosed. apply Hcl. apply (plan_closed_grows b1); [done..|].
           intros e i Hsome Hi.
           destruct (want_ (plan_ b0) !! e) as [x|] eqn:Hb0.
           ++ refine (planned_grows _ _ _ _ Hg1 _).
              refine (plan_closed_grows b b0 _ _ Hclosed e i _ _).
              ** apply plan_grows_set_err.
              ** apply plan_grows_set_err.
              ** by rewrite Hb0.
              ** by rewrite <- (plan_grows_edge_at _ _ _ _ Hg1).
           ++ by apply (Hc1 Herr1 e).
      * destruct Hrest as [Hg Hleaf]. split; [eauto using plan_grows_trans|].
        done.
Qed.

(** X24.  [Builder::AddTargets] never exits through the plan.  When it
    returns true on an empty plan, every target has its in-edge in the plan
    unless the outputs of that edge are ready, and the plan is closed under
    the in-edges of inputs whose outputs are not ready, in the graph as the
    scan left it.  When it returns false, either the scan failed and the
    plan is as it was, or the error names a dirty node without in-edge as
    missing and without a rule to make it. *)
Theorem Builder_AddTargets_plans fuel nodes b r :
  want_ (plan_ b) = ∅ ->
  builder_add_targets fuel nodes b = Some r ->
  match r with
  | Returned true b' =>
      (forall node, node ∈ nodes -> planned b' node) /\ plan_closed b'
  | Returned false b' =>
      plan_ b' = plan_ b \/ missing_leaf (graph_ b') (err_ (graph_ b'))
  | FatalExit msg =>
      RecomputeNodesDirty disk_interface_ build_log deps_log
        DepfileParser_Parse CanonicalizePath HashCommand kEvalRecursionLimit
        shell_escape EvaluateBindingInScope ScopeEvaluateVariable
        GetOptimalThreadPoolJobCount fuel nodes (graph_ b)
      = Some (FatalExit msg)
  end.
Proof.
  intros Hempty. unfold Builder_AddTargets.
  destruct (RecomputeNodesDirty _ _ _ _ _ _ _ _ _ _ _ _ _ _)
    as [[[] c|msg]|]; [| | |done].
  - intros Hrun. apply add_targets_post in Hrun.
    destruct r as [[] b'|msg]; [| |done].
    + destruct Hrun as (_ & _ & Hp & Hcl). split; [done|]. apply Hcl.
      intros e i [x Hx]. cbn in Hx. by rewrite Hempty in Hx.
    + right. apply Hrun.
  - intros [= <-]. by left.
  - by intros [= <-].
Qed.

End BuilderTargetsFacts.

(** ** What [Builder::Cleanup] removes *)

Section CleanupMore.

Context {D : Type} `{DiskInterface D}.
Variable IsPhonyOutput : Edge -> bool.
Variable GetUnescapedDepfile : Edge -> string.

Lemma cleanup_outputs_removes depfile outputs (disk : D) p :
  RemoveFileCall p ∈ (cleanup_outputs depfile outputs disk).2 ->
  exists o, o ∈ outputs /\ p = path_ o.
Proof.
  revert disk. induction outputs as [|o outputs IH]; intros disk; cbn.
  - by intros ?%elem_of_nil.
  - destruct (cleanup_output depfile o disk) as [disk1 events] eqn:Hout.
    destruct (cleanup_outputs depfile outputs disk1) as [disk2 events'] eqn:Hrest.
    cbn. intros [Hin|Hin]%elem_of_app.
    + exists o. split; [by left|]. unfold cleanup_output in Hout.
      destruct (_ && _); injection Hout as _ <-;
        repeat (apply elem_of_app in Hin as [Hin|Hin]);
        try (destruct (_ =? -1); [apply list_elem_of_singleton in Hin|
                                  apply elem_of_nil in Hin]; done).
      by apply list_elem_of_singleton in Hin as [= ->].
    + destruct (IH disk1 ltac:(by rewrite Hrest)) as (o' & Ho' & ->).
      exists o'. split; [by right|done].
Qed.

Lemma cleanup_edge_removes e outputs (disk : D) p :
  RemoveFileCall p
    ∈ (cleanup_edge IsPhonyOutput GetUnescapedDepfile e outputs disk).2 ->
  IsPhonyOutput e = false
  /\ ((p = GetUnescapedDepfile e /\ p <> "")
      \/ exists o, o ∈ outputs /\ p = path_ o).
Proof.
  unfold cleanup_edge. destruct (IsPhonyOutput e); [by intros ?%elem_of_nil|].
  destruct (cleanup_outputs _ outputs disk) as [disk1 events] eqn:Hout.
  intros Hin. split; [done|].
  destruct (String.eqb_spec (GetUnescapedDepfile e) "") as [Hd|Hd]; cbn in Hin.
  - right. apply (cleanup_outputs_removes (GetUnescapedDepfile e) _ disk).
    by rewrite Hout.
  - apply elem_of_app in Hin as [Hin|Hin].
    + right. apply (cleanup_outputs_removes (GetUnescapedDepfile e) _ disk).
    by rewrite Hout.
    + left. by apply list_elem_of_singleton in Hin as [= ->].
Qed.

Lemma cleanup_edge_depfile e outputs (disk : D) :
  IsPhonyOutput e = false -> GetUnescapedDepfile e <> "" ->
  RemoveFileCall (GetUnescapedDepfile e)
    ∈ (cleanup_edge IsPhonyOutput GetUnescapedDepfile e outputs disk).2.
Proof.
  intros Hphony Hd. unfold cleanup_edge. rewrite Hphony.
  destruct (cleanup_outputs _ outputs disk) as [disk1 events].
  destruct (String.eqb_spec (GetUnescapedDepfile e) "") as [|_]; [done|].
  cbn. apply elem_of_app. right. by left.
Qed.

(** X25.  [Builder::Cleanup] removes nothing when there is no command
    runner.  Otherwise every file it removes is an output or the depfile of
    an active edge that is not a phony-output edge, and the depfile of
    every such edge that has one is removed. *)
Theorem Cleanup_removes_only
    (active_edges : option (list (Edge * list Node))) (disk : D) :
  let events :=
    (Cleanup IsPhonyOutput GetUnescapedDepfile active_edges disk).2 in
  (active_edges = None -> events = [])
  /\ (forall p, RemoveFileCall p ∈ events ->
        exists edges e outputs,
          active_edges = Some edges /\ (e, outputs) ∈ edges
          /\ IsPhonyOutput e = false
          /\ ((p = GetUnescapedDepfile e /\ p <> "")
              \/ exists o, o ∈ outputs /\ p = path_ o))
  /\ (forall edges e outputs,
        active_edges = Some edges -> (e, outputs) ∈ edges ->
        IsPhonyOutput e = false -> GetUnescapedDepfile e <> "" ->
        RemoveFileCall (GetUnescapedDepfile e) ∈ events).
Proof.
  cbn zeta. split; [by intros ->|].
  destruct active_edges as [edges|]; cbn [Cleanup];
    [|split; [by intros p ?%elem_of_nil|done]].
  revert disk. induction edges as [|[e outputs] edges IH]; intros disk.
  - split; [by intros p ?%elem_of_nil|]. intros ? e outputs [= <-] Hin.
    by apply elem_of_nil in Hin.
  - cbn [cleanup_edges].
    destruct (cleanup_edge _ _ e outputs disk) as [disk1 events] eqn:Hedge.
    destruct (IH disk1) as [IHonly IHdepfile].
    destruct (cleanup_edges _ _ edges disk1) as [disk2 events']. cbn in *.
    split.
    + intros p [Hin|Hin]%elem_of_app.
      * exists ((e, outputs) :: edges), e, outputs. split; [done|].
        split; [by left|]. apply (cleanup_edge_removes _ _ disk).
        by rewrite Hedge.
      * destruct (IHonly p Hin) as (? & e' & outputs' & [= <-] & Hin' & Hrest).
        exists ((e, outputs) :: edges), e', outputs'. split; [done|].
        split; [by right|done].
    + intros ? e' outputs' [= <-] Hin Hphony Hd. apply elem_of_app.
      apply elem_of_cons in Hin as [[= -> ->]|Hin].
      * left. pose proof (cleanup_edge_depfile e outputs disk Hphony Hd) as Hr.
        by rewrite Hedge in Hr.
      * right. by apply (IHdepfile edges e' outputs').
Qed.

End CleanupMore.

(** ** [Node::PathDecanonicalized] *)

(** The mask of the loop after [k] slashes. *)
Lemma land_pow2_testbit (a : Z) (k : nat) :
  negb (Z.land a (2 ^ Z.of_nat k) =? 0) = Z.testbit a (Z.of_nat k).
Proof.
  destruct (Z.testbit a (Z.of_nat k)) eqn:Hbit.
  - apply negb_true_iff, Z.eqb_neq. intros Hzero.
    assert (Z.testbit (Z.land a (2 ^ Z.of_nat k)) (Z.of_nat k) = true) as Hk
      by (rewrite Z.land_spec, Hbit, Z.pow2_bits_true; [done|lia]).
    rewrite Hzero, Z.bits_0 in Hk. discriminate Hk.
  - apply negb_false_iff, Z.eqb_eq, Z.bits_inj'. intros n Hn.
    rewrite Z.land_spec, Z.bits_0, Z.pow2_bits_eqb by lia.
    destruct (Z.eqb_spec (Z.of_nat k) n) as [<-|_];
      [by rewrite Hbit|apply andb_false_r].
Qed.

Lemma decanonicalize_spec slash_bits (k : nat) path :
  (forall i, String.get i path <> Some "000"%char) ->
  let mask := if (k <? 64)%nat then 2 ^ Z.of_nat k else 0 in
  let result := decanonicalize slash_bits mask path in
  String.length result = String.length path
  /\ forall i c,
       String.get i path = Some c ->
       String.get i result
       = Some (if Ascii.eqb c "/"
                  && (k + slashes_before path i <? 64)%nat
                  && Z.testbit slash_bits
                       (Z.of_nat (k + slashes_before path i))
               then "092"%char else c).
Proof.
  revert k. induction path as [|c rest IH]; intros k Hnul; cbn zeta.
  - split; [done|]. by intros [|i] c.
  - cbn [decanonicalize].
    destruct (Ascii.eqb_spec c "000") as [->|_]; [by destruct (Hnul 0%nat)|].
    assert (forall i, String.get i rest <> Some "000"%char) as Hrest
      by (intros i; apply (Hnul (S i))).
    destruct (Ascii.eqb_spec c "/") as [->|Hc].
    + assert (Z.shiftl (if (k <? 64)%nat then 2 ^ Z.of_nat k else 0) 1
              mod 2 ^ 64
              = if (S k <? 64)%nat then 2 ^ Z.of_nat (S k) else 0) as ->.
      { rewrite Z.shiftl_mul_pow2 by lia.
        destruct (Nat.ltb_spec k 64) as [Hk|Hk];
          destruct (Nat.ltb_spec (S k) 64) as [Hk'|Hk']; try lia.
        - rewrite Nat2Z.inj_succ, Z.pow_succ_r by lia.
          pose proof (Z.pow_le_mono_r 2 (Z.of_nat k) 62) as Hle.
          change (2 ^ 62) with 4611686018427387904 in Hle.
          change (2 ^ 64) with 18446744073709551616.
          change (2 ^ 1) with 2. rewrite Z.mod_small; lia.
        - assert (k = 63%nat) as -> by lia. reflexivity.
        - reflexivity. }
      destruct (IH (S k) Hrest) as [Hlen Hget]. split; [cbn [String.length]; f_equal; exact Hlen|].
      intros [|i] c.
      * cbn [String.get slashes_before]. intros [= <-].
        rewrite Nat.add_0_r. f_equal.
        destruct (Nat.ltb_spec k 64) as [Hk|Hk]; cbn [andb].
        -- by rewrite land_pow2_testbit.
        -- by rewrite Z.land_0_r.
      * cbn [String.get slashes_before]. intros Hi. rewrite (Hget i c Hi).
        cbn [Ascii.eqb Bool.eqb]. by replace (k + (1 + slashes_before rest i))%nat
          with (S k + slashes_before rest i)%nat by lia.
    + destruct (IH k Hrest) as [Hlen Hget]. split; [cbn [String.length]; f_equal; exact Hlen|].
      intros [|i] c'.
      * cbn [String.get slashes_before]. intros [= <-].
        by destruct (Ascii.eqb_spec c "/") as [?|_].
      * cbn [String.get slashes_before]. intros Hi. rewrite (Hget i c' Hi).
        by destruct (Ascii.eqb_spec c "/") as [?|_].
Qed.

(** X27.  Where [_WIN32] is not defined [PathDecanonicalized] returns the
    path as it is.  Where it is, the result has the length of the path and
    differs from a path without NUL only in slashes: the slash that has
    [k] slashes before it is a backslash exactly when bit [k] of
    [slash_bits] is set and [k] is below 64; the mask has run out after 64
    slashes and later ones stay. *)
Theorem Node_PathDecanonicalized_slashes (path : string) (slash_bits : Z) :
  (forall i, String.get i path <> Some "000"%char) ->
  let result := Node_PathDecanonicalized true path slash_bits in
  Node_PathDecanonicalized false path slash_bits = path
  /\ String.length result = String.length path
  /\ forall i c,
       String.get i path = Some c ->
       String.get i result
       = Some (if Ascii.eqb c "/"
                  && (slashes_before path i <? 64)%nat
                  && Z.testbit slash_bits (Z.of_nat (slashes_before path i))
               then "092"%char else c).
Proof.
  intros Hnul result. split; [done|].
  exact (decanonicalize_spec slash_bits 0 path Hnul).
Qed.

Lemma Node_PathDecanonicalized_slashes_witness :
  String.get 1 (Node_PathDecanonicalized true "a/b/c" 2) = Some "/"%char
  /\ String.get 3 (Node_PathDecanonicalized true "a/b/c" 2)
     = Some "092"%char.
Proof.
  assert (forall i, String.get i "a/b/c" <> Some "000"%char) as Hnul
    by (intros i; do 5 (destruct i as [|i]; [discriminate|]); discriminate).
  destruct (Node_PathDecanonicalized_slashes "a/b/c" 2 Hnul)
    as (_ & _ & Hget).
  split; [exact (Hget 1%nat "/"%char eq_refl)
         |exact (Hget 3%nat "/"%char eq_refl)].
Defined.

Lemma LoadDepsFromLog_inputs_witness :
  match LoadDepsFromLog {[ 0%nat := mkDeps 100 [1%nat] ]} 0%nat
          (deps_graph gcc_rule true) with
  | (true, w') =>
      inputs_ (edge_at w' 0%nat) = [1%nat; 1%nat]
      /\ implicit_deps_ (edge_at w' 0%nat) = 1%nat
  | _ => False
  end.
Proof.
  destruct (LoadDepsFromLog {[ 0%nat := mkDeps 100 [1%nat] ]} 0%nat
              (deps_graph gcc_rule true)) as [[] w'] eqn:Hrun;
    [|vm_compute in Hrun; discriminate Hrun].
  destruct (LoadDepsFromLog_inputs _ 0%nat (deps_graph gcc_rule true) w'
              (Nat.lt_0_succ 0) Hrun)
    as (deps & Hget & _ & Hin & Himplicit & _).
  vm_compute in Hget. injection Hget as <-. by split.
Defined.

Lemma LoadDepFile_inputs_witness :
  match LoadDepFile ({[ "obj.d" := SimRegular 101 "obj: hdr" ]} : SimDisk)
          (split_depfile "") Canonical 0%nat "obj.d"
          (deps_graph depfile_rule false) with
  | (true, w') =>
      inputs_ (edge_at w' 0%nat) = [1%nat; 2%nat]
      /\ path_ (node_at w' 2%nat) = "hdr"
  | _ => False
  end.
Proof.
  destruct (LoadDepFile ({[ "obj.d" := SimRegular 101 "obj: hdr" ]} : SimDisk)
              (split_depfile "") Canonical 0%nat "obj.d"
              (deps_graph depfile_rule false)) as [[] w'] eqn:Hrun;
    [|vm_compute in Hrun; discriminate Hrun].
  destruct (LoadDepFile_inputs _ _ _ 0%nat _ (deps_graph depfile_rule false) w'
              (Nat.lt_0_succ 0) Hrun)
    as (content & out & ins & ins_nodes & _ & _ & _ & _ & _ & Hin & _).
  vm_compute in Hrun. injection Hrun as <-. by split.
Defined.

Lemma cycle_graph_collect_range : collect_range ∅ cycle_graph.
Proof. split; [apply cycle_graph_ids|apply cycle_graph_fresh]. Qed.

Lemma cycle_graph_first_node (n : NodeId) :
  n ∈ [0%nat] -> (n < length (nodes_ cycle_graph))%nat.
Proof. intros ->%list_elem_of_singleton. cbn. lia. Qed.

Lemma CollectPrecomputeLists_once_witness :
  exists c : Collected,
    collect_initial ∅ 3 [0%nat] (mkCollected [] [] cycle_graph) = Some c
    /\ NoDup (all_nodes c) /\ NoDup (all_edges c).
Proof.
  destruct (CollectPrecomputeLists_once ∅ 3 [0%nat] cycle_graph
              cycle_graph_collect_range cycle_graph_first_node
              (Nat.lt_succ_diag_r 2))
    as (c & Hrun & Hnodes & Hedges & _).
  by exists c.
Defined.

Lemma CollectPrecomputeLists_closed_witness :
  match collect_initial ∅ 3 [0%nat] (mkCollected [] [] cycle_graph) with
  | Some c => 1%nat ∈ all_nodes c /\ 1%nat ∈ all_edges c
  | None => False
  end.
Proof.
  destruct (collect_initial ∅ 3 [0%nat] (mkCollected [] [] cycle_graph))
    as [c|] eqn:Hrun; [|vm_compute in Hrun; discriminate Hrun].
  destruct (CollectPrecomputeLists_closed ∅ 3 [0%nat] cycle_graph c
              cycle_graph_collect_range cycle_graph_first_node
              (fun n => match n with 0 | 1 | _ => eq_refl end%nat)
              (fun e => match e with 0 | 1 | _ => eq_refl end%nat) Hrun)
    as (Hinit & Hin & Hinputs & _).
  assert (0%nat ∈ all_edges c) as He0
    by (apply (Hin 0%nat); [apply Hinit; by left|reflexivity]).
  assert (1%nat ∈ all_nodes c) as Hn1 by (apply (Hinputs 0%nat); [done|by left]).
  split; [done|]. by apply (Hin 1%nat).
Defined.

Lemma deps_graph_fresh rule deps : fresh (deps_graph rule deps).
Proof.
  split.
  - by intros [|e].
  - intros [|[|n]] e; cbn; intros [= <-]. lia.
Qed.

Lemma RecomputeNodesDirty_returns_witness :
  exists r, sim_RecomputeNodesDirty ∅ None ∅ 3 [0%nat] cycle_graph = Some r.
Proof.
  exact (RecomputeNodesDirty_returns (∅ : SimDisk) None ∅ (split_depfile "")
           Canonical (fun s => Z.of_nat (String.length s)) 16 id
           (fun _ => literal_text) (fun _ _ _ => "") 1 3 [0%nat] cycle_graph
           cycle_graph_fresh cycle_graph_ids cycle_graph_first_node
           (Nat.lt_succ_diag_r 2) (Nat.lt_succ_diag_r 2)).
Defined.

Lemma RecomputeNodeDirty_visits_reachable_witness :
  match sim_RecomputeNodeDirty header_disk None ∅ 4 0%nat
          (deps_graph depfile_rule false) with
  | Some (Returned true w') =>
      (mark_ (edge_at w' 0%nat) = VisitDone \/ inert (edge_at w' 0%nat))
      /\ ~ tc (edge_succ w') 0%nat 0%nat
  | _ => False
  end.
Proof.
  destruct (sim_RecomputeNodeDirty header_disk None ∅ 4 0%nat
              (deps_graph depfile_rule false)) as [[[] w'|]|] eqn:Hrun;
    try (vm_compute in Hrun; discriminate Hrun).
  exact (RecomputeNodeDirty_visits_reachable header_disk None ∅
           (split_depfile "") Canonical 16 id (fun _ => literal_text)
           (fun _ _ _ => "") 4 0%nat (deps_graph depfile_rule false) w'
           0%nat 0%nat (deps_graph_fresh _ _) Hrun eq_refl (rtc_refl _ _)).
Defined.

Lemma RecomputeNodeDirty_only_grows_witness :
  match sim_RecomputeNodeDirty header_disk None ∅ 4 0%nat
          (deps_graph depfile_rule false) with
  | Some (Returned ok w') =>
      (2 <= length (nodes_ w'))%nat /\ (1 <= length (edges_ w'))%nat
  | _ => False
  end.
Proof.
  destruct (sim_RecomputeNodeDirty header_disk None ∅ 4 0%nat
              (deps_graph depfile_rule false)) as [[ok w'|]|] eqn:Hrun;
    try (vm_compute in Hrun; discriminate Hrun).
  destruct (RecomputeNodeDirty_only_grows header_disk None ∅
              (split_depfile "") Canonical 16 id (fun _ => literal_text)
              (fun _ _ _ => "") 4 0%nat (deps_graph depfile_rule false) ok w'
              Hrun) as (Hnodes & Hedges & _).
  exact (conj Hnodes Hedges).
Defined.

Lemma AddTarget_returns_witness :
  exists ok b',
    free_AddTarget 5 2%nat (new_Build plan_graph tt) = Some (ok, b')
    /\ edges_ (graph_ b') = edges_ plan_graph.
Proof.
  destruct (AddTarget_returns unit (fun _ _ => false) (fun _ p => p)
              (fun _ p r => (p, r)) (fun _ p => p) (fun _ p => p) 5 2%nat
              (new_Build plan_graph tt) ltac:(cbn; lia))
    as (ok & b' & Hrun & _ & Hedges & _).
  by exists ok, b'.
Defined.

Lemma AddTarget_closed_witness :
  match free_AddTarget 5 2%nat (new_Build plan_graph tt) with
  | Some (ok, b') => planned b' 2%nat
  | None => False
  end.
Proof.
  destruct (free_AddTarget 5 2%nat (new_Build plan_graph tt))
    as [[ok b']|] eqn:Hrun; [|vm_compute in Hrun; discriminate Hrun].
  destruct (AddTarget_closed unit _ _ _ _ 5 2%nat (new_Build plan_graph tt)
              ok b' eq_refl Hrun) as [Hok _].
  apply Hok. vm_compute in Hrun. by injection Hrun as <- <-.
Defined.

Lemma EdgeFinished_effect_witness :
  match plan_added with
  | Some b =>
      match free_EdgeFinished 5 0%nat kEdgeSucceeded b with
      | Some b' => want_ (plan_ b') !! 0%nat = None
      | None => False
      end
  | None => False
  end.
Proof.
  destruct plan_added as [b|] eqn:Hadd; [|vm_compute in Hadd; discriminate Hadd].
  destruct (free_EdgeFinished 5 0%nat kEdgeSucceeded b) as [b'|] eqn:Hrun.
  - destruct (EdgeFinished_effect unit _ _ _ _ _ 5 0%nat kEdgeSucceeded b b'
                Hrun) as (_ & Hgone & _).
    exact (proj1 (Hgone eq_refl)).
  - vm_compute in Hadd. injection Hadd as <-. vm_compute in Hrun.
    discriminate Hrun.
Defined.

Lemma Plan_wanted_edges_witness :
  match free_plan_calls None 5
          [CallAddTarget 2%nat; CallFindWork;
           CallEdgeFinished 0%nat kEdgeSucceeded]
          (new_Build plan_graph tt) with
  | Some b' => wanted_edges_ (plan_ b') = wanted_count b'
  | None => False
  end.
Proof.
  destruct (free_plan_calls None 5
              [CallAddTarget 2%nat; CallFindWork;
               CallEdgeFinished 0%nat kEdgeSucceeded]
              (new_Build plan_graph tt)) as [b'|] eqn:Hrun;
    [|vm_compute in Hrun; discriminate Hrun].
  refine (Plan_wanted_edges unit _ _ _ _ _ _ None 5 _ plan_graph tt b' _ Hrun).
  intros node Hin.
  repeat (apply elem_of_cons in Hin as [Hin|Hin]; [discriminate Hin|]).
  by apply elem_of_nil in Hin.
Defined.

Lemma CleanNode_effect_witness :
  match plan_added with
  | Some b =>
      match free_CleanNode None 5 1%nat b with
      | Some (ok, b') =>
          ok = true /\ dirty_ (node_at (graph_ b') 1%nat) = false
      | None => False
      end
  | None => False
  end.
Proof.
  destruct plan_added as [b|] eqn:Hadd; [|vm_compute in Hadd; discriminate Hadd].
  destruct (free_CleanNode None 5 1%nat b) as [[ok b']|] eqn:Hrun.
  - destruct (CleanNode_effect unit (fun _ _ => false) (fun _ p => p)
                (fun _ p r => (p, r)) (fun _ p => p) (fun _ p => p)
                (fun _ => false) None 5 1%nat b ok b' Hrun)
      as (Hok & Hclean & _).
    exact (conj Hok Hclean).
  - vm_compute in Hadd. injection Hadd as <-. vm_compute in Hrun.
    discriminate Hrun.
Defined.

Lemma GetOutEdges_order_witness :
  GetOutEdges (foldr AddOutEdge (graph_node "a" None) [1%nat; 0%nat])
  = GetOutEdges (foldr AddOutEdge (graph_node "a" None) [0%nat; 1%nat]).
Proof.
  exact (proj1 (GetOutEdges_order (graph_node "a" None) _ _
                  (perm_swap 0%nat 1%nat []))).
Defined.

Lemma Builder_AddTargets_plans_witness :
  match sim_AddTargets 4 [0%nat] (new_Build null_build_graph tt) with
  | Some (Returned true b') =>
      (forall node, node ∈ [0%nat] -> planned b' node) /\ plan_closed b'
  | _ => False
  end.
Proof.
  destruct (sim_AddTargets 4 [0%nat] (new_Build null_build_graph tt))
    as [[[] b'|]|] eqn:Hrun; try (vm_compute in Hrun; discriminate Hrun).
  exact (Builder_AddTargets_plans _ _ _ _ _ _ _ _ _ _ _ _ _ _ _ _ 4 [0%nat]
           (new_Build null_build_graph tt) (Returned true b') eq_refl Hrun).
Defined.

Lemma PrecomputeNodesDirty_edges_valid_witness :
  valid (dep_scan_info_
           (edge_at (PrecomputeNodesDirty null_build_disk
                       (fun s => Z.of_nat (String.length s)) 16 id
                       (fun _ => literal_text) (fun _ _ _ => "") 1
                       [0%nat; 1%nat] [0%nat] null_build_graph).2 0%nat))
  = true.
Proof.
  pose proof (PrecomputeNodesDirty_edges_valid null_build_disk
                (fun s => Z.of_nat (String.length s)) 16 id
                (fun _ => literal_text) (fun _ _ _ => "") 1
                [0%nat; 1%nat] [0%nat] null_build_graph) as Hvalid.
  destruct (PrecomputeNodesDirty null_build_disk
              (fun s => Z.of_nat (String.length s)) 16 id
              (fun _ => literal_text) (fun _ _ _ => "") 1
              [0%nat; 1%nat] [0%nat] null_build_graph) as [[] w'] eqn:Hrun.
  - apply Hvalid; [by left|exact (Nat.lt_0_succ 0)].
  - vm_compute in Hrun. discriminate Hrun.
Defined.

Lemma FindWork_first_witness :
  match plan_added with
  | Some b =>
      match FindWork unit b with
      | (Some edge, b') =>
          edge ∈ ready_ (plan_ b) /\ want_ (plan_ b') = want_ (plan_ b)
      | (None, _) => False
      end
  | None => False
  end.
Proof.
  destruct plan_added as [b|] eqn:Hadd; [|vm_compute in Hadd; discriminate Hadd].
  pose proof (FindWork_first unit b) as Hfirst.
  destruct (FindWork unit b) as [[edge|] b'].
  - destruct Hfirst as (Hin & _ & _ & Hwant & _). exact (conj Hin Hwant).
  - destruct Hfirst as [Hempty _]. vm_compute in Hadd. injection Hadd as <-.
    vm_compute in Hempty. discriminate Hempty.
Defined.

Lemma DryRun_first_in_first_out_witness :
  let result := mkCommandResult None ExitFailure "" in
  let runner := (DryRun_StartCommand 3%nat
                   (DryRun_StartCommand 7%nat []).2).2 in
  (DryRun_WaitForCommand result runner).1.2
  = mkCommandResult (Some 7%nat) ExitSuccess "".
Proof.
  exact (proj2 (proj2 (proj2 (DryRun_first_in_first_out [7%nat; 3%nat]
                                (mkCommandResult None ExitFailure ""))))
           7%nat [3%nat] eq_refl).
Defined.

Lemma Cleanup_removes_only_witness :
  RemoveFileCall "out.d"
    ∈ (Cleanup (fun _ => false) (fun _ => "out.d")
         (Some [(interrupted_edge, [interrupted_output])]) unreadable_disk).2.
Proof.
  refine (proj2 (proj2 (Cleanup_removes_only (fun _ => false)
                          (fun _ => "out.d")
                          (Some [(interrupted_edge, [interrupted_output])])
                          unreadable_disk))
            _ interrupted_edge [interrupted_output] eq_refl _ eq_refl _);
    [by left|discriminate].
Defined.

(** ** Missing and stale entries of the deps log *)

Section DepsMissing.

Context {D : Type} `{DiskInterface D}.
Variable disk_interface_ : D.
Variable build_log : option BuildLog.
Variable deps_log : DepsLog.
Variable DepfileParser_Parse : string -> DepfileParse.
Variable CanonicalizePath : string -> Canonicalize.
Variable HashCommand : string -> Z.
Variable kEvalRecursionLimit : nat.
Variable shell_escape : string -> string.
Variable EvaluateBindingInScope : Edge -> list Token -> string.
Variable ScopeEvaluateVariable : EvalPhase -> Edge -> string -> string.

Local Open Scope nat_scope.
Implicit Types (w : Scan) (n node : NodeId) (e edge : EdgeId).

Local Abbreviation stat_if_necessary := (StatIfNecessary disk_interface_).
Local Abbreviation stat_outs := (stat_outputs disk_interface_).
Local Abbreviation load_deps :=
  (LoadDeps disk_interface_ deps_log DepfileParser_Parse CanonicalizePath
     kEvalRecursionLimit shell_escape EvaluateBindingInScope
     ScopeEvaluateVariable).
Local Abbreviation load_deps_computing :=
  (LoadDeps_computing disk_interface_ deps_log DepfileParser_Parse
     CanonicalizePath HashCommand kEvalRecursionLimit shell_escape
     EvaluateBindingInScope ScopeEvaluateVariable).
Local Abbreviation compute_info :=
  (ComputeDepScanInfo HashCommand kEvalRecursionLimit shell_escape
     EvaluateBindingInScope ScopeEvaluateVariable).
Local Abbreviation evaluate_variable :=
  (Edge_EvaluateVariable kEvalRecursionLimit shell_escape
     EvaluateBindingInScope ScopeEvaluateVariable).
Local Abbreviation visit_in_edge :=
  (visit_edge disk_interface_ build_log deps_log DepfileParser_Parse
     CanonicalizePath kEvalRecursionLimit shell_escape EvaluateBindingInScope
     ScopeEvaluateVariable).
Local Abbreviation recompute :=
  (RecomputeNodeDirty disk_interface_ build_log deps_log DepfileParser_Parse
     CanonicalizePath kEvalRecursionLimit shell_escape EvaluateBindingInScope
     ScopeEvaluateVariable).

(** The stat() calls look at the nodes and the error string only. *)
Lemma StatIfNecessary_files n w w0 :
  nodes_ w = nodes_ w0 -> err_ w = err_ w0 ->
  (stat_if_necessary n w).1 = (stat_if_necessary n w0).1
  /\ nodes_ (stat_if_necessary n w).2 = nodes_ (stat_if_necessary n w0).2
  /\ err_ (stat_if_necessary n w).2 = err_ (stat_if_necessary n w0).2.
Proof.
  intros Hn He. unfold StatIfNecessary, Node_Stat, node_at.
  rewrite Hn. destruct (status_known _); [done|].
  destruct (negb _); cbn; by rewrite ?Hn, ?He.
Qed.

Lemma stat_outputs_files outputs w w0 :
  nodes_ w = nodes_ w0 -> err_ w = err_ w0 ->
  (stat_outs outputs w).1 = (stat_outs outputs w0).1
  /\ nodes_ (stat_outs outputs w).2 = nodes_ (stat_outs outputs w0).2
  /\ err_ (stat_outs outputs w).2 = err_ (stat_outs outputs w0).2.
Proof.
  revert w w0. induction outputs as [|o outputs IH]; intros w w0 Hn He; cbn;
    [done|].
  destruct (StatIfNecessary_files o w w0 Hn He) as (H1 & H2 & H3).
  destruct (stat_if_necessary o w) as [ok w1].
  destruct (stat_if_necessary o w0) as [ok0 w1']. cbn in *. subst ok0.
  destruct ok; [by apply IH|done].
Qed.

(** A stat() call leaves the other nodes, and a node whose mtime is known,
    as they are. *)
Lemma StatIfNecessary_keeps n m w :
  n <> m \/ status_known (node_at w m) = true \/ length (nodes_ w) <= m ->
  node_at (stat_if_necessary n w).2 m = node_at w m.
Proof.
  intros Hm. unfold StatIfNecessary.
  destruct (status_known (node_at w n)) eqn:Hknown; [done|].
  assert (~ (n = m /\ n < length (nodes_ w))) as Hne.
  { intros [-> Hlt]. destruct Hm as [?|[Hk|?]]; [done| |lia]. congruence. }
  destruct (negb _); cbn; [|unfold Node_Stat; cbn];
    rewrite node_at_update_node; by rewrite decide_False.
Qed.

Lemma StatIfNecessary_known n w w' :
  stat_if_necessary n w = (true, w') ->
  length (nodes_ w') = length (nodes_ w)
  /\ (status_known (node_at w' n) = true \/ length (nodes_ w) <= n).
Proof.
  unfold StatIfNecessary.
  destruct (status_known (node_at w n)) eqn:Hknown;
    [intros [= <-]; split; [done|by left]|].
  destruct (decide (n < length (nodes_ w))) as [Hlt|Hge].
  2:{ intros Hrun.
      assert (length (nodes_ w') = length (nodes_ w)) as Hlen.
      { destruct (negb _);
          [injection Hrun as <-
          |unfold Node_Stat in Hrun; cbn in Hrun; injection Hrun as _ <-];
          cbn; by rewrite length_alter. }
      split; [done|right; lia]. }
  destruct (negb (precomputed_mtime_ _ =? -1)%Z) eqn:Hpre.
  - intros [= <-]. cbn. rewrite length_alter. split; [done|]. left.
    rewrite node_at_update_node, decide_True by done. exact Hpre.
  - unfold Node_Stat. cbn. intros [= Hok <-]. cbn. rewrite length_alter.
    split; [done|]. left.
    match goal with |- status_known (node_at (update_node n ?f ?w0) n) = _ =>
      rewrite (node_at_update_node n f w0 n), decide_True by done end.
    exact Hok.
Qed.

Lemma stat_outputs_keeps outputs m w w' :
  stat_outs outputs w = (true, w') ->
  status_known (node_at w m) = true \/ length (nodes_ w) <= m ->
  node_at w' m = node_at w m.
Proof.
  revert w. induction outputs as [|o outputs IH]; intros w; cbn.
  - by intros [= <-].
  - destruct (stat_if_necessary o w) as [[] w1] eqn:Hstat; [|done].
    intros Hrest Hm.
    assert (node_at w1 m = node_at w m) as Hsame.
    { change w1 with (true, w1).2. rewrite <- Hstat.
      apply StatIfNecessary_keeps. tauto. }
    apply StatIfNecessary_known in Hstat as [Hlen _].
    rewrite (IH w1 Hrest); [done|]. rewrite Hsame, Hlen. exact Hm.
Qed.

Lemma stat_outputs_first o rest w w' :
  stat_outs (o :: rest) w = (true, w') ->
  node_at w' o = node_at (stat_if_necessary o w).2 o.
Proof.
  cbn. destruct (stat_if_necessary o w) as [[] w1] eqn:Hstat; [|done].
  intros Hrest. cbn. apply (stat_outputs_keeps rest); [done|].
  apply StatIfNecessary_known in Hstat as [-> Hknown]. exact Hknown.
Qed.

(** A visit of the inputs that fails has failed in an input. *)
Lemma visit_inputs_failed_input visit edge inputs index dirty mri w l :
  visit_inputs visit edge inputs index dirty mri w = Some (Returned false l) ->
  exists i w0, i ∈ inputs /\ visit i w0 = Some (Returned false (loop_scan l)).
Proof.
  revert index dirty mri w.
  induction inputs as [|i inputs IH]; intros index dirty mri w; cbn; [done|].
  destruct (visit i w) as [[[] w1|msg]|] eqn:Hv; [| |done..].
  - destruct (if negb (is_order_only _ _) then _ else _) as [dirty' mri'].
    intros Hrest. destruct (IH _ _ _ _ Hrest) as (i' & w0 & Hin & Hfail).
    exists i', w0. split; [by right|done].
  - intros [= <-]. exists i, w. split; [by left|done].
Qed.

(** The state in which [RecomputeNodeDirty] calls [LoadDeps] for the
    in-edge of [node]. *)
Lemma RecomputeNodeDirty_enters fuel node edge w r :
  in_edge_ (node_at w node) = Some edge ->
  edge < length (edges_ w) ->
  mark_ (edge_at w edge) = VisitNone ->
  recompute (S fuel) node w = Some r ->
  let w4 := update_edge edge (with_deps_missing false)
              (update_edge edge (with_outputs_ready true)
                 (set_stack (stack_ w ++ [node])
                    (update_edge edge (with_mark VisitInStack) w))) in
  let w5 := (stat_outs (outputs_ (edge_at w edge)) w4).2 in
  edge_at w5 edge
  = with_deps_missing false
      (with_outputs_ready true (with_mark VisitInStack (edge_at w edge)))
  /\ edges_ w5 = edges_ w4
  /\ if (stat_outs (outputs_ (edge_at w edge)) w4).1
     then visit_in_edge (recompute fuel) node edge false w5 = Some r
     else r = Returned false w5.
Proof.
  intros Hin Hlt Hnone. cbn. rewrite Hin.
  rewrite bool_decide_false by (rewrite Hnone; done).
  unfold VerifyDAG. rewrite Hin.
  rewrite bool_decide_false by (rewrite Hnone; done). cbn [negb].
  set (w1 := update_edge edge (with_mark VisitInStack) w).
  set (w2 := set_stack (stack_ w ++ [node]) w1).
  set (w3 := update_edge edge (with_outputs_ready true) w2).
  set (w4 := update_edge edge (with_deps_missing false) w3).
  assert (edge_at w4 edge
          = with_deps_missing false
              (with_outputs_ready true
                 (with_mark VisitInStack (edge_at w edge)))) as He4.
  { subst w4 w3 w2 w1.
    rewrite edge_at_update_edge_eq by (cbn; by rewrite !length_alter).
    f_equal.
    match goal with
    | |- edge_at (update_edge edge ?f (set_stack ?s ?w0)) edge = _ =>
        change (edge_at (update_edge edge f w0) edge = f (f (edge_at w edge)))
          || idtac
    end.
    rewrite edge_at_update_edge.
    rewrite decide_True by (split; [done|cbn; by rewrite length_alter]).
    f_equal. change (edge_at (update_edge edge (with_mark VisitInStack) w) edge
                     = with_mark VisitInStack (edge_at w edge)).
    by rewrite edge_at_update_edge_eq. }
  rewrite He4. cbn [outputs_ with_deps_missing with_outputs_ready with_mark].
  pose proof (edges_stat_outputs disk_interface_
                (outputs_ (edge_at w edge)) w4) as Hedges.
  destruct (stat_outs (outputs_ (edge_at w edge)) w4) as [ok w5] eqn:Hstat.
  cbn [fst snd] in *. intros Hrun.
  split; [unfold edge_at in *; by rewrite Hedges|]. split; [done|].
  destruct ok; cbn in Hrun; [done|]. by injection Hrun as <-.
Qed.


(** A visit of the inputs that exits has exited in an input. *)
Lemma visit_inputs_exit_input visit edge inputs index dirty mri w msg :
  visit_inputs visit edge inputs index dirty mri w = Some (FatalExit msg) ->
  exists i w0, i ∈ inputs /\ visit i w0 = Some (FatalExit msg).
Proof.
  revert index dirty mri w.
  induction inputs as [|i inputs IH]; intros index dirty mri w; cbn; [done|].
  destruct (visit i w) as [[[] w1|msg']|] eqn:Hv; [| |intros [= <-]|done].
  - destruct (if negb (is_order_only _ _) then _ else _) as [dirty' mri'].
    intros Hrest. destruct (IH _ _ _ _ Hrest) as (i' & w0 & Hin & Hfail).
    exists i', w0. split; [by right|done].
  - done.
  - exists i, w. split; [by left|done].
Qed.

(** What [ComputeDepScanInfo] returns. *)
Lemma ComputeDepScanInfo_spec w x x' :
  compute_info w x = inl x' ->
  valid (dep_scan_info_ x') = true
  /\ x' = with_dep_scan_info (dep_scan_info_ x') x
  /\ (valid (dep_scan_info_ x) = true -> x' = x).
Proof.
  unfold ComputeDepScanInfo.
  pose proof (PrecomputeDepScanInfo_error HashCommand kEvalRecursionLimit
                shell_escape EvaluateBindingInScope ScopeEvaluateVariable
                w x "") as [Herr Hvalid].
  pose proof (PrecomputeDepScanInfo_edge HashCommand kEvalRecursionLimit
                shell_escape EvaluateBindingInScope ScopeEvaluateVariable
                w x "") as [Hedge _].
  destruct (PrecomputeDepScanInfo _ _ _ _ _ w x "") as [[[] err] y] eqn:Hrun;
    [|done].
  cbn in *. intros [= <-]. destruct Herr as [_ Hv]. split; [done|].
  split; [done|]. intros Hx. specialize (Hvalid Hx). congruence.
Qed.

(** The [deps] bit [ComputeDepScanInfo] computes says whether the [deps]
    binding of the edge is empty. *)
Lemma ComputeDepScanInfo_deps w x x' value err :
  valid (dep_scan_info_ x) = false ->
  compute_info w x = inl x' ->
  evaluate_variable w x "" "deps" "" kFinalScope kShellEscape
  = (true, value, err) ->
  UsesDepsLog x' = negb (String.eqb value "").
Proof.
  intros Hvalid. unfold ComputeDepScanInfo, PrecomputeDepScanInfo.
  rewrite Hvalid.
  pose proof (Edge_EvaluateVariable_error kEvalRecursionLimit shell_escape
                EvaluateBindingInScope ScopeEvaluateVariable w x "" "restat"
                "" kFinalScope kShellEscape) as H1.
  destruct (evaluate_variable w x "" "restat" "" kFinalScope kShellEscape)
    as [[[] v1] e1]; cbn [negb]; [|done]. subst e1.
  pose proof (Edge_EvaluateVariable_error kEvalRecursionLimit shell_escape
                EvaluateBindingInScope ScopeEvaluateVariable w x ""
                "generator" "" kFinalScope kShellEscape) as H2.
  destruct (evaluate_variable w x "" "generator" "" kFinalScope kShellEscape)
    as [[[] v2] e2]; cbn [negb]; [|done]. subst e2.
  intros Hrun Hdeps. rewrite Hdeps in Hrun. cbn [negb] in Hrun.
  destruct (evaluate_variable w x "" "depfile" err kFinalScope kDoNotEscape)
    as [[[] v4] e4]; cbn [negb] in Hrun; [|done].
  destruct (EvaluateCommand _ _ _ _ w x "" true e4) as [[[] v5] e5];
    cbn [negb] in Hrun; [|done].
  by injection Hrun as <-.
Qed.

Lemma update_edge_same edge w :
  update_edge edge (fun _ => edge_at w edge) w = w.
Proof.
  destruct w as [nodes edges stack err]. unfold update_edge, edge_at. cbn.
  f_equal. apply list_eq. intros i.
  rewrite list_lookup_alter. case_decide as Hi; [|done]. rewrite <- Hi.
  match goal with |- _ <$> ?o = _ => destruct o as [y|] eqn:Hy end; [|done].
  cbn. f_equal. by apply list_lookup_total_correct.
Qed.



End DepsMissing.



(** ** The cleanup pass as a whole *)

Section CleanupPass.

Context {D : Type} `{DiskInterface D}.
Variable IsPhonyOutput : Edge -> bool.
Variable GetUnescapedDepfile : Edge -> string.

(** What the pass does when the turn of output [o] comes, on the disk as it
    is then. *)
Local Abbreviation turn depfile o disk :=
  ((if stat_mtime (LStat disk (path_ o)) =? -1
    then [StatusError (written "" (stat_err (LStat disk (path_ o))))]
    else [])
   ++ (if negb (written false (stat_is_dir (LStat disk (path_ o))))
          && (negb (String.eqb depfile "")
              || negb (mtime_ o =? stat_mtime (LStat disk (path_ o))))
       then [RemoveFileCall (path_ o)] else [])).

Lemma replay_removals_app events events' (disk : D) :
  replay_removals (events ++ events') disk
  = replay_removals events' (replay_removals events disk).
Proof. apply foldl_app. Qed.

Lemma cleanup_output_turn depfile o (disk : D) :
  cleanup_output depfile o disk
  = (replay_removals (turn depfile o disk) disk, turn depfile o disk).
Proof.
  unfold cleanup_output.
  destruct (stat_mtime (LStat disk (path_ o)) =? -1);
    by destruct (negb _ && _).
Qed.

Lemma cleanup_outputs_turns depfile outputs (disk : D) :
  let events := (cleanup_outputs depfile outputs disk).2 in
  (cleanup_outputs depfile outputs disk).1 = replay_removals events disk
  /\ forall o, o ∈ outputs ->
       exists before after,
         events
         = before ++ turn depfile o (replay_removals before disk) ++ after.
Proof.
  revert disk. induction outputs as [|o' outputs IH]; intros disk; cbn zeta.
  - split; [done|]. by intros o ?%elem_of_nil.
  - cbn [cleanup_outputs]. rewrite cleanup_output_turn.
    set (step := turn depfile o' disk).
    destruct (IH (replay_removals step disk)) as [IHdisk IHturn].
    destruct (cleanup_outputs depfile outputs (replay_removals step disk))
      as [disk' events'] eqn:Hrest. cbn [fst snd] in *.
    split; [by rewrite replay_removals_app|].
    intros o [->|Hin]%elem_of_cons.
    + by exists [], events'.
    + destruct (IHturn o Hin) as (before & after & ->).
      exists (step ++ before), after.
      by rewrite replay_removals_app, <- !(assoc_L (++)).
Qed.

Lemma cleanup_edge_turns e outputs (disk : D) :
  let run := cleanup_edge IsPhonyOutput GetUnescapedDepfile e outputs disk in
  run.1 = replay_removals run.2 disk
  /\ (IsPhonyOutput e = false ->
      forall o, o ∈ outputs ->
        exists before after,
          run.2
          = before
            ++ turn (GetUnescapedDepfile e) o (replay_removals before disk)
            ++ after).
Proof.
  cbn zeta. unfold cleanup_edge. destruct (IsPhonyOutput e); [done|].
  destruct (cleanup_outputs_turns (GetUnescapedDepfile e) outputs disk)
    as [Hdisk Hturn].
  destruct (cleanup_outputs _ outputs disk) as [disk' events].
  cbn [fst snd] in *.
  destruct (negb _); cbn [fst snd].
  - split; [rewrite replay_removals_app; cbn; by rewrite Hdisk|].
    intros _ o Hin. destruct (Hturn o Hin) as (before & after & ->).
    exists before, (after ++ [RemoveFileCall (GetUnescapedDepfile e)]).
    by rewrite <- !(assoc_L (++)).
  - split; [done|]. intros _. exact Hturn.
Qed.

Lemma cleanup_edges_turns active_edges (disk : D) :
  let run := cleanup_edges IsPhonyOutput GetUnescapedDepfile active_edges disk in
  run.1 = replay_removals run.2 disk
  /\ forall e outputs o,
       (e, outputs) ∈ active_edges -> IsPhonyOutput e = false ->
       o ∈ outputs ->
       exists before after,
         run.2
         = before
           ++ turn (GetUnescapedDepfile e) o (replay_removals before disk)
           ++ after.
Proof.
  revert disk.
  induction active_edges as [|[e' outputs'] active_edges IH]; intros disk;
    cbn zeta.
  - split; [done|]. by intros e outputs o ?%elem_of_nil.
  - cbn [cleanup_edges].
    destruct (cleanup_edge_turns e' outputs' disk) as [Hdisk Hturn].
    destruct (cleanup_edge _ _ e' outputs' disk) as [disk1 events].
    cbn [fst snd] in *. subst disk1.
    destruct (IH (replay_removals events disk)) as [IHdisk IHturn].
    destruct (cleanup_edges _ _ active_edges (replay_removals events disk))
      as [disk2 events']. cbn [fst snd] in *.
    split; [by rewrite replay_removals_app|].
    intros e outputs o [[= -> ->]|Hin]%elem_of_cons Hphony Ho.
    + destruct (Hturn Hphony o Ho) as (before & after & ->).
      exists before, (after ++ events'). by rewrite <- !(assoc_L (++)).
    + destruct (IHturn e outputs o Hin Hphony Ho) as (before & after & ->).
      exists (events ++ before), after.
      by rewrite replay_removals_app, <- !(assoc_L (++)).
Qed.


End CleanupPass.


Section PlanTransitions.

Variable Pools : Type.
Variable ShouldDelayEdge : EdgeId -> Pools -> bool.
Variable DelayEdge : EdgeId -> Pools -> Pools.
Variable RetrieveReadyEdges :
  EdgeId -> Pools -> gset EdgeId -> Pools * gset EdgeId.
Variable EdgeScheduled : EdgeId -> Pools -> Pools.
Variable PoolEdgeFinished : EdgeId -> Pools -> Pools.
Variable IsPhonyOutput : Edge -> bool.
Variable build_log : option BuildLog.

Implicit Types (b : Build Pools) (edge oe : EdgeId) (node : NodeId).
Implicit Types (m before after : gmap EdgeId Want).

Local Abbreviation schedule_work :=
  (ScheduleWork Pools ShouldDelayEdge DelayEdge RetrieveReadyEdges
     EdgeScheduled).
Local Abbreviation add_sub_target :=
  (AddSubTarget Pools ShouldDelayEdge DelayEdge RetrieveReadyEdges
     EdgeScheduled).
Local Abbreviation edge_finished :=
  (EdgeFinished Pools ShouldDelayEdge DelayEdge RetrieveReadyEdges
     EdgeScheduled PoolEdgeFinished).
Local Abbreviation clean_node := (CleanNode Pools IsPhonyOutput build_log).
Local Abbreviation call :=
  (plan_call Pools ShouldDelayEdge DelayEdge RetrieveReadyEdges
     EdgeScheduled PoolEdgeFinished IsPhonyOutput build_log).
Local Abbreviation run_counted :=
  (counted_calls Pools ShouldDelayEdge DelayEdge RetrieveReadyEdges
     EdgeScheduled PoolEdgeFinished IsPhonyOutput build_log).

(** *** Counting the entries of a map *)

Lemma size_filter_insert (P : EdgeId * Want -> Prop)
    `{!forall x, Decision (P x)} m (e : EdgeId) (v : Want) :
  Z.of_nat (size (filter P (<[e := v]> m)))
  = Z.of_nat (size (filter P m))
    - match m !! e with
      | Some y => if decide (P (e, y)) then 1 else 0
      | None => 0
      end
    + (if decide (P (e, v)) then 1 else 0).
Proof.
  rewrite map_filter_insert.
  assert (filter P m !! e
          = match m !! e with
            | Some y => if decide (P (e, y)) then Some y else None
            | None => None
            end) as Hold.
  { destruct (m !! e) as [y|] eqn:Hy.
    - case_decide as Hp.
      + by apply map_lookup_filter_Some_2.
      + apply map_lookup_filter_None. right. intros y' Hy'.
        rewrite Hy in Hy'. by injection Hy' as <-.
    - apply map_lookup_filter_None. by left. }
  destruct (decide (P (e, v))).
  - rewrite map_size_insert, Hold.
    destruct (m !! e) as [y|]; [case_decide|]; cbn; lia.
  - rewrite map_filter_delete, map_size_delete.
    pose proof (map_size_ne_0_lookup_2 (filter P m) e) as Hsize.
    rewrite Hold in *.
    destruct (m !! e) as [y|]; [case_decide|]; cbn; try lia.
    assert (size (filter P m) <> 0%nat) by (apply Hsize; eauto). lia.
Qed.

Lemma size_filter_none (P : EdgeId * Want -> Prop)
    `{!forall x, Decision (P x)} m :
  (forall e x, m !! e = Some x -> ~ P (e, x)) ->
  Z.of_nat (size (filter P m)) = 0.
Proof.
  intros Hnone.
  assert (filter P m = ∅) as ->; [|by rewrite map_size_empty].
  apply map_empty. intros e. apply map_lookup_filter_None.
  right. intros x Hx. by apply Hnone.
Qed.

Lemma promoted_edges w w' before after :
  edges_ w' = edges_ w -> promoted w' before after = promoted w before after.
Proof. intros Heq. unfold promoted, edge_at. by rewrite Heq. Qed.

Lemma demoted_edges_eq w w' before after :
  edges_ w' = edges_ w -> demoted w' before after = demoted w before after.
Proof. intros Heq. unfold demoted, edge_at. by rewrite Heq. Qed.

Lemma promoted_none w before after :
  (forall e x, after !! e = Some x -> x <> kWantNothing ->
               wanted_entry (before !! e) = true) ->
  promoted w before after = 0.
Proof.
  intros Hnone. apply size_filter_none. intros e x Hx (Hw & Hb & _).
  cbn in *. rewrite (Hnone e x) in Hb; done.
Qed.

Lemma demoted_none w before after :
  (forall e, after !! e = Some kWantNothing ->
             wanted_entry (before !! e) = false) ->
  demoted w before after = 0.
Proof.
  intros Hnone. apply size_filter_none. intros e x Hx (Hw & Hb & _).
  cbn in *. subst x. rewrite (Hnone e) in Hb; done.
Qed.

Lemma promoted_same w m : promoted w m m = 0.
Proof.
  apply promoted_none. intros e x Hx Hw. rewrite Hx. by destruct x.
Qed.

Lemma demoted_same w m : demoted w m m = 0.
Proof. apply demoted_none. intros e Hx. by rewrite Hx. Qed.

Lemma promoted_insert w before m edge (v : Want) :
  promoted w before (<[edge := v]> m)
  = promoted w before m
    - match m !! edge with
      | Some y => if bool_decide (y <> kWantNothing)
                     && negb (wanted_entry (before !! edge))
                     && negb (is_phony (edge_at w edge)) then 1 else 0
      | None => 0
      end
    + (if bool_decide (v <> kWantNothing)
          && negb (wanted_entry (before !! edge))
          && negb (is_phony (edge_at w edge)) then 1 else 0).
Proof.
  unfold promoted. rewrite size_filter_insert. cbn.
  assert (forall y : Want,
            (if decide (y <> kWantNothing /\
                        wanted_entry (before !! edge) = false /\
                        is_phony (edge_at w edge) = false) then 1 else 0)
            = (if bool_decide (y <> kWantNothing)
                  && negb (wanted_entry (before !! edge))
                  && negb (is_phony (edge_at w edge)) then 1 else 0))
    as Hsame.
  { intros y. destruct (wanted_entry _), (is_phony _);
      case_decide; case_bool_decide; cbn; try done; intuition congruence. }
  rewrite Hsame. by destruct (m !! edge); rewrite ?Hsame.
Qed.

Lemma demoted_insert w before m edge (v : Want) :
  demoted w before (<[edge := v]> m)
  = demoted w before m
    - match m !! edge with
      | Some y => if bool_decide (y = kWantNothing)
                     && wanted_entry (before !! edge)
                     && negb (is_phony (edge_at w edge)) then 1 else 0
      | None => 0
      end
    + (if bool_decide (v = kWantNothing)
          && wanted_entry (before !! edge)
          && negb (is_phony (edge_at w edge)) then 1 else 0).
Proof.
  unfold demoted. rewrite size_filter_insert. cbn.
  assert (forall y : Want,
            (if decide (y = kWantNothing /\
                        wanted_entry (before !! edge) = true /\
                        is_phony (edge_at w edge) = false) then 1 else 0)
            = (if bool_decide (y = kWantNothing)
                  && wanted_entry (before !! edge)
                  && negb (is_phony (edge_at w edge)) then 1 else 0))
    as Hsame.
  { intros y. destruct (wanted_entry _), (is_phony _);
      case_decide; case_bool_decide; cbn; try done; intuition congruence. }
  rewrite Hsame. by destruct (m !! edge); rewrite ?Hsame.
Qed.

(** *** [AddTarget] *)

Lemma adds_from_refl b : adds_from b b.
Proof. split; [|done..]. rewrite promoted_same. lia. Qed.

Lemma ScheduleWork_want edge b b' :
  schedule_work edge b = Some b' ->
  command_edges_ (plan_ b') = command_edges_ (plan_ b)
  /\ graph_ b' = graph_ b
  /\ (want_ (plan_ b') = want_ (plan_ b)
      \/ want_ (plan_ b') = <[edge := kWantToFinish]> (want_ (plan_ b))).
Proof.
  unfold ScheduleWork.
  destruct (want_ (plan_ b) !! edge) as [[]|] eqn:Hwant; try done.
  - destruct (ShouldDelayEdge _ _); [destruct (RetrieveReadyEdges _ _ _)|];
      intros [= <-]; cbn; auto.
  - intros [= <-]. auto.
Qed.

Lemma add_inputs_adds add inputs b0 b r :
  (forall i b r, add i b = Some r -> adds_from b0 b -> adds_from b0 r.2) ->
  add_inputs Pools add inputs b = Some r ->
  adds_from b0 b -> adds_from b0 r.2.
Proof.
  intros Hadd. revert b. induction inputs as [|i inputs IH]; intros b; cbn.
  - by intros [= <-].
  - destruct (add i b) as [[ok b1]|] eqn:Hi; [|done].
    intros Hrun Hb. apply Hadd in Hi; [|done]. cbn in Hi.
    destruct (negb ok && _).
    + by injection Hrun as <-.
    + by apply (IH b1).
Qed.

Lemma promote_adds edge (v : Want) (k : Z) b0 b1 b4 :
  adds_from b0 b1 ->
  want_ (plan_ b1) !! edge = Some kWantNothing ->
  v <> kWantNothing ->
  want_ (plan_ b4) = <[edge := v]> (want_ (plan_ b1)) ->
  graph_ b4 = graph_ b1 ->
  command_edges_ (plan_ b4)
  = command_edges_ (plan_ b1)
    + (if negb (is_phony (edge_at (graph_ b1) edge)) then 1 else 0) ->
  adds_from b0 b4.
Proof.
  intros [Hcount Hkept Hedges] Hold Hv Hwant Hgraph Hcommand.
  assert (wanted_entry (want_ (plan_ b0) !! edge) = false) as Hb0.
  { destruct (wanted_entry (want_ (plan_ b0) !! edge)) eqn:Hb0; [|done].
    apply Hkept in Hb0. by rewrite Hold in Hb0. }
  split.
  - rewrite Hcommand, Hcount, Hwant, promoted_insert, Hold, Hb0.
    rewrite (bool_decide_false (kWantNothing <> kWantNothing)) by tauto.
    rewrite bool_decide_true by done. cbn [andb negb].
    unfold edge_at. rewrite Hedges. lia.
  - intros e He. rewrite Hwant.
    destruct (decide (e = edge)) as [->|Hne].
    + rewrite lookup_insert_eq. by destruct v.
    + rewrite lookup_insert_ne by done. by apply Hkept.
  - by rewrite Hgraph.
Qed.

Lemma AddSubTarget_adds fuel node dependent b0 b r :
  add_sub_target fuel node dependent b = Some r ->
  adds_from b0 b -> adds_from b0 r.2.
Proof.
  revert node dependent b r.
  induction fuel as [|fuel IH]; intros node dependent b r; [done|]. cbn.
  destruct (in_edge_ (node_at (graph_ b) node)) as [edge|].
  2:{ destruct (dirty_ _); intros [= <-]; [|done].
      intros [Hcount Hkept Hedges]. by split. }
  destruct (outputs_ready_ _); [by intros [= <-]|].
  set (b1 := if bool_decide (want_ (plan_ b) !! edge = None) then _ else b).
  intros Hrun Hb.
  assert (adds_from b0 b1 /\ graph_ b1 = graph_ b) as [Hb1 Hg1].
  { subst b1. case_bool_decide as Hnone; [|done]. split; [|done].
    destruct Hb as [Hcount Hkept Hedges]. split; cbn.
    - rewrite Hcount, promoted_insert, Hnone. cbn.
      rewrite (bool_decide_false (kWantNothing <> kWantNothing)) by tauto.
      cbn. lia.
    - intros e He. apply Hkept in He.
      destruct (decide (e = edge)) as [->|Hne].
      + by rewrite Hnone in He.
      + by rewrite lookup_insert_ne.
    - done. }
  clearbody b1. clear Hb. revert Hrun.
  destruct (dirty_ _).
  2:{ cbn. destruct (negb (bool_decide _)); [intros [= <-]; done|].
      intros Hrest. apply add_inputs_adds with (b0 := b0) in Hrest; [done| |done].
      intros i b' r'. apply IH. }
  cbn [andb].
  destruct (bool_decide (want_ (plan_ b1) !! edge = Some kWantNothing))
    eqn:Hnothing; cbn.
  2:{ destruct (negb (bool_decide _)); [intros [= <-]; done|].
      intros Hrest. apply add_inputs_adds with (b0 := b0) in Hrest; [done| |done].
      intros i b' r'. apply IH. }
  apply bool_decide_eq_true in Hnothing.
  set (phony := is_phony (edge_at (graph_ b) edge)).
  set (b2 := add_wanted_edges Pools 1 _).
  destruct (if AllInputsReady _ _ then _ else Some b2) as [b3|] eqn:Hsched;
    [|done]. cbn.
  set (b4 := if negb phony then _ else b3).
  assert (adds_from b0 b4) as Hb4.
  { assert (command_edges_ (plan_ b3) = command_edges_ (plan_ b1)
            /\ graph_ b3 = graph_ b1
            /\ exists v, v <> kWantNothing
                 /\ want_ (plan_ b3) = <[edge := v]> (want_ (plan_ b1)))
      as (Hc3 & Hg3 & v & Hv & Hw3).
    { destruct (AllInputsReady _ _).
      - apply ScheduleWork_want in Hsched as (Hc & Hg & [Hw|Hw]).
        + rewrite Hc, Hg, Hw. subst b2. cbn. repeat split.
          by exists kWantToStart.
        + rewrite Hc, Hg, Hw. subst b2. cbn. repeat split.
          exists kWantToFinish. split; [done|]. by rewrite insert_insert_eq.
      - injection Hsched as <-. subst b2. cbn. repeat split.
        by exists kWantToStart. }
    apply (promote_adds edge v 0 b0 b1 b4 Hb1 Hnothing Hv).
    - subst b4. by destruct phony.
    - subst b4. by destruct phony.
    - subst b4. rewrite Hg1. fold phony. destruct phony; cbn; lia. }
  clearbody b4.
  destruct (negb (bool_decide _)); [intros [= <-]; done|].
  intros Hrest. apply add_inputs_adds with (b0 := b0) in Hrest; [done| |done].
  intros i b' r'. apply IH.
Qed.

Lemma adds_from_demoted b0 b :
  adds_from b0 b ->
  demoted (graph_ b) (want_ (plan_ b0)) (want_ (plan_ b)) = 0.
Proof.
  intros [_ Hkept _]. apply demoted_none. intros e He.
  destruct (wanted_entry (want_ (plan_ b0) !! e)) eqn:Hb0; [|done].
  apply Hkept in Hb0. by rewrite He in Hb0.
Qed.

(** *** [CleanNode] *)

Lemma same_links_refl w : same_links w w.
Proof. by split. Qed.

Lemma same_links_trans w1 w2 w3 :
  same_links w1 w2 -> same_links w2 w3 -> same_links w1 w3.
Proof.
  intros [He Hn] [He' Hn']. split; intros x; [rewrite He'|rewrite Hn']; auto.
Qed.

Lemma same_links_sym w w' : same_links w w' -> same_links w' w.
Proof. intros [He Hn]. split; intros x; by rewrite ?He, ?Hn. Qed.

Lemma same_links_next w w' e e' :
  same_links w w' -> edge_next w e e' -> edge_next w' e e'.
Proof.
  intros [He Hn] (o & Ho & Hin). exists o. by rewrite He, Hn.
Qed.

Lemma same_links_acyclic w w' :
  same_links w w' -> plan_acyclic w -> plan_acyclic w'.
Proof.
  intros Hl Hacyclic e Hcycle. apply (Hacyclic e).
  eapply tc_congruence with (f := id); [|exact Hcycle].
  intros x y. apply same_links_next. by apply same_links_sym.
Qed.

Lemma plan_cleans_links b b' :
  plan_cleans IsPhonyOutput b b' -> same_links (graph_ b) (graph_ b').
Proof.
  intros Hc. split.
  - intros e. unfold edge_at. by rewrite (cleans_edges _ _ _ Hc).
  - intros n. by destruct (cleans_node _ _ _ Hc n) as [->| ->].
Qed.

Lemma clean_post_refl w from b : clean_post IsPhonyOutput w from b b.
Proof. by split. Qed.

Lemma clean_outputs_post w clean outputs b ok b' :
  (forall o b ok b', clean o b = Some (ok, b') ->
                     ok = true /\ plan_cleans IsPhonyOutput b b') ->
  (forall o b ok b',
     clean o b = Some (ok, b') -> same_links w (graph_ b) ->
     clean_post IsPhonyOutput w (GetOutEdges (node_at w o)) b b') ->
  clean_outputs Pools clean outputs b = Some (ok, b') ->
  same_links w (graph_ b) ->
  clean_post IsPhonyOutput w
    (outputs ≫= fun o => GetOutEdges (node_at w o)) b b'.
Proof.
  intros Hcleans Hpost. revert b.
  induction outputs as [|o outputs IH]; intros b; cbn.
  - intros [= <- <-] _. apply clean_post_refl.
  - destruct (clean o b) as [[ok1 b1]|] eqn:Ho; [|done].
    intros Hrest Hlinks.
    destruct (Hcleans _ _ _ _ Ho) as [-> H1].
    destruct (Hpost _ _ _ _ Ho Hlinks) as [Hlocal1 Hcount1].
    cbn in Hrest.
    destruct (IH b1 Hrest) as [Hlocal2 Hcount2].
    { eapply same_links_trans; [exact Hlinks|]. by apply plan_cleans_links. }
    split.
    + intros e He.
      destruct (decide (want_ (plan_ b1) !! e = want_ (plan_ b) !! e))
        as [Heq|Hne].
      * rewrite <- Heq in He. destruct (Hlocal2 e He) as (e0 & Hin & Hrtc).
        exists e0. split; [|done]. apply elem_of_app. by right.
      * destruct (Hlocal1 e Hne) as (e0 & Hin & Hrtc).
        exists e0. split; [|done]. apply elem_of_app. by left.
    + intros b0 Hc0 Hd0. apply Hcount2.
      * by eapply plan_cleans_trans.
      * by apply Hcount1.
Qed.

Lemma clean_out_edges_step clean oe out_edges b ok b' :
  (forall o b ok b', clean o b = Some (ok, b') ->
                     ok = true /\ plan_cleans IsPhonyOutput b b') ->
  clean_out_edges Pools IsPhonyOutput build_log clean (oe :: out_edges) b
  = Some (ok, b') ->
  clean_out_edges Pools IsPhonyOutput build_log clean out_edges b
  = Some (ok, b')
  \/ exists b1,
       wanted_entry (want_ (plan_ b) !! oe) = true
       /\ deps_missing_ (edge_at (graph_ b) oe) = false
       /\ IsPhonyOutput (edge_at (graph_ b) oe) = false
       /\ clean_outputs Pools clean (outputs_ (edge_at (graph_ b) oe)) b
          = Some (true, b1)
       /\ clean_out_edges Pools IsPhonyOutput build_log clean out_edges
            (let phony := is_phony (edge_at (graph_ b) oe) in
             let b := with_want Pools (<[oe := kWantNothing]>
                                         (want_ (plan_ b1))) b1 in
             let b := record_change Pools (Demoted oe phony) b in
             let b := add_wanted_edges Pools (-1) b in
             if negb phony then add_command_edges Pools (-1) b else b)
          = Some (ok, b').
Proof.
  intros Hcleans. cbn [clean_out_edges]. cbn zeta.
  destruct (want_ (plan_ b) !! oe) as [[]|] eqn:Hwant; [by left| | |by left].
  all: destruct (deps_missing_ (edge_at (graph_ b) oe)) eqn:Hdeps;
    [by left|].
  all: destruct (IsPhonyOutput (edge_at (graph_ b) oe)) eqn:Hphony;
    [by left|].
  all: destruct (forallb _ _); [|by left].
  all: rewrite RecomputeOutputsDirty_returns_true; cbn [negb orb].
  all: destruct (existsb _ _); cbn [negb]; [by left|].
  all: destruct (clean_outputs _ _ _ _) as [[ok1 b1]|] eqn:Hout; [|done].
  all: destruct (clean_outputs_cleans _ _ _ _ _ _ _ Hcleans Hout) as [-> _].
  all: intros Hrest; right; exists b1; by repeat split.
Qed.

Lemma clean_out_edges_post w clean out_edges b ok b' :
  plan_acyclic w ->
  (forall o b ok b', clean o b = Some (ok, b') ->
                     ok = true /\ plan_cleans IsPhonyOutput b b') ->
  (forall o b ok b',
     clean o b = Some (ok, b') -> same_links w (graph_ b) ->
     clean_post IsPhonyOutput w (GetOutEdges (node_at w o)) b b') ->
  clean_out_edges Pools IsPhonyOutput build_log clean out_edges b
  = Some (ok, b') ->
  same_links w (graph_ b) ->
  clean_post IsPhonyOutput w out_edges b b'.
Proof.
  intros Hacyclic Hcleans Hpost. revert b.
  induction out_edges as [|oe out_edges IH]; intros b Hrun Hlinks.
  { injection Hrun as <- <-. apply clean_post_refl. }
  apply clean_out_edges_step in Hrun; [|done].
  destruct Hrun as [Hrun|(b1 & Hwant & Hdeps & Hphony & Hout & Hrun)].
  { destruct (IH b Hrun Hlinks) as [Hlocal Hcount]. split; [|done].
    intros e He. destruct (Hlocal e He) as (e0 & Hin & Hrtc).
    exists e0. split; [by right|done]. }
  destruct (clean_outputs_cleans _ _ _ _ _ _ _ Hcleans Hout) as [_ H1].
  destruct (clean_outputs_post w _ _ _ _ _ Hcleans Hpost Hout Hlinks)
    as [Hlocal1 Hcount1].
  assert (want_ (plan_ b1) !! oe = want_ (plan_ b) !! oe) as Hsame.
  { destruct (decide (want_ (plan_ b1) !! oe = want_ (plan_ b) !! oe))
      as [Heq|Hne]; [done|].
    destruct (Hlocal1 oe Hne) as (e0 & Hin & Hrtc).
    apply list_elem_of_bind in Hin as (o & Hin & Ho).
    destruct (Hacyclic oe). eapply tc_rtc_r; [|exact Hrtc].
    apply tc_once. exists o. split; [|done].
    by rewrite <- (proj1 Hlinks oe). }
  cbn zeta in Hrun.
  remember (is_phony (edge_at (graph_ b) oe)) as phony eqn:Hph.
  set (b2 := if negb phony then _ else _) in Hrun.
  assert (plan_cleans IsPhonyOutput b1 b2) as H2.
  { subst b2. apply demote_cleans.
    - rewrite Hsame. by destruct (want_ (plan_ b) !! oe).
    - by rewrite (plan_cleans_edge_at _ _ _ _ _ H1).
    - by rewrite (plan_cleans_edge_at _ _ _ _ _ H1). }
  assert (want_ (plan_ b2) = <[oe := kWantNothing]> (want_ (plan_ b1))
          /\ command_edges_ (plan_ b2)
             = command_edges_ (plan_ b1) - (if negb phony then 1 else 0))
    as [Hw2 Hc2] by (subst b2; destruct phony; cbn; (split; [done|lia])).
  clearbody b2.
  destruct (IH b2 Hrun) as [Hlocal3 Hcount3].
  { eapply same_links_trans; [exact Hlinks|]. apply plan_cleans_links.
    by eapply plan_cleans_trans. }
  split.
  - intros e He.
    destruct (decide (want_ (plan_ b2) !! e = want_ (plan_ b) !! e))
      as [Heq|Hne].
    { rewrite <- Heq in He. destruct (Hlocal3 e He) as (e0 & Hin & Hrtc).
      exists e0. split; [by right|done]. }
    destruct (decide (e = oe)) as [->|Hoe].
    { exists oe. split; [by left|done]. }
    rewrite Hw2, lookup_insert_ne in Hne by done.
    destruct (Hlocal1 e Hne) as (e0 & Hin & Hrtc).
    apply list_elem_of_bind in Hin as (o & Hin & Ho).
    exists oe. split; [by left|]. eapply rtc_l; [|exact Hrtc].
    exists o. split; [|done]. by rewrite <- (proj1 Hlinks oe).
  - intros b0 Hc0 Hd0. apply Hcount3.
    { eapply plan_cleans_trans; [exact Hc0|]. by eapply plan_cleans_trans. }
    specialize (Hcount1 b0 Hc0 Hd0). unfold demoted_from in *.
    rewrite Hc2, Hcount1, Hw2, demoted_insert, Hsame.
    assert (wanted_entry (want_ (plan_ b0) !! oe) = true) as ->.
    { destruct (cleans_want _ _ _ Hc0 oe) as [<-|(Hn & _)]; [done|].
      by rewrite Hn in Hwant. }
    assert (is_phony (edge_at (graph_ b0) oe) = phony) as ->.
    { by rewrite Hph, (plan_cleans_edge_at _ _ _ _ _ Hc0). }
    rewrite bool_decide_true by done. cbn [andb].
    destruct (want_ (plan_ b) !! oe) as [[]|]; try done;
      rewrite bool_decide_false by done; destruct phony; cbn; lia.
Qed.

Lemma CleanNode_post w fuel node b ok b' :
  plan_acyclic w ->
  clean_node fuel node b = Some (ok, b') ->
  same_links w (graph_ b) ->
  clean_post IsPhonyOutput w (GetOutEdges (node_at w node)) b b'.
Proof.
  intros Hacyclic. revert node b ok b'.
  induction fuel as [|fuel IH]; intros node b ok b'; [done|].
  cbn [CleanNode]. cbn zeta. intros Hrun Hlinks.
  set (b1 := with_graph Pools (set_dirty node false (graph_ b)) b) in *.
  assert (plan_cleans IsPhonyOutput b b1) as H1.
  { split; cbn; try done; auto.
    - by rewrite length_alter.
    - intros n. unfold set_dirty. rewrite node_at_update_node.
      destruct (decide (node = n /\ _)) as [[<- _]|]; auto. }
  assert (same_links w (graph_ b1)) as Hlinks1.
  { eapply same_links_trans; [exact Hlinks|]. by apply plan_cleans_links. }
  rewrite (proj2 Hlinks1 node) in Hrun.
  apply clean_out_edges_post with (w := w) in Hrun as [Hlocal Hcount];
    try done.
  - split; [done|]. intros b0 Hc0 Hd0. apply Hcount; [|done].
    by eapply plan_cleans_trans.
  - intros o b2 ok2 b3. apply CleanNode_cleans.
Qed.

Lemma CleanNode_demoted fuel node b ok b' :
  plan_acyclic (graph_ b) ->
  clean_node fuel node b = Some (ok, b') ->
  command_edges_ (plan_ b')
  = command_edges_ (plan_ b)
    - demoted (graph_ b') (want_ (plan_ b)) (want_ (plan_ b'))
  /\ promoted (graph_ b') (want_ (plan_ b)) (want_ (plan_ b')) = 0.
Proof.
  intros Hacyclic Hrun.
  destruct (CleanNode_cleans _ _ _ _ _ _ _ _ Hrun) as [_ Hc].
  apply CleanNode_post with (w := graph_ b) in Hrun as [_ Hcount];
    [|done|apply same_links_refl].
  split.
  - rewrite (demoted_edges_eq (graph_ b)) by apply (cleans_edges _ _ _ Hc).
    apply Hcount; [apply plan_cleans_refl|].
    unfold demoted_from. rewrite demoted_same. lia.
  - apply promoted_none. intros e x Hx Hwanted.
    destruct (cleans_want _ _ _ Hc e) as [<-|(Hn & _)].
    + rewrite Hx. by destruct x.
    + rewrite Hx in Hn. by injection Hn as ->.
Qed.

(** *** Every call *)

Lemma plan_call_links fuel c b b' :
  call fuel c b = Some b' ->
  (forall w, c <> GraphChanged w) ->
  same_links (graph_ b) (graph_ b').
Proof.
  intros Hcall Hgraph. destruct c as [node| |edge result|node|w];
    cbn in Hcall.
  - destruct (AddTarget _ _ _ _ _ _ _ _) as [[ok r]|] eqn:Hadd; [|done].
    injection Hcall as <-. apply AddSubTarget_post in Hadd as [Hg _ _ _ _].
    split; intros x; unfold edge_at, node_at.
    + by rewrite (plan_grows_edges _ _ Hg).
    + by rewrite (plan_grows_nodes _ _ Hg).
  - injection Hcall as <-. unfold FindWork.
    destruct (merge_sort _ _); apply same_links_refl.
  - apply EdgeFinished_finishes in Hcall as [Hf _]. split; intros x.
    + by destruct (finishes_edge _ _ Hf x) as [->| ->].
    + unfold node_at. by rewrite (finishes_nodes _ _ Hf).
  - destruct (clean_node fuel node b) as [[ok r]|] eqn:Hclean; [|done].
    injection Hcall as <-.
    apply CleanNode_cleans in Hclean as [_ Hc]. by apply plan_cleans_links.
  - by destruct (Hgraph w).
Qed.

Lemma plan_call_counted fuel c b b' :
  call fuel c b = Some b' ->
  (forall node, c = CallCleanNode node -> plan_acyclic (graph_ b)) ->
  command_edges_ (plan_ b')
  = command_edges_ (plan_ b)
    + promoted (graph_ b') (want_ (plan_ b)) (want_ (plan_ b'))
    - demoted (graph_ b') (want_ (plan_ b)) (want_ (plan_ b'))
  /\ match c with
     | CallAddTarget _ =>
         demoted (graph_ b') (want_ (plan_ b)) (want_ (plan_ b')) = 0
     | CallCleanNode _ =>
         promoted (graph_ b') (want_ (plan_ b)) (want_ (plan_ b')) = 0
     | _ =>
         promoted (graph_ b') (want_ (plan_ b)) (want_ (plan_ b')) = 0 /\
         demoted (graph_ b') (want_ (plan_ b)) (want_ (plan_ b')) = 0
     end.
Proof.
  intros Hcall Hacyclic. destruct c as [node| |edge result|node|w];
    cbn in Hcall.
  - destruct (AddTarget _ _ _ _ _ _ _ _) as [[ok r]|] eqn:Hadd; [|done].
    injection Hcall as <-.
    apply AddSubTarget_adds with (b0 := b) in Hadd; [|apply adds_from_refl].
    cbn in Hadd. pose proof (adds_from_demoted _ _ Hadd) as Hd.
    split; [|done]. rewrite Hd.
    rewrite (promoted_edges (graph_ b)) by apply (adds_edges _ _ Hadd).
    rewrite (adds_count _ _ Hadd). lia.
  - injection Hcall as <-.
    assert (want_ (plan_ (FindWork Pools b).2) = want_ (plan_ b)
            /\ command_edges_ (plan_ (FindWork Pools b).2)
               = command_edges_ (plan_ b)) as [-> ->]
      by (unfold FindWork; by destruct (merge_sort _ _)).
    rewrite promoted_same, demoted_same. repeat split; lia.
  - apply EdgeFinished_finishes in Hcall as [Hf _].
    assert (promoted (graph_ b') (want_ (plan_ b)) (want_ (plan_ b')) = 0)
      as Hp.
    { apply promoted_none. intros e x Hx Hwanted.
      destruct (finishes_want _ _ Hf e x Hx) as [->|[-> _]]; [|done].
      by destruct x. }
    assert (demoted (graph_ b') (want_ (plan_ b)) (want_ (plan_ b')) = 0)
      as Hd.
    { apply demoted_none. intros e Hx.
      by destruct (finishes_want _ _ Hf e _ Hx) as [->|[_ ?]]. }
    rewrite Hp, Hd, (finishes_commands _ _ Hf). repeat split; lia.
  - destruct (clean_node fuel node b) as [[ok r]|] eqn:Hclean; [|done].
    injection Hcall as <-.
    apply CleanNode_demoted in Hclean as [Hd Hp]; [|by eapply Hacyclic].
    split; [|done]. rewrite Hp, Hd. lia.
  - injection Hcall as <-. cbn.
    rewrite promoted_same, demoted_same. repeat split; lia.
Qed.

Lemma counted_calls_commands fuel calls b b' :
  plan_calls Pools ShouldDelayEdge DelayEdge RetrieveReadyEdges
    EdgeScheduled PoolEdgeFinished IsPhonyOutput build_log fuel calls b
  = Some b' ->
  plan_acyclic (graph_ b) ->
  (forall w, GraphChanged w ∈ calls -> plan_acyclic w) ->
  exists k, run_counted fuel calls b = Some (k, b')
            /\ command_edges_ (plan_ b') = command_edges_ (plan_ b) + k.
Proof.
  revert b. induction calls as [|c calls IH]; intros b; cbn.
  - intros [= <-] _ _. exists 0. split; [done|lia].
  - destruct (call fuel c b) as [b1|] eqn:Hcall; [|done]. cbn.
    intros Hrest Hacyclic Hchanged.
    destruct (IH b1 Hrest) as (k & -> & Hk).
    { destruct c as [node| |edge result|node|w].
      5:{ injection Hcall as <-. apply Hchanged. by left. }
      all: eapply same_links_acyclic; [|exact Hacyclic].
      all: by eapply plan_call_links. }
    { intros w Hw. apply Hchanged. by right. }
    cbn. eexists. split; [done|].
    apply plan_call_counted in Hcall as [Hc _]; [|by intros node _].
    lia.
Qed.

(** C9, as the code has it.  A successful [EdgeFinished] takes exactly one
    off [wanted_edges_] for an edge that is wanted itself and nothing for
    an edge that is in the plan as [kWantNothing], such as the ones
    [NodeFinished] passes on; with fuel for the entries of [want_] the call
    returns.  Every call of the builder moves [command_edges_] by the
    number of edges that are not phony and that the call has promoted, from
    no entry or [kWantNothing] to wanted, less the number of edges that are
    not phony and that it has demoted from wanted to [kWantNothing], for
    [CleanNode] on a graph in which no edge consumes what it produces;
    only [AddTarget] promotes and only [CleanNode] demotes.  So in every
    state the calls lead to from an empty plan, [command_edges_] is the sum
    of these numbers over the calls. *)
Theorem Plan_counters :
  (forall fuel edge want b b',
      want_ (plan_ b) !! edge = Some want ->
      edge_finished fuel edge kEdgeSucceeded b = Some b' ->
      wanted_edges_ (plan_ b')
      = wanted_edges_ (plan_ b) - (if decide (want = kWantNothing) then 0 else 1))
  /\ (forall fuel edge result want b,
        want_ (plan_ b) !! edge = Some want ->
        (size (want_ (plan_ b)) <= fuel)%nat ->
        is_Some (edge_finished fuel edge result b))
  /\ (forall fuel c b b',
        call fuel c b = Some b' ->
        (forall node, c = CallCleanNode node -> plan_acyclic (graph_ b)) ->
        command_edges_ (plan_ b')
        = command_edges_ (plan_ b)
          + promoted (graph_ b') (want_ (plan_ b)) (want_ (plan_ b'))
          - demoted (graph_ b') (want_ (plan_ b)) (want_ (plan_ b'))
        /\ match c with
           | CallAddTarget _ =>
               demoted (graph_ b') (want_ (plan_ b)) (want_ (plan_ b')) = 0
           | CallCleanNode _ =>
               promoted (graph_ b') (want_ (plan_ b)) (want_ (plan_ b')) = 0
           | _ =>
               promoted (graph_ b') (want_ (plan_ b)) (want_ (plan_ b')) = 0
               /\ demoted (graph_ b') (want_ (plan_ b)) (want_ (plan_ b')) = 0
           end)
  /\ (forall fuel calls w pools b',
        plan_calls Pools ShouldDelayEdge DelayEdge RetrieveReadyEdges
          EdgeScheduled PoolEdgeFinished IsPhonyOutput build_log fuel calls
          (new_Build w pools) = Some b' ->
        plan_acyclic w ->
        (forall w', GraphChanged w' ∈ calls -> plan_acyclic w') ->
        exists k, run_counted fuel calls (new_Build w pools) = Some (k, b')
                  /\ command_edges_ (plan_ b') = k).
Proof.
  split; [|split; [|split]].
  - intros fuel edge want b b' Hwant Hrun.
    destruct (EdgeFinished_counters _ _ _ _ _ _ _ _ _ _ _ _ Hwant Hrun)
      as (_ & _ & ->).
    rewrite bool_decide_true by done. cbn [andb].
    by destruct (decide (want = kWantNothing));
      [rewrite bool_decide_true|rewrite bool_decide_false].
  - intros fuel edge result want b Hwant Hsize.
    destruct (EdgeFinished_returns Pools ShouldDelayEdge DelayEdge
                RetrieveReadyEdges EdgeScheduled PoolEdgeFinished
                fuel edge result b) as (b' & -> & _); done.
  - intros fuel c b b'. apply plan_call_counted.
  - intros fuel calls w pools b' Hrun Hacyclic Hchanged.
    destruct (counted_calls_commands _ _ _ _ Hrun Hacyclic Hchanged)
      as (k & Hk & Hc).
    exists k. split; [done|]. rewrite Hc. cbn. lia.
Qed.

End PlanTransitions.

Lemma plan_graph_next e e' :
  edge_next plan_graph e e' -> e = 0%nat /\ e' = 1%nat.
Proof.
  intros (o & Ho & Hin). destruct e as [|[|e]]; cbn in Ho.
  - apply list_elem_of_singleton in Ho as ->. vm_compute in Hin.
    by apply list_elem_of_singleton in Hin as ->.
  - apply list_elem_of_singleton in Ho as ->. vm_compute in Hin.
    by apply elem_of_nil in Hin.
  - by apply elem_of_nil in Ho.
Qed.

Lemma plan_graph_acyclic : plan_acyclic plan_graph.
Proof.
  intros e Hcycle.
  assert (forall x y, tc (edge_next plan_graph) x y ->
                      x = 0%nat /\ y = 1%nat) as Hstep.
  { induction 1 as [x y Hxy|x y z Hxy _ [-> _]].
    - by apply plan_graph_next.
    - by apply plan_graph_next in Hxy as [_ ?]. }
  by destruct (Hstep e e Hcycle) as [-> ?].
Qed.

Lemma plan_cleaned_graph (w : Scan) :
  GraphChanged w ∈ [CallAddTarget 2%nat; CallCleanNode 1%nat] ->
  plan_acyclic w.
Proof.
  intros Hin. apply elem_of_cons in Hin as [Heq|Hin]; [done|].
  apply list_elem_of_singleton in Hin. done.
Qed.

Lemma Plan_counters_witness :
  match plan_added with
  | Some b =>
      match free_EdgeFinished 5 0%nat kEdgeSucceeded b with
      | Some b' => wanted_edges_ (plan_ b') = wanted_edges_ (plan_ b) - 1
      | None => False
      end
  | None => False
  end
  /\ match plan_cleaned with
     | Some b =>
         counted_calls unit (fun _ _ => false) (fun _ p => p)
           (fun _ p r => (p, r)) (fun _ p => p) (fun _ p => p)
           (fun _ => false) None 5 [CallAddTarget 2%nat; CallCleanNode 1%nat]
           (new_Build plan_graph tt)
         = Some (command_edges_ (plan_ b), b)
     | None => False
     end.
Proof.
  pose proof (Plan_counters unit (fun _ _ => false) (fun _ p => p)
                (fun _ p r => (p, r)) (fun _ p => p) (fun _ p => p)
                (fun _ => false) None)
    as (Hwanted & Hreturns & _ & Hcommands).
  split.
  - destruct plan_added as [b|] eqn:Hb; [|vm_compute in Hb; discriminate Hb].
    assert (want_ (plan_ b) !! 0%nat = Some kWantToFinish
            /\ (size (want_ (plan_ b)) <= 5)%nat) as [Hwant Hsize].
    { vm_compute in Hb. injection Hb as <-. split; [reflexivity|].
      vm_compute. lia. }
    destruct (Hreturns 5%nat 0%nat kEdgeSucceeded kWantToFinish b Hwant Hsize)
      as [b' Hrun].
    unfold free_EdgeFinished. rewrite Hrun.
    exact (Hwanted 5%nat 0%nat kWantToFinish b b' Hwant Hrun).
  - destruct plan_cleaned as [b|] eqn:Hb; [|vm_compute in Hb; discriminate Hb].
    destruct (Hcommands 5%nat [CallAddTarget 2%nat; CallCleanNode 1%nat]
                plan_graph tt b Hb plan_graph_acyclic plan_cleaned_graph)
      as (k & Hk & ->).
    exact Hk.
Defined.
